(** * Procedure and call lowering of the LLVM backend (llvm_backend_proc.cpp)

    A shallow embedding of the parts of [src/llvm_backend_proc.cpp] that the
    specification makes promises about, and the proofs of those promises.

    The backend is a code generator: its functions do not compute with the
    program's data, they build LLVM IR that does.  The embedding therefore has
    two layers.

    - The lowering functions are embedded as Rocq functions that return the IR
      they emit (an expression tree for straight-line builtins, a state
      transformer over the builder for the call emitter).
    - Where a promise is about what the emitted IR computes, the IR is given
      the meaning the LLVM Language Reference gives it ([IR.eval]).

    Helpers of the backend that live in other files of the compiler
    ([lb_emit_conv], [lb_add_local_generated], ...) are parameters of the
    sections that use them. *)

From stdpp Require Import base option list gmap strings.
From Stdlib Require Import ZArith Lia.

Local Open Scope Z_scope.
Set Warnings "-register-all".

(* ===================================================================== *)
(** * The IR the builtins emit, and what it computes *)
(* ===================================================================== *)

Module IR.

(** The [LLVMOpcode]s selected by the shift builtins, and [LLVMAnd] which
    [LLVMBuildAnd] stands for. *)
Inductive LLVMOpcode :=
| LLVMShl | LLVMLShr | LLVMAShr | LLVMAnd.

(** Values built by the lowering.  [Arg n] is the already lowered operand
    [n] of the builtin call ([arg0], [arg1], ...). *)
Inductive ir :=
| Arg (n : nat)
| ConstInt (w : Z) (v : Z)                  (* LLVMConstInt(iw, v, false) *)
| ConstVector (elems : list ir)             (* LLVMConstVector *)
| ConstNil (count : Z) (w : Z)              (* lb_const_nil of a vector type *)
| Undef (count : Z) (w : Z)                 (* LLVMGetUndef of a vector type *)
| BinOp (op : LLVMOpcode) (a b : ir)        (* LLVMBuildBinOp / LLVMBuildAnd *)
| ICmpULE (a b : ir)                        (* LLVMBuildICmp LLVMIntULE *)
| Select (c a b : ir)                       (* LLVMBuildSelect *)
| ExtractElement (v idx : ir)
| InsertElement (v e idx : ir)
| ZExt (a : ir) (w : Z)
| Trunc (a : ir) (w : Z)
| ShuffleVector (a b mask : ir)
| CallIntrinsic (name : string) (args : list ir).

(** A scalar is an integer of a given bit width, held as its unsigned
    value, or poison.  A vector is a list of lanes. *)
Inductive scalar :=
| Int (w : Z) (n : Z)
| Poison.

Inductive value :=
| Sc (s : scalar)
| Vec (lanes : list scalar).

Global Instance scalar_eq_dec : EqDecision scalar.
Proof. solve_decision. Defined.
Global Instance value_eq_dec : EqDecision value.
Proof. solve_decision. Defined.

(** Two's complement reading of a [w]-bit pattern. *)
Definition signed (w n : Z) : Z :=
  if n <? 2 ^ (w - 1) then n else n - 2 ^ w.

Definition wrap (w n : Z) : Z := n mod 2 ^ w.

(** LangRef, [shl]/[lshr]/[ashr]: "If op2 is (statically or dynamically)
    equal to or larger than the number of bits in op1, this instruction
    returns a poison value."  [and] is bitwise. *)
Definition binop_scalar (op : LLVMOpcode) (w x y : Z) : scalar :=
  match op with
  | LLVMAnd => Int w (Z.land x y)
  | LLVMShl => if y <? w then Int w (wrap w (Z.shiftl x y)) else Poison
  | LLVMLShr => if y <? w then Int w (Z.shiftr x y) else Poison
  | LLVMAShr => if y <? w then Int w (wrap w (Z.shiftr (signed w x) y)) else Poison
  end.

Definition lift2 (f : Z → Z → Z → scalar) (a b : scalar) : option scalar :=
  match a, b with
  | Int w x, Int w' y => if decide (w = w') then Some (f w x y) else None
  | _, _ => Some Poison
  end.

Definition lanewise2 (f : scalar → scalar → option scalar) (a b : value)
  : option value :=
  match a, b with
  | Sc x, Sc y => Sc <$> f x y
  | Vec xs, Vec ys =>
      if decide (length xs = length ys)
      then Vec <$> mapM (λ p, f p.1 p.2) (zip xs ys)
      else None
  | _, _ => None
  end.

(** [icmp ule] yields an [i1]. *)
Definition icmp_ule_scalar (w x y : Z) : scalar :=
  Int 1 (if x <=? y then 1 else 0).

(** LangRef, [select]: the lane of the operand the condition picks; a
    poison lane of the operand that is not picked does not matter. *)
Definition select_scalar (c a b : scalar) : scalar :=
  match c with
  | Int _ 0 => b
  | Int _ _ => a
  | Poison => Poison
  end.

Definition select_value (c a b : value) : option value :=
  match c, a, b with
  | Sc c, Sc x, Sc y => Some (Sc (select_scalar c x y))
  | Vec cs, Vec xs, Vec ys =>
      if decide (length cs = length xs ∧ length xs = length ys)
      then Some (Vec (zip_with (λ c p, select_scalar c p.1 p.2) cs (zip xs ys)))
      else None
  | _, _, _ => None
  end.

(** LangRef, [extractelement]: "If idx exceeds the length of val for a
    fixed-length vector, the result is a poison value." *)
Definition extract_element (v idx : value) : option value :=
  match v, idx with
  | Vec xs, Sc (Int _ i) => Some (Sc (default Poison (xs !! Z.to_nat i)))
  | Vec xs, Sc Poison => Some (Sc Poison)
  | _, _ => None
  end.

(** LangRef, [insertelement]: out of range gives a poison vector. *)
Definition insert_element (v e idx : value) : option value :=
  match v, e, idx with
  | Vec xs, Sc x, Sc (Int _ i) =>
      if decide (Z.to_nat i < length xs)%nat
      then Some (Vec (<[Z.to_nat i := x]> xs))
      else Some (Vec (replicate (length xs) Poison))
  | _, _, _ => None
  end.

Definition zext (w' : Z) (a : value) : option value :=
  match a with
  | Sc (Int w n) => if w <? w' then Some (Sc (Int w' n)) else None
  | Sc Poison => Some (Sc Poison)
  | Vec _ => None
  end.

Definition trunc (w' : Z) (a : value) : option value :=
  match a with
  | Sc (Int w n) => if w' <? w then Some (Sc (Int w' (wrap w' n))) else None
  | Sc Poison => Some (Sc Poison)
  | Vec _ => None
  end.

(** LangRef, saturation arithmetic intrinsics: [llvm.uadd.sat] and
    [llvm.usub.sat] clamp to [0, 2^w - 1]; [llvm.sadd.sat] and
    [llvm.ssub.sat] clamp to [-2^(w-1), 2^(w-1) - 1].  Target specific
    intrinsics have no meaning here. *)
Definition clamp (lo hi n : Z) : Z := Z.max lo (Z.min hi n).

Definition intrinsic_scalar (name : string) (w x y : Z) : option scalar :=
  if decide (name = "llvm.uadd.sat") then
    Some (Int w (clamp 0 (2 ^ w - 1) (x + y)))
  else if decide (name = "llvm.usub.sat") then
    Some (Int w (clamp 0 (2 ^ w - 1) (x - y)))
  else if decide (name = "llvm.sadd.sat") then
    Some (Int w (wrap w (clamp (- 2 ^ (w - 1)) (2 ^ (w - 1) - 1)
                           (signed w x + signed w y))))
  else if decide (name = "llvm.ssub.sat") then
    Some (Int w (wrap w (clamp (- 2 ^ (w - 1)) (2 ^ (w - 1) - 1)
                           (signed w x - signed w y))))
  else None.

Definition intrinsic (name : string) (args : list value) : option value :=
  match args with
  | [a; b] =>
      lanewise2 (λ x y,
        match x, y with
        | Int w n, Int w' m =>
            if decide (w = w') then intrinsic_scalar name w n m else None
        | _, _ => Some Poison
        end) a b
  | _ => None
  end.

Definition as_scalar (v : value) : option scalar :=
  match v with Sc s => Some s | Vec _ => None end.

(** Evaluation of an emitted value over the operand values [env]. *)
Fixpoint eval (env : list value) (e : ir) : option value :=
  match e with
  | Arg n => env !! n
  | ConstInt w v => Some (Sc (Int w (wrap w v)))
  | ConstVector es => Vec <$> mapM (λ e, eval env e ≫= as_scalar) es
  | ConstNil count w => Some (Vec (replicate (Z.to_nat count) (Int w 0)))
  | Undef count w => Some (Vec (replicate (Z.to_nat count) Poison))
  | BinOp op a b =>
      x ← eval env a; y ← eval env b;
      lanewise2 (lift2 (binop_scalar op)) x y
  | ICmpULE a b =>
      x ← eval env a; y ← eval env b;
      lanewise2 (lift2 icmp_ule_scalar) x y
  | Select c a b =>
      k ← eval env c; x ← eval env a; y ← eval env b;
      select_value k x y
  | ExtractElement v idx =>
      x ← eval env v; i ← eval env idx; extract_element x i
  | InsertElement v e idx =>
      x ← eval env v; y ← eval env e; i ← eval env idx; insert_element x y i
  | ZExt a w => x ← eval env a; zext w x
  | Trunc a w => x ← eval env a; trunc w x
  | ShuffleVector _ _ _ => None
  | CallIntrinsic name args =>
      vs ← mapM (eval env) args; intrinsic name vs
  end.

(** A vector of [w]-bit integers from their unsigned values. *)
Definition ints (w : Z) (ns : list Z) : value := Vec (Int w <$> ns).

End IR.

(* ===================================================================== *)
(** * Builtin identifiers *)
(* ===================================================================== *)

(** The members of [BuiltinProcId] the lowering below dispatches on; every
    other builtin is [BuiltinProc_other]. *)
Inductive BuiltinProcId :=
| BuiltinProc_simd_shl
| BuiltinProc_simd_shr
| BuiltinProc_simd_shl_masked
| BuiltinProc_simd_shr_masked
| BuiltinProc_simd_runtime_swizzle
| BuiltinProc_saturating_add
| BuiltinProc_saturating_sub
| BuiltinProc_volatile_store
| BuiltinProc_non_temporal_store
| BuiltinProc_atomic_store
| BuiltinProc_atomic_store_explicit
| BuiltinProc_volatile_load
| BuiltinProc_non_temporal_load
| BuiltinProc_atomic_load
| BuiltinProc_atomic_load_explicit
| BuiltinProc_atomic_add
| BuiltinProc_atomic_sub
| BuiltinProc_atomic_and
| BuiltinProc_atomic_nand
| BuiltinProc_atomic_or
| BuiltinProc_atomic_xor
| BuiltinProc_atomic_exchange
| BuiltinProc_atomic_add_explicit
| BuiltinProc_atomic_sub_explicit
| BuiltinProc_atomic_and_explicit
| BuiltinProc_atomic_nand_explicit
| BuiltinProc_atomic_or_explicit
| BuiltinProc_atomic_xor_explicit
| BuiltinProc_atomic_exchange_explicit
| BuiltinProc_atomic_compare_exchange_strong
| BuiltinProc_atomic_compare_exchange_weak
| BuiltinProc_atomic_compare_exchange_strong_explicit
| BuiltinProc_atomic_compare_exchange_weak_explicit
| BuiltinProc_other.

Global Instance BuiltinProcId_eq_dec : EqDecision BuiltinProcId.
Proof. solve_decision. Defined.

(* ===================================================================== *)
(** * SIMD builtins: [lb_build_builtin_simd_proc] *)
(* ===================================================================== *)

Module Simd.
Import IR.

(** [llvm_splat_int]: [count] copies of [LLVMConstInt(type, value)]. *)
Definition llvm_splat_int (count : Z) (w : Z) (value : Z) : ir :=
  ConstVector (replicate (Z.to_nat count) (ConstInt w value)).

(** The [simd_shl]/[simd_shr]/[simd_shl_masked]/[simd_shr_masked] case.
    [sz] is [type_size_of(elem)] for the element type of [arg0], [sz1] the
    size of [elem1], the element type of [arg1], and [count] the lane count
    of [arg0]'s vector type.  Any other builtin leaves the case ([None]). *)
Definition simd_shift (builtin_id : BuiltinProcId) (is_signed : bool)
    (sz sz1 count : Z) : option ir :=
  let sel :=
    match builtin_id with
    | BuiltinProc_simd_shl => Some (LLVMShl, false)
    | BuiltinProc_simd_shr => Some (if is_signed then LLVMAShr else LLVMLShr, false)
    | BuiltinProc_simd_shl_masked => Some (LLVMShl, true)
    | BuiltinProc_simd_shr_masked => Some (if is_signed then LLVMAShr else LLVMLShr, true)
    | _ => None
    end in
  match sel with
  | Some (op_code, is_masked) =>
      let bits := llvm_splat_int count (sz1 * 8) (sz * 8 - 1) in
      if is_masked then
        (* C logic *)
        let shift := BinOp LLVMAnd (Arg 1) bits in
        Some (BinOp op_code (Arg 0) shift)
      else
        (* Odin logic *)
        let zero := ConstNil count (sz1 * 8) in
        let mask := ICmpULE (Arg 1) bits in
        let shift := BinOp op_code (Arg 0) (Arg 1) in
        Some (Select mask shift zero)
  | None => None
  end.

(** [build_context.metrics.arch]. *)
Inductive TargetArch :=
| TargetArch_Invalid
| TargetArch_amd64
| TargetArch_i386
| TargetArch_arm32
| TargetArch_arm64
| TargetArch_wasm32
| TargetArch_wasm64p32
| TargetArch_riscv64.

Global Instance TargetArch_eq_dec : EqDecision TargetArch.
Proof. solve_decision. Defined.

Definition is_x86 (arch : TargetArch) : bool :=
  bool_decide (arch = TargetArch_amd64) || bool_decide (arch = TargetArch_i386).

Definition is_wasm (arch : TargetArch) : bool :=
  bool_decide (arch = TargetArch_wasm32) || bool_decide (arch = TargetArch_wasm64p32).

(** The strategy choice of [simd_runtime_swizzle]: the values of
    [use_hardware_runtime_swizzle] and [intrinsic_name] after the first
    [if (elem_size == 1)] block. *)
Definition swizzle_strategy (arch : TargetArch) (elem_size count : Z)
  : bool * option string :=
  if elem_size =? 1 then
    if is_x86 arch then
      if count =? 16 then (true, Some "llvm.x86.ssse3.pshuf.b.128")
      else if count =? 32 then (true, Some "llvm.x86.avx2.pshuf.b")
      else if count =? 64 then (true, Some "llvm.x86.avx512.pshuf.b.512")
      else (false, None)
    else if bool_decide (arch = TargetArch_arm64) then
      if count =? 16 then (true, Some "llvm.aarch64.neon.tbl1")
      else if count =? 32 then (true, Some "llvm.aarch64.neon.tbl2")
      else if count =? 48 then (true, Some "llvm.aarch64.neon.tbl3")
      else if count =? 64 then (true, Some "llvm.aarch64.neon.tbl4")
      else (false, None)
    else if bool_decide (arch = TargetArch_arm32) then
      if count =? 8 then (true, Some "llvm.arm.neon.vtbl1")
      else if count =? 16 then (true, Some "llvm.arm.neon.vtbl2")
      else if count =? 24 then (true, Some "llvm.arm.neon.vtbl3")
      else if count =? 32 then (true, Some "llvm.arm.neon.vtbl4")
      else (false, None)
    else if is_wasm arch then
      if count =? 16 then (true, Some "llvm.wasm.swizzle")
      else (false, None)
    else (false, None)
  else (false, None).

(** [features_enabled]; [feature s] is
    [check_target_feature_is_enabled(str_lit(s), nullptr)]. *)
Definition swizzle_features_enabled (arch : TargetArch) (feature : string → bool)
    (count : Z) : bool :=
  if is_x86 arch then
    if count =? 16 then feature "ssse3"
    else if count =? 32 then feature "ssse3" && feature "avx2"
    else if count =? 64 then
      feature "ssse3" && feature "avx2" && feature "avx512f" && feature "avx512bw"
    else true
  else if bool_decide (arch = TargetArch_arm64) || bool_decide (arch = TargetArch_arm32)
  then feature "neon"
  else true.

(** The function attributes the hardware path adds to the procedure. *)
Definition swizzle_attributes (arch : TargetArch) (count : Z) : list (string * string) :=
  if is_x86 arch then
    if count =? 16 then
      [("target-features", "+ssse3"); ("min-legal-vector-width", "128")]
    else if count =? 32 then
      [("target-features", "+avx,+avx2,+ssse3"); ("min-legal-vector-width", "256")]
    else if count =? 64 then
      [("target-features", "+avx,+avx2,+avx512f,+avx512bw,+ssse3");
       ("min-legal-vector-width", "512")]
    else []
  else if bool_decide (arch = TargetArch_arm64) then
    ("target-features", "+neon")
    :: (if 32 <=? count then [("min-legal-vector-width", "256")] else [])
  else if bool_decide (arch = TargetArch_arm32) then
    [("target-features", "+neon")]
  else [].

(** [src_parts[i]]: the [i]th slice of [lanes] lanes of [src], taken with a
    [shufflevector] whose mask is [i*lanes .. i*lanes + lanes - 1]. *)
Definition swizzle_src_part (src : ir) (count w : Z) (lanes : nat) (i : nat) : ir :=
  let indices_for_extract :=
    (λ j, ConstInt 32 (Z.of_nat i * Z.of_nat lanes + Z.of_nat j)) <$> seq 0 lanes in
  ShuffleVector src (Undef count w) (ConstVector indices_for_extract).

(** The call of the table lookup intrinsic.  [src] and [indices] are the two
    operands; [None] is a failed [GB_ASSERT_MSG] or a result left null. *)
Definition swizzle_hardware (arch : TargetArch) (count w : Z) (intrinsic_name : string)
    (src indices : ir) : option ir :=
  if bool_decide (arch = TargetArch_arm64) && (16 <? count) then
    let num_tables := count / 16 in
    if negb (count mod 16 =? 0) then None
    else if negb (num_tables <=? 4) then None
    else
      let src_parts := swizzle_src_part src count w 16 <$> seq 0 (Z.to_nat num_tables) in
      if (count =? 32) || (count =? 48) || (count =? 64)
      then Some (CallIntrinsic intrinsic_name (src_parts ++ [indices]))
      else None
  else if bool_decide (arch = TargetArch_arm32) && (8 <? count) then
    let num_tables := count / 8 in
    if negb (count mod 8 =? 0) then None
    else if negb (num_tables <=? 4) then None
    else
      let src_parts := swizzle_src_part src count w 8 <$> seq 0 (Z.to_nat num_tables) in
      if (count =? 16) || (count =? 24) || (count =? 32)
      then Some (CallIntrinsic intrinsic_name (src_parts ++ [indices]))
      else None
  else
    Some (CallIntrinsic intrinsic_name [src; indices]).

(** [values[i]] of the fallback: the index lane [i] is extracted, masked
    with [index_mask], brought to [i32] and used to extract from [src].
    [index_bits] is [LLVMGetIntTypeWidth(LLVMTypeOf(masked_index))]. *)
Definition swizzle_fallback_value (src indices index_mask : ir) (index_bits : Z)
    (i : nat) : ir :=
  let idx_i := ConstInt 32 (Z.of_nat i) in
  let index_elem := ExtractElement indices idx_i in
  let masked_index := BinOp LLVMAnd index_elem index_mask in
  let index_i32 :=
    if index_bits <? 32 then ZExt masked_index 32
    else if 32 <? index_bits then Trunc masked_index 32
    else masked_index in
  ExtractElement src index_i32.

(** The fallback: extracts and inserts, for all element sizes.  [None] is
    the failed sanity check [GB_ASSERT(count > 0 && count <= 64)]. *)
Definition swizzle_fallback (elem_size index_bits count : Z) (src indices : ir)
  : option ir :=
  if negb ((0 <? count) && (count <=? 64)) then None
  else
    let max_index := count - 1 in
    let elem_bits := elem_size * 8 in
    let index_mask :=
      if elem_size =? 1 then ConstInt elem_bits max_index
      else if elem_size =? 2 then ConstInt elem_bits max_index
      else if elem_size =? 4 then ConstInt elem_bits max_index
      else ConstInt elem_bits max_index in
    let values :=
      swizzle_fallback_value src indices index_mask index_bits
        <$> seq 0 (Z.to_nat count) in
    Some (fold_left
            (λ res iv, InsertElement res iv.2 (ConstInt 32 (Z.of_nat iv.1)))
            (zip (seq 0 (Z.to_nat count)) values)
            (Undef count elem_bits)).

(** What the [simd_runtime_swizzle] case returns and the attributes it adds
    to the enclosing procedure. *)
Record swizzle_result := {
  swizzle_res : ir;
  swizzle_attrs : list (string * string);
  swizzle_used_hardware : bool;
}.

Definition simd_runtime_swizzle (arch : TargetArch) (feature : string → bool)
    (elem_size index_bits count : Z) : option swizzle_result :=
  let src := Arg 0 in
  let indices := Arg 1 in
  let '(use_hardware_runtime_swizzle, intrinsic_name) :=
    swizzle_strategy arch elem_size count in
  match use_hardware_runtime_swizzle, intrinsic_name with
  | true, Some name =>
      if swizzle_features_enabled arch feature count then
        res ← swizzle_hardware arch count (elem_size * 8) name src indices;
        Some {| swizzle_res := res;
                swizzle_attrs := swizzle_attributes arch count;
                swizzle_used_hardware := true |}
      else
        (* Features not enabled, fall back to emulation *)
        res ← swizzle_fallback elem_size index_bits count src indices;
        Some {| swizzle_res := res; swizzle_attrs := [];
                swizzle_used_hardware := false |}
  | _, _ =>
      res ← swizzle_fallback elem_size index_bits count src indices;
      Some {| swizzle_res := res; swizzle_attrs := [];
              swizzle_used_hardware := false |}
  end.

End Simd.

(* ===================================================================== *)
(** * Scalar builtins: [lb_build_builtin_proc] *)
(* ===================================================================== *)

Module Builtin.
Import IR.

(** An [lbValue] of a builtin: the emitted value and its Odin type.  The
    Odin types stay abstract ([T]). *)
Record lbValue (T : Type) := mk_lbValue {
  value : ir;
  type : T;
}.
Global Arguments mk_lbValue {T} _ _.
Global Arguments value {T} _.
Global Arguments type {T} _.

(** The [saturating_add]/[saturating_sub] case.  [tv_type] is [tv.type],
    [is_unsigned] is [is_type_unsigned(type)]; [Arg 0] and [Arg 1] stand for
    [x] and [y] after [lb_emit_conv] to [type]. *)
Definition saturating {T} (id : BuiltinProcId) (is_unsigned : bool) (tv_type : T)
  : option (lbValue T) :=
  let main_type := tv_type in
  let type := main_type in
  let name :=
    if is_unsigned then
      match id with
      | BuiltinProc_saturating_add => Some "llvm.uadd.sat"
      | BuiltinProc_saturating_sub => Some "llvm.usub.sat"
      | _ => None
      end
    else
      match id with
      | BuiltinProc_saturating_add => Some "llvm.sadd.sat"
      | BuiltinProc_saturating_sub => Some "llvm.ssub.sat"
      | _ => None
      end in
  name ← name;
  Some {| value := CallIntrinsic name [Arg 0; Arg 1]; type := type |}.

(** ** Atomics *)

Inductive LLVMAtomicOrdering :=
| LLVMAtomicOrderingNotAtomic
| LLVMAtomicOrderingUnordered
| LLVMAtomicOrderingMonotonic
| LLVMAtomicOrderingAcquire
| LLVMAtomicOrderingRelease
| LLVMAtomicOrderingAcquireRelease
| LLVMAtomicOrderingSequentiallyConsistent.

Inductive LLVMAtomicRMWBinOp :=
| LLVMAtomicRMWBinOpXchg
| LLVMAtomicRMWBinOpAdd
| LLVMAtomicRMWBinOpSub
| LLVMAtomicRMWBinOpAnd
| LLVMAtomicRMWBinOpNand
| LLVMAtomicRMWBinOpOr
| LLVMAtomicRMWBinOpXor.

(** The memory instructions the atomic builtins emit, with the properties
    the lowering sets on them.  [LLVMBuildStore] and [OdinLLVMBuildLoad]
    start out not atomic and not volatile. *)
Inductive instr :=
| Store (val dst : ir) (ordering : LLVMAtomicOrdering) (volatile nontemporal : bool)
| Load (ptr : ir) (ordering : LLVMAtomicOrdering) (volatile nontemporal : bool)
| AtomicRMW (op : LLVMAtomicRMWBinOp) (dst val : ir)
    (ordering : LLVMAtomicOrdering) (single_thread volatile : bool)
| AtomicCmpXchg (address old_value new_value : ir)
    (success_ordering failure_ordering : LLVMAtomicOrdering)
    (single_threaded weak volatile : bool).

Section atomics.
(** [Ast] is the type of the call's argument expressions and
    [llvm_atomic_ordering_from_odin] the backend's reading of an ordering
    argument; both live outside this file.  [Arg n] is the lowered operand
    [ce->args[n]] (converted to the pointee type where the source does). *)
Context {Ast : Type} (llvm_atomic_ordering_from_odin : Ast → LLVMAtomicOrdering).

(** [volatile_store], [non_temporal_store], [atomic_store],
    [atomic_store_explicit]. *)
Definition atomic_store (id : BuiltinProcId) (ce_args : list Ast) : option instr :=
  let dst := Arg 0 in
  let val := Arg 1 in
  match id with
  | BuiltinProc_non_temporal_store =>
      Some (Store val dst LLVMAtomicOrderingNotAtomic false true)
  | BuiltinProc_volatile_store =>
      Some (Store val dst LLVMAtomicOrderingNotAtomic true false)
  | BuiltinProc_atomic_store =>
      Some (Store val dst LLVMAtomicOrderingSequentiallyConsistent true false)
  | BuiltinProc_atomic_store_explicit =>
      a ← ce_args !! 2%nat;
      let ordering := llvm_atomic_ordering_from_odin a in
      Some (Store val dst ordering true false)
  | _ => None
  end.

(** [volatile_load], [non_temporal_load], [atomic_load],
    [atomic_load_explicit]. *)
Definition atomic_load (id : BuiltinProcId) (ce_args : list Ast) : option instr :=
  let dst := Arg 0 in
  match id with
  | BuiltinProc_non_temporal_load =>
      Some (Load dst LLVMAtomicOrderingNotAtomic false true)
  | BuiltinProc_volatile_load =>
      Some (Load dst LLVMAtomicOrderingNotAtomic true false)
  | BuiltinProc_atomic_load =>
      Some (Load dst LLVMAtomicOrderingSequentiallyConsistent true false)
  | BuiltinProc_atomic_load_explicit =>
      a ← ce_args !! 1%nat;
      let ordering := llvm_atomic_ordering_from_odin a in
      Some (Load dst ordering true false)
  | _ => None
  end.

(** The fetch-and-modify builtins and [atomic_exchange]. *)
Definition atomic_rmw (id : BuiltinProcId) (ce_args : list Ast) : option instr :=
  let dst := Arg 0 in
  let val := Arg 1 in
  let seq_cst op := Some (op, LLVMAtomicOrderingSequentiallyConsistent) in
  let explicit op :=
    a ← ce_args !! 2%nat; Some (op, llvm_atomic_ordering_from_odin a) in
  sel ← match id with
        | BuiltinProc_atomic_add => seq_cst LLVMAtomicRMWBinOpAdd
        | BuiltinProc_atomic_sub => seq_cst LLVMAtomicRMWBinOpSub
        | BuiltinProc_atomic_and => seq_cst LLVMAtomicRMWBinOpAnd
        | BuiltinProc_atomic_nand => seq_cst LLVMAtomicRMWBinOpNand
        | BuiltinProc_atomic_or => seq_cst LLVMAtomicRMWBinOpOr
        | BuiltinProc_atomic_xor => seq_cst LLVMAtomicRMWBinOpXor
        | BuiltinProc_atomic_exchange => seq_cst LLVMAtomicRMWBinOpXchg
        | BuiltinProc_atomic_add_explicit => explicit LLVMAtomicRMWBinOpAdd
        | BuiltinProc_atomic_sub_explicit => explicit LLVMAtomicRMWBinOpSub
        | BuiltinProc_atomic_and_explicit => explicit LLVMAtomicRMWBinOpAnd
        | BuiltinProc_atomic_nand_explicit => explicit LLVMAtomicRMWBinOpNand
        | BuiltinProc_atomic_or_explicit => explicit LLVMAtomicRMWBinOpOr
        | BuiltinProc_atomic_xor_explicit => explicit LLVMAtomicRMWBinOpXor
        | BuiltinProc_atomic_exchange_explicit => explicit LLVMAtomicRMWBinOpXchg
        | _ => None
        end;
  let '(op, ordering) := sel in
  Some (AtomicRMW op dst val ordering false true).

(** The four compare-exchange builtins. *)
Definition atomic_compare_exchange (id : BuiltinProcId) (ce_args : list Ast)
  : option instr :=
  let address := Arg 0 in
  let old_value := Arg 1 in
  let new_value := Arg 2 in
  let seq_cst := LLVMAtomicOrderingSequentiallyConsistent in
  let explicit weak :=
    s ← ce_args !! 3%nat; f ← ce_args !! 4%nat;
    Some (llvm_atomic_ordering_from_odin s, llvm_atomic_ordering_from_odin f, weak) in
  sel ← match id with
        | BuiltinProc_atomic_compare_exchange_strong => Some (seq_cst, seq_cst, false)
        | BuiltinProc_atomic_compare_exchange_weak => Some (seq_cst, seq_cst, true)
        | BuiltinProc_atomic_compare_exchange_strong_explicit => explicit false
        | BuiltinProc_atomic_compare_exchange_weak_explicit => explicit true
        | _ => None
        end;
  let '(success_ordering, failure_ordering, weak) := sel in
  let single_threaded := false in
  Some (AtomicCmpXchg address old_value new_value
          success_ordering failure_ordering single_threaded weak true).

(** The atomic cases of the dispatch. *)
Definition atomic_builtin (id : BuiltinProcId) (ce_args : list Ast) : option instr :=
  match id with
  | BuiltinProc_volatile_store | BuiltinProc_non_temporal_store
  | BuiltinProc_atomic_store | BuiltinProc_atomic_store_explicit =>
      atomic_store id ce_args
  | BuiltinProc_volatile_load | BuiltinProc_non_temporal_load
  | BuiltinProc_atomic_load | BuiltinProc_atomic_load_explicit =>
      atomic_load id ce_args
  | BuiltinProc_atomic_compare_exchange_strong
  | BuiltinProc_atomic_compare_exchange_weak
  | BuiltinProc_atomic_compare_exchange_strong_explicit
  | BuiltinProc_atomic_compare_exchange_weak_explicit =>
      atomic_compare_exchange id ce_args
  | _ => atomic_rmw id ce_args
  end.

End atomics.

End Builtin.

(* ===================================================================== *)
(** * Values, entities and the code generator's monad *)
(* ===================================================================== *)

Module Core.

(** The C pointers into LLVM ([LLVMValueRef], [LLVMTypeRef]) and into the
    checker's type library ([Type *]) are opaque handles; [0] is [nullptr]. *)
Abbreviation LLVMValueRef := N (only parsing).
Abbreviation LLVMTypeRef := N (only parsing).
Abbreviation Type_ := N (only parsing).

Definition nullptr : N := 0%N.

(** [lbValue]: an LLVM value with its Odin type. *)
Record lbValue := mk_lbValue {
  value : LLVMValueRef;
  type : Type_;
}.

Global Instance lbValue_eq_dec : EqDecision lbValue.
Proof. solve_decision. Defined.

(** [lbValue x = {};] *)
Definition lbValue_zero : lbValue := {| value := nullptr; type := nullptr |}.

(** [lbAddr]; only plain addresses ([lb_addr(ptr)]) occur here. *)
Record lbAddr := mk_lbAddr {
  addr : lbValue;
}.

Definition lbAddr_zero : lbAddr := {| addr := lbValue_zero |}.

(** [lb_addr]: the address held in a pointer value. *)
Definition lb_addr (ptr : lbValue) : lbAddr := {| addr := ptr |}.

Inductive EntityKind :=
| Entity_Invalid
| Entity_Constant
| Entity_Variable
| Entity_TypeName
| Entity_Procedure
| Entity_Builtin.

Global Instance EntityKind_eq_dec : EqDecision EntityKind.
Proof. solve_decision. Defined.

Inductive ParameterValueKind :=
| ParameterValue_Invalid
| ParameterValue_Constant
| ParameterValue_Nil
| ParameterValue_Location
| ParameterValue_Expression
| ParameterValue_Value.

Global Instance ParameterValueKind_eq_dec : EqDecision ParameterValueKind.
Proof. solve_decision. Defined.

Inductive DeferredProcedureKind :=
| DeferredProcedure_none
| DeferredProcedure_in
| DeferredProcedure_out
| DeferredProcedure_in_out
| DeferredProcedure_in_by_ptr
| DeferredProcedure_out_by_ptr
| DeferredProcedure_in_out_by_ptr.

Global Instance DeferredProcedureKind_eq_dec : EqDecision DeferredProcedureKind.
Proof. solve_decision. Defined.

Inductive ProcCallingConvention :=
| ProcCC_Invalid
| ProcCC_Odin
| ProcCC_Contextless
| ProcCC_CDecl
| ProcCC_StdCall
| ProcCC_FastCall
| ProcCC_None
| ProcCC_Naked
| ProcCC_InlineAsm.

Global Instance ProcCallingConvention_eq_dec : EqDecision ProcCallingConvention.
Proof. solve_decision. Defined.

Inductive ProcInlining :=
| ProcInlining_none
| ProcInlining_inline
| ProcInlining_no_inline.

(** What the backend reads of an [Entity].  [e_id] stands for the address
    of the entity, its identity as a map key; an entity that is named by
    another one is named by this identity. *)
Record Entity := mk_Entity {
  e_id : N;
  e_kind : EntityKind;
  e_type : Type_;
  e_token : string;                       (* e->token.string *)
  e_flag_Param : bool;                    (* e->flags & EntityFlag_Param *)
  e_flag_ProcBodyChecked : bool;          (* e->flags & EntityFlag_ProcBodyChecked *)
  e_param_value : ParameterValueKind;     (* e->Variable.param_value.kind *)
  e_is_foreign : bool;                    (* e->Procedure.is_foreign *)
  e_deferred_kind : DeferredProcedureKind;(* e->Procedure.deferred_procedure.kind *)
  e_deferred_entity : N;                  (* e->Procedure.deferred_procedure.entity *)
}.

(** [is_blank_ident] on a token string. *)
Definition is_blank_ident (s : string) : bool := bool_decide (s = "_").

(** What the backend reads of a procedure type ([TypeProc]). *)
Record TypeProc := mk_TypeProc {
  params : list Entity;                   (* pt->Proc.params->Tuple.variables *)
  results : list Entity;                  (* pt->Proc.results->Tuple.variables *)
  results_type : Type_;                   (* pt->Proc.results, the tuple type *)
  param_count : Z;
  result_count : Z;
  calling_convention : ProcCallingConvention;
  c_vararg : bool;
  variadic : bool;
  variadic_index : Z;
  diverging : bool;
  has_named_results : bool;
  is_polymorphic : bool;
  is_poly_specialized : bool;
}.

Inductive lbArgKind :=
| lbArg_Direct
| lbArg_Indirect
| lbArg_Ignore.

Global Instance lbArgKind_eq_dec : EqDecision lbArgKind.
Proof. solve_decision. Defined.

(** [lbArgType]: the ABI classifier's decision for one parameter or for the
    return value. *)
Record lbArgType := mk_lbArgType {
  arg_kind : lbArgKind;
  arg_type : LLVMTypeRef;
  cast_type : LLVMTypeRef;                (* nullptr when there is none *)
  is_byval : bool;
  byval_alignment : Z;
}.

(** [lbFunctionType]: the classified signature. *)
Record lbFunctionType := mk_lbFunctionType {
  ft_args : list lbArgType;
  ft_ret : lbArgType;
  ft_calling_convention : ProcCallingConvention;
  original_arg_count : Z;
  multiple_return_original_type : LLVMTypeRef;   (* nullptr unless split *)
}.

(** ** The monad of the code generator

    A function of the backend runs on a state and either returns a result
    and the next state, or aborts the compilation ([GB_ASSERT], [GB_PANIC],
    an array index out of its bounds). *)
Definition M (St A : Type) : Type := St → option (A * St).

Global Instance M_ret {St} : MRet (M St) := λ A x s, Some (x, s).
Global Instance M_bind {St} : MBind (M St) :=
  λ A B f m s, match m s with Some (x, s') => f x s' | None => None end.
Global Instance M_fmap {St} : FMap (M St) :=
  λ A B f m s, match m s with Some (x, s') => Some (f x, s') | None => None end.

Definition fail {St A} : M St A := λ _, None.
Definition get {St} : M St St := λ s, Some (s, s).
Definition put {St} (s : St) : M St unit := λ _, Some (tt, s).
Definition modify {St} (f : St → St) : M St unit := λ s, Some (tt, f s).

(** [GB_ASSERT(b)]. *)
Definition GB_ASSERT {St} (b : bool) : M St unit :=
  if b then mret tt else fail.

(** An array access [a[i]], which asserts [0 <= i < a.count]. *)
Definition index {St A} (a : list A) (i : Z) : M St A :=
  if (0 <=? i) then
    match a !! Z.to_nat i with
    | Some x => mret x
    | None => fail
    end
  else fail.

(** A loop over the elements of an array that threads an accumulator. *)
Fixpoint foldM {St A B} (f : B → A → M St B) (acc : B) (l : list A) : M St B :=
  match l with
  | [] => mret acc
  | x :: l => acc' ← f acc x; foldM f acc' l
  end.

(** [for_array(i, a)] with an effect only. *)
Definition forM_ {St A} (l : list A) (f : A → M St unit) : M St unit :=
  foldM (λ _ x, f x) tt l.

End Core.

(* ===================================================================== *)
(** * Procedure builder: [lb_create_procedure] *)
(* ===================================================================== *)

Module Create.
Import Core.

(** The fields of an [lbProcedure] that [lb_create_procedure] fills in
    before it registers the descriptor. *)
Record lbProcedure := mk_lbProcedure {
  p_module : N;
  p_entity : N;
  p_name : string;
  p_type : Type_;
  p_body : N;                             (* Ast *, nullptr when there is no body *)
  p_is_foreign : bool;
  p_value : LLVMValueRef;
}.

(** An [lbModule]: its tables, and the LLVM module [m->mod] with all that
    hangs off it ([m_llvm], of a type [L] this file does not look into).
    [added_functions] lists the link names [LLVMAddFunction] has been
    called with on this module, newest first. *)
Record lbModule (L : Type) := mk_lbModule {
  m_id : N;
  m_llvm : L;
  members : gmap string lbValue;          (* m->members *)
  procedures : gmap string lbProcedure;   (* m->procedures *)
  procedure_values : gmap N N;            (* m->procedure_values *)
  values : gmap N lbValue;                (* m->values, keyed by entity *)
  added_functions : list string;
}.
Global Arguments mk_lbModule {L} _ _ _ _ _ _ _.
Global Arguments m_id {L} _.
Global Arguments m_llvm {L} _.
Global Arguments members {L} _.
Global Arguments procedures {L} _.
Global Arguments procedure_values {L} _.
Global Arguments values {L} _.
Global Arguments added_functions {L} _.

(** What [lb_create_procedure] uses from the rest of the compiler. *)
Class Collaborators (L : Type) := {
  is_type_polymorphic : Type_ → bool;
  base_type : Type_ → Type_;
  (** The [Proc] member of a type whose kind is [Type_Proc]. *)
  type_proc : Type_ → option TypeProc;
  (** [lb_get_entity_name(module, entity)], by the module's identity. *)
  lb_get_entity_name : N → Entity → string;
  lb_module_of_entity : Entity → N;
  (** [decl->proc_lit]'s body. *)
  proc_lit_body : Entity → N;
  lb_get_procedure_raw_type : Type_ → LLVMTypeRef;
  (** [LLVMAddFunction(m->mod, name, type)]: the new native callable. *)
  LLVMAddFunction : string → LLVMTypeRef → M L LLVMValueRef;
  (** Everything [lb_create_procedure] does to the new callable between
      [lb_ensure_abi_function_type] and the registration: attributes,
      linkage, parameter attributes, debug information, sanitizers,
      instrumentation.  All of it acts on the LLVM side only. *)
  attach_attributes : Entity → bool → lbProcedure → M L unit;
}.

Section create.
Context {L : Type} `{Collaborators L}.

(** An operation on the LLVM side, run inside the module. *)
Definition on_llvm {A} (op : M L A) : M (lbModule L) A :=
  λ m, match op (m_llvm m) with
       | Some (x, l) =>
           Some (x, mk_lbModule (m_id m) l (members m) (procedures m)
                                (procedure_values m) (values m) (added_functions m))
       | None => None
       end.

(** Modelled from the spec: [lb_add_entity] is defined outside src/; it
    records the value a source entity is bound to. *)
Definition lb_add_entity (e : Entity) (v : lbValue) : M (lbModule L) unit :=
  modify (λ m, mk_lbModule (m_id m) (m_llvm m) (members m) (procedures m)
                           (procedure_values m) (<[e_id e := v]> (values m))
                           (added_functions m)).

(** Modelled from the spec: [lb_add_member] is defined outside src/; it
    enters a value into the module's link name to value table. *)
Definition lb_add_member (name : string) (v : lbValue) : M (lbModule L) unit :=
  modify (λ m, mk_lbModule (m_id m) (m_llvm m) (<[name := v]> (members m))
                           (procedures m) (procedure_values m) (values m)
                           (added_functions m)).

(** Modelled from the spec: [lb_add_procedure_value] is defined outside
    src/; it makes the finished descriptor queryable by link name and by
    native callable. *)
Definition lb_add_procedure_value (p : lbProcedure) : M (lbModule L) unit :=
  modify (λ m, mk_lbModule (m_id m) (m_llvm m) (members m)
                           (<[p_name p := p]> (procedures m))
                           (<[p_value p := p_entity p]> (procedure_values m))
                           (values m) (added_functions m)).

(** [string_map_must_get(&m->procedures, key)]. *)
Definition must_get_procedure (key : string) : M (lbModule L) lbProcedure :=
  m ← get;
  match procedures m !! key with
  | Some p => mret p
  | None => fail
  end.

(** The call [LLVMAddFunction(m->mod, c_link_name, func_type)]. *)
Definition add_function (name : string) (func_type : LLVMTypeRef)
  : M (lbModule L) LLVMValueRef :=
  v ← on_llvm (LLVMAddFunction name func_type);
  modify (λ m, mk_lbModule (m_id m) (m_llvm m) (members m) (procedures m)
                           (procedure_values m) (values m)
                           (name :: added_functions m));;
  mret v.

(** The test at the head of [lb_create_procedure]: no code is generated for
    an unspecialized polymorphic procedure. *)
Definition skip_unspecialized (entity : Entity) : bool :=
  if is_type_polymorphic (e_type entity) && negb (e_is_foreign entity) then
    let bt := base_type (e_type entity) in
    match type_proc bt with
    | Some proc => is_polymorphic proc && negb (is_poly_specialized proc)
    | None => false
    end
  else false.

(** The link name [lb_create_procedure] looks the procedure up under. *)
Definition link_name_of (m_id : N) (entity : Entity) (ignore_body : bool) : string :=
  if ignore_body then
    let other_module := lb_module_of_entity entity in
    lb_get_entity_name other_module entity
  else
    lb_get_entity_name m_id entity.

(** [lb_create_procedure(m, entity, ignore_body)].  The result [None] is
    the [nullptr] returned for an unspecialized polymorphic procedure. *)
Definition lb_create_procedure (entity : Entity) (ignore_body : bool)
  : M (lbModule L) (option lbProcedure) :=
  GB_ASSERT (bool_decide (e_kind entity = Entity_Procedure));;
  if skip_unspecialized entity then
    (* Do not generate code for unspecialized polymorphic procedures *)
    mret None
  else
    (if negb (e_is_foreign entity) && negb (e_flag_ProcBodyChecked entity)
     then fail else mret tt);;
    m ← get;
    let link_name := link_name_of (m_id m) entity ignore_body in
    match members m !! link_name with
    | Some found =>
        lb_add_entity entity found;;
        p ← must_get_procedure link_name;
        mret (Some p)
    | None =>
        let pt := base_type (e_type entity) in
        GB_ASSERT (bool_decide (is_Some (type_proc pt)));;
        let func_type := lb_get_procedure_raw_type (e_type entity) in
        v ← add_function link_name func_type;
        let p := {| p_module := m_id m;
                    p_entity := e_id entity;
                    p_name := link_name;
                    p_type := e_type entity;
                    p_body := proc_lit_body entity;
                    p_is_foreign := e_is_foreign entity;
                    p_value := v |} in
        on_llvm (attach_attributes entity ignore_body p);;
        let p := if ignore_body
                 then {| p_module := p_module p; p_entity := p_entity p;
                         p_name := p_name p; p_type := p_type p;
                         p_body := nullptr; p_is_foreign := p_is_foreign p;
                         p_value := p_value p |}
                 else p in
        let proc_value := {| value := p_value p; type := p_type p |} in
        lb_add_entity entity proc_value;;
        lb_add_member (p_name p) proc_value;;
        lb_add_procedure_value p;;
        mret (Some p)
    end.

End create.

End Create.

(* ===================================================================== *)
(** * The state of one procedure's code generation *)
(* ===================================================================== *)

Module Proc.
Import Core.

(** [lbTupleFix]. *)
Record lbTupleFix := mk_lbTupleFix {
  tf_values : list lbValue;
}.

(** A Deferred Call Entry: the companion procedure and its arguments,
    recorded against a scope depth. *)
Record lbDefer := mk_lbDefer {
  defer_scope_index : Z;
  defer_proc : lbValue;
  defer_args : list lbValue;
}.

(** [lbVariadicReuseSlices]. *)
Record lbVariadicReuseSlices := mk_lbVariadicReuseSlices {
  vr_slice_type : Type_;
  vr_slice_addr : lbAddr;
}.

(** What the body sequencer and the call emitter read and write of an
    [lbProcedure] and, through [p->module], of its module.  [builder] is the
    LLVM side (the instruction builder, the function under construction,
    the module), of a type [S] this file does not look into. *)
Record lbProcedure (S : Type) := mk_lbProcedure {
  builder : S;
  p_value : LLVMValueRef;                         (* p->value *)
  p_proc : TypeProc;                              (* p->type->Proc *)
  abi_function_type : lbFunctionType;             (* p->abi_function_type *)
  has_entity : bool;                              (* p->entity != nullptr *)
  has_decl_info : bool;                           (* p->entity->decl_info != nullptr *)
  defer_use_checked : bool;
  defer_used : Z;
  scope_index : Z;
  return_ptr : lbAddr;
  values : gmap N lbValue;                        (* p->module->values *)
  direct_parameters : gmap N lbValue;
  raw_input_parameters : list LLVMValueRef;
  tuple_fix_map : gmap N lbTupleFix;
  defer_stmts : list lbDefer;
  variadic_reuses : list lbVariadicReuseSlices;
  variadic_reuse_base_array_ptr : lbAddr;
  procedure_values : gmap N Entity;               (* p->module->procedure_values *)
}.
Global Arguments mk_lbProcedure {S} _ _ _ _ _ _ _ _ _ _ _ _ _ _ _ _ _ _.
Global Arguments builder {S} _.
Global Arguments p_value {S} _.
Global Arguments p_proc {S} _.
Global Arguments abi_function_type {S} _.
Global Arguments has_entity {S} _.
Global Arguments has_decl_info {S} _.
Global Arguments defer_use_checked {S} _.
Global Arguments defer_used {S} _.
Global Arguments scope_index {S} _.
Global Arguments return_ptr {S} _.
Global Arguments values {S} _.
Global Arguments direct_parameters {S} _.
Global Arguments raw_input_parameters {S} _.
Global Arguments tuple_fix_map {S} _.
Global Arguments defer_stmts {S} _.
Global Arguments variadic_reuses {S} _.
Global Arguments variadic_reuse_base_array_ptr {S} _.
Global Arguments procedure_values {S} _.

Section setters.
Context {S : Type}.
Implicit Type p : lbProcedure S.

Definition set_builder (b : S) p : lbProcedure S :=
  mk_lbProcedure b (p_value p) (p_proc p) (abi_function_type p) (has_entity p)
    (has_decl_info p) (defer_use_checked p) (defer_used p) (scope_index p)
    (return_ptr p) (values p) (direct_parameters p) (raw_input_parameters p)
    (tuple_fix_map p) (defer_stmts p) (variadic_reuses p)
    (variadic_reuse_base_array_ptr p) (procedure_values p).

Definition set_return_ptr (a : lbAddr) p : lbProcedure S :=
  mk_lbProcedure (builder p) (p_value p) (p_proc p) (abi_function_type p) (has_entity p)
    (has_decl_info p) (defer_use_checked p) (defer_used p) (scope_index p)
    a (values p) (direct_parameters p) (raw_input_parameters p)
    (tuple_fix_map p) (defer_stmts p) (variadic_reuses p)
    (variadic_reuse_base_array_ptr p) (procedure_values p).

Definition set_values (v : gmap N lbValue) p : lbProcedure S :=
  mk_lbProcedure (builder p) (p_value p) (p_proc p) (abi_function_type p) (has_entity p)
    (has_decl_info p) (defer_use_checked p) (defer_used p) (scope_index p)
    (return_ptr p) v (direct_parameters p) (raw_input_parameters p)
    (tuple_fix_map p) (defer_stmts p) (variadic_reuses p)
    (variadic_reuse_base_array_ptr p) (procedure_values p).

Definition set_direct_parameters (d : gmap N lbValue) p : lbProcedure S :=
  mk_lbProcedure (builder p) (p_value p) (p_proc p) (abi_function_type p) (has_entity p)
    (has_decl_info p) (defer_use_checked p) (defer_used p) (scope_index p)
    (return_ptr p) (values p) d (raw_input_parameters p)
    (tuple_fix_map p) (defer_stmts p) (variadic_reuses p)
    (variadic_reuse_base_array_ptr p) (procedure_values p).

Definition set_raw_input_parameters (r : list LLVMValueRef) p : lbProcedure S :=
  mk_lbProcedure (builder p) (p_value p) (p_proc p) (abi_function_type p) (has_entity p)
    (has_decl_info p) (defer_use_checked p) (defer_used p) (scope_index p)
    (return_ptr p) (values p) (direct_parameters p) r
    (tuple_fix_map p) (defer_stmts p) (variadic_reuses p)
    (variadic_reuse_base_array_ptr p) (procedure_values p).

Definition set_tuple_fix_map (t : gmap N lbTupleFix) p : lbProcedure S :=
  mk_lbProcedure (builder p) (p_value p) (p_proc p) (abi_function_type p) (has_entity p)
    (has_decl_info p) (defer_use_checked p) (defer_used p) (scope_index p)
    (return_ptr p) (values p) (direct_parameters p) (raw_input_parameters p)
    t (defer_stmts p) (variadic_reuses p)
    (variadic_reuse_base_array_ptr p) (procedure_values p).

Definition set_defer_stmts (d : list lbDefer) p : lbProcedure S :=
  mk_lbProcedure (builder p) (p_value p) (p_proc p) (abi_function_type p) (has_entity p)
    (has_decl_info p) (defer_use_checked p) (defer_used p) (scope_index p)
    (return_ptr p) (values p) (direct_parameters p) (raw_input_parameters p)
    (tuple_fix_map p) d (variadic_reuses p)
    (variadic_reuse_base_array_ptr p) (procedure_values p).

Definition set_variadic_reuses (v : list lbVariadicReuseSlices) p : lbProcedure S :=
  mk_lbProcedure (builder p) (p_value p) (p_proc p) (abi_function_type p) (has_entity p)
    (has_decl_info p) (defer_use_checked p) (defer_used p) (scope_index p)
    (return_ptr p) (values p) (direct_parameters p) (raw_input_parameters p)
    (tuple_fix_map p) (defer_stmts p) v
    (variadic_reuse_base_array_ptr p) (procedure_values p).

Definition set_variadic_reuse_base_array_ptr (a : lbAddr) p : lbProcedure S :=
  mk_lbProcedure (builder p) (p_value p) (p_proc p) (abi_function_type p) (has_entity p)
    (has_decl_info p) (defer_use_checked p) (defer_used p) (scope_index p)
    (return_ptr p) (values p) (direct_parameters p) (raw_input_parameters p)
    (tuple_fix_map p) (defer_stmts p) (variadic_reuses p)
    a (procedure_values p).

End setters.

Inductive AddressingMode :=
| Addressing_Invalid
| Addressing_NoValue
| Addressing_Value
| Addressing_Variable
| Addressing_Constant
| Addressing_Type
| Addressing_Builtin.

Global Instance AddressingMode_eq_dec : EqDecision AddressingMode.
Proof. solve_decision. Defined.

(** ** The rest of the backend

    The functions of the backend and of LLVM's C interface that this file
    calls and does not define.  Those that emit or allocate run on the LLVM
    side [S]; the queries on types are functions. *)
Class Backend (S : Type) := {
  (* the type library *)
  is_calling_convention_odin : ProcCallingConvention → bool;
  are_types_identical : Type_ → Type_ → bool;
  is_type_tuple : Type_ → bool;
  is_type_proc : Type_ → bool;
  is_type_pointer : Type_ → bool;
  is_type_any : Type_ → bool;
  is_type_untyped_nil : Type_ → bool;
  (** [t->Slice.elem], for a type of kind [Type_Slice] *)
  slice_elem : Type_ → option Type_;
  base_type : Type_ → Type_;
  type_deref : Type_ → Type_;
  (** [t->Tuple.variables] *)
  tuple_variables : Type_ → list Entity;
  (** [t->Proc], for a type of kind [Type_Proc] *)
  type_proc : Type_ → option TypeProc;
  entity_has_deferred_procedure : Entity → bool;
  reduce_tuple_to_single_type : Type_ → Type_;
  alloc_type_pointer : Type_ → Type_;
  alloc_type_array : Type_ → Z → Type_;
  type_size_of : Type_ → Z;
  lb_type : Type_ → LLVMTypeRef;
  t_source_code_location : Type_;
  t_llvm_bool : Type_;
  t_rawptr : Type_;
  t_uintptr : Type_;
  t_int : Type_;
  t_uint : Type_;
  t_u8 : Type_;
  (** [build_context] *)
  internal_by_value : bool;
  int_size : Z;
  (* LLVM: queries on values *)
  LLVMGetParam : LLVMValueRef → Z → LLVMValueRef;
  LLVMGetParams : LLVMValueRef → list LLVMValueRef;
  LLVMIsConstant : S → LLVMValueRef → bool;
  LLVMIsALoadInst : S → LLVMValueRef → bool;
  LLVMIsAAllocaInst : S → LLVMValueRef → bool;
  LLVMIsAConstantExpr : S → LLVMValueRef → bool;
  LLVMGetOperand : S → LLVMValueRef → Z → LLVMValueRef;
  LLVMTypeOf : S → LLVMValueRef → LLVMTypeRef;
  LLVMInt1TypeInContext : LLVMTypeRef;
  LLVMConstIntGetSExtValue : S → LLVMValueRef → Z;
  LLVMConstInt : LLVMTypeRef → Z → bool → LLVMValueRef;
  LLVMLookupIntrinsicID : string → N;
  (* LLVM: instructions *)
  LLVMGetIntrinsicDeclaration : N → list LLVMTypeRef → M S LLVMValueRef;
  LLVMIntrinsicGetType : N → list LLVMTypeRef → LLVMTypeRef;
  LLVMBuildCall2 : LLVMTypeRef → LLVMValueRef → list LLVMValueRef → M S LLVMValueRef;
  LLVMBuildPointerCast : LLVMValueRef → LLVMTypeRef → M S LLVMValueRef;
  LLVMBuildUnreachable : M S unit;
  LLVMSetValueName2 : LLVMValueRef → string → M S unit;
  OdinLLVMBuildTransmute : LLVMValueRef → LLVMTypeRef → M S LLVMValueRef;
  (** The stack slot of a local variable: an [alloca] in the declarations
      block, zero-initialised when [zero_init] asks for it. *)
  new_local : Type_ → bool → bool → M S lbValue;
  (* the backend's other files *)
  alloc_entity_param : string → Type_ → M S Entity;
  lb_const_int : Type_ → Z → lbValue;
  lb_const_nil : Type_ → lbValue;
  lb_emit_conv : lbValue → Type_ → M S lbValue;
  lb_emit_load : lbValue → M S lbValue;
  lb_addr_store : lbAddr → lbValue → M S unit;
  lb_emit_tuple_ep : lbValue → Z → M S lbValue;
  lb_copy_value_to_ptr : lbValue → Type_ → Z → M S lbValue;
  lb_add_global_generated_from_procedure : Type_ → lbValue → M S lbAddr;
  lb_make_global_private_const : lbAddr → M S unit;
  lb_find_or_generate_context_ptr : M S lbAddr;
  lb_get_function_type : Type_ → M S lbFunctionType;
  lb_find_procedure_value_from_entity : N → M S lbValue;
  lb_append_tuple_values : lbValue → M S (list lbValue);
  lb_add_debug_param_variable : LLVMValueRef → Entity → Z → M S unit;
  lb_add_debug_local_variable : LLVMValueRef → Entity → M S unit;
  lb_const_value : Entity → lbValue;
  lb_emit_c_vararg : lbValue → Type_ → M S lbValue;
  lb_emit_struct_ev : lbValue → Z → M S lbValue;
  lb_emit_array_epi : lbValue → Z → M S lbValue;
  lb_emit_store : lbValue → lbValue → M S unit;
  lb_fill_slice : lbAddr → lbValue → lbValue → M S unit;
  lb_addr_load : lbAddr → M S lbValue;
  lb_try_update_alignment : lbValue → Z → M S unit;
  (** The expression layer, which may itself emit calls: it runs on the
      whole procedure.  [Ast *] is a handle. *)
  lb_build_expr : N → M (lbProcedure S) lbValue;
  lb_build_builtin_proc : N → M (lbProcedure S) lbValue;
  (** [lb_handle_param_value] of this file, taken as a whole: the default
      value of the parameter or result [e], at the call expression given
      ([nullptr] for a result). *)
  lb_handle_param_value : Entity → N → M (lbProcedure S) lbValue;
  (** What the call expression layer reads of the syntax tree. *)
  expr_type : N → Type_;
  proc_mode : N → AddressingMode;
  unparen_expr : N → N;
  entity_disabled : N → bool;
  proc_constant : N → option Z;
  lookup_procedure_parameter : TypeProc → string → Z;
  (** The head of [lb_begin_procedure_body]: branch labels, the builder,
      the [decls] and [entry] blocks, the implicit context parameter. *)
  lb_enter_body : M S unit;
  (** Its tail: the debug position and the debug context variable. *)
  lb_leave_body_entry : M S unit;
  (** The checks and casts [lb_emit_call_internal] makes on the native
      arguments against the callee's raw type (and [GB_ASSERT]s on), the
      callee pointer it calls through and the raw type it calls with. *)
  lb_check_call_arguments :
    lbValue → list LLVMValueRef → M S (LLVMTypeRef * LLVMValueRef * list LLVMValueRef);
  (** The calling convention and the call site attributes of an emitted
      call. *)
  lb_set_call_attributes :
    LLVMValueRef → lbValue → bool → ProcInlining → M S unit;
}.

(** A stack slot is an instruction of the function under construction: it
    is none of the parameters of a function. *)
Class BackendLaws (S : Type) `{Backend S} := {
  new_local_not_param :
    ∀ type zero_init force_no_init s v s' fn i,
      new_local type zero_init force_no_init s = Some (v, s') →
      value v ≠ LLVMGetParam fn i;
}.

Section lifted.
Context {S : Type} `{Backend S}.

(** An operation of the LLVM side, run inside the procedure. *)
Definition ext {A} (op : M S A) : M (lbProcedure S) A :=
  λ p, match op (builder p) with
       | Some (x, b) => Some (x, set_builder b p)
       | None => None
       end.

(** A query of the LLVM side. *)
Definition ask {A} (q : S → A) : M (lbProcedure S) A :=
  λ p, Some (q (builder p), p).

(** Modelled from the spec: [lb_add_entity] is defined outside src/; it
    binds a source entity to a value. *)
Definition lb_add_entity (e : Entity) (v : lbValue) : M (lbProcedure S) unit :=
  modify (λ p, set_values (<[e_id e := v]> (values p)) p).

(** Modelled from the spec: [lb_add_local] is defined outside src/; "a fresh
    local that is explicitly zero/default-initialized", bound to the entity
    when the call names one. *)
Definition lb_add_local (type : Type_) (e : option Entity)
    (zero_init force_no_init : bool) : M (lbProcedure S) lbAddr :=
  ptr ← ext (new_local type zero_init force_no_init);
  match e with
  | Some e => lb_add_entity e ptr
  | None => mret tt
  end;;
  mret (lb_addr ptr).

(** Modelled from the spec: [lb_add_local_generated] is defined outside
    src/; a fresh local that no entity names. *)
Definition lb_add_local_generated (type : Type_) (zero_init : bool)
  : M (lbProcedure S) lbAddr :=
  lb_add_local type None zero_init false.

(** Modelled from the spec: [lb_address_from_load_or_generate_local] is
    defined outside src/.  By its name, by the spec's "materialize an
    addressable local" for a Direct parameter, which is this call, and by
    its use in this file (the body sequencer asserts that it yields an
    [alloca] for a value that is not a load): the address a value was
    loaded from when the value is a load instruction, otherwise a generated
    local the value is stored to. *)
Definition lb_address_from_load_or_generate_local (v : lbValue)
  : M (lbProcedure S) lbValue :=
  is_load ← ask (λ s, LLVMIsALoadInst s (value v));
  if is_load : bool then
    ptr ← ask (λ s, LLVMGetOperand s (value v) 0);
    mret {| value := ptr; type := alloc_type_pointer (type v) |}
  else
    res ← lb_add_local_generated (type v) false;
    ext (lb_addr_store res v);;
    mret (addr res).

(** Modelled from the spec: [lb_add_defer_proc] is defined outside src/; it
    registers a Deferred Call Entry, the procedure with its argument list,
    at the given lexical depth. *)
Definition lb_add_defer_proc (scope_index : Z) (deferred : lbValue)
    (result_as_args : list lbValue) : M (lbProcedure S) unit :=
  modify (λ p, set_defer_stmts
                 (defer_stmts p ++
                  [{| defer_scope_index := scope_index;
                      defer_proc := deferred;
                      defer_args := result_as_args |}]) p).

(** [lb_call_intrinsic]. *)
Definition lb_call_intrinsic (name : string) (args : list LLVMValueRef)
    (types : list LLVMTypeRef) : M (lbProcedure S) LLVMValueRef :=
  let id := LLVMLookupIntrinsicID name in
  GB_ASSERT (negb (id =? 0)%N);;
  ip ← ext (LLVMGetIntrinsicDeclaration id types);
  let call_type := LLVMIntrinsicGetType id types in
  ext (LLVMBuildCall2 call_type ip args).

(** [lb_mem_copy_non_overlapping]. *)
Definition lb_mem_copy_non_overlapping (dst src len : lbValue) (is_volatile : bool)
  : M (lbProcedure S) unit :=
  dst ← ext (lb_emit_conv dst t_rawptr);
  src ← ext (lb_emit_conv src t_rawptr);
  len ← ext (lb_emit_conv len t_int);
  is_const ← ask (λ s, LLVMIsConstant s (value len));
  const_len ← ask (λ s, LLVMConstIntGetSExtValue s (value len));
  let name :=
    if (is_const : bool) && (const_len <=? 4 * int_size)
    then "llvm.memcpy.inline" else "llvm.memcpy" in
  let types := [lb_type t_rawptr; lb_type t_rawptr; lb_type t_int] in
  let args := [value dst; value src; value len;
               LLVMConstInt LLVMInt1TypeInContext 0 is_volatile] in
  lb_call_intrinsic name args types;;
  mret tt.

End lifted.

End Proc.

(* ===================================================================== *)
(** * Body entry sequencer: [lb_begin_procedure_body] *)
(* ===================================================================== *)

Module Body.
Import Core Proc.

Section body.
Context {S : Type} `{Backend S}.

(** The block for [ft->ret.kind == lbArg_Indirect]: native parameter 0 is
    the return pointer.  The result is [param_offset]. *)
Definition bind_return_ptr (ft : lbFunctionType) : M (lbProcedure S) Z :=
  p ← get;
  let proc := p_proc p in
  name ← (if negb (multiple_return_original_type ft =? nullptr)%N
             && has_named_results proc
          then
            let variables := results proc in
            e ← index variables (Z.of_nat (length variables) - 1);
            mret (if negb (is_blank_ident (e_token e)) then e_token e else "agg.result")
          else mret "agg.result");
  let return_ptr_type := reduce_tuple_to_single_type (results_type proc) in
  let split_returns := negb (multiple_return_original_type ft =? nullptr)%N in
  return_ptr_type ←
    (if split_returns then
       GB_ASSERT (is_type_tuple return_ptr_type);;
       let variables := tuple_variables return_ptr_type in
       e ← index variables (Z.of_nat (length variables) - 1);
       mret (e_type e)
     else mret return_ptr_type);
  let ptr_type := alloc_type_pointer return_ptr_type in
  e ← ext (alloc_entity_param name ptr_type);
  let v := LLVMGetParam (p_value p) 0 in
  ext (LLVMSetValueName2 v name);;
  let return_ptr_value := {| value := v; type := ptr_type |} in
  modify (set_return_ptr (lb_addr return_ptr_value));;
  lb_add_entity e return_ptr_value;;
  mret 1.

(** One turn of the loop over [params->variables], for the parameter [e]
    that is classified by [ft->args[param_index]]. *)
Definition bind_parameter (ft : lbFunctionType) (is_odin_cc : bool)
    (param_offset param_index : Z) (e : Entity) : M (lbProcedure S) unit :=
  arg_type ← index (ft_args ft) param_index;
  p ← get;
  match arg_kind arg_type with
  | lbArg_Ignore =>
      (* Even though it is an ignored argument, it might still be referenced
         in the body. *)
      dummy ← lb_add_local_generated (e_type e) false;
      lb_add_entity e (addr dummy)
  | lbArg_Direct =>
      if negb (String.length (e_token e) =? 0)%nat && negb (is_blank_ident (e_token e))
      then
        let param_type := lb_type (e_type e) in
        let original_value := LLVMGetParam (p_value p) (param_offset + param_index) in
        v ← ext (OdinLLVMBuildTransmute original_value param_type);
        let param := {| value := v; type := e_type e |} in
        modify (λ p, set_direct_parameters (<[e_id e := param]> (direct_parameters p)) p);;
        ptr ← lb_address_from_load_or_generate_local param;
        is_alloca ← ask (λ s, LLVMIsAAllocaInst s (value ptr));
        GB_ASSERT is_alloca;;
        lb_add_entity e ptr;;
        ext (lb_add_debug_param_variable (value ptr) e (param_index + 1))
      else mret tt
  | lbArg_Indirect =>
      if negb (String.length (e_token e) =? 0)%nat && negb (is_blank_ident (e_token e))
      then
        let sz := type_size_of (e_type e) in
        let do_callee_copy :=
          if is_odin_cc then
            if internal_by_value then true else sz <=? 16
          else false in
        let ptr := {| value := LLVMGetParam (p_value p) (param_offset + param_index);
                      type := alloc_type_pointer (e_type e) |} in
        ptr ← (if do_callee_copy then
                 new_ptr ← lb_add_local_generated (e_type e) false;
                 lb_mem_copy_non_overlapping (addr new_ptr) ptr (lb_const_int t_uint sz) false;;
                 mret (addr new_ptr)
               else mret ptr);
        lb_add_entity e ptr;;
        ext (lb_add_debug_param_variable (value ptr) e (param_index + 1))
      else mret tt
  end.

(** The loop over the parameters.  An entity that is not a variable is
    passed over without using up a classification.  A procedure type
    without a parameter tuple is one with no parameters here, so the raw
    parameters are recorded for it too. *)
Definition bind_parameters (ft : lbFunctionType) (param_offset : Z)
    (variables : list Entity) : M (lbProcedure S) unit :=
  p ← get;
  modify (set_raw_input_parameters (LLVMGetParams (p_value p)));;
  let is_odin_cc := is_calling_convention_odin (ft_calling_convention ft) in
  foldM (λ param_index e,
           if negb (bool_decide (e_kind e = Entity_Variable)) then mret param_index
           else
             bind_parameter ft is_odin_cc param_offset param_index e;;
             mret (param_index + 1))
        0 variables;;
  mret tt.

(** The "bodge" of the named results loop: what the variable [ptr] that is
    declared before the [if] holds after it.  Both branches compute a
    pointer into the return storage, and both put it into a variable they
    declare themselves, also named [ptr]. *)
Definition return_storage_ptr (ft : lbFunctionType) (param_offset : Z)
    (results : list Entity) (i : Z) (e : Entity) : M (lbProcedure S) lbValue :=
  p ← get;
  let count := Z.of_nat (length results) in
  let has_return_ptr := negb (value (addr (return_ptr p)) =? nullptr)%N in
  let ptr := lbValue_zero in
  if negb (multiple_return_original_type ft =? nullptr)%N then
    the_offset ←
      (if i + 1 <? count then mret (param_offset + original_arg_count ft + i)
       else if has_return_ptr then GB_ASSERT (i + 1 =? count);; mret 0
       else mret (-1));
    if 0 <=? the_offset then
      (* lbValue ptr = {}; *)
      let ptr0 := {| value := LLVMGetParam (p_value p) the_offset;
                     type := alloc_type_pointer (e_type e) |} in
      mret ptr
    else mret ptr
  else if has_return_ptr then
    (* lbValue ptr = p->return_ptr.addr; *)
    let ptr0 := addr (return_ptr p) in
    ptr0 ← (if 1 <? count then ext (lb_emit_tuple_ep ptr0 i) else mret ptr0);
    GB_ASSERT (is_type_pointer (type ptr0));;
    GB_ASSERT (are_types_identical (type_deref (type ptr0)) (e_type e));;
    mret ptr
  else mret ptr.

(** The store of a named result's default value. *)
Definition store_result_default (e : Entity) (res : lbAddr) : M (lbProcedure S) unit :=
  if negb (bool_decide (e_param_value e = ParameterValue_Invalid)) then
    GB_ASSERT (negb (bool_decide (e_param_value e = ParameterValue_Location)));;
    GB_ASSERT (negb (bool_decide (e_param_value e = ParameterValue_Expression)));;
    c ← lb_handle_param_value e nullptr;
    ext (lb_addr_store res c)
  else mret tt.

(** One turn of the loop over [results->variables].  [lb_add_local] is
    called with its entity argument only, so with the defaults of its
    declaration for the other two. *)
Definition bind_named_result (ft : lbFunctionType) (param_offset : Z)
    (results : list Entity) (i : Z) (e : Entity) : M (lbProcedure S) unit :=
  GB_ASSERT (bool_decide (e_kind e = Entity_Variable));;
  if negb (bool_decide (e_token e = "")) then
    GB_ASSERT (negb (is_blank_ident (e_token e)));;
    p ← get;
    let res := lbAddr_zero in
    res ←
      (if has_entity p && has_decl_info p && defer_use_checked p && (defer_used p =? 0)
       then
         ptr ← return_storage_ptr ft param_offset results i e;
         if negb (value ptr =? nullptr)%N then
           lb_add_entity e ptr;;
           ext (lb_add_debug_local_variable (value ptr) e);;
           (* no need to zero on the callee side as it is zeroed on the caller side *)
           mret (lb_addr ptr)
         else mret res
       else mret res);
    res ←
      (if (type (addr res) =? nullptr)%N then
         (* Don't even bother trying to optimize this with the return ptr value *)
         lb_add_local (e_type e) (Some e) true false
       else mret res);
    store_result_default e res
  else mret tt.

(** The loop over the named results. *)
Definition bind_named_results (ft : lbFunctionType) (param_offset : Z)
    (results : list Entity) : M (lbProcedure S) unit :=
  foldM (λ i e, bind_named_result ft param_offset results i e;; mret (i + 1))
        0 results;;
  mret tt.

(** [lb_begin_procedure_body]. *)
Definition lb_begin_procedure_body : M (lbProcedure S) unit :=
  ext lb_enter_body;;
  modify (set_direct_parameters ∅);;                (* map_init *)
  p ← get;
  let ft := abi_function_type p in
  param_offset ←
    (if bool_decide (arg_kind (ft_ret ft) = lbArg_Indirect)
     then bind_return_ptr ft else mret 0);
  bind_parameters ft param_offset (params (p_proc p));;
  (if has_named_results (p_proc p) then
     GB_ASSERT (0 <? result_count (p_proc p));;
     bind_named_results ft param_offset (results (p_proc p))
   else mret tt);;
  ext lb_leave_body_entry.

End body.

End Body.

(* ===================================================================== *)
(** * Call emitter: [lb_emit_call] *)
(* ===================================================================== *)

Module Call.
Import Core Proc.

Section call.
Context {S : Type} `{Backend S}.

(** [lb_value_to_array]. *)
Definition lb_value_to_array (v : lbValue) : M (lbProcedure S) (list lbValue) :=
  let t := base_type (type v) in
  if (t =? nullptr)%N then
    (* Do nothing *)
    mret []
  else if is_type_tuple t then
    ext (lb_append_tuple_values v)
  else
    mret [v].

(** [lb_emit_call_internal]: the native argument list is the return
    pointer when there is one, the processed arguments, and the context
    pointer when there is one. *)
Definition lb_emit_call_internal (value_ return_ptr : lbValue)
    (processed_args : list lbValue) (abi_rt : Type_) (context_ptr : lbAddr)
    (inlining : ProcInlining) : M (lbProcedure S) lbValue :=
  let has_return_ptr := negb (value return_ptr =? nullptr)%N in
  let has_context_ptr := negb (value (addr context_ptr) =? nullptr)%N in
  let arg_count :=
    (length processed_args
     + (if has_return_ptr then 1 else 0)
     + (if has_context_ptr then 1 else 0))%nat in
  let args := if has_return_ptr then [value return_ptr] else [] in
  args ← foldM (λ args arg,
                  v ← (if is_type_proc (type arg)
                       then ext (LLVMBuildPointerCast (value arg) (lb_type (type arg)))
                       else mret (value arg));
                  mret (args ++ [v]))
               args processed_args;
  args ← (if has_context_ptr then
            cp ← ext (LLVMBuildPointerCast (value (addr context_ptr)) (lb_type t_rawptr));
            mret (args ++ [cp])
          else mret args);
  GB_ASSERT (length args =? arg_count)%nat;;
  '(fnp, fn, args) ← ext (lb_check_call_arguments value_ args);
  ret ← ext (LLVMBuildCall2 fnp fn args);
  ext (lb_set_call_attributes ret value_ has_return_ptr inlining);;
  mret {| value := ret; type := abi_rt |}.

(** The re-marshalling of one argument that is classified Indirect. *)
Definition marshal_indirect (arg : lbArgType) (is_odin_cc : bool)
    (x : lbValue) (original_type : Type_) : M (lbProcedure S) lbValue :=
  let ptr := lbValue_zero in
  if is_byval arg then
    ptr ← (if is_odin_cc && are_types_identical original_type t_source_code_location
           then lb_address_from_load_or_generate_local x
           else mret ptr);
    if (value ptr =? nullptr)%N
    then ext (lb_copy_value_to_ptr x original_type (byval_alignment arg))
    else mret ptr
  else if is_odin_cc then
    (* Odin parameters are immutable so the original value can be passed if
       possible *)
    is_const ← ask (λ s, LLVMIsConstant s (value x));
    if is_const : bool then
      a ← ext (lb_add_global_generated_from_procedure original_type x);
      ext (lb_make_global_private_const a);;
      mret (addr a)
    else lb_address_from_load_or_generate_local x
  else
    ext (lb_copy_value_to_ptr x original_type 16).

(** The state of the loop over the fixed parameters. *)
Record marshal_state := mk_marshal_state {
  param_index : Z;
  ignored_args : Z;
  processed_args : list lbValue;
}.

(** One turn of the loop over the fixed parameters, for parameter [i]. *)
Definition marshal_arg (pt : TypeProc) (ft : lbFunctionType) (is_odin_cc : bool)
    (args : list lbValue) (st : marshal_state) (i : Z)
  : M (lbProcedure S) marshal_state :=
  e ← index (params pt) i;
  if negb (bool_decide (e_kind e = Entity_Variable)) then mret st
  else
    GB_ASSERT (e_flag_Param e);;
    let original_type := e_type e in
    arg ← index (ft_args ft) (param_index st);
    if bool_decide (arg_kind arg = lbArg_Ignore) then
      mret {| param_index := param_index st + 1;
              ignored_args := ignored_args st + 1;
              processed_args := processed_args st |}
    else
      a ← index args i;
      x ← ext (lb_emit_conv a original_type);
      let xt := lb_type (type x) in
      processed ←
        match arg_kind arg with
        | lbArg_Direct =>
            let abi_type :=
              if (cast_type arg =? nullptr)%N then arg_type arg else cast_type arg in
            if (xt =? abi_type)%N then mret (processed_args st ++ [x])
            else
              v ← ext (OdinLLVMBuildTransmute (value x) abi_type);
              mret (processed_args st ++ [{| value := v; type := type x |}])
        | lbArg_Indirect =>
            ptr ← marshal_indirect arg is_odin_cc x original_type;
            mret (processed_args st ++ [ptr])
        | lbArg_Ignore => mret (processed_args st)
        end;
      mret {| param_index := param_index st + 1;
              ignored_args := ignored_args st;
              processed_args := processed |}.

(** The loop that allocates the hidden pointers of a split return: one
    local per member of the tuple but the last, appended to the processed
    arguments. *)
Definition add_partial_returns (variables : list Entity) (processed : list lbValue)
  : M (lbProcedure S) (list lbValue) :=
  foldM (λ processed j,
           v ← index variables j;
           let partial_return_type := e_type v in
           partial_return_ptr ← lb_add_local partial_return_type None true false;
           mret (processed ++ [addr partial_return_ptr]))
        processed (seqZ 0 (Z.of_nat (length variables) - 1)).

(** The call itself, in its three forms. *)
Definition issue_call (ft : lbFunctionType) (value_ : lbValue)
    (processed : list lbValue) (rt : Type_) (context_ptr : lbAddr)
    (inlining : ProcInlining) : M (lbProcedure S) lbValue :=
  let return_by_pointer := bool_decide (arg_kind (ft_ret ft) = lbArg_Indirect) in
  if return_by_pointer then
    return_ptr ← lb_add_local_generated rt true;
    lb_emit_call_internal value_ (addr return_ptr) processed nullptr context_ptr inlining;;
    ext (lb_emit_load (addr return_ptr))
  else if negb (rt =? nullptr)%N then
    result ← lb_emit_call_internal value_ lbValue_zero processed rt context_ptr inlining;
    v ← (if negb (cast_type (ft_ret ft) =? nullptr)%N
         then ext (OdinLLVMBuildTransmute (value result) (cast_type (ft_ret ft)))
         else mret (value result));
    v ← ext (OdinLLVMBuildTransmute v (arg_type (ft_ret ft)));
    ty ← ask (λ s, if (LLVMTypeOf s v =? LLVMInt1TypeInContext)%N then t_llvm_bool else rt);
    let result := {| value := v; type := ty |} in
    if negb (is_type_tuple rt) then ext (lb_emit_conv result rt)
    else mret result
  else
    lb_emit_call_internal value_ lbValue_zero processed nullptr context_ptr inlining;;
    mret lbValue_zero.

(** The "tuple-fix" of a split return, run when [original_rt != rt]. *)
Definition tuple_fix (ft : lbFunctionType) (split_returns : bool)
    (ignored_args : Z) (processed : list lbValue) (original_rt : Type_)
    (result : lbValue) : M (lbProcedure S) lbValue :=
  GB_ASSERT split_returns;;
  GB_ASSERT (is_type_tuple original_rt);;
  (* result_ptr is a dummy value which is only used to reference a tuple
     value for the "tuple-fix" *)
  result_ptr ← lb_add_local_generated original_rt false;
  let result_ptr := addr result_ptr in
  let ret_count := Z.of_nat (length (tuple_variables original_rt)) in
  let offset := original_arg_count ft - ignored_args in
  tuple_fix_values ←
    foldM (λ tuple_fix_values j,
             ret_arg_ptr ← index processed (offset + j);
             ret_arg ← ext (lb_emit_load ret_arg_ptr);
             mret (tuple_fix_values ++ [ret_arg]))
          [] (seqZ 0 (ret_count - 1));
  GB_ASSERT (0 <=? ret_count - 1);;
  let tuple_fix_values := tuple_fix_values ++ [result] in
  result ← ext (lb_emit_load result_ptr);
  let tf := {| tf_values := tuple_fix_values |} in
  modify (λ p, set_tuple_fix_map (<[value result_ptr := tf]> (tuple_fix_map p)) p);;
  modify (λ p, set_tuple_fix_map (<[value result := tf]> (tuple_fix_map p)) p);;
  mret result.

(** The argument list of the deferred companion, by binding mode. *)
Definition deferred_arguments (kind : DeferredProcedureKind)
    (args : list lbValue) (result : lbValue) : M (lbProcedure S) (list lbValue) :=
  let in_args := args in
  let by_ptr :=
    match kind with
    | DeferredProcedure_in_by_ptr
    | DeferredProcedure_out_by_ptr
    | DeferredProcedure_in_out_by_ptr => true
    | _ => false
    end in
  result_as_args ←
    match kind with
    | DeferredProcedure_none => mret []
    | DeferredProcedure_in_by_ptr | DeferredProcedure_in =>
        mret in_args                                  (* array_clone *)
    | DeferredProcedure_out_by_ptr | DeferredProcedure_out =>
        lb_value_to_array result
    | DeferredProcedure_in_out_by_ptr | DeferredProcedure_in_out =>
        out_args ← lb_value_to_array result;
        mret (in_args ++ out_args)
    end;
  if by_ptr then
    foldM (λ done_ arg,
             arg_ptr ← lb_address_from_load_or_generate_local arg;
             mret (done_ ++ [arg_ptr]))
          [] result_as_args
  else mret result_as_args.

(** The attachment of the deferred companion after the call. *)
Definition attach_deferred (value_ : lbValue) (args : list lbValue)
    (result : lbValue) : M (lbProcedure S) unit :=
  let the_proc_value := value value_ in
  is_cexpr ← ask (λ s, LLVMIsAConstantExpr s the_proc_value);
  the_proc_value ←
    (if is_cexpr : bool
     then (* it's a bit cast *) ask (λ s, LLVMGetOperand s the_proc_value 0)
     else mret the_proc_value);
  p ← get;
  match procedure_values p !! the_proc_value with
  | Some e =>
      if entity_has_deferred_procedure e then
        let kind := e_deferred_kind e in
        let deferred_entity := e_deferred_entity e in
        deferred ← ext (lb_find_procedure_value_from_entity deferred_entity);
        result_as_args ← deferred_arguments kind args result;
        p ← get;
        lb_add_defer_proc (scope_index p) deferred result_as_args
      else mret tt
  | None => mret tt
  end.

(** The number of parameters that are variables: the parameters the ABI
    classifier classifies, one [lbArgType] each. *)
Fixpoint variable_params (ps : list Entity) : Z :=
  match ps with
  | [] => 0
  | e :: ps =>
      (if bool_decide (e_kind e = Entity_Variable) then 1 else 0) + variable_params ps
  end.

(** [lb_emit_call]. *)
Definition lb_emit_call (value_ : lbValue) (args : list lbValue)
    (inlining : ProcInlining) : M (lbProcedure S) lbValue :=
  match type_proc (base_type (type value_)) with
  | None => fail                                  (* GB_ASSERT(pt->kind == Type_Proc) *)
  | Some pt =>
      let results := results_type pt in
      context_ptr ←
        (if bool_decide (calling_convention pt = ProcCC_Odin)
         then ext lb_find_or_generate_context_ptr
         else mret lbAddr_zero);
      let is_c_vararg := c_vararg pt in
      let args_count := Z.of_nat (length args) in
      param_count ←
        (if is_c_vararg then
           GB_ASSERT (param_count pt - 1 <=? args_count);;
           mret (param_count pt - 1)
         else
           GB_ASSERT (param_count pt =? args_count);;
           mret (param_count pt));
      let is_odin_cc := is_calling_convention_odin (calling_convention pt) in
      ft ← ext (lb_get_function_type (base_type (type value_)));
      let split_returns := negb (multiple_return_original_type ft =? nullptr)%N in
      st ← foldM (marshal_arg pt ft is_odin_cc args)
                 {| param_index := 0; ignored_args := 0; processed_args := [] |}
                 (seqZ 0 param_count);
      let processed :=
        if is_c_vararg
        then processed_args st ++ drop (length (processed_args st)) args
        else processed_args st in
      let rt := reduce_tuple_to_single_type results in
      let original_rt := rt in
      '(processed, rt) ←
        (if split_returns then
           GB_ASSERT (is_type_tuple rt);;
           let variables := tuple_variables rt in
           processed ← add_partial_returns variables processed;
           last_ ← index variables (Z.of_nat (length variables) - 1);
           mret (processed, reduce_tuple_to_single_type (e_type last_))
         else mret (processed, rt));
      result ← issue_call ft value_ processed rt context_ptr inlining;
      result ←
        (if negb (original_rt =? rt)%N
         then tuple_fix ft split_returns (ignored_args st) processed original_rt result
         else mret result);
      attach_deferred value_ args result;;
      (if diverging pt then ext LLVMBuildUnreachable else mret tt);;
      mret result
  end.

End call.

End Call.

(* ===================================================================== *)
(** * Call expressions: [lb_build_call_expr_internal] *)
(* ===================================================================== *)

Module CallExpr.
Import Core Proc Call.

(** A named argument [field = value] ([AstFieldValue]). *)
Record FieldValue := mk_FieldValue {
  fv_field : string;                      (* fv->field->Ident.token.string *)
  fv_value : N;                           (* fv->value *)
  fv_is_compound_lit : bool;              (* fv->value->kind == Ast_CompoundLit *)
  fv_elems : list N;                      (* literal->elems *)
}.

(** What is read of an [AstCallExpr]. *)
Record CallExpr := mk_CallExpr {
  ce_proc : N;
  ce_args : list N;
  ce_positional : list N;                 (* ce->split_args->positional *)
  ce_named : list FieldValue;             (* ce->split_args->named *)
  ce_ellipsis : bool;                     (* ce->ellipsis.pos.line != 0 *)
  ce_inlining : ProcInlining;
}.

(** What is read of the [DeclInfo] of the enclosing procedure. *)
Record DeclInfo := mk_DeclInfo {
  d_variadic_reuses : list Type_;         (* the slice types of d->variadic_reuses *)
  d_variadic_reuse_max_bytes : Z;
  d_variadic_reuse_max_align : Z;
}.

(** [array_resize]: to [n] elements, new ones zeroed. *)
Definition array_resize (n : Z) (a : list lbValue) : list lbValue :=
  take (Z.to_nat n) a ++ replicate (Z.to_nat n - length a) lbValue_zero.

Section call_expr.
Context {S : Type} `{Backend S}.

(** [lb_add_values_to_array]. *)
Definition lb_add_values_to_array (args : list lbValue) (v : lbValue)
  : M (lbProcedure S) (list lbValue) :=
  if is_type_tuple (type v) then
    foldM (λ args i,
             sub_value ← ext (lb_emit_struct_ev v i);
             mret (args ++ [sub_value]))
          args (seqZ 0 (Z.of_nat (length (tuple_variables (type v)))))
  else mret (args ++ [v]).

(** A C vararg, widened. *)
Definition c_vararg_of (elem_type : Type_) (var_arg : N) : M (lbProcedure S) lbValue :=
  arg ← lb_build_expr var_arg;
  if is_type_any elem_type then
    let arg := if is_type_untyped_nil (type arg) then lb_const_nil t_rawptr else arg in
    ext (lb_emit_c_vararg arg (type arg))
  else
    ext (lb_emit_c_vararg arg elem_type).

(** The first reuse slot of the list whose slice type is the one asked
    for. *)
Definition find_reuse (slice_type : Type_) (l : list lbVariadicReuseSlices) : lbAddr :=
  match List.find (λ vr, are_types_identical (vr_slice_type vr) slice_type) l with
  | Some vr => vr_slice_addr vr
  | None => lbAddr_zero
  end.

(** The packing of the variadic arguments into a slice over the reusable
    buffer. *)
Definition pack_variadic (d : option DeclInfo) (slice_type : Type_)
    (variadic : list N) (variadic_args : lbValue) : M (lbProcedure S) lbValue :=
  elem_type ← match slice_elem slice_type with
              | Some t => mret t
              | None => fail
              end;
  var_args ← foldM (λ var_args var_arg,
                      v ← lb_build_expr var_arg;
                      lb_add_values_to_array var_args v)
                   [] variadic;
  let slice_len := Z.of_nat (length var_args) in
  if 0 <? slice_len then
    p ← get;
    let slice := find_reuse slice_type (variadic_reuses p) in
    slice ←
      match d with
      | Some d =>
          if (value (addr slice) =? nullptr)%N
             && existsb (λ t, are_types_identical t slice_type) (d_variadic_reuses d)
          then
            (* No point wasting even more memory, just reuse this stack
               variable too *)
            slice ← match variadic_reuses p with
                    | vr :: _ => mret (vr_slice_addr vr)
                    | [] => lb_add_local_generated slice_type true
                    end;
            (* Change the underlying type to match the specific type *)
            let slice := {| addr := {| value := value (addr slice);
                                       type := alloc_type_pointer slice_type |} |} in
            modify (λ p, set_variadic_reuses
                           (variadic_reuses p
                            ++ [{| vr_slice_type := slice_type; vr_slice_addr := slice |}]) p);;
            mret slice
          else mret slice
      | None => mret slice
      end;
    p ← get;
    let base_array_ptr := addr (variadic_reuse_base_array_ptr p) in
    base_array_ptr ←
      (if (value base_array_ptr =? nullptr)%N then
         match d with
         | Some d =>
             let max_bytes := d_variadic_reuse_max_bytes d in
             let max_align := Z.max (d_variadic_reuse_max_align d) 16 in
             a ← lb_add_local_generated (alloc_type_array t_u8 max_bytes) true;
             modify (set_variadic_reuse_base_array_ptr a);;
             ext (lb_try_update_alignment (addr a) max_align);;
             mret (addr a)
         | None =>
             a ← lb_add_local_generated (alloc_type_array elem_type slice_len) true;
             mret (addr a)
         end
       else mret base_array_ptr);
    slice ← (if (value (addr slice) =? nullptr)%N
             then lb_add_local_generated slice_type true
             else mret slice);
    GB_ASSERT (negb (value base_array_ptr =? nullptr)%N);;
    GB_ASSERT (negb (value (addr slice) =? nullptr)%N);;
    base_array_ptr ←
      ext (lb_emit_conv base_array_ptr
             (alloc_type_pointer (alloc_type_array elem_type slice_len)));
    forM_ (zip (seqZ 0 slice_len) var_args)
          (λ iv, a ← ext (lb_emit_array_epi base_array_ptr iv.1);
                 var_arg ← ext (lb_emit_conv iv.2 elem_type);
                 ext (lb_emit_store a var_arg));;
    base_elem ← ext (lb_emit_array_epi base_array_ptr 0);
    let len := lb_const_int t_int slice_len in
    ext (lb_fill_slice slice base_elem len);;
    ext (lb_addr_load slice)
  else mret variadic_args.

(** The positional argument that meets the variadic parameter [e]:
    [variadic] are the positional arguments from it on.  The loop over the
    positional arguments ends here. *)
Definition variadic_argument (pt : TypeProc) (ce : CallExpr) (d : option DeclInfo)
    (e : Entity) (variadic : list N) (args : list lbValue)
  : M (lbProcedure S) (list lbValue) :=
  let vari_expand := ce_ellipsis ce in
  let is_c_vararg := c_vararg pt in
  let variadic_args := lb_const_nil (e_type e) in
  if negb (length variadic =? 0)%nat then
    (* variadic call argument generation *)
    let slice_type := e_type e in
    GB_ASSERT (bool_decide (is_Some (slice_elem slice_type)));;
    if is_c_vararg then
      GB_ASSERT (negb vari_expand);;
      elem_type ← match slice_elem slice_type with
                  | Some t => mret t
                  | None => fail
                  end;
      foldM (λ args var_arg, a ← c_vararg_of elem_type var_arg; mret (args ++ [a]))
            args variadic
    else if vari_expand then
      GB_ASSERT (length variadic =? 1)%nat;;
      v0 ← index variadic 0;
      v ← lb_build_expr v0;
      variadic_args ← ext (lb_emit_conv v slice_type);
      mret (args ++ [variadic_args])
    else
      variadic_args ← pack_variadic d slice_type variadic variadic_args;
      mret (args ++ [variadic_args])
  else mret (args ++ [variadic_args]).

(** The loop over [ce->split_args->positional], from argument [i] on. *)
Fixpoint positional_arguments (pt : TypeProc) (ce : CallExpr) (d : option DeclInfo)
    (i : Z) (positional : list N) (args : list lbValue)
  : M (lbProcedure S) (list lbValue) :=
  match positional with
  | [] => mret args
  | a :: rest =>
      e ← index (params pt) i;
      if bool_decide (e_kind e = Entity_TypeName) then
        positional_arguments pt ce d (i + 1) rest (args ++ [lb_const_nil (e_type e)])
      else if bool_decide (e_kind e = Entity_Constant) then
        positional_arguments pt ce d (i + 1) rest (args ++ [lb_const_value e])
      else
        GB_ASSERT (bool_decide (e_kind e = Entity_Variable));;
        if variadic pt && (variadic_index pt =? i) then
          variadic_argument pt ce d e (a :: rest) args
        else
          v ← lb_build_expr a;
          args ← lb_add_values_to_array args v;
          positional_arguments pt ce d (i + 1) rest args
  end.

(** [args[i] = v], with the bounds check of the array. *)
Definition array_set (args : list lbValue) (i : Z) (v : lbValue)
  : M (lbProcedure S) (list lbValue) :=
  index args i;;
  mret (<[Z.to_nat i := v]> args).

(** One turn of the loop over the named arguments. *)
Definition named_argument (pt : TypeProc) (args : list lbValue) (fv : FieldValue)
  : M (lbProcedure S) (list lbValue) :=
  let is_c_vararg := c_vararg pt in
  let param_index := lookup_procedure_parameter pt (fv_field fv) in
  GB_ASSERT (0 <=? param_index);;
  e ← index (params pt) param_index;
  if bool_decide (e_kind e = Entity_TypeName) then
    array_set args param_index (lb_const_nil (e_type e))
  else if is_c_vararg && variadic pt && (variadic_index pt =? param_index) then
    GB_ASSERT (param_index =? param_count pt - 1);;
    let slice_type := e_type e in
    elem_type ← match slice_elem slice_type with
                | Some t => mret t
                | None => fail
                end;
    if fv_is_compound_lit fv then
      foldM (λ args var_arg, a ← c_vararg_of elem_type var_arg; mret (args ++ [a]))
            args (fv_elems fv)
    else
      v ← lb_build_expr (fv_value fv);
      GB_ASSERT (negb (is_type_tuple (type v)));;
      a ← ext (lb_emit_c_vararg v (type v));
      mret (args ++ [a])
  else
    v ← lb_build_expr (fv_value fv);
    GB_ASSERT (negb (is_type_tuple (type v)));;
    array_set args param_index v.

(** One turn of the last loop, over the parameters: the variadic parameter
    of a procedure that does not take C varargs gets the nil slice when
    nothing was supplied for it; any other parameter gets its default when
    nothing was supplied, and otherwise the conversion of what was. *)
Definition complete_argument (pt : TypeProc) (expr : N) (args : list lbValue)
    (ie : Z * Entity) : M (lbProcedure S) (list lbValue) :=
  let is_c_vararg := c_vararg pt in
  let '(arg_index, e) := ie in
  if variadic pt && (arg_index =? variadic_index pt) then
    if negb is_c_vararg then
      arg ← index args arg_index;
      if (value arg =? 0)%N
      then array_set args arg_index (lb_const_nil (e_type e))
      else mret args
    else mret args
  else
    arg ← index args arg_index;
    if (value arg =? nullptr)%N && (type arg =? nullptr)%N then
      match e_kind e with
      | Entity_TypeName => array_set args arg_index (lb_const_nil (e_type e))
      | Entity_Variable =>
          v ← lb_handle_param_value e expr;
          array_set args arg_index v
      | Entity_Constant => array_set args arg_index (lb_const_value e)
      | _ => fail                                   (* GB_PANIC *)
      end
    else
      v ← ext (lb_emit_conv arg (e_type e));
      array_set args arg_index v.

(** From the end of the positional loop to the argument list of the call:
    the resize, the named arguments, the last loop and the final slice. *)
Definition complete_arguments (pt : TypeProc) (ce : CallExpr) (expr : N)
    (args : list lbValue) : M (lbProcedure S) (list lbValue) :=
  let is_c_vararg := c_vararg pt in
  let args := if negb is_c_vararg then array_resize (param_count pt) args else args in
  args ← foldM (named_argument pt) args (ce_named ce);
  let min_count := Z.of_nat (length (params pt)) - (if is_c_vararg then 1 else 0) in
  GB_ASSERT (min_count <=? Z.of_nat (length args));;
  args ← foldM (complete_argument pt expr) args
               (zip (seqZ 0 (Z.of_nat (length (params pt)))) (params pt));
  let final_count := if is_c_vararg then Z.of_nat (length args) else param_count pt in
  GB_ASSERT ((0 <=? final_count) && (final_count <=? Z.of_nat (length args)));;
  mret (take (Z.to_nat final_count) args).

(** The arguments of a regular call. *)
Definition call_arguments (pt : TypeProc) (ce : CallExpr) (d : option DeclInfo)
    (expr : N) : M (lbProcedure S) (list lbValue) :=
  args ← positional_arguments pt ce d 0 (ce_positional ce) [];
  complete_arguments pt ce expr args.



End call_expr.

End CallExpr.

(* ===================================================================== *)
(** * SIMD builtins: the lane-wise and lane-moving cases *)
(* ===================================================================== *)

(** More cases of [lb_build_builtin_simd_proc], for integer vectors, over
    the scalars and vectors of [IR].  Floating point opcodes and
    predicates are emitted as the source selects them and are given no
    meaning. *)
Module Lanes.

(** The members of [BuiltinProcId] these cases dispatch on. *)
Inductive SimdProcId :=
| BuiltinProc_simd_add
| BuiltinProc_simd_sub
| BuiltinProc_simd_mul
| BuiltinProc_simd_div
| BuiltinProc_simd_rem
| BuiltinProc_simd_bit_and
| BuiltinProc_simd_bit_or
| BuiltinProc_simd_bit_xor
| BuiltinProc_simd_bit_and_not
| BuiltinProc_simd_abs
| BuiltinProc_simd_min
| BuiltinProc_simd_max
| BuiltinProc_simd_lanes_eq
| BuiltinProc_simd_lanes_ne
| BuiltinProc_simd_lanes_lt
| BuiltinProc_simd_lanes_le
| BuiltinProc_simd_lanes_gt
| BuiltinProc_simd_lanes_ge
| BuiltinProc_simd_reduce_add_bisect
| BuiltinProc_simd_reduce_mul_bisect
| BuiltinProc_simd_reduce_add_pairs
| BuiltinProc_simd_reduce_mul_pairs
| BuiltinProc_simd_extract_lsbs
| BuiltinProc_simd_extract_msbs
| BuiltinProc_simd_select
| BuiltinProc_simd_lanes_reverse
| BuiltinProc_simd_lanes_rotate_left
| BuiltinProc_simd_lanes_rotate_right
| BuiltinProc_simd_clamp
| BuiltinProc_simd_other.

Global Instance SimdProcId_eq_dec : EqDecision SimdProcId.
Proof. solve_decision. Defined.

Inductive LLVMOpcode :=
| LLVMAdd | LLVMMul | LLVMFAdd | LLVMFMul | LLVMAnd | LLVMOr | LLVMXor
| LLVMSub | LLVMFSub | LLVMFDiv | LLVMSDiv | LLVMUDiv | LLVMSRem | LLVMURem.

Inductive LLVMIntPredicate :=
| LLVMIntEQ | LLVMIntNE
| LLVMIntUGT | LLVMIntUGE | LLVMIntULT | LLVMIntULE
| LLVMIntSGT | LLVMIntSGE | LLVMIntSLT | LLVMIntSLE.

Inductive LLVMRealPredicate :=
| LLVMRealOEQ | LLVMRealOGT | LLVMRealOGE | LLVMRealOLT | LLVMRealOLE | LLVMRealUNE.

(** Values built by these cases.  [Arg n] is the lowered operand [n] of the
    builtin call. *)
Inductive ir :=
| Arg (n : nat)
| ConstInt (w : Z) (v : Z)                  (* LLVMConstInt(iw, v, false) *)
| ConstVector (elems : list ir)
| ConstNullOf (a : ir)                      (* LLVMConstNull(LLVMTypeOf(a)) *)
| BinOp (op : LLVMOpcode) (a b : ir)
| Not (a : ir)                              (* LLVMBuildNot *)
| Neg (a : ir)                              (* LLVMBuildNeg *)
| FNeg (a : ir)
| ICmp (pred : LLVMIntPredicate) (a b : ir)
| FCmp (pred : LLVMRealPredicate) (a b : ir)
| Select (c a b : ir)
| SExtOrBitCast (a : ir) (w : Z)            (* to lanes of [w] bits *)
| ExtractElement (v idx : ir)
| ShuffleVector (a b mask : ir)
| AShr (a b : ir)                           (* LLVMBuildAShr *)
| Trunc (a : ir) (w : Z)                    (* to lanes of [w] bits *)
| BitCastToInt (a : ir) (w : Z)             (* a vector to the integer [iw] *)
| ZExtOrBitCast (a : ir) (w : Z).           (* to an integer of [w] bits *)

(** ** What the emitted value computes *)

(** LangRef: [add], [sub] and [mul] wrap ("the result is the mathematical
    result modulo 2^n"); [and], [or], [xor] are bitwise.  [udiv] and [urem]
    are the quotient and remainder of the unsigned operands; [sdiv] is the
    quotient of the signed operands "rounded towards zero" and [srem] the
    remainder that "has the same sign as the dividend".  "Division by zero
    is undefined behavior", and so is the overflow of [sdiv] and [srem]:
    they have no value here ([None]). *)
Definition binop_scalar (op : LLVMOpcode) (w x y : Z) : option IR.scalar :=
  match op with
  | LLVMAdd => Some (IR.Int w (IR.wrap w (x + y)))
  | LLVMSub => Some (IR.Int w (IR.wrap w (x - y)))
  | LLVMMul => Some (IR.Int w (IR.wrap w (x * y)))
  | LLVMAnd => Some (IR.Int w (Z.land x y))
  | LLVMOr => Some (IR.Int w (Z.lor x y))
  | LLVMXor => Some (IR.Int w (Z.lxor x y))
  | LLVMUDiv => if y =? 0 then None else Some (IR.Int w (x / y))
  | LLVMURem => if y =? 0 then None else Some (IR.Int w (x mod y))
  | LLVMSDiv =>
      if (y =? 0) || ((IR.signed w x =? - 2 ^ (w - 1)) && (IR.signed w y =? -1))
      then None
      else Some (IR.Int w (IR.wrap w (Z.quot (IR.signed w x) (IR.signed w y))))
  | LLVMSRem =>
      if (y =? 0) || ((IR.signed w x =? - 2 ^ (w - 1)) && (IR.signed w y =? -1))
      then None
      else Some (IR.Int w (IR.wrap w (Z.rem (IR.signed w x) (IR.signed w y))))
  | LLVMFAdd | LLVMFSub | LLVMFMul | LLVMFDiv => None
  end.

Definition lift2 (f : Z → Z → Z → option IR.scalar) (a b : IR.scalar)
  : option IR.scalar :=
  match a, b with
  | IR.Int w x, IR.Int w' y => if decide (w = w') then f w x y else None
  | _, _ => Some IR.Poison
  end.

Definition lift1 (f : Z → Z → option IR.scalar) (a : IR.value) : option IR.value :=
  let on_scalar s :=
    match s with
    | IR.Int w x => f w x
    | IR.Poison => Some IR.Poison
    end in
  match a with
  | IR.Sc s => IR.Sc <$> on_scalar s
  | IR.Vec lanes => IR.Vec <$> mapM on_scalar lanes
  end.

(** LangRef, [icmp]: the signed predicates compare the operands as two's
    complement numbers, the others as unsigned ones; the result is an
    [i1]. *)
Definition icmp_holds (pred : LLVMIntPredicate) (w x y : Z) : bool :=
  match pred with
  | LLVMIntEQ => x =? y
  | LLVMIntNE => negb (x =? y)
  | LLVMIntUGT => y <? x
  | LLVMIntUGE => y <=? x
  | LLVMIntULT => x <? y
  | LLVMIntULE => x <=? y
  | LLVMIntSGT => IR.signed w y <? IR.signed w x
  | LLVMIntSGE => IR.signed w y <=? IR.signed w x
  | LLVMIntSLT => IR.signed w x <? IR.signed w y
  | LLVMIntSLE => IR.signed w x <=? IR.signed w y
  end.

Definition icmp_scalar (pred : LLVMIntPredicate) (w x y : Z) : option IR.scalar :=
  Some (IR.Int 1 (if icmp_holds pred w x y then 1 else 0)).

(** [LLVMBuildSExtOrBitCast]: a bit cast between integers of one width, a
    sign extension to a wider one. *)
Definition sext_or_bitcast (w' w x : Z) : option IR.scalar :=
  if w =? w' then Some (IR.Int w x)
  else if w <? w' then Some (IR.Int w' (IR.wrap w' (IR.signed w x)))
  else None.

(** LangRef, [trunc]: the high order bits are dropped; the result type is
    smaller than the operand's. *)
Definition trunc (w' w x : Z) : option IR.scalar :=
  if w' <? w then Some (IR.Int w' (IR.wrap w' x)) else None.

(** [LLVMBuildZExtOrBitCast]: a bit cast between integers of one width, a
    zero extension to a wider one. *)
Definition zext_or_bitcast (w' w x : Z) : option IR.scalar :=
  if w =? w' then Some (IR.Int w x)
  else if w <? w' then Some (IR.Int w' x)
  else None.

Fixpoint lane_values (w : Z) (lanes : list IR.scalar) : option (list Z) :=
  match lanes with
  | [] => Some []
  | IR.Int w' x :: lanes => if decide (w' = w) then (x ::.) <$> lane_values w lanes else None
  | IR.Poison :: _ => None
  end.

(** LangRef, [bitcast]: "the conversion is done as if the value had been
    stored to memory and read back as" the other type; the two types have
    the same number of bits.  On a little-endian target lane 0 of a vector
    is read back as the lowest bits of the integer; that is the layout
    taken here ([little_endian_to_Z]).  A vector with a poison lane gives
    poison. *)
Definition bitcast_to_int (w' : Z) (a : IR.value) : option IR.value :=
  match a with
  | IR.Vec (IR.Int w x :: lanes) =>
      if decide (w' = w * Z.of_nat (length (IR.Int w x :: lanes))) then
        Some (IR.Sc (match lane_values w (IR.Int w x :: lanes) with
                     | Some xs => IR.Int w' (little_endian_to_Z w xs)
                     | None => IR.Poison
                     end))
      else None
  | IR.Vec (IR.Poison :: _) => Some (IR.Sc IR.Poison)
  | _ => None
  end.

(** The zero of a value's type. *)
Definition const_null_of (a : IR.value) : option IR.value :=
  lift1 (λ w _, Some (IR.Int w 0)) a.

(** LangRef, [shufflevector]: lane [i] of the result is the lane of the
    concatenation of the two operands that the mask names at [i]; a mask
    that names a lane outside it is not valid IR. *)
Definition shuffle_vector (a b mask : IR.value) : option IR.value :=
  match a, b, mask with
  | IR.Vec xs, IR.Vec ys, IR.Vec ms =>
      if decide (length xs = length ys) then
        IR.Vec <$> mapM (λ m, match m with
                             | IR.Int _ i => (xs ++ ys) !! Z.to_nat i
                             | IR.Poison => Some IR.Poison
                             end) ms
      else None
  | _, _, _ => None
  end.

Fixpoint eval (env : list IR.value) (e : ir) : option IR.value :=
  match e with
  | Arg n => env !! n
  | ConstInt w v => Some (IR.Sc (IR.Int w (IR.wrap w v)))
  | ConstVector es => IR.Vec <$> mapM (λ e, eval env e ≫= IR.as_scalar) es
  | ConstNullOf a => x ← eval env a; const_null_of x
  | BinOp op a b =>
      x ← eval env a; y ← eval env b;
      IR.lanewise2 (lift2 (binop_scalar op)) x y
  | Not a =>
      x ← eval env a; lift1 (λ w n, Some (IR.Int w (Z.lxor n (Z.ones w)))) x
  | Neg a =>
      x ← eval env a; lift1 (λ w n, Some (IR.Int w (IR.wrap w (- n)))) x
  | FNeg _ => None
  | ICmp pred a b =>
      x ← eval env a; y ← eval env b;
      IR.lanewise2 (lift2 (icmp_scalar pred)) x y
  | FCmp _ _ _ => None
  | Select c a b =>
      k ← eval env c; x ← eval env a; y ← eval env b;
      IR.select_value k x y
  | SExtOrBitCast a w => x ← eval env a; lift1 (sext_or_bitcast w) x
  | ExtractElement v idx =>
      x ← eval env v; i ← eval env idx; IR.extract_element x i
  | ShuffleVector a b mask =>
      x ← eval env a; y ← eval env b; m ← eval env mask;
      shuffle_vector x y m
  | AShr a b =>
      x ← eval env a; y ← eval env b;
      IR.lanewise2 (IR.lift2 (IR.binop_scalar IR.LLVMAShr)) x y
  | Trunc a w => x ← eval env a; lift1 (trunc w) x
  | BitCastToInt a w => x ← eval env a; bitcast_to_int w x
  | ZExtOrBitCast a w => x ← eval env a; lift1 (zext_or_bitcast w) x
  end.

(** ** The cases *)

(** [llvm_splat_int]: [count] copies of [LLVMConstInt(type, value)]. *)
Definition llvm_splat_int (count : Z) (w : Z) (value : Z) : ir :=
  ConstVector (replicate (Z.to_nat count) (ConstInt w value)).

(** [simd_add], [simd_sub], [simd_mul], [simd_div], [simd_rem].  No opcode
    is selected for the remainder of floats: the case is left, for the
    panic at the end of the function ([None]). *)
Definition simd_arith (builtin_id : SimdProcId) (is_float is_signed : bool)
  : option ir :=
  let op_code :=
    if is_float then
      match builtin_id with
      | BuiltinProc_simd_add => Some LLVMFAdd
      | BuiltinProc_simd_sub => Some LLVMFSub
      | BuiltinProc_simd_mul => Some LLVMFMul
      | BuiltinProc_simd_div => Some LLVMFDiv
      | _ => None
      end
    else
      match builtin_id with
      | BuiltinProc_simd_add => Some LLVMAdd
      | BuiltinProc_simd_sub => Some LLVMSub
      | BuiltinProc_simd_mul => Some LLVMMul
      | BuiltinProc_simd_div => Some (if is_signed then LLVMSDiv else LLVMUDiv)
      | BuiltinProc_simd_rem => Some (if is_signed then LLVMSRem else LLVMURem)
      | _ => None
      end in
  match builtin_id with
  | BuiltinProc_simd_add | BuiltinProc_simd_sub | BuiltinProc_simd_mul
  | BuiltinProc_simd_div | BuiltinProc_simd_rem =>
      op_code ← op_code;
      Some (BinOp op_code (Arg 0) (Arg 1))
  | _ => None
  end.

(** [simd_extract_lsbs] and [simd_extract_msbs]: [elem_bits] is
    [8*type_size_of(elem)], [num_elems] the lane count of [arg0] and
    [result_bits] the width of the result type. *)
Definition simd_extract_bits (builtin_id : SimdProcId)
    (elem_bits num_elems result_bits : Z) : ir :=
  let broadcast_value := Arg 0 in
  let broadcast_value :=
    if bool_decide (builtin_id = BuiltinProc_simd_extract_msbs) then
      let shift_value := llvm_splat_int num_elems elem_bits (elem_bits - 1) in
      AShr broadcast_value shift_value
    else broadcast_value in
  let bitvec_value := Trunc broadcast_value 1 in
  let mask_value := BitCastToInt bitvec_value num_elems in
  ZExtOrBitCast mask_value result_bits.

(** [simd_bit_and], [simd_bit_or], [simd_bit_xor], [simd_bit_and_not]. *)
Definition simd_bitwise (builtin_id : SimdProcId) : option ir :=
  match builtin_id with
  | BuiltinProc_simd_bit_and => Some (BinOp LLVMAnd (Arg 0) (Arg 1))
  | BuiltinProc_simd_bit_or => Some (BinOp LLVMOr (Arg 0) (Arg 1))
  | BuiltinProc_simd_bit_xor => Some (BinOp LLVMXor (Arg 0) (Arg 1))
  | BuiltinProc_simd_bit_and_not => Some (BinOp LLVMAnd (Arg 0) (Not (Arg 1)))
  | _ => None
  end.

(** [simd_abs]. *)
Definition simd_abs (is_float is_signed : bool) : ir :=
  if is_float then
    let pos := Arg 0 in
    let neg := FNeg pos in
    let cond := FCmp LLVMRealOGT pos neg in
    Select cond pos neg
  else
    let pos := Arg 0 in
    let neg := Neg pos in
    let cond := ICmp (if is_signed then LLVMIntSGT else LLVMIntUGT) pos neg in
    Select cond pos neg.

(** [simd_min] and [simd_max]; for floats they are [lb_emit_min] and
    [lb_emit_max], which are not in this file ([None]). *)
Definition simd_min_max (builtin_id : SimdProcId) (is_float is_signed : bool)
  : option ir :=
  match builtin_id with
  | BuiltinProc_simd_min =>
      if is_float then None
      else
        let cond := ICmp (if is_signed then LLVMIntSLT else LLVMIntULT) (Arg 0) (Arg 1) in
        Some (Select cond (Arg 0) (Arg 1))
  | BuiltinProc_simd_max =>
      if is_float then None
      else
        let cond := ICmp (if is_signed then LLVMIntSGT else LLVMIntUGT) (Arg 0) (Arg 1) in
        Some (Select cond (Arg 0) (Arg 1))
  | _ => None
  end.

(** The lane comparisons; [result_bits] is the lane width of [tv.type]. *)
Definition simd_lanes_compare (builtin_id : SimdProcId) (is_float is_signed : bool)
    (result_bits : Z) : option ir :=
  if is_float then
    let pred :=
      match builtin_id with
      | BuiltinProc_simd_lanes_eq => Some LLVMRealOEQ
      | BuiltinProc_simd_lanes_ne => Some LLVMRealUNE
      | BuiltinProc_simd_lanes_lt => Some LLVMRealOLT
      | BuiltinProc_simd_lanes_le => Some LLVMRealOLE
      | BuiltinProc_simd_lanes_gt => Some LLVMRealOGT
      | BuiltinProc_simd_lanes_ge => Some LLVMRealOGE
      | _ => None
      end in
    pred ← pred;
    Some (SExtOrBitCast (FCmp pred (Arg 0) (Arg 1)) result_bits)
  else
    let pred :=
      match builtin_id with
      | BuiltinProc_simd_lanes_eq => Some LLVMIntEQ
      | BuiltinProc_simd_lanes_ne => Some LLVMIntNE
      | BuiltinProc_simd_lanes_lt => Some (if is_signed then LLVMIntSLT else LLVMIntULT)
      | BuiltinProc_simd_lanes_le => Some (if is_signed then LLVMIntSLE else LLVMIntULE)
      | BuiltinProc_simd_lanes_gt => Some (if is_signed then LLVMIntSGT else LLVMIntUGT)
      | BuiltinProc_simd_lanes_ge => Some (if is_signed then LLVMIntSGE else LLVMIntUGE)
      | _ => None
      end in
    pred ← pred;
    Some (SExtOrBitCast (ICmp pred (Arg 0) (Arg 1)) result_bits).

(** [simd_select]. *)
Definition simd_select : ir :=
  let cond := Arg 0 in
  let x := Arg 1 in
  let y := Arg 2 in
  let cond := ICmp LLVMIntNE cond (ConstNullOf cond) in
  Select cond x y.

(** [simd_clamp]. *)
Definition simd_clamp (is_float is_signed : bool) : ir :=
  let v := Arg 0 in
  let min := Arg 1 in
  let max := Arg 2 in
  if is_float then
    let v := Select (FCmp LLVMRealOLT v min) min v in
    Select (FCmp LLVMRealOGT v max) max v
  else if is_signed then
    let v := Select (ICmp LLVMIntSLT v min) min v in
    Select (ICmp LLVMIntSGT v max) max v
  else
    let v := Select (ICmp LLVMIntULT v min) min v in
    Select (ICmp LLVMIntUGT v max) max v.

(** [simd_lanes_reverse]; [count] is the lane count of [arg0]. *)
Definition simd_lanes_reverse (count : Z) : ir :=
  let values := (λ i, ConstInt 32 (count - 1 - i)) <$> seqZ 0 count in
  let mask := ConstVector values in
  let v := Arg 0 in
  ShuffleVector v v mask.

Section rotate.

(** [is_power_of_two], and the remainder of the big integers as an [i64]
    ([big_int_rem] followed by [big_int_to_i64]), are not in this file. *)
Context (is_power_of_two : Z → bool) (big_int_rem_i64 : Z → Z → Z).

(** [simd_lanes_rotate_left] and [simd_lanes_rotate_right], by the
    constant [offset].  [cast(u64)] is the reduction modulo [2^64]. *)
Definition simd_lanes_rotate (builtin_id : SimdProcId) (count offset : Z) : option ir :=
  if negb (is_power_of_two count) then None     (* GB_ASSERT *)
  else
    let bi := if bool_decide (builtin_id = BuiltinProc_simd_lanes_rotate_right)
              then - offset else offset in
    let left := big_int_rem_i64 bi count in
    let values :=
      (λ i, let idx := Z.land ((i + left) mod 2 ^ 64) ((count - 1) mod 2 ^ 64) in
            ConstInt 32 idx) <$> seqZ 0 count in
    let mask := ConstVector values in
    let v := Arg 0 in
    Some (ShuffleVector v v mask).

End rotate.

(** The loop of the two halving reductions: [right_at] is where the
    indices of the right half start, given the halved [num_remaining]. *)
Fixpoint reduce_loop (fuel : nat) (op_code : LLVMOpcode) (indices : list ir)
    (right_at : Z → Z) (num_remaining : Z) (remaining : ir) : ir :=
  match fuel with
  | O => remaining
  | Datatypes.S fuel =>
      if 1 <? num_remaining then
        let num_remaining := Z.quot num_remaining 2 in
        let left_indices := ConstVector (take (Z.to_nat num_remaining) indices) in
        let left_value := ShuffleVector remaining remaining left_indices in
        let right_indices :=
          ConstVector (take (Z.to_nat num_remaining)
                            (drop (Z.to_nat (right_at num_remaining)) indices)) in
        let right_value := ShuffleVector remaining remaining right_indices in
        let remaining := BinOp op_code left_value right_value in
        reduce_loop fuel op_code indices right_at num_remaining remaining
      else remaining
  end.

(** [simd_reduce_add_bisect] and [simd_reduce_mul_bisect]; [num_elems] is
    the lane count of [arg0] and [word_bits] the width of [uint].  The loop
    halves [num_remaining], so [num_elems] turns are more than it takes. *)
Definition simd_reduce_bisect (builtin_id : SimdProcId) (is_float : bool)
    (word_bits num_elems : Z) : option ir :=
  let indices := (λ i, ConstInt word_bits i) <$> seqZ 0 num_elems in
  op_code ←
    match builtin_id with
    | BuiltinProc_simd_reduce_add_bisect => Some (if is_float then LLVMFAdd else LLVMAdd)
    | BuiltinProc_simd_reduce_mul_bisect => Some (if is_float then LLVMFMul else LLVMMul)
    | _ => None
    end;
  let remaining :=
    reduce_loop (Z.to_nat num_elems) op_code indices (λ num_remaining, num_remaining)
                num_elems (Arg 0) in
  i0 ← indices !! 0%nat;
  Some (ExtractElement remaining i0).

(** [simd_reduce_add_pairs] and [simd_reduce_mul_pairs]: the indices are
    the even lanes in the first half of the array and the odd lanes in the
    second half.  With a single lane no index is written, and the entry
    the source then reads is one it has not set ([None]). *)
Definition simd_reduce_pairs (builtin_id : SimdProcId) (is_float : bool)
    (word_bits num_elems : Z) : option ir :=
  let half := Z.quot num_elems 2 in
  let indices :=
    ((λ i, ConstInt word_bits (2 * i)) <$> seqZ 0 half)
    ++ ((λ i, ConstInt word_bits (2 * i + 1)) <$> seqZ 0 half) in
  op_code ←
    match builtin_id with
    | BuiltinProc_simd_reduce_add_pairs => Some (if is_float then LLVMFAdd else LLVMAdd)
    | BuiltinProc_simd_reduce_mul_pairs => Some (if is_float then LLVMFMul else LLVMMul)
    | _ => None
    end;
  let remaining :=
    reduce_loop (Z.to_nat num_elems) op_code indices (λ _, half) num_elems (Arg 0) in
  i0 ← indices !! 0%nat;
  Some (ExtractElement remaining i0).

End Lanes.

(* ===================================================================== *)
(** * Procedure builder: [lb_create_dummy_procedure] *)
(* ===================================================================== *)

Module CreateDummy.
Import Core Create.

Section dummy.
Context {L : Type} `{Collaborators L}.

(** [LLVMSetFunctionCallConv] with the calling convention of the type, and
    the [sret], [noalias], [nonnull] and [nocapture] attributes of the first
    parameters: both act on the new callable only. *)
Context (set_calling_convention : lbProcedure → M L unit).
Context (add_parameter_attributes : lbProcedure → M L unit).

(** [lb_create_dummy_procedure(m, link_name, type)].  The descriptor is
    allocated zeroed: it has no entity and no body. *)
Definition lb_create_dummy_procedure (link_name : string) (type : Type_)
  : M (lbModule L) lbProcedure :=
  m ← get;
  match members m !! link_name with
  | Some found => fail     (* failed to create dummy procedure for: link_name *)
  | None =>
      let func_type := lb_get_procedure_raw_type type in
      v ← add_function link_name func_type;
      let p := {| p_module := m_id m;
                  p_entity := nullptr;
                  p_name := link_name;
                  p_type := type;
                  p_body := nullptr;
                  p_is_foreign := false;
                  p_value := v |} in
      on_llvm (set_calling_convention p);;
      let proc_value := {| value := p_value p; type := p_type p |} in
      lb_add_member (p_name p) proc_value;;
      lb_add_procedure_value p;;
      on_llvm (add_parameter_attributes p);;
      mret p
  end.

End dummy.
End CreateDummy.

(* ===================================================================== *)
(** * End of a procedure body: [lb_end_procedure_body] *)
(* ===================================================================== *)

Module EndBody.
Import Core.

(** The instructions [lb_end_procedure_body] builds itself; [Other] is any
    instruction that was built before, or by the deferred statements. *)
Inductive instr :=
| Br (dest : nat)
| RetVoid
| Unreachable
| Other (id : N).

(** The function under construction: its basic blocks in the order of the
    function, each with its instructions, the block the builder is
    positioned at the end of, and the blocks the procedure keeps by name.
    [curr_block] is [None] once the body is ended. *)
Record lbProcedure := mk_lbProcedure {
  blocks : list (list instr);
  position : nat;
  decl_block : nat;
  entry_block : nat;
  curr_block : option nat;
  result_count : Z;
  state_flags : Z;
}.

Definition set_blocks (bs : list (list instr)) (p : lbProcedure) : lbProcedure :=
  mk_lbProcedure bs (position p) (decl_block p) (entry_block p) (curr_block p)
                 (result_count p) (state_flags p).

(** [LLVMPositionBuilderAtEnd]. *)
Definition LLVMPositionBuilderAtEnd (b : nat) : M lbProcedure unit :=
  modify (λ p, mk_lbProcedure (blocks p) b (decl_block p) (entry_block p)
                              (curr_block p) (result_count p) (state_flags p)).

(** An instruction built at the builder's position, which is the end of a
    block of the function. *)
Definition build (i : instr) : M lbProcedure unit :=
  p ← get;
  block ← index (blocks p) (Z.of_nat (position p));
  modify (set_blocks (<[position p := block ++ [i]]> (blocks p))).

(** [LLVMGetLastInstruction]. *)
Definition LLVMGetLastInstruction (b : nat) : M lbProcedure (option instr) :=
  p ← get;
  block ← index (blocks p) (Z.of_nat b);
  mret (last block).

Section end_body.

(** [lb_is_instr_terminating], and [lb_emit_defer_stmts] for the exit of
    the procedure, are not in this file. *)
Context (lb_is_instr_terminating : option instr → bool).
Context (lb_emit_defer_stmts : M lbProcedure unit).

(** The loop "make sure every block terminates, and if not, make it
    unreachable", over the blocks of the function. *)
Definition terminate_blocks : M lbProcedure unit :=
  p ← get;
  forM_ (seq 0 (length (blocks p)))
        (λ block,
           instr ← LLVMGetLastInstruction block;
           if bool_decide (instr = None) || negb (lb_is_instr_terminating instr) then
             LLVMPositionBuilderAtEnd block;;
             build Unreachable
           else mret tt).

(** [lb_end_procedure_body]. *)
Definition lb_end_procedure_body : M lbProcedure unit :=
  p ← get;
  LLVMPositionBuilderAtEnd (decl_block p);;
  build (Br (entry_block p));;
  curr ← match curr_block p with Some b => mret b | None => fail end;
  LLVMPositionBuilderAtEnd curr;;
  (* Make sure there is a "ret void" at the end of a procedure with no
     return type *)
  (if result_count p =? 0 then
     instr ← LLVMGetLastInstruction curr;
     if negb (lb_is_instr_terminating instr) then
       lb_emit_defer_stmts;;
       build RetVoid
     else mret tt
   else mret tt);;
  terminate_blocks;;
  modify (λ p, mk_lbProcedure (blocks p) (position p) (decl_block p) (entry_block p)
                              None (result_count p) 0).

End end_body.
End EndBody.

(* ===================================================================== *)
(** * A symbolic LLVM side *)
(* ===================================================================== *)

(** An instance of the interfaces above that keeps the emitted
    instructions as a list, over a small universe of types.  The theorems
    hold for every instance; this one is where they are run on concrete
    calls. *)
Module Sym.
Import Core Proc.

Inductive instr :=
| Alloca (ty : N) (zero_init : bool)
| Load (ptr : N)
| Store (ptr val : N)
| Cast (how : string) (v ty : N)
| Gep (ptr : N) (i : Z)
| ExtractValue (v : N) (i : Z)
| CallInstr (fn : N) (args : list N)
| Global (ty v : N)
| Unreachable
| Note (what : string) (operands : list N).

Global Instance instr_eq_dec : EqDecision instr.
Proof. solve_decision. Defined.

(** The instructions emitted so far, oldest first.  The value of the
    [k]th instruction is the odd handle [2k + 1]; parameters and constants
    have even handles. *)
Definition state := list instr.

Definition handle (k : nat) : N := (2 * N.of_nat k + 1)%N.

Definition emit (i : instr) : M state N :=
  λ s, Some (handle (length s), s ++ [i]).

Definition instr_at (s : state) (v : N) : option instr :=
  if N.odd v then s !! N.to_nat (N.div2 v) else None.

(** The types: 1 [int], 2 [rawptr], 3 [uint], 4 [u8], 5 the LLVM [i1]
    boolean, 6 [Source_Code_Location], 7 [uintptr], 20 the tuple
    [(a: int, b: int)], 30 the slice [[]int], 10 [proc(x: int) -> (a, b:
    int)], 11 [proc(x: int, rest: ..int)], 12 [proc(x: int)]; [100 + t] is
    the pointer to [t] and [200 + t] an array of [t]. *)
Definition variable (id : N) (name : string) (ty : N) : Entity :=
  {| e_id := id; e_kind := Entity_Variable; e_type := ty; e_token := name;
     e_flag_Param := true; e_flag_ProcBodyChecked := false;
     e_param_value := ParameterValue_Invalid; e_is_foreign := false;
     e_deferred_kind := DeferredProcedure_none; e_deferred_entity := 0 |}.

Definition procedure (id : N) (name : string) (ty : N)
    (kind : DeferredProcedureKind) (deferred : N) : Entity :=
  {| e_id := id; e_kind := Entity_Procedure; e_type := ty; e_token := name;
     e_flag_Param := false; e_flag_ProcBodyChecked := true;
     e_param_value := ParameterValue_Invalid; e_is_foreign := false;
     e_deferred_kind := kind; e_deferred_entity := deferred |}.

Definition param_x : Entity := variable 101 "x" 1.
Definition param_rest : Entity := variable 102 "rest" 30.
Definition result_a : Entity := variable 201 "a" 1.
Definition result_b : Entity := variable 202 "b" 1.

Definition proc_type (ps rs : list Entity) (rt : N) (is_variadic : bool) : TypeProc :=
  {| params := ps; results := rs; results_type := rt;
     param_count := Z.of_nat (length ps); result_count := Z.of_nat (length rs);
     calling_convention := ProcCC_Odin; c_vararg := false;
     variadic := is_variadic; variadic_index := if is_variadic then 1 else -1;
     diverging := false; has_named_results := negb (length rs =? 0)%nat;
     is_polymorphic := false; is_poly_specialized := false |}.

Definition pt_two_results : TypeProc := proc_type [param_x] [result_a; result_b] 20 false.
Definition pt_variadic : TypeProc := proc_type [param_x; param_rest] [] 0 true.
Definition pt_plain : TypeProc := proc_type [param_x] [] 0 false.

Definition direct (ty : N) : lbArgType :=
  {| arg_kind := lbArg_Direct; arg_type := ty; cast_type := 0;
     is_byval := false; byval_alignment := 0 |}.

Definition indirect (ty : N) : lbArgType :=
  {| arg_kind := lbArg_Indirect; arg_type := ty; cast_type := 0;
     is_byval := false; byval_alignment := 0 |}.

(** The classified signature of type 10: the return is split, the hidden
    pointer for [a] follows the one original argument. *)
Definition ft_two_results : lbFunctionType :=
  {| ft_args := [direct 1; direct 101; direct 102];
     ft_ret := direct 1;
     ft_calling_convention := ProcCC_Odin;
     original_arg_count := 1;
     multiple_return_original_type := 20 |}.

Definition ft_plain (ps : list lbArgType) : lbFunctionType :=
  {| ft_args := ps;
     ft_ret := {| arg_kind := lbArg_Direct; arg_type := 0; cast_type := 0;
                  is_byval := false; byval_alignment := 0 |};
     ft_calling_convention := ProcCC_Odin;
     original_arg_count := Z.of_nat (length ps);
     multiple_return_original_type := 0 |}.

Definition sym_type_proc (t : N) : option TypeProc :=
  if (t =? 10)%N then Some pt_two_results
  else if (t =? 11)%N then Some pt_variadic
  else if (t =? 12)%N then Some pt_plain
  else None.

Definition sym_new_local (ty : N) (zero_init force_no_init : bool) : M state lbValue :=
  h ← emit (Alloca ty zero_init);
  mret {| value := h; type := (100 + ty)%N |}.

Definition sym_conv (v : lbValue) (ty : N) : M state lbValue :=
  if (type v =? ty)%N then mret v
  else h ← emit (Cast "conv" (value v) ty); mret {| value := h; type := ty |}.

Definition sym_const_nil (ty : N) : lbValue :=
  {| value := (2 * ty + 6000)%N; type := ty |}.

Definition sym_const_int (ty : N) (v : Z) : lbValue :=
  {| value := (2 * Z.to_N v + 2000)%N; type := ty |}.

Fixpoint sym_lookup_parameter (ps : list Entity) (name : string) (i : Z) : Z :=
  match ps with
  | [] => -1
  | e :: ps => if bool_decide (e_token e = name) then i
               else sym_lookup_parameter ps name (i + 1)
  end.

Global Instance sym_backend : Backend state := {|
  is_calling_convention_odin cc :=
    bool_decide (cc = ProcCC_Odin) || bool_decide (cc = ProcCC_Contextless);
  are_types_identical := N.eqb;
  is_type_tuple t := (t =? 20)%N;
  is_type_proc t := bool_decide (is_Some (sym_type_proc t));
  is_type_pointer t := (100 <=? t)%N && (t <? 200)%N;
  is_type_any _ := false;
  is_type_untyped_nil _ := false;
  slice_elem t := if (t =? 30)%N then Some 1%N else None;
  base_type t := t;
  type_deref t := (t - 100)%N;
  tuple_variables t := if (t =? 20)%N then [result_a; result_b] else [];
  type_proc := sym_type_proc;
  entity_has_deferred_procedure e := negb (e_deferred_entity e =? 0)%N;
  reduce_tuple_to_single_type t := t;
  alloc_type_pointer t := (100 + t)%N;
  alloc_type_array t _ := (200 + t)%N;
  type_size_of t := if (t =? 6)%N then 40 else 8;
  lb_type t := t;
  t_source_code_location := 6%N;
  t_llvm_bool := 5%N;
  t_rawptr := 2%N;
  t_uintptr := 7%N;
  t_int := 1%N;
  t_uint := 3%N;
  t_u8 := 4%N;
  internal_by_value := false;
  int_size := 8;
  LLVMGetParam _ i := (2 * Z.to_N i + 2)%N;
  LLVMGetParams _ := [];
  LLVMIsConstant _ v := N.even v;
  LLVMIsALoadInst s v := match instr_at s v with Some (Load _) => true | _ => false end;
  LLVMIsAAllocaInst s v :=
    match instr_at s v with Some (Alloca _ _) => true | _ => false end;
  LLVMIsAConstantExpr _ _ := false;
  LLVMGetOperand s v _ := match instr_at s v with Some (Load ptr) => ptr | _ => 0%N end;
  LLVMTypeOf _ _ := 0%N;
  LLVMInt1TypeInContext := 5%N;
  LLVMConstIntGetSExtValue _ _ := 0;
  LLVMConstInt _ v _ := (2 * Z.to_N v + 2000)%N;
  LLVMLookupIntrinsicID _ := 1%N;
  LLVMGetIntrinsicDeclaration _ _ := mret 4000%N;
  LLVMIntrinsicGetType _ _ := 0%N;
  LLVMBuildCall2 _ fn args := emit (CallInstr fn args);
  LLVMBuildPointerCast v ty := emit (Cast "pointer" v ty);
  LLVMBuildUnreachable := emit Unreachable;; mret tt;
  LLVMSetValueName2 _ _ := mret tt;
  OdinLLVMBuildTransmute v ty := emit (Cast "transmute" v ty);
  new_local := sym_new_local;
  alloc_entity_param name ty := mret (variable 999 name ty);
  lb_const_int := sym_const_int;
  lb_const_nil := sym_const_nil;
  lb_emit_conv := sym_conv;
  lb_emit_load ptr :=
    h ← emit (Load (value ptr)); mret {| value := h; type := (type ptr - 100)%N |};
  lb_addr_store a v := emit (Store (value (addr a)) (value v));; mret tt;
  lb_emit_tuple_ep ptr i :=
    h ← emit (Gep (value ptr) i); mret {| value := h; type := 101%N |};
  lb_copy_value_to_ptr v ty _ :=
    h ← emit (Alloca ty false);
    emit (Store h (value v));;
    mret {| value := h; type := (100 + ty)%N |};
  lb_add_global_generated_from_procedure ty v :=
    h ← emit (Global ty (value v));
    mret (lb_addr {| value := h; type := (100 + ty)%N |});
  lb_make_global_private_const _ := mret tt;
  lb_find_or_generate_context_ptr := mret (lb_addr {| value := 8000%N; type := 102%N |});
  lb_get_function_type t :=
    mret (if (t =? 10)%N then ft_two_results
          else if (t =? 11)%N then ft_plain [direct 1; direct 30]
          else ft_plain [direct 1]);
  lb_find_procedure_value_from_entity id :=
    mret {| value := (2 * id + 10000)%N; type := 12%N |};
  lb_append_tuple_values v :=
    h0 ← emit (ExtractValue (value v) 0);
    h1 ← emit (ExtractValue (value v) 1);
    mret [{| value := h0; type := 1%N |}; {| value := h1; type := 1%N |}];
  lb_add_debug_param_variable _ _ _ := mret tt;
  lb_add_debug_local_variable _ _ := mret tt;
  lb_const_value e := sym_const_int (e_type e) 0;
  lb_emit_c_vararg := sym_conv;
  lb_emit_struct_ev v i :=
    h ← emit (ExtractValue (value v) i); mret {| value := h; type := 1%N |};
  lb_emit_array_epi ptr i :=
    h ← emit (Gep (value ptr) i); mret {| value := h; type := 101%N |};
  lb_emit_store ptr v := emit (Store (value ptr) (value v));; mret tt;
  lb_fill_slice slice base len :=
    emit (Note "fill_slice" [value (addr slice); value base; value len]);; mret tt;
  lb_addr_load a :=
    h ← emit (Load (value (addr a)));
    mret {| value := h; type := (type (addr a) - 100)%N |};
  lb_try_update_alignment _ _ := mret tt;
  lb_build_expr a :=
    mret (if (a =? 44)%N then {| value := 44; type := 11 |}
          else sym_const_int 1 (Z.of_N a));
  lb_build_builtin_proc _ := fail;
  lb_handle_param_value e _ := mret (sym_const_nil (e_type e));
  expr_type _ := 0%N;
  proc_mode _ := Addressing_Value;
  unparen_expr a := a;
  entity_disabled _ := false;
  proc_constant _ := None;
  lookup_procedure_parameter pt name := sym_lookup_parameter (params pt) name 0;
  lb_enter_body := mret tt;
  lb_leave_body_entry := mret tt;
  lb_check_call_arguments v args := mret (type v, value v, args);
  lb_set_call_attributes _ _ _ _ := mret tt;
|}.

(** The procedure under construction, at a point where it holds one local
    [x] (value 1) and one load of it (value 3), and knows the callee 40 as
    the entity [f], whose deferred companion is bound in-by-pointer. *)
Definition callee_f : Entity :=
  procedure 300 "f" 12 DeferredProcedure_in_by_ptr 301.

Definition p0 : lbProcedure state :=
  {| builder := [Alloca 1 true; Load 1];
     p_value := 50;
     p_proc := pt_two_results;
     abi_function_type := ft_two_results;
     has_entity := true;
     has_decl_info := true;
     defer_use_checked := true;
     defer_used := 0;
     scope_index := 0;
     return_ptr := lbAddr_zero;
     values := ∅;
     direct_parameters := ∅;
     raw_input_parameters := [];
     tuple_fix_map := ∅;
     defer_stmts := [];
     variadic_reuses := [];
     variadic_reuse_base_array_ptr := lbAddr_zero;
     procedure_values := {[ 40%N := callee_f ]} |}.

(** The loaded [x], a constant, and the callees. *)
Definition loaded_x : lbValue := {| value := 3; type := 1 |}.
Definition constant_7 : lbValue := sym_const_int 1 7.
Definition callee_two_results : lbValue := {| value := 42; type := 10 |}.
Definition callee_deferred : lbValue := {| value := 40; type := 12 |}.

(** ** The procedure builder's collaborators, with a counter for the
    handles of the native callables. *)
Global Instance sym_collaborators : Create.Collaborators N := {|
  Create.is_type_polymorphic _ := false;
  Create.base_type t := t;
  Create.type_proc := sym_type_proc;
  Create.lb_get_entity_name _ e := e_token e;
  Create.lb_module_of_entity _ := 0%N;
  Create.proc_lit_body e := (e_id e + 1)%N;
  Create.lb_get_procedure_raw_type t := t;
  Create.LLVMAddFunction _ _ := λ l, Some ((2 * l + 2)%N, (l + 1)%N);
  Create.attach_attributes _ _ _ := mret tt;
|}.

Definition empty_module : Create.lbModule N :=
  {| Create.m_id := 1%N; Create.m_llvm := 0%N;
     Create.members := ∅; Create.procedures := ∅;
     Create.procedure_values := ∅; Create.values := ∅;
     Create.added_functions := [] |}.

(** ** Runs *)

(** The call [two_results(7)], whose return is split. *)
Definition call_two_results : lbValue * lbProcedure state :=
  Eval vm_compute in
  default (lbValue_zero, p0)
    (Call.lb_emit_call callee_two_results [constant_7] ProcInlining_none p0).

(** The deferred companion of [f] attached to the call [f(x)], whose
    argument is the loaded [x]. *)
Definition attach_to_loaded : lbProcedure state :=
  Eval vm_compute in
  default p0 (snd <$> Call.attach_deferred callee_deferred [loaded_x] lbValue_zero p0).

(** The classified signature of [proc(x: int)] with [x] Indirect. *)
Definition ft_indirect : lbFunctionType := ft_plain [indirect 1].




(** The first creation of the procedure [h]. *)
Definition entity_h : Entity := procedure 310 "h" 12 DeferredProcedure_none 0.

Definition create_h : option Create.lbProcedure * Create.lbModule N :=
  Eval vm_compute in
  default (None, empty_module) (Create.lb_create_procedure entity_h false empty_module).

End Sym.

(* ===================================================================== *)
(** * Runs of the lowerings on concrete inputs *)
(* ===================================================================== *)

Module Runs.
Import Core.

(** ** Lane rotations *)

(** A test for powers of two, for the runs of the lane rotations. *)
Definition is_power_of_two_by_bits (x : Z) : bool :=
  (0 <? x) && (Z.land x (x - 1) =? 0).

(** ** The end of a body *)

(** The terminators among the instructions of [EndBody]. *)
Definition terminating (i : option EndBody.instr) : bool :=
  match i with
  | Some (EndBody.Br _) | Some EndBody.RetVoid | Some EndBody.Unreachable => true
  | _ => false
  end.

(** A procedure without results whose body is built: block 0 holds the
    declarations, block 1 is the entry and the current block, block 2 is
    empty and block 3 branches back to the entry. *)
Definition open_body : EndBody.lbProcedure :=
  {| EndBody.blocks :=
       [[EndBody.Other 1]; [EndBody.Other 2]; []; [EndBody.Other 3; EndBody.Br 1]];
     EndBody.position := 1;
     EndBody.decl_block := 0;
     EndBody.entry_block := 1;
     EndBody.curr_block := Some 1%nat;
     EndBody.result_count := 0;
     EndBody.state_flags := 4 |}.

Definition ended_body : EndBody.lbProcedure :=
  Eval vm_compute in
  default open_body
    (snd <$> EndBody.lb_end_procedure_body terminating (mret tt) open_body).

(** ** A dummy procedure *)

Definition no_attributes : Create.lbProcedure → M N unit := λ _, mret tt.

Definition no_procedure : Create.lbProcedure :=
  {| Create.p_module := 0; Create.p_entity := nullptr; Create.p_name := "";
     Create.p_type := 0; Create.p_body := nullptr; Create.p_is_foreign := false;
     Create.p_value := 0 |}.

(** The dummy procedure [d] created in the empty module, and an entity
    whose link name is [d]. *)
Definition dummy_d : Create.lbProcedure * Create.lbModule N :=
  Eval vm_compute in
  default (no_procedure, Sym.empty_module)
    (CreateDummy.lb_create_dummy_procedure no_attributes no_attributes "d" 12
       Sym.empty_module).

Definition entity_d : Entity := Sym.procedure 311 "d" 12 DeferredProcedure_none 0.

(** ** Calls *)

(** A parameter without a name. *)
Definition param_blank : Entity := Sym.variable 103 "_" 1.

(** The procedure under construction knows the callee 46 as the entity
    [k], whose deferred companion takes the arguments of the call. *)
Definition callee_k : Entity := Sym.procedure 320 "k" 12 DeferredProcedure_in 321.

Definition p_k : Proc.lbProcedure Sym.state :=
  {| Proc.builder := [Sym.Alloca 1 true; Sym.Load 1];
     Proc.p_value := 50;
     Proc.p_proc := Sym.pt_plain;
     Proc.abi_function_type := Sym.ft_plain [Sym.direct 1];
     Proc.has_entity := true;
     Proc.has_decl_info := true;
     Proc.defer_use_checked := true;
     Proc.defer_used := 0;
     Proc.scope_index := 0;
     Proc.return_ptr := lbAddr_zero;
     Proc.values := ∅;
     Proc.direct_parameters := ∅;
     Proc.raw_input_parameters := [];
     Proc.tuple_fix_map := ∅;
     Proc.defer_stmts := [];
     Proc.variadic_reuses := [];
     Proc.variadic_reuse_base_array_ptr := lbAddr_zero;
     Proc.procedure_values := {[ 46%N := callee_k ]} |}.

Definition callee_k_value : lbValue := {| value := 46; type := 12 |}.

Definition attach_in : Proc.lbProcedure Sym.state :=
  Eval vm_compute in
  default p_k
    (snd <$> Call.attach_deferred callee_k_value [Sym.loaded_x] lbValue_zero p_k).

(** The native call of [k(7)], with a context pointer and no return
    pointer. *)
Definition context_8000 : lbAddr := lb_addr {| value := 8000; type := 102 |}.

Definition native_call_k : lbValue * Proc.lbProcedure Sym.state :=
  Eval vm_compute in
  default (lbValue_zero, p_k)
    (Call.lb_emit_call_internal callee_k_value lbValue_zero [Sym.constant_7] 0
       context_8000 ProcInlining_none p_k).

(** The call expressions [k(5)] and [k()]. *)
Definition call_k_5 : CallExpr.CallExpr :=
  {| CallExpr.ce_proc := 46; CallExpr.ce_args := [5%N];
     CallExpr.ce_positional := [5%N]; CallExpr.ce_named := [];
     CallExpr.ce_ellipsis := false; CallExpr.ce_inlining := ProcInlining_none |}.

Definition call_k_none : CallExpr.CallExpr :=
  {| CallExpr.ce_proc := 46; CallExpr.ce_args := [];
     CallExpr.ce_positional := []; CallExpr.ce_named := [];
     CallExpr.ce_ellipsis := false; CallExpr.ce_inlining := ProcInlining_none |}.

Definition arguments_of_call_k_5 : list lbValue * Proc.lbProcedure Sym.state :=
  Eval vm_compute in
  default ([], p_k) (CallExpr.call_arguments Sym.pt_plain call_k_5 None 61 p_k).

Definition arguments_of_call_k_none : list lbValue * Proc.lbProcedure Sym.state :=
  Eval vm_compute in
  default ([], p_k) (CallExpr.call_arguments Sym.pt_plain call_k_none None 62 p_k).

(** The marshalling loop of the call [k(7)]. *)
Definition marshal_k_7 : Call.marshal_state * Proc.lbProcedure Sym.state :=
  Eval vm_compute in
  default ({| Call.param_index := 0; Call.ignored_args := 0;
              Call.processed_args := [] |}, p_k)
    (foldM (Call.marshal_arg Sym.pt_plain (Sym.ft_plain [Sym.direct 1]) true
              [Sym.constant_7])
       {| Call.param_index := 0; Call.ignored_args := 0; Call.processed_args := [] |}
       (seqZ 0 1) p_k).

(** ** The entry of a body *)

(** A procedure [proc(x: int) -> (a, b: int)] whose result is returned
    through a pointer, at the entry of its body. *)
Definition ft_return_by_pointer : lbFunctionType :=
  {| ft_args := [Sym.direct 1];
     ft_ret := Sym.indirect 20;
     ft_calling_convention := ProcCC_Odin;
     original_arg_count := 1;
     multiple_return_original_type := 0 |}.

Definition p_entry : Proc.lbProcedure Sym.state :=
  {| Proc.builder := [];
     Proc.p_value := 50;
     Proc.p_proc := Sym.pt_two_results;
     Proc.abi_function_type := ft_return_by_pointer;
     Proc.has_entity := true;
     Proc.has_decl_info := true;
     Proc.defer_use_checked := true;
     Proc.defer_used := 0;
     Proc.scope_index := 0;
     Proc.return_ptr := lbAddr_zero;
     Proc.values := ∅;
     Proc.direct_parameters := ∅;
     Proc.raw_input_parameters := [];
     Proc.tuple_fix_map := ∅;
     Proc.defer_stmts := [];
     Proc.variadic_reuses := [];
     Proc.variadic_reuse_base_array_ptr := lbAddr_zero;
     Proc.procedure_values := ∅ |}.

Definition entered : Proc.lbProcedure Sym.state :=
  Eval vm_compute in
  default p_entry (snd <$> Body.lb_begin_procedure_body p_entry).

(** A procedure [proc(x: int)] whose parameter is classified Indirect, at
    the entry of its body; and the same procedure with the parameter named
    by the blank identifier. *)
Definition p_copy : Proc.lbProcedure Sym.state :=
  {| Proc.builder := [];
     Proc.p_value := 50;
     Proc.p_proc := Sym.pt_plain;
     Proc.abi_function_type := Sym.ft_indirect;
     Proc.has_entity := true;
     Proc.has_decl_info := true;
     Proc.defer_use_checked := true;
     Proc.defer_used := 0;
     Proc.scope_index := 0;
     Proc.return_ptr := lbAddr_zero;
     Proc.values := ∅;
     Proc.direct_parameters := ∅;
     Proc.raw_input_parameters := [];
     Proc.tuple_fix_map := ∅;
     Proc.defer_stmts := [];
     Proc.variadic_reuses := [];
     Proc.variadic_reuse_base_array_ptr := lbAddr_zero;
     Proc.procedure_values := ∅ |}.

Definition entered_copy : Proc.lbProcedure Sym.state :=
  Eval vm_compute in
  default p_copy (snd <$> Body.lb_begin_procedure_body p_copy).

Definition p_blank : Proc.lbProcedure Sym.state :=
  {| Proc.builder := [];
     Proc.p_value := 50;
     Proc.p_proc := Sym.proc_type [param_blank] [] 0 false;
     Proc.abi_function_type := Sym.ft_indirect;
     Proc.has_entity := true;
     Proc.has_decl_info := true;
     Proc.defer_use_checked := true;
     Proc.defer_used := 0;
     Proc.scope_index := 0;
     Proc.return_ptr := lbAddr_zero;
     Proc.values := ∅;
     Proc.direct_parameters := ∅;
     Proc.raw_input_parameters := [];
     Proc.tuple_fix_map := ∅;
     Proc.defer_stmts := [];
     Proc.variadic_reuses := [];
     Proc.variadic_reuse_base_array_ptr := lbAddr_zero;
     Proc.procedure_values := ∅ |}.

Definition entered_blank : Proc.lbProcedure Sym.state :=
  Eval vm_compute in
  default p_copy (snd <$> Body.lb_begin_procedure_body p_blank).

End Runs.

(* ===================================================================== *)
(** * Theorems *)
(* ===================================================================== *)

(** ** Facts about the evaluation of emitted IR *)

Module IRFacts.
Import IR.

Lemma mapM_total {A B} (f : A → B) (l : list A) :
  mapM (λ x, Some (f x)) l = Some (f <$> l).
Proof.
  induction l as [|x l IH]; [done|].
  cbn. rewrite IH. done.
Qed.

Lemma mapM_ext_in {A B} (f g : A → option B) (l : list A) :
  (∀ x, x ∈ l → f x = g x) → mapM f l = mapM g l.
Proof.
  intros Hfg. apply Forall_mapM_ext, Forall_forall. exact Hfg.
Qed.

Lemma wrap_small w n : 0 ≤ n < 2 ^ w → wrap w n = n.
Proof. intros. unfold wrap. by apply Z.mod_small. Qed.

(** [lanewise2] over two integer vectors of the same width and length. *)
Lemma lanewise2_ints (f : Z → Z → Z → scalar) w (xs ys : list Z) :
  length xs = length ys →
  lanewise2 (lift2 f) (ints w xs) (ints w ys) = Some (Vec (zip_with (f w) xs ys)).
Proof.
  intros Hlen. unfold lanewise2, ints.
  rewrite !length_fmap. rewrite decide_True by done.
  rewrite (mapM_ext_in _ (λ p, Some (match p.1, p.2 with
                                     | Int w x, Int _ y => f w x y
                                     | _, _ => Poison end))).
  - rewrite mapM_total. cbn. f_equal. f_equal.
    revert ys Hlen. induction xs as [|x xs IH]; intros [|y ys] Hlen; cbn in *; try done.
    f_equal. apply IH. lia.
  - intros [a b] Hin. apply elem_of_zip_l in Hin as Ha.
    apply elem_of_zip_r in Hin as Hb. cbn in *.
    apply list_elem_of_fmap in Ha as [x [-> _]].
    apply list_elem_of_fmap in Hb as [y [-> _]].
    cbn. by rewrite decide_True.
Qed.

Lemma eval_splat env count w v :
  eval env (Simd.llvm_splat_int count w v)
  = Some (ints w (replicate (Z.to_nat count) (wrap w v))).
Proof.
  unfold Simd.llvm_splat_int, ints. cbn.
  rewrite (mapM_ext_in _ (λ _, Some (Int w (wrap w v)))).
  - rewrite mapM_total. cbn. f_equal. f_equal.
    induction (Z.to_nat count) as [|n IH]; [done|]. cbn. by rewrite IH.
  - intros e He. apply elem_of_replicate in He as [-> _]. done.
Qed.

Lemma land_width_mask k a : 0 ≤ k → Z.land a (2 ^ k - 1) = a mod 2 ^ k.
Proof.
  intros Hk. replace (2 ^ k - 1) with (Z.ones k) by (rewrite Z.ones_equiv; lia).
  by apply Z.land_ones.
Qed.

End IRFacts.

(** ** SIMD shifts *)

Module SimdShiftFacts.
Import IR Simd IRFacts.

(** What a right shift by an in-range amount computes on a [w]-bit pattern:
    arithmetic for signed element types, logical for unsigned ones. *)
Definition shr_value (is_signed : bool) (w x a : Z) : Z :=
  if is_signed then (signed w x / 2 ^ a) mod 2 ^ w else x / 2 ^ a.

Definition shl_value (w x a : Z) : Z := (x * 2 ^ a) mod 2 ^ w.

Lemma width_lt_pow2 w : 0 ≤ w → w < 2 ^ w.
Proof. intros. apply Z.pow_gt_lin_r; lia. Qed.

(** The masked lowering on one pair of operand vectors. *)
Lemma eval_masked op w j count (xs amts : list Z) :
  0 ≤ j → w = 2 ^ j →
  length xs = Z.to_nat count → length amts = Z.to_nat count →
  eval [ints w xs; ints w amts]
       (BinOp op (Arg 0) (BinOp LLVMAnd (Arg 1) (llvm_splat_int count w (w - 1))))
  = Some (Vec (zip_with (λ x a, binop_scalar op w x (a mod w)) xs amts)).
Proof.
  intros Hj Hw Hxs Hamts.
  assert (0 < w) by (subst w; apply Z.pow_pos_nonneg; lia).
  cbn [eval]. rewrite eval_splat. cbn [lookup list_lookup mbind option_bind].
  rewrite wrap_small by (pose proof (width_lt_pow2 w); lia).
  rewrite lanewise2_ints by (rewrite length_replicate; lia).
  rewrite zip_with_replicate_r_eq by done.
  change (Vec (flip (binop_scalar LLVMAnd w) (w - 1) <$> amts))
    with (Vec ((Int w ∘ (λ x, Z.land x (w - 1))) <$> amts)).
  rewrite list_fmap_compose. fold (ints w ((λ x, Z.land x (w - 1)) <$> amts)).
  cbn [mbind option_bind].
  rewrite lanewise2_ints by (rewrite length_fmap; lia).
  f_equal. f_equal.
  rewrite zip_with_fmap_r.
  apply zip_with_ext; [|done..].
  intros x a. cbn beta. subst w. by rewrite land_width_mask.
Qed.

(** The checked lowering on one pair of operand vectors. *)
Lemma eval_checked op w count (xs amts : list Z) :
  0 < w →
  length xs = Z.to_nat count → length amts = Z.to_nat count →
  eval [ints w xs; ints w amts]
       (Select (ICmpULE (Arg 1) (llvm_splat_int count w (w - 1)))
               (BinOp op (Arg 0) (Arg 1))
               (ConstNil count w))
  = Some (Vec (zip_with (λ x a, if a <? w then binop_scalar op w x a else Int w 0)
                        xs amts)).
Proof.
  intros Hw Hxs Hamts.
  cbn [eval]. rewrite eval_splat. cbn [lookup list_lookup mbind option_bind].
  rewrite wrap_small by (pose proof (width_lt_pow2 w); lia).
  rewrite !lanewise2_ints by (rewrite ?length_replicate; lia).
  cbn [mbind option_bind select_value].
  rewrite !length_zip_with, !length_replicate.
  rewrite decide_True by lia.
  f_equal. f_equal.
  clear Hw. generalize dependent (Z.to_nat count). clear count.
  intros n Hxs. revert n amts Hxs.
  induction xs as [|x xs IH]; intros [|n] [|a amts] Hxs Hamts; cbn in *; try done.
  f_equal.
  - unfold icmp_ule_scalar.
    destruct (Z.leb_spec a (w - 1)), (Z.ltb_spec a w); try lia; done.
  - apply IH; lia.
Qed.

Lemma ints_zip_with (g : Z → Z → Z) w (xs ys : list Z) :
  Vec (zip_with (λ x y, Int w (g x y)) xs ys) = ints w (zip_with g xs ys).
Proof.
  unfold ints. f_equal. revert ys.
  induction xs as [|x xs IH]; intros [|y ys]; cbn; [done..|]. by rewrite IH.
Qed.

Lemma shl_scalar_value w x a :
  0 ≤ a < w → binop_scalar LLVMShl w x a = Int w (shl_value w x a).
Proof.
  intros Ha. unfold binop_scalar, shl_value, wrap.
  destruct (Z.ltb_spec a w); [|lia]. by rewrite Z.shiftl_mul_pow2 by lia.
Qed.

Lemma shr_scalar_value (is_signed : bool) w x a :
  0 ≤ a < w →
  binop_scalar (if is_signed then LLVMAShr else LLVMLShr) w x a
  = Int w (shr_value is_signed w x a).
Proof.
  intros Ha. unfold shr_value, wrap. destruct is_signed; cbn;
    (destruct (Z.ltb_spec a w); [|lia]); unfold wrap;
    by rewrite Z.shiftr_div_pow2 by lia.
Qed.

End SimdShiftFacts.

(** C3.  On integer vectors whose element size is a power of two (so the bit
    width [w] is one too), [simd_shl_masked] and [simd_shr_masked] shift
    every lane by its amount modulo [w], and [simd_shl] and [simd_shr], which
    are lowered to a compare ([icmp ule amount, w-1]) and a select, give the
    shifted lane when the amount is below [w] and zero in every lane whose
    amount is [w] or more. *)
Theorem simd_shift_masked_wraps_checked_zeroes
    (is_signed : bool) (k count : Z) (xs amts : list Z) :
  0 ≤ k →
  length xs = Z.to_nat count → length amts = Z.to_nat count →
  Forall (λ a, 0 ≤ a) amts →
  let sz := 2 ^ k in
  let w := sz * 8 in
  let env := [IR.ints w xs; IR.ints w amts] in
  let bits := Simd.llvm_splat_int count w (w - 1) in
  Simd.simd_shift BuiltinProc_simd_shl_masked is_signed sz sz count ≫= IR.eval env
    = Some (IR.ints w (zip_with (λ x a, SimdShiftFacts.shl_value w x (a mod w)) xs amts))
  ∧ Simd.simd_shift BuiltinProc_simd_shr_masked is_signed sz sz count ≫= IR.eval env
    = Some (IR.ints w (zip_with
              (λ x a, SimdShiftFacts.shr_value is_signed w x (a mod w)) xs amts))
  ∧ Simd.simd_shift BuiltinProc_simd_shl is_signed sz sz count
    = Some (IR.Select (IR.ICmpULE (IR.Arg 1) bits)
                      (IR.BinOp IR.LLVMShl (IR.Arg 0) (IR.Arg 1))
                      (IR.ConstNil count w))
  ∧ Simd.simd_shift BuiltinProc_simd_shl is_signed sz sz count ≫= IR.eval env
    = Some (IR.ints w (zip_with
              (λ x a, if a <? w then SimdShiftFacts.shl_value w x a else 0) xs amts))
  ∧ Simd.simd_shift BuiltinProc_simd_shr is_signed sz sz count
    = Some (IR.Select (IR.ICmpULE (IR.Arg 1) bits)
                      (IR.BinOp (if is_signed then IR.LLVMAShr else IR.LLVMLShr)
                                (IR.Arg 0) (IR.Arg 1))
                      (IR.ConstNil count w))
  ∧ Simd.simd_shift BuiltinProc_simd_shr is_signed sz sz count ≫= IR.eval env
    = Some (IR.ints w (zip_with
              (λ x a, if a <? w then SimdShiftFacts.shr_value is_signed w x a else 0)
              xs amts)).
Proof.
  intros Hk Hxs Hamts Hpos sz w env bits.
  assert (Hw : w = 2 ^ (k + 3)) by (unfold w, sz; rewrite Z.pow_add_r by lia; lia).
  assert (Hw0 : 0 < w) by (rewrite Hw; apply Z.pow_pos_nonneg; lia).
  assert (Hmod : ∀ a, 0 ≤ a mod w < w) by (intros; apply Z.mod_pos_bound; lia).
  unfold Simd.simd_shift. cbn [mbind option_bind]. fold w.
  repeat split.
  - unfold env. rewrite (SimdShiftFacts.eval_masked _ w (k + 3)) by (done || lia).
    rewrite <- SimdShiftFacts.ints_zip_with. do 2 f_equal.
    apply zip_with_ext; [|done..]. intros x a.
    by apply SimdShiftFacts.shl_scalar_value.
  - unfold env. rewrite (SimdShiftFacts.eval_masked _ w (k + 3)) by (done || lia).
    rewrite <- SimdShiftFacts.ints_zip_with. do 2 f_equal.
    apply zip_with_ext; [|done..]. intros x a.
    by apply SimdShiftFacts.shr_scalar_value.
  - unfold env. rewrite SimdShiftFacts.eval_checked by done.
    rewrite <- SimdShiftFacts.ints_zip_with. do 2 f_equal.
    apply Forall_zip_with_ext_r; [done|].
    eapply Forall_impl; [exact Hpos|]. intros a Ha x. cbn beta.
    destruct (Z.ltb_spec a w); [|done].
    by apply SimdShiftFacts.shl_scalar_value.
  - unfold env. rewrite SimdShiftFacts.eval_checked by done.
    rewrite <- SimdShiftFacts.ints_zip_with. do 2 f_equal.
    apply Forall_zip_with_ext_r; [done|].
    eapply Forall_impl; [exact Hpos|]. intros a Ha x. cbn beta.
    destruct (Z.ltb_spec a w); [|done].
    by apply SimdShiftFacts.shr_scalar_value.
Qed.

(** The theorem at 8-bit signed lanes: amounts 9 and 3. *)
Lemma simd_shift_masked_wraps_checked_zeroes_witness :
  Simd.simd_shift BuiltinProc_simd_shr true 1 1 2
    ≫= IR.eval [IR.ints 8 [129; 1]; IR.ints 8 [9; 3]]
  = Some (IR.ints 8 [0; 0])
  ∧ Simd.simd_shift BuiltinProc_simd_shr_masked true 1 1 2
    ≫= IR.eval [IR.ints 8 [129; 1]; IR.ints 8 [9; 3]]
  = Some (IR.ints 8 [192; 0]).
Proof.
  pose proof (simd_shift_masked_wraps_checked_zeroes true 0 2 [129; 1] [9; 3]
                ltac:(lia) eq_refl eq_refl ltac:(repeat constructor; lia)) as H.
  cbv zeta in H. destruct H as (_ & Hm & _ & _ & _ & Hc).
  split; [exact Hc | exact Hm].
Defined.

(** ** Runtime swizzle *)

Module SwizzleFacts.
Import IR Simd IRFacts.

Lemma land_le_mask a m : 0 ≤ m → 0 ≤ Z.land a m ≤ m.
Proof.
  intros Hm. apply Z.ldiff_le; [done|].
  apply Z.bits_inj'. intros n Hn.
  rewrite Z.ldiff_spec, Z.land_spec, Z.bits_0.
  by destruct (Z.testbit a n), (Z.testbit m n).
Qed.

Lemma lookup_ints w (xs : list Z) (i : nat) :
  default Poison ((Int w <$> xs) !! i)
  = match xs !! i with Some x => Int w x | None => Poison end.
Proof. rewrite list_lookup_fmap. by destruct (xs !! i). Qed.

(** Bringing a masked index to [i32] keeps its value. *)
Lemma eval_to_i32 env e w m :
  w = 8 ∨ w = 16 ∨ w = 32 ∨ w = 64 →
  0 ≤ m < 64 →
  eval env e = Some (Sc (Int w m)) →
  eval env (if w <? 32 then ZExt e 32 else if 32 <? w then Trunc e 32 else e)
  = Some (Sc (Int (if bool_decide (w = 32) then w else 32) m)).
Proof.
  intros Hw Hm He.
  destruct Hw as [-> | [-> | [-> | ->]]]; cbn [Z.ltb Z.compare Pos.compare Pos.compare_cont];
    cbn -[wrap Z.pow]; rewrite ?He; cbn -[wrap Z.pow]; try done.
  rewrite wrap_small; [done|]. lia.
Qed.

(** One lane of the fallback. *)
Lemma eval_fallback_value w count (xs idxs : list Z) (i : nat) idx :
  w = 8 ∨ w = 16 ∨ w = 32 ∨ w = 64 →
  0 < count ≤ 64 →
  (i < 64)%nat →
  idxs !! i = Some idx →
  eval [ints w xs; ints w idxs]
       (swizzle_fallback_value (Arg 0) (Arg 1) (ConstInt w (count - 1)) w i)
  = Some (Sc (match xs !! Z.to_nat (Z.land idx (count - 1)) with
              | Some x => Int w x
              | None => Poison
              end)).
Proof.
  intros Hw Hcount Hi Hidx.
  assert (Hpow : 256 ≤ 2 ^ w).
  { destruct Hw as [-> | [-> | [-> | ->]]]; done. }
  pose proof (land_le_mask idx (count - 1) ltac:(lia)) as Hland.
  unfold swizzle_fallback_value.
  assert (Hmasked :
    eval [ints w xs; ints w idxs]
         (BinOp LLVMAnd (ExtractElement (Arg 1) (ConstInt 32 (Z.of_nat i)))
                (ConstInt w (count - 1)))
    = Some (Sc (Int w (Z.land idx (count - 1))))).
  { cbn -[wrap Z.pow]. rewrite !wrap_small by lia.
    rewrite Nat2Z.id, lookup_ints, Hidx. cbn. by rewrite decide_True. }
  pose proof (eval_to_i32 _ _ w (Z.land idx (count - 1)) Hw ltac:(lia) Hmasked) as H32.
  cbn [eval]. rewrite H32. cbn. by rewrite lookup_ints.
Qed.

(** Inserting the lanes one after the other, from [k] on, into a vector that
    already holds the first [k] of them. *)
Lemma eval_insert_chain env (vs : list ir) (ss pre : list scalar) (acc : ir) k :
  Forall2 (λ v s, eval env v = Some (Sc s)) vs ss →
  length pre = k →
  Z.of_nat (k + length vs) < 2 ^ 32 →
  eval env acc = Some (Vec (pre ++ replicate (length vs) Poison)) →
  eval env (fold_left (λ res iv, InsertElement res iv.2 (ConstInt 32 (Z.of_nat iv.1)))
                      (zip (seq k (length vs)) vs) acc)
  = Some (Vec (pre ++ ss)).
Proof.
  intros Hvs. revert pre acc k.
  induction Hvs as [|v s vs ss Hv _ IH]; intros pre acc k Hpre Hk Hacc.
  - cbn in *. by rewrite Hacc.
  - cbn [length seq zip zip_with fold_left].
    replace (pre ++ s :: ss) with ((pre ++ [s]) ++ ss) by by rewrite <- app_assoc.
    apply IH.
    + rewrite length_app. cbn. lia.
    + cbn [length] in Hk. lia.
    + cbn -[wrap Z.pow]. rewrite Hacc, Hv. cbn -[wrap Z.pow].
      rewrite wrap_small by (cbn [length] in Hk; lia).
      rewrite Nat2Z.id.
      rewrite decide_True by (rewrite length_app; cbn [length]; lia).
      do 2 f_equal. rewrite <- Hpre.
      rewrite insert_app_r_alt by lia. rewrite Nat.sub_diag. cbn.
      by rewrite <- app_assoc.
Qed.

(** The fallback on a source vector [xs] and an index vector [idxs]. *)
Lemma eval_fallback elem_size count (xs idxs : list Z) res :
  elem_size = 1 ∨ elem_size = 2 ∨ elem_size = 4 ∨ elem_size = 8 →
  length idxs = Z.to_nat count →
  swizzle_fallback elem_size (elem_size * 8) count (Arg 0) (Arg 1) = Some res →
  let w := elem_size * 8 in
  eval [ints w xs; ints w idxs] res
  = Some (Vec ((λ idx, match xs !! Z.to_nat (Z.land idx (count - 1)) with
                       | Some x => Int w x
                       | None => Poison
                       end) <$> idxs)).
Proof.
  intros Hsz Hidxs Hres w.
  unfold swizzle_fallback in Hres.
  destruct (Z.ltb_spec 0 count); [|done].
  destruct (Z.leb_spec count 64); [|done].
  cbn [andb negb] in Hres.
  assert (Hmask : (if elem_size =? 1 then ConstInt (elem_size * 8) (count - 1)
                   else if elem_size =? 2 then ConstInt (elem_size * 8) (count - 1)
                   else if elem_size =? 4 then ConstInt (elem_size * 8) (count - 1)
                   else ConstInt (elem_size * 8) (count - 1))
                  = ConstInt w (count - 1)).
  { by repeat case_match. }
  rewrite Hmask in Hres. injection Hres as <-.
  fold w.
  assert (Hw : w = 8 ∨ w = 16 ∨ w = 32 ∨ w = 64) by (unfold w; lia).
  set (vs := swizzle_fallback_value (Arg 0) (Arg 1) (ConstInt w (count - 1)) w
               <$> seq 0 (Z.to_nat count)).
  assert (Hlen : length vs = Z.to_nat count).
  { unfold vs. by rewrite length_fmap, length_seq. }
  rewrite <- Hlen.
  match goal with |- _ = Some (Vec ?l) => set (lanes := l) end.
  change (Some (Vec lanes)) with (Some (Vec ([] ++ lanes))).
  apply (eval_insert_chain _ vs lanes [] _ 0%nat).
  - apply Forall2_same_length_lookup_2.
    + unfold lanes. rewrite Hlen, length_fmap. lia.
    + intros i v s Hv Hs. unfold vs in Hv. unfold lanes in Hs.
      apply list_lookup_fmap_Some in Hv as (j & -> & Hj).
      apply lookup_seq in Hj as [-> Hj]. cbn [Nat.add].
      apply list_lookup_fmap_Some in Hs as (idx & -> & Hidx).
      apply eval_fallback_value; [done|lia|lia|done].
  - done.
  - lia.
  - cbn. by rewrite Hlen.
Qed.

(** The hardware path is taken exactly when the strategy names an intrinsic
    and the features it needs are enabled; it then always returns. *)
Lemma hardware_reached arch feature elem_size index_bits count :
  swizzle_used_hardware <$> simd_runtime_swizzle arch feature elem_size index_bits count
    = Some true
  ↔ (∃ name, swizzle_strategy arch elem_size count = (true, Some name))
    ∧ swizzle_features_enabled arch feature count = true.
Proof.
  unfold simd_runtime_swizzle.
  destruct (swizzle_strategy arch elem_size count) as [[] [name|]] eqn:Hs.
  2-4: split; [|by intros [[? [=]] _]];
       destruct (swizzle_fallback _ _ _ _ _); cbn; intros [=].
  destruct (swizzle_features_enabled arch feature count) eqn:Hf.
  2: { split; [|by intros [_ [=]]].
       destruct (swizzle_fallback _ _ _ _ _); cbn; intros [=]. }
  split; [eauto|]. intros _.
  unfold swizzle_strategy in Hs.
  destruct (Z.eqb_spec elem_size 1); [|done].
  unfold swizzle_hardware.
  destruct arch; cbn in Hs |- *;
    repeat match type of Hs with
           | context [?a =? ?b] => destruct (Z.eqb_spec a b); [subst; clear Hs; done|]
           end; done.
Qed.

(** When the hardware path returns, the index vector is the last operand of
    the intrinsic call, as it came in. *)
Lemma hardware_passes_indices arch feature elem_size index_bits count r :
  simd_runtime_swizzle arch feature elem_size index_bits count = Some r →
  swizzle_used_hardware r = true →
  ∃ name parts, swizzle_strategy arch elem_size count = (true, Some name)
    ∧ swizzle_res r = CallIntrinsic name (parts ++ [Arg 1]).
Proof.
  unfold simd_runtime_swizzle.
  destruct (swizzle_strategy arch elem_size count) as [[] [name|]] eqn:Hs.
  2-4: destruct (swizzle_fallback _ _ _ _ _); cbn; intros [= <-]; done.
  destruct (swizzle_features_enabled arch feature count).
  2: destruct (swizzle_fallback _ _ _ _ _); cbn; intros [= <-]; done.
  destruct (swizzle_hardware _ _ _ _ _ _) as [res|] eqn:Hhw; cbn; [|done].
  intros [= <-] _. cbn. exists name.
  unfold swizzle_hardware in Hhw.
  repeat case_match; simplify_eq; try done.
  - eexists. split; [done|]. done.
  - eexists. split; [done|]. done.
  - exists [Arg 0]. done.
Qed.

(** When the case returns without the hardware path, its result is the
    fallback's, and the sanity check on the lane count has passed. *)
Lemma fallback_reached arch feature elem_size index_bits count r :
  simd_runtime_swizzle arch feature elem_size index_bits count = Some r →
  swizzle_used_hardware r = false →
  swizzle_fallback elem_size index_bits count (Arg 0) (Arg 1) = Some (swizzle_res r)
  ∧ 0 < count ≤ 64.
Proof.
  intros Hl Hfb.
  assert (Hf : swizzle_fallback elem_size index_bits count (Arg 0) (Arg 1)
               = Some (swizzle_res r)).
  { unfold simd_runtime_swizzle in Hl.
    destruct (swizzle_strategy arch elem_size count) as [[] [name|]];
      [destruct (swizzle_features_enabled arch feature count);
         [destruct (swizzle_hardware _ _ _ _ _ _); cbn in Hl; simplify_eq; done|]|..];
      destruct (swizzle_fallback _ _ _ _ _); cbn in Hl; by simplify_eq. }
  split; [done|].
  unfold swizzle_fallback in Hf.
  destruct (Z.ltb_spec 0 count), (Z.leb_spec count 64); cbn in Hf; done.
Qed.

End SwizzleFacts.

(** C2.  The fallback of [simd_runtime_swizzle] gives lane [i] the source
    lane numbered [indices[i] AND (count - 1)].  That is the spec's rule,
    the index modulo the lane count, where the lane count is a power of
    two, and not in general: with forty-eight lanes the code leaves the
    rule, as the evaluation after this theorem shows.  The
    hardware path, taken exactly when the (architecture, lane count) pair is
    in the table and its features are enabled, hands the index vector to the
    table lookup intrinsic as it is: no masking is emitted. *)
Theorem runtime_swizzle_fallback_masks_by_and
    (arch : Simd.TargetArch) (feature : string → bool)
    (elem_size count : Z) (xs idxs : list Z) :
  elem_size = 1 ∨ elem_size = 2 ∨ elem_size = 4 ∨ elem_size = 8 →
  length xs = Z.to_nat count →
  length idxs = Z.to_nat count →
  let w := elem_size * 8 in
  let lowered := Simd.simd_runtime_swizzle arch feature elem_size w count in
  let run := lowered ≫= λ r, IR.eval [IR.ints w xs; IR.ints w idxs] (Simd.swizzle_res r) in
  (Simd.swizzle_used_hardware <$> lowered = Some true
     ↔ (∃ name, Simd.swizzle_strategy arch elem_size count = (true, Some name))
       ∧ Simd.swizzle_features_enabled arch feature count = true)
  ∧ (Simd.swizzle_used_hardware <$> lowered = Some true →
     ∃ name parts,
       Simd.swizzle_res <$> lowered = Some (IR.CallIntrinsic name (parts ++ [IR.Arg 1])))
  ∧ (Simd.swizzle_used_hardware <$> lowered = Some false →
     run = Some (IR.ints w ((λ idx, default 0 (xs !! Z.to_nat (Z.land idx (count - 1))))
                              <$> idxs))
     ∧ ∀ k, 0 ≤ k → count = 2 ^ k →
         run = Some (IR.ints w ((λ idx, default 0 (xs !! Z.to_nat (idx mod count)))
                                  <$> idxs))).
Proof.
  intros Hsz Hxs Hidxs w lowered run.
  split; [apply SwizzleFacts.hardware_reached|].
  split.
  - intros Hhw. destruct lowered as [r|] eqn:Hl; [|done].
    cbn in Hhw. injection Hhw as Hhw.
    destruct (SwizzleFacts.hardware_passes_indices _ _ _ _ _ _ Hl Hhw)
      as (name & parts & _ & Hres).
    exists name, parts. cbn. by rewrite Hres.
  - intros Hfb.
    assert (Hrun : run = Some (IR.ints w
              ((λ idx, default 0 (xs !! Z.to_nat (Z.land idx (count - 1)))) <$> idxs))).
    { unfold run. destruct lowered as [r|] eqn:Hl; [|done].
      cbn in Hfb. injection Hfb as Hfb. cbn [mbind option_bind].
      pose proof (SwizzleFacts.fallback_reached _ _ _ _ _ _ Hl Hfb) as Hres.
      destruct Hres as [Hres Hcount].
      pose proof (SwizzleFacts.eval_fallback elem_size count xs idxs _ Hsz Hidxs Hres)
        as He.
      cbv zeta in He. fold w in He. rewrite He. clear He.
      unfold IR.ints. rewrite <- list_fmap_compose. do 2 f_equal.
      apply list_fmap_ext. intros _ idx _. cbn.
      pose proof (SwizzleFacts.land_le_mask idx (count - 1) ltac:(lia)) as Hland.
      destruct (lookup_lt_is_Some_2 xs (Z.to_nat (Z.land idx (count - 1)))
                  ltac:(lia)) as [x Hx].
      by rewrite Hx. }
    split; [exact Hrun|].
    intros k Hk Hpow. rewrite Hrun. do 2 f_equal.
    apply list_fmap_ext. intros _ idx _. cbn beta.
    by rewrite Hpow, IRFacts.land_width_mask.
Qed.

(** The theorem at sixteen 8-bit lanes on amd64 without ssse3: every index
    is 18, the fallback picks lane [18 mod 16 = 2]. *)
Lemma runtime_swizzle_fallback_masks_by_and_witness :
  (Simd.simd_runtime_swizzle Simd.TargetArch_amd64 (λ _, false) 1 8 16
     ≫= λ r, IR.eval [IR.ints 8 (Z.of_nat <$> seq 100 16); IR.ints 8 (replicate 16 18)]
                     (Simd.swizzle_res r))
  = Some (IR.ints 8 (replicate 16 102)).
Proof.
  pose proof (runtime_swizzle_fallback_masks_by_and
                Simd.TargetArch_amd64 (λ _, false) 1 16
                (Z.of_nat <$> seq 100 16) (replicate 16 18)
                ltac:(lia) eq_refl eq_refl) as H.
  cbv zeta in H. destruct H as (_ & _ & H).
  destruct (H eq_refl) as [_ Hmod].
  exact (Hmod 4 ltac:(lia) eq_refl).
Defined.

(** C2, the input on which the code leaves the rule.  On arm64 with
    forty-eight 8-bit lanes both lowerings are reachable: the hardware path
    with neon, where the [tbl3] lookup is handed the index vector as it is,
    and the fallback without.  Every index is 16, which is in range; the
    rule, index modulo lane count, selects the source lane 16, and the
    fallback, which computes [16 AND 47 = 0] under the comment "Mask index
    to valid range", selects the source lane 0. *)
Lemma runtime_swizzle_fallback_not_modulo :
  let xs := Z.of_nat <$> seq 0 48 in
  let idxs := replicate 48 16 in
  let fallback := Simd.simd_runtime_swizzle Simd.TargetArch_arm64 (λ _, false) 1 8 48 in
  let hardware := Simd.simd_runtime_swizzle Simd.TargetArch_arm64 (λ _, true) 1 8 48 in
  Simd.swizzle_used_hardware <$> hardware = Some true
  ∧ (∃ parts, Simd.swizzle_res <$> hardware
              = Some (IR.CallIntrinsic "llvm.aarch64.neon.tbl3" (parts ++ [IR.Arg 1])))
  ∧ Simd.swizzle_used_hardware <$> fallback = Some false
  ∧ Forall (λ idx, 0 ≤ idx < 48) idxs
  ∧ (λ idx, default 0 (xs !! Z.to_nat (idx mod 48))) <$> idxs = replicate 48 16
  ∧ (fallback ≫= λ r, IR.eval [IR.ints 8 xs; IR.ints 8 idxs] (Simd.swizzle_res r))
    = Some (IR.ints 8 (replicate 48 0))
  ∧ (fallback ≫= λ r, IR.eval [IR.ints 8 xs; IR.ints 8 idxs] (Simd.swizzle_res r))
    ≠ Some (IR.ints 8 ((λ idx, default 0 (xs !! Z.to_nat (idx mod 48))) <$> idxs)).
Proof.
  cbv zeta. split; [reflexivity|].
  split; [eexists [_; _; _]; vm_compute; reflexivity|].
  split; [reflexivity|].
  split; [apply Forall_forall; intros idx ->%elem_of_replicate_inv; lia|].
  split; [vm_compute; reflexivity|].
  split; [vm_compute; reflexivity|].
  vm_compute. discriminate.
Qed.

(** ** Saturating arithmetic *)

Module SaturatingFacts.
Import IR Builtin.

(** Bounds of a [w]-bit integer type, as bit patterns. *)
Definition max_value (is_unsigned : bool) (w : Z) : Z :=
  if is_unsigned then 2 ^ w - 1 else 2 ^ (w - 1) - 1.

Definition min_value (is_unsigned : bool) (w : Z) : Z :=
  if is_unsigned then 0 else wrap w (- 2 ^ (w - 1)).

(** The lowered builtin run on two [w]-bit scalars. *)
Definition run {T} (id : BuiltinProcId) (is_unsigned : bool) (ty : T) (w x y : Z)
  : option IR.value :=
  saturating id is_unsigned ty ≫= λ r, eval [Sc (Int w x); Sc (Int w y)] (Builtin.value r).

Lemma pow2_split w : 1 ≤ w → 2 ^ w = 2 * 2 ^ (w - 1) ∧ 0 < 2 ^ (w - 1).
Proof.
  intros Hw. split.
  - replace w with (Z.succ (w - 1)) at 1 by lia. rewrite Z.pow_succ_r; lia.
  - apply Z.pow_pos_nonneg; lia.
Qed.

Lemma pow2_ge_2 w : 2 ≤ w → 2 ≤ 2 ^ (w - 1).
Proof.
  intros Hw. change 2 with (2 ^ 1) at 1. apply Z.pow_le_mono_r; lia.
Qed.

Lemma min_pattern w : 1 ≤ w → wrap w (- 2 ^ (w - 1)) = 2 ^ (w - 1).
Proof.
  intros Hw. destruct (pow2_split w Hw) as [H2 Hpos]. unfold wrap.
  symmetry. apply (Z.mod_unique_pos _ _ (-1)); lia.
Qed.

Lemma signed_max w : 1 ≤ w → signed w (2 ^ (w - 1) - 1) = 2 ^ (w - 1) - 1.
Proof.
  intros Hw. unfold signed. destruct (Z.ltb_spec (2 ^ (w - 1) - 1) (2 ^ (w - 1))); lia.
Qed.

Lemma signed_min w : 1 ≤ w → signed w (2 ^ (w - 1)) = - 2 ^ (w - 1).
Proof.
  intros Hw. destruct (pow2_split w Hw) as [H2 Hpos]. unfold signed.
  destruct (Z.ltb_spec (2 ^ (w - 1)) (2 ^ (w - 1))); lia.
Qed.

Lemma signed_one w : 2 ≤ w → signed w 1 = 1.
Proof.
  intros Hw. pose proof (pow2_ge_2 w Hw). unfold signed.
  destruct (Z.ltb_spec 1 (2 ^ (w - 1))); lia.
Qed.

Lemma uadd_sat w x y :
  intrinsic_scalar "llvm.uadd.sat" w x y = Some (Int w (clamp 0 (2 ^ w - 1) (x + y))).
Proof. unfold intrinsic_scalar. by repeat case_decide. Qed.

Lemma usub_sat w x y :
  intrinsic_scalar "llvm.usub.sat" w x y = Some (Int w (clamp 0 (2 ^ w - 1) (x - y))).
Proof. unfold intrinsic_scalar. by repeat case_decide. Qed.

Lemma sadd_sat w x y :
  intrinsic_scalar "llvm.sadd.sat" w x y
  = Some (Int w (wrap w (clamp (- 2 ^ (w - 1)) (2 ^ (w - 1) - 1)
                           (signed w x + signed w y)))).
Proof. unfold intrinsic_scalar. by repeat case_decide. Qed.

Lemma ssub_sat w x y :
  intrinsic_scalar "llvm.ssub.sat" w x y
  = Some (Int w (wrap w (clamp (- 2 ^ (w - 1)) (2 ^ (w - 1) - 1)
                           (signed w x - signed w y)))).
Proof. unfold intrinsic_scalar. by repeat case_decide. Qed.

End SaturatingFacts.

(** C6.  For every integer type of [sz >= 1] bytes, unsigned or signed, the
    lowered [saturating_add] of the type's greatest value and 1 is that
    greatest value, the lowered [saturating_sub] of its least value and 1 is
    that least value, and the builtin's result is the intrinsic's single
    value, typed with the operand type: there is no overflow flag. *)
Theorem saturating_clamps_at_type_bounds {T : Type} (ty : T) (is_unsigned : bool) (sz : Z) :
  1 ≤ sz →
  let w := sz * 8 in
  SaturatingFacts.run BuiltinProc_saturating_add is_unsigned ty w
      (SaturatingFacts.max_value is_unsigned w) 1
    = Some (IR.Sc (IR.Int w (SaturatingFacts.max_value is_unsigned w)))
  ∧ SaturatingFacts.run BuiltinProc_saturating_sub is_unsigned ty w
      (SaturatingFacts.min_value is_unsigned w) 1
    = Some (IR.Sc (IR.Int w (SaturatingFacts.min_value is_unsigned w)))
  ∧ IR.signed w (SaturatingFacts.max_value false w) = 2 ^ (w - 1) - 1
  ∧ IR.signed w (SaturatingFacts.min_value false w) = - 2 ^ (w - 1)
  ∧ ∀ id r, Builtin.saturating id is_unsigned ty = Some r →
      Builtin.type r = ty
      ∧ ∃ name, Builtin.value r = IR.CallIntrinsic name [IR.Arg 0; IR.Arg 1].
Proof.
  intros Hsz w.
  assert (Hw : 8 ≤ w) by (unfold w; lia).
  destruct (SaturatingFacts.pow2_split w ltac:(lia)) as [H2 Hpos].
  pose proof (SaturatingFacts.pow2_ge_2 w ltac:(lia)) as Hge.
  pose proof (SaturatingFacts.min_pattern w ltac:(lia)) as Hmin.
  pose proof (SaturatingFacts.signed_max w ltac:(lia)) as Hsmax.
  pose proof (SaturatingFacts.signed_min w ltac:(lia)) as Hsmin.
  pose proof (SaturatingFacts.signed_one w ltac:(lia)) as Hone.
  unfold SaturatingFacts.run, SaturatingFacts.max_value, SaturatingFacts.min_value.
  repeat split.
  - destruct is_unsigned;
      cbn -[Z.pow IR.wrap IR.signed IR.intrinsic_scalar];
      rewrite decide_True by done;
      rewrite ?SaturatingFacts.uadd_sat, ?SaturatingFacts.sadd_sat;
      cbn -[Z.pow IR.wrap IR.signed]; do 3 f_equal.
    + unfold IR.clamp. lia.
    + rewrite Hsmax, Hone. unfold IR.clamp.
      rewrite Z.min_l, Z.max_r by lia. apply IRFacts.wrap_small. lia.
  - destruct is_unsigned;
      cbn -[Z.pow IR.wrap IR.signed IR.intrinsic_scalar];
      rewrite decide_True by done;
      rewrite ?SaturatingFacts.usub_sat, ?SaturatingFacts.ssub_sat;
      cbn -[Z.pow IR.wrap IR.signed]; do 3 f_equal.
    + unfold IR.clamp. lia.
    + rewrite Hmin, Hsmin, Hone. unfold IR.clamp.
      rewrite Z.min_r, Z.max_l by lia. done.
  - done.
  - by rewrite Hmin.
  - unfold Builtin.saturating in H. destruct is_unsigned, id; cbn in H; by simplify_eq.
  - unfold Builtin.saturating in H. destruct is_unsigned, id; cbn in H; simplify_eq;
      cbn; eauto.
Qed.

(** The theorem at [i8]: 127 + 1 saturates to 127 and -128 - 1 to -128 (the
    bit pattern 128). *)
Lemma saturating_clamps_at_type_bounds_witness :
  SaturatingFacts.run BuiltinProc_saturating_add false tt 8 127 1
    = Some (IR.Sc (IR.Int 8 127))
  ∧ SaturatingFacts.run BuiltinProc_saturating_sub false tt 8 128 1
    = Some (IR.Sc (IR.Int 8 128)).
Proof.
  pose proof (saturating_clamps_at_type_bounds tt false 1 ltac:(lia)) as H.
  cbv zeta in H. destruct H as (Hadd & Hsub & _).
  split; [exact Hadd | exact Hsub].
Defined.

(** ** Atomics *)

(** C7.  The atomic load, store, fetch-and-modify and compare-exchange
    builtins without an ordering argument emit sequentially consistent
    operations; the [_explicit] ones emit the ordering read from their
    ordering argument (compare-exchange both its success and its failure
    ordering); the weak compare-exchange builtins set the weak flag and
    the strong ones leave it clear. *)
Theorem atomics_orderings_and_weak_flag {Ast : Type}
    (llvm_atomic_ordering_from_odin : Ast → Builtin.LLVMAtomicOrdering)
    (args : list Ast) :
  let build := Builtin.atomic_builtin llvm_atomic_ordering_from_odin in
  let seq_cst := Builtin.LLVMAtomicOrderingSequentiallyConsistent in
  let ord := llvm_atomic_ordering_from_odin in
  build BuiltinProc_atomic_load args
    = Some (Builtin.Load (IR.Arg 0) seq_cst true false)
  ∧ build BuiltinProc_atomic_store args
    = Some (Builtin.Store (IR.Arg 1) (IR.Arg 0) seq_cst true false)
  ∧ Forall (λ p, build p.1 args
               = Some (Builtin.AtomicRMW p.2 (IR.Arg 0) (IR.Arg 1) seq_cst false true))
      [(BuiltinProc_atomic_add, Builtin.LLVMAtomicRMWBinOpAdd);
       (BuiltinProc_atomic_sub, Builtin.LLVMAtomicRMWBinOpSub);
       (BuiltinProc_atomic_and, Builtin.LLVMAtomicRMWBinOpAnd);
       (BuiltinProc_atomic_nand, Builtin.LLVMAtomicRMWBinOpNand);
       (BuiltinProc_atomic_or, Builtin.LLVMAtomicRMWBinOpOr);
       (BuiltinProc_atomic_xor, Builtin.LLVMAtomicRMWBinOpXor);
       (BuiltinProc_atomic_exchange, Builtin.LLVMAtomicRMWBinOpXchg)]
  ∧ build BuiltinProc_atomic_compare_exchange_strong args
    = Some (Builtin.AtomicCmpXchg (IR.Arg 0) (IR.Arg 1) (IR.Arg 2)
              seq_cst seq_cst false false true)
  ∧ build BuiltinProc_atomic_compare_exchange_weak args
    = Some (Builtin.AtomicCmpXchg (IR.Arg 0) (IR.Arg 1) (IR.Arg 2)
              seq_cst seq_cst false true true)
  ∧ (∀ o, args !! 1%nat = Some o →
       build BuiltinProc_atomic_load_explicit args
       = Some (Builtin.Load (IR.Arg 0) (ord o) true false))
  ∧ (∀ o, args !! 2%nat = Some o →
       build BuiltinProc_atomic_store_explicit args
       = Some (Builtin.Store (IR.Arg 1) (IR.Arg 0) (ord o) true false)
       ∧ Forall (λ p, build p.1 args
                   = Some (Builtin.AtomicRMW p.2 (IR.Arg 0) (IR.Arg 1) (ord o) false true))
           [(BuiltinProc_atomic_add_explicit, Builtin.LLVMAtomicRMWBinOpAdd);
            (BuiltinProc_atomic_sub_explicit, Builtin.LLVMAtomicRMWBinOpSub);
            (BuiltinProc_atomic_and_explicit, Builtin.LLVMAtomicRMWBinOpAnd);
            (BuiltinProc_atomic_nand_explicit, Builtin.LLVMAtomicRMWBinOpNand);
            (BuiltinProc_atomic_or_explicit, Builtin.LLVMAtomicRMWBinOpOr);
            (BuiltinProc_atomic_xor_explicit, Builtin.LLVMAtomicRMWBinOpXor);
            (BuiltinProc_atomic_exchange_explicit, Builtin.LLVMAtomicRMWBinOpXchg)])
  ∧ (∀ s f, args !! 3%nat = Some s → args !! 4%nat = Some f →
       build BuiltinProc_atomic_compare_exchange_strong_explicit args
       = Some (Builtin.AtomicCmpXchg (IR.Arg 0) (IR.Arg 1) (IR.Arg 2)
                 (ord s) (ord f) false false true)
       ∧ build BuiltinProc_atomic_compare_exchange_weak_explicit args
       = Some (Builtin.AtomicCmpXchg (IR.Arg 0) (IR.Arg 1) (IR.Arg 2)
                 (ord s) (ord f) false true true)).
Proof.
  intros build seq_cst ord.
  repeat match goal with |- _ ∧ _ => split end; try reflexivity.
  - repeat constructor.
  - intros o Ho. unfold build. cbn. by rewrite Ho.
  - intros o Ho. unfold build. cbn. rewrite Ho. split; [done|].
    repeat constructor; cbn; by rewrite Ho.
  - intros s f Hs Hf. unfold build. cbn. rewrite Hs, Hf. done.
Qed.

(** With the ordering arguments read as they are: a weak compare-exchange
    with success ordering acquire-release and failure ordering acquire. *)
Lemma atomics_orderings_and_weak_flag_witness :
  let args := [Builtin.LLVMAtomicOrderingNotAtomic; Builtin.LLVMAtomicOrderingMonotonic;
               Builtin.LLVMAtomicOrderingRelease; Builtin.LLVMAtomicOrderingAcquireRelease;
               Builtin.LLVMAtomicOrderingAcquire] in
  Builtin.atomic_builtin id BuiltinProc_atomic_compare_exchange_weak_explicit args
  = Some (Builtin.AtomicCmpXchg (IR.Arg 0) (IR.Arg 1) (IR.Arg 2)
            Builtin.LLVMAtomicOrderingAcquireRelease Builtin.LLVMAtomicOrderingAcquire
            false true true)
  ∧ Builtin.atomic_builtin id BuiltinProc_atomic_load_explicit args
    = Some (Builtin.Load (IR.Arg 0) Builtin.LLVMAtomicOrderingMonotonic true false).
Proof.
  intros args.
  destruct (atomics_orderings_and_weak_flag id args)
    as (_ & _ & _ & _ & _ & Hload & _ & Hcas).
  split.
  - exact (proj2 (Hcas _ _ eq_refl eq_refl)).
  - exact (Hload _ eq_refl).
Defined.

(** ** Procedure creation *)

Module CreateFacts.
Import Core Create.

(** Unfolding of the monad's operations. *)
Ltac run :=
  unfold GB_ASSERT, get, put, modify, fail in *;
  unfold mbind, mret, fmap in *;
  unfold M_bind, M_ret, M_fmap in *.

Section facts.
Context {L : Type} `{Collaborators L}.

(** Every link name a native callable was added under is in the member
    table, and none was used twice. *)
Definition callables_registered (m : lbModule L) : Prop :=
  NoDup (added_functions m)
  ∧ ∀ name, name ∈ added_functions m → is_Some (members m !! name).

(** A creation that finds the link name in [m->members]. *)
Lemma create_hit entity ignore_body (m : lbModule L) found :
  e_kind entity = Entity_Procedure →
  skip_unspecialized entity = false →
  negb (e_is_foreign entity) && negb (e_flag_ProcBodyChecked entity) = false →
  members m !! link_name_of (m_id m) entity ignore_body = Some found →
  lb_create_procedure entity ignore_body m
  = match procedures m !! link_name_of (m_id m) entity ignore_body with
    | Some p =>
        Some (Some p,
              mk_lbModule (m_id m) (m_llvm m) (members m) (procedures m)
                (procedure_values m) (<[e_id entity := found]> (values m))
                (added_functions m))
    | None => None
    end.
Proof.
  intros Hkind Hskip Hguard Hfound.
  unfold lb_create_procedure. run.
  rewrite bool_decide_true by done. cbv beta iota.
  rewrite Hskip. cbv beta iota. rewrite Hguard. cbv beta iota.
  rewrite Hfound.
  unfold lb_add_entity, must_get_procedure. run. cbv beta iota.
  change (procedures (mk_lbModule ?a ?b ?c ?d ?e ?f ?g)) with d.
  by destruct (procedures m !! _).
Qed.

(** What a creation that returns has done. *)
Lemma create_inv entity ignore_body (m m' : lbModule L) r :
  lb_create_procedure entity ignore_body m = Some (r, m') →
  let name := link_name_of (m_id m) entity ignore_body in
  e_kind entity = Entity_Procedure
  ∧ m_id m' = m_id m
  ∧ ((skip_unspecialized entity = true ∧ r = None ∧ m' = m)
     ∨ (skip_unspecialized entity = false
        ∧ negb (e_is_foreign entity) && negb (e_flag_ProcBodyChecked entity) = false
        ∧ ((∃ found p, members m !! name = Some found
              ∧ procedures m !! name = Some p
              ∧ r = Some p
              ∧ members m' = members m ∧ procedures m' = procedures m
              ∧ added_functions m' = added_functions m
              ∧ m_llvm m' = m_llvm m)
           ∨ (∃ p, members m !! name = None
                ∧ r = Some p
                ∧ p_name p = name
                ∧ members m' = <[name := {| value := p_value p; type := p_type p |}]>
                                 (members m)
                ∧ procedures m' = <[name := p]> (procedures m)
                ∧ added_functions m' = name :: added_functions m)))).
Proof.
  intros Hrun name. unfold lb_create_procedure in Hrun. run.
  destruct (bool_decide (e_kind entity = Entity_Procedure)) eqn:Hkind; [|done].
  apply bool_decide_eq_true in Hkind. cbv beta iota in Hrun.
  destruct (skip_unspecialized entity) eqn:Hskip.
  { simplify_eq. eauto 10. }
  destruct (negb (e_is_foreign entity) && negb (e_flag_ProcBodyChecked entity))
    eqn:Hguard; [done|].
  cbv beta iota in Hrun. fold name in Hrun.
  destruct (members m !! name) as [found|] eqn:Hfound.
  - unfold lb_add_entity, must_get_procedure in Hrun. run. cbn in Hrun.
    destruct (procedures m !! name) as [p|] eqn:Hp; [|done].
    simplify_eq. cbn. split; [done|]. split; [done|]. right.
    split; [done|]. split; [done|]. left. eauto 10.
  - destruct (bool_decide (is_Some (type_proc (base_type (e_type entity)))));
      [|done].
    unfold add_function, on_llvm, lb_add_entity, lb_add_member,
      lb_add_procedure_value in Hrun. run.
    destruct (LLVMAddFunction name _ (m_llvm m)) as [[v l]|]; [|done].
    cbn in Hrun.
    destruct (attach_attributes entity ignore_body _ l) as [[[] l']|]; [|done].
    cbn in Hrun. simplify_eq. cbn.
    split; [done|]. split; [done|]. right.
    split; [done|]. split; [done|]. right.
    eexists. split; [done|]. split; [done|].
    by destruct ignore_body.
Qed.

End facts.
End CreateFacts.

(** C9.  Whenever [lb_create_procedure] returns: if the link name was
    already in the member table (and the entity is not skipped as an
    unspecialized polymorphic procedure), it has returned the descriptor the
    module holds under that name and has added no native callable; a second
    call for the same entity returns the same descriptor and adds no native
    callable; and the native callables stay at most one per link name. *)
Theorem create_procedure_idempotent_per_link_name
    {L : Type} `{Create.Collaborators L}
    (entity : Core.Entity) (ignore_body : bool) (m m' : Create.lbModule L)
    (r : option Create.lbProcedure) :
  Create.lb_create_procedure entity ignore_body m = Some (r, m') →
  let name := Create.link_name_of (Create.m_id m) entity ignore_body in
  (Create.skip_unspecialized entity = false →
   is_Some (Create.members m !! name) →
   r = Create.procedures m !! name
   ∧ is_Some r
   ∧ Create.added_functions m' = Create.added_functions m
   ∧ Create.m_llvm m' = Create.m_llvm m)
  ∧ (∃ m'', Create.lb_create_procedure entity ignore_body m' = Some (r, m'')
            ∧ Create.added_functions m'' = Create.added_functions m'
            ∧ Create.m_llvm m'' = Create.m_llvm m')
  ∧ (CreateFacts.callables_registered m → CreateFacts.callables_registered m').
Proof.
  intros Hrun name.
  destruct (CreateFacts.create_inv _ _ _ _ _ Hrun)
    as (Hkind & Hid & [(Hskip & -> & ->) | (Hskip & Hguard & Hcase)]).
  { split; [congruence|]. split; [|done].
    exists m. split; [|done]. done. }
  fold name in Hcase.
  destruct Hcase as [(found & p & Hfound & Hp & -> & Hmem & Hprocs & Hadded & Hllvm)
                    |(p & Hmiss & -> & Hname & Hmem & Hprocs & Hadded)].
  - split; [|split].
    + intros _ _. rewrite Hp. eauto.
    + pose proof (CreateFacts.create_hit entity ignore_body m' found
                    Hkind Hskip Hguard) as Hhit.
      rewrite Hid, Hmem, Hprocs in Hhit. fold name in Hhit.
      rewrite Hp in Hhit. eexists. split; [by apply Hhit|]. done.
    + unfold CreateFacts.callables_registered. by rewrite Hadded, Hmem.
  - split; [|split].
    + intros _ [? Hsome]. congruence.
    + pose proof (CreateFacts.create_hit entity ignore_body m'
                    {| Core.value := Create.p_value p; Core.type := Create.p_type p |}
                    Hkind Hskip Hguard) as Hhit.
      rewrite Hid, Hmem, Hprocs in Hhit. fold name in Hhit.
      rewrite !lookup_insert_eq in Hhit.
      eexists. split; [by apply Hhit|]. done.
    + intros [Hnodup Hreg]. unfold CreateFacts.callables_registered.
      rewrite Hadded, Hmem. split.
      * apply NoDup_cons. split; [|done].
        intros Hin. apply Hreg in Hin as [? Hin]. congruence.
      * intros n Hn. apply elem_of_cons in Hn as [->|Hn].
        -- rewrite lookup_insert_eq. eauto.
        -- destruct (decide (name = n)) as [->|Hne].
           ++ rewrite lookup_insert_eq. eauto.
           ++ rewrite lookup_insert_ne by done. by apply Hreg.
Qed.

(** ** Body entry: parameters passed indirectly *)

Module ProcFacts.
Import Core Proc.

(** Unfolding of the monad's operations. *)
Ltac run :=
  unfold GB_ASSERT, index, ext, ask, get, put, modify, fail in *;
  unfold mbind, mret, fmap in *;
  unfold M_bind, M_ret, M_fmap in *.

(** One step of a run that is known to return: the first operation has
    returned too. *)
Ltac step H :=
  match type of H with
  | context [match ?x with Some _ => _ | None => _ end] =>
      let E := fresh "E" in
      destruct x as [[? ?]|] eqn:E; [|discriminate H]
  end.

Section facts.
Context {S : Type} `{Backend S}.

Lemma bind_run {A B} (m : M (lbProcedure S) A) (f : A → M (lbProcedure S) B) p :
  (m ≫= f) p = match m p with Some (x, p') => f x p' | None => None end.
Proof. reflexivity. Qed.

Lemma ask_bind {A B} (q : S → A) (f : A → M (lbProcedure S) B) p :
  (ask q ≫= f) p = f (q (builder p)) p.
Proof. reflexivity. Qed.

Lemma get_bind {B} (f : lbProcedure S → M (lbProcedure S) B) p :
  (get ≫= f) p = f p p.
Proof. reflexivity. Qed.

Lemma modify_bind {B} (g : lbProcedure S → lbProcedure S)
    (f : unit → M (lbProcedure S) B) p :
  (modify g ≫= f) p = f tt (g p).
Proof. reflexivity. Qed.

Lemma ret_bind {A B} (x : A) (f : A → M (lbProcedure S) B) p :
  (mret x ≫= f) p = f x p.
Proof. reflexivity. Qed.

Lemma assert_bind {B} (b : bool) (f : unit → M (lbProcedure S) B) p :
  (GB_ASSERT b ≫= f) p = if b then f tt p else None.
Proof. by destruct b. Qed.

Lemma ext_run {A} (op : M S A) (p : lbProcedure S) :
  ext op p = match op (builder p) with
             | Some (x, b) => Some (x, set_builder b p)
             | None => None
             end.
Proof. reflexivity. Qed.

(** Two states that differ on the LLVM side only. *)
Definition same_tables (p p' : lbProcedure S) : Prop :=
  p' = set_builder (builder p') p.

Lemma same_tables_refl p : same_tables p p.
Proof. by destruct p. Qed.

Lemma same_tables_trans p1 p2 p3 :
  same_tables p1 p2 → same_tables p2 p3 → same_tables p1 p3.
Proof. unfold same_tables. intros -> ->. by destruct p1. Qed.

Lemma same_tables_set_builder b p : same_tables p (set_builder b p).
Proof. by destruct p. Qed.

Lemma same_tables_values p p' : same_tables p p' → values p' = values p.
Proof. by intros ->. Qed.

Lemma ext_same_tables {A} (op : M S A) p x p' :
  ext op p = Some (x, p') → same_tables p p'.
Proof.
  rewrite ext_run. destruct (op (builder p)) as [[? b]|]; [|done].
  intros [= <- <-]. apply same_tables_set_builder.
Qed.

Lemma lb_call_intrinsic_same_tables name args types p x p' :
  lb_call_intrinsic name args types p = Some (x, p') → same_tables p p'.
Proof.
  unfold lb_call_intrinsic. intros Hrun. rewrite assert_bind in Hrun.
  case_match; [|done].
  rewrite bind_run in Hrun.
  destruct (ext _ p) as [[ip p1]|] eqn:E1; [|done].
  eapply same_tables_trans; [by eapply ext_same_tables|].
  by eapply ext_same_tables.
Qed.

Lemma lb_mem_copy_non_overlapping_same_tables dst src len vol p p' :
  lb_mem_copy_non_overlapping dst src len vol p = Some (tt, p') → same_tables p p'.
Proof.
  unfold lb_mem_copy_non_overlapping. intros Hrun.
  rewrite bind_run in Hrun. destruct (ext _ p) as [[d p1]|] eqn:E1; [|done].
  rewrite bind_run in Hrun. destruct (ext _ p1) as [[s1 p2]|] eqn:E2; [|done].
  rewrite bind_run in Hrun. destruct (ext _ p2) as [[l p3]|] eqn:E3; [|done].
  rewrite !ask_bind in Hrun. rewrite bind_run in Hrun.
  destruct (lb_call_intrinsic _ _ _ p3) as [[v p4]|] eqn:E4; [|done].
  injection Hrun as <-.
  apply ext_same_tables in E1, E2, E3. apply lb_call_intrinsic_same_tables in E4.
  eauto using same_tables_trans.
Qed.

Lemma foldM_nil {A B} (f : B → A → M (lbProcedure S) B) acc p :
  foldM f acc [] p = Some (acc, p).
Proof. reflexivity. Qed.

Lemma foldM_cons {A B} (f : B → A → M (lbProcedure S) B) acc x l p :
  foldM f acc (x :: l) p
  = match f acc x p with Some (acc', p') => foldM f acc' l p' | None => None end.
Proof. reflexivity. Qed.

Lemma foldM_app {A B} (f : B → A → M (lbProcedure S) B) acc l1 l2 p :
  foldM f acc (l1 ++ l2) p
  = match foldM f acc l1 p with
    | Some (acc', p') => foldM f acc' l2 p'
    | None => None
    end.
Proof.
  revert acc p. induction l1 as [|x l1 IH]; intros acc p; [done|].
  cbn [app]. rewrite !foldM_cons. destruct (f acc x p) as [[acc' p']|]; [|done].
  apply IH.
Qed.

Lemma lb_add_local_no_entity type zero_init force_no_init (p p' : lbProcedure S) a :
  lb_add_local type None zero_init force_no_init p = Some (a, p') →
  ∃ b, new_local type zero_init force_no_init (builder p) = Some (addr a, b)
       ∧ p' = set_builder b p.
Proof.
  unfold lb_add_local. rewrite bind_run, ext_run.
  destruct (new_local _ _ _ _) as [[ptr b]|]; [|done].
  intros [= <- <-]. eauto.
Qed.

Lemma lb_add_local_generated_same_tables type zero_init (p p' : lbProcedure S) a :
  lb_add_local_generated type zero_init p = Some (a, p') → same_tables p p'.
Proof.
  intros Hrun. apply lb_add_local_no_entity in Hrun as (b & _ & ->).
  apply same_tables_set_builder.
Qed.

Lemma lb_address_from_load_or_generate_local_same_tables v (p p' : lbProcedure S) ptr :
  lb_address_from_load_or_generate_local v p = Some (ptr, p') → same_tables p p'.
Proof.
  unfold lb_address_from_load_or_generate_local. rewrite ask_bind.
  destruct (LLVMIsALoadInst _ _).
  - rewrite ask_bind. intros [= <- <-]. apply same_tables_refl.
  - rewrite bind_run.
    destruct (lb_add_local_generated _ _ p) as [[res p1]|] eqn:E1; [|done].
    apply lb_add_local_generated_same_tables in E1.
    rewrite bind_run. destruct (ext _ p1) as [[[] p2]|] eqn:E2; [|done].
    apply ext_same_tables in E2. intros [= <- <-]. eauto using same_tables_trans.
Qed.

End facts.
End ProcFacts.

Module BodyFacts.
Import Core Proc Body ProcFacts.

Section facts.
Context {S : Type} `{Backend S}.

Lemma bind_assoc_run {A B C} (m : M (lbProcedure S) A) (f : A → M (lbProcedure S) B)
    (g : B → M (lbProcedure S) C) p :
  ((m ≫= f) ≫= g) p = (m ≫= λ x, f x ≫= g) p.
Proof. unfold mbind, M_bind. by destruct (m p) as [[? ?]|]. Qed.

Lemma index_run {A} (l : list A) (i : Z) (x : A) (p : lbProcedure S) :
  0 ≤ i → l !! Z.to_nat i = Some x → index l i p = Some (x, p).
Proof.
  intros Hi Hx. unfold index. destruct (Z.leb_spec 0 i); [|lia]. by rewrite Hx.
Qed.

(** A parameter has a name the body can use: its token is neither empty nor
    the blank identifier. *)
Lemma named_token (s : string) :
  s ≠ "" → s ≠ "_" →
  negb (String.length s =? 0)%nat && negb (is_blank_ident s) = true.
Proof.
  intros Hne Hnb. unfold is_blank_ident. rewrite bool_decide_false by done.
  destruct s; [done|]. done.
Qed.

(** A generated local is a new stack slot, and nothing else changes. *)
Lemma lb_add_local_generated_inv type zero_init (p p' : lbProcedure S) a :
  lb_add_local_generated type zero_init p = Some (a, p') →
  ∃ b, new_local type zero_init false (builder p) = Some (addr a, b)
       ∧ p' = set_builder b p.
Proof.
  unfold lb_add_local_generated, lb_add_local. rewrite bind_run, ext_run.
  destruct (new_local _ _ _ _) as [[ptr b]|]; [|done].
  intros [= <- <-]. eauto.
Qed.

(** The binding of a parameter to a pointer, and the debug record of it. *)
Definition bound_to (e : Entity) (param_index : Z) (ptr : lbValue)
  : M (lbProcedure S) unit :=
  lb_add_entity e ptr;;
  ext (lb_add_debug_param_variable (value ptr) e (param_index + 1)).

Lemma bound_to_values e param_index ptr p p' :
  bound_to e param_index ptr p = Some (tt, p') →
  values p' = <[e_id e := ptr]> (values p).
Proof.
  unfold bound_to, lb_add_entity. rewrite modify_bind. intros Hrun.
  apply ext_same_tables, same_tables_values in Hrun. rewrite Hrun. by destruct p.
Qed.

(** The [lbArg_Indirect] case for a named parameter. *)
Lemma bind_parameter_indirect ft is_odin_cc param_offset param_index e arg_type
    (p : lbProcedure S) :
  0 ≤ param_index →
  ft_args ft !! Z.to_nat param_index = Some arg_type →
  arg_kind arg_type = lbArg_Indirect →
  e_token e ≠ "" → e_token e ≠ "_" →
  let sz := type_size_of (e_type e) in
  let incoming := {| value := LLVMGetParam (p_value p) (param_offset + param_index);
                     type := alloc_type_pointer (e_type e) |} in
  bind_parameter ft is_odin_cc param_offset param_index e p
  = if is_odin_cc && (internal_by_value || (sz <=? 16)) then
      (new_ptr ← lb_add_local_generated (e_type e) false;
       lb_mem_copy_non_overlapping (addr new_ptr) incoming (lb_const_int t_uint sz) false;;
       bound_to e param_index (addr new_ptr)) p
    else bound_to e param_index incoming p.
Proof.
  intros Hidx Harg Hkind Hne Hnb sz incoming.
  unfold bind_parameter. rewrite bind_run, (index_run _ _ arg_type) by done.
  rewrite get_bind, Hkind, named_token by done. fold sz. fold incoming.
  destruct is_odin_cc, internal_by_value; cbn [andb orb];
    try destruct (sz <=? 16); try reflexivity.
  all: rewrite bind_assoc_run, !bind_run;
    destruct (lb_add_local_generated _ _ _) as [[new_ptr p1]|]; [|done];
    rewrite bind_assoc_run, !bind_run;
    by destruct (lb_mem_copy_non_overlapping _ _ _ _ _) as [[[] p2]|].
Qed.

End facts.
End BodyFacts.


(** ** Body entry: named results *)

Module NamedResultFacts.
Import Core Proc Body ProcFacts BodyFacts.

Section facts.
Context {S : Type} `{Backend S}.

(** The test that guards the return pointer shortcut. *)
Definition defer_never_used (p : lbProcedure S) : bool :=
  has_entity p && has_decl_info p && defer_use_checked p && (defer_used p =? 0).

(** The pointer the shortcut tests is null whatever it has computed, and
    computing it has changed nothing but the LLVM side. *)
Lemma return_storage_ptr_null ft param_offset results i e (p p' : lbProcedure S) ptr :
  return_storage_ptr ft param_offset results i e p = Some (ptr, p') →
  ptr = lbValue_zero ∧ same_tables p p'.
Proof.
  unfold return_storage_ptr. rewrite get_bind.
  destruct (negb (multiple_return_original_type ft =? nullptr)%N).
  - rewrite bind_run.
    destruct (i + 1 <? Z.of_nat (length results)).
    + cbn. case_match; intros [= <- <-]; auto using same_tables_refl.
    + destruct (negb (value (addr (return_ptr p)) =? nullptr)%N).
      * destruct (i + 1 =? Z.of_nat (length results)); cbn; [|done].
        intros [= <- <-]; auto using same_tables_refl.
      * cbn. intros [= <- <-]; auto using same_tables_refl.
  - destruct (negb (value (addr (return_ptr p)) =? nullptr)%N).
    + rewrite bind_run.
      destruct (1 <? Z.of_nat (length results)).
      * destruct (ext _ p) as [[ptr0 p1]|] eqn:E; [|done].
        apply ext_same_tables in E.
        rewrite assert_bind. case_match; [|done].
        rewrite assert_bind. case_match; [|done].
        by intros [= <- <-].
      * unfold mret at 1, M_ret at 1.
        rewrite assert_bind. case_match; [|done].
        rewrite assert_bind. case_match; [|done].
        intros [= <- <-]; auto using same_tables_refl.
    + intros [= <- <-]; auto using same_tables_refl.
Qed.

(** A named result is always handed to [lb_add_local]. *)
Lemma bind_named_result_fallback ft param_offset results i e (p : lbProcedure S) :
  e_token e ≠ "" →
  bind_named_result ft param_offset results i e p
  = (GB_ASSERT (bool_decide (e_kind e = Entity_Variable));;
     GB_ASSERT (negb (is_blank_ident (e_token e)));;
     (if defer_never_used p
      then return_storage_ptr ft param_offset results i e;; mret tt
      else mret tt);;
     res ← lb_add_local (e_type e) (Some e) true false;
     store_result_default e res) p.
Proof.
  intros Hne. unfold bind_named_result.
  rewrite !assert_bind. case_match; [|done].
  rewrite bool_decide_false by done. cbn [negb].
  rewrite !assert_bind. case_match; [|done].
  rewrite get_bind. fold (defer_never_used p).
  rewrite !bind_run.
  destruct (defer_never_used p).
  - rewrite !bind_run.
    destruct (return_storage_ptr _ _ _ _ _ p) as [[ptr p1]|] eqn:E; [|done].
    apply return_storage_ptr_null in E as [-> _]. reflexivity.
  - reflexivity.
Qed.

End facts.
End NamedResultFacts.


(** ** Call emitter: split returns *)

Module CallFacts.
Import Core Proc Call ProcFacts.

Section facts.
Context {S : Type} `{Backend S}.

Lemma index_inv {A} (l : list A) (i : Z) (x : A) (p p' : lbProcedure S) :
  index l i p = Some (x, p') → 0 ≤ i ∧ l !! Z.to_nat i = Some x ∧ p' = p.
Proof.
  unfold index. destruct (Z.leb_spec 0 i); [|done].
  destruct (l !! Z.to_nat i); [|done]. by intros [= <- <-].
Qed.

Lemma index_app_r {A} (pre l : list A) (j : Z) (p : lbProcedure S) :
  0 ≤ j →
  index (pre ++ l) (Z.of_nat (length pre) + j) p = index l j p.
Proof.
  intros Hj. unfold index.
  destruct (Z.leb_spec 0 (Z.of_nat (length pre) + j)); [|lia].
  destruct (Z.leb_spec 0 j); [|lia].
  replace (Z.to_nat (Z.of_nat (length pre) + j)) with (length pre + Z.to_nat j)%nat by lia.
  by rewrite lookup_app_r, Nat.add_sub' by lia.
Qed.

Lemma marshal_indirect_same_tables arg is_odin_cc x original_type
    (p p' : lbProcedure S) ptr :
  marshal_indirect arg is_odin_cc x original_type p = Some (ptr, p') →
  same_tables p p'.
Proof.
  unfold marshal_indirect. destruct (is_byval arg).
  - rewrite bind_run.
    destruct (is_odin_cc && are_types_identical original_type t_source_code_location).
    + destruct (lb_address_from_load_or_generate_local x p) as [[ptr0 p1]|] eqn:E; [|done].
      apply lb_address_from_load_or_generate_local_same_tables in E.
      case_match.
      * intros Hc. apply ext_same_tables in Hc. eauto using same_tables_trans.
      * by intros [= <- <-].
    + unfold mret at 1, M_ret at 1. cbn [value lbValue_zero nullptr N.eqb].
      apply ext_same_tables.
  - destruct is_odin_cc.
    + rewrite ask_bind. case_match.
      * rewrite bind_run. destruct (ext _ p) as [[a p1]|] eqn:E1; [|done].
        rewrite bind_run. destruct (ext _ p1) as [[[] p2]|] eqn:E2; [|done].
        intros [= <- <-]. apply ext_same_tables in E1, E2.
        eauto using same_tables_trans.
      * apply lb_address_from_load_or_generate_local_same_tables.
    + apply ext_same_tables.
Qed.

(** One more processed or ignored argument for every parameter that is a
    variable, none for the others. *)
Lemma marshal_arg_inv pt ft is_odin_cc args st i (p p' : lbProcedure S) st' :
  marshal_arg pt ft is_odin_cc args st i p = Some (st', p') →
  same_tables p p'
  ∧ ∃ e, params pt !! Z.to_nat i = Some e
    ∧ Z.of_nat (length (processed_args st')) + ignored_args st'
      = Z.of_nat (length (processed_args st)) + ignored_args st
        + (if bool_decide (e_kind e = Entity_Variable) then 1 else 0).
Proof.
  unfold marshal_arg. rewrite bind_run.
  destruct (index (params pt) i p) as [[e p0]|] eqn:Ee; [|done].
  apply index_inv in Ee as (_ & He & ->).
  intros Hrun. cut (same_tables p p'
    ∧ Z.of_nat (length (processed_args st')) + ignored_args st'
      = Z.of_nat (length (processed_args st)) + ignored_args st
        + (if bool_decide (e_kind e = Entity_Variable) then 1 else 0)).
  { intros [? ?]. eauto. }
  destruct (bool_decide (e_kind e = Entity_Variable)); cbn [negb] in Hrun.
  2: { injection Hrun as <- <-. split; [apply same_tables_refl|lia]. }
  rewrite assert_bind in Hrun. destruct (e_flag_Param e); [|done].
  rewrite bind_run in Hrun.
  destruct (index (ft_args ft) (param_index st) p) as [[arg p0]|] eqn:Ea; [|done].
  apply index_inv in Ea as (_ & _ & ->).
  destruct (bool_decide (arg_kind arg = lbArg_Ignore)) eqn:Hign.
  { injection Hrun as <- <-. cbn. split; [apply same_tables_refl|lia]. }
  apply bool_decide_eq_false in Hign.
  rewrite bind_run in Hrun.
  destruct (index args i p) as [[a p0]|] eqn:Ei; [|done].
  apply index_inv in Ei as (_ & _ & ->).
  rewrite bind_run in Hrun. destruct (ext _ p) as [[x p1]|] eqn:Ex; [|done].
  apply ext_same_tables in Ex.
  rewrite bind_run in Hrun.
  destruct (arg_kind arg) eqn:Hkind; [| |done].
  - destruct (lb_type (type x) =? _)%N.
    + injection Hrun as <- <-. cbn. rewrite length_app. cbn. split; [done|lia].
    + rewrite bind_run in Hrun. destruct (ext _ p1) as [[v p2]|] eqn:Ev; [|done].
      apply ext_same_tables in Ev.
      injection Hrun as <- <-. cbn. rewrite length_app. cbn.
      split; [eauto using same_tables_trans|lia].
  - rewrite bind_run in Hrun.
    destruct (marshal_indirect _ _ _ _ p1) as [[ptr p2]|] eqn:Ep; [|done].
    apply marshal_indirect_same_tables in Ep.
    injection Hrun as <- <-. cbn. rewrite length_app. cbn.
    split; [eauto using same_tables_trans|lia].
Qed.

(** The loop over the parameters [k, k + length ps), where [ps] are the
    parameters from [k] on. *)
Lemma marshal_loop_inv pt ft is_odin_cc args (pre ps : list Entity) st
    (p p' : lbProcedure S) st' :
  params pt = pre ++ ps →
  foldM (marshal_arg pt ft is_odin_cc args) st
        (seqZ (Z.of_nat (length pre)) (Z.of_nat (length ps))) p = Some (st', p') →
  same_tables p p'
  ∧ Z.of_nat (length (processed_args st')) + ignored_args st'
    = Z.of_nat (length (processed_args st)) + ignored_args st + variable_params ps.
Proof.
  revert pre st p. induction ps as [|e ps IH]; intros pre st p Hps.
  - cbn. intros [= <- <-]. split; [apply same_tables_refl|lia].
  - rewrite seqZ_cons by (cbn [length]; lia). rewrite foldM_cons.
    destruct (marshal_arg _ _ _ _ st _ p) as [[st1 p1]|] eqn:E1; [|done].
    apply marshal_arg_inv in E1 as (Hsame1 & e' & He' & Hlen1).
    rewrite Nat2Z.id, Hps, lookup_app_r, Nat.sub_diag in He' by lia.
    injection He' as <-.
    replace (Z.succ (Z.of_nat (length pre))) with (Z.of_nat (length (pre ++ [e])))
      by (rewrite length_app; cbn; lia).
    replace (Z.pred (Z.of_nat (length (e :: ps)))) with (Z.of_nat (length ps))
      by (cbn [length]; lia).
    intros Hrest. apply IH in Hrest as [Hsame2 Hlen2].
    2: { by rewrite <- app_assoc. }
    split; [eauto using same_tables_trans|]. cbn [variable_params]. lia.
Qed.

(** The hidden pointers of a split return: what is appended to the
    processed arguments is one new zero-initialised local per member of the
    tuple from [k] on, [n] of them. *)
Lemma add_partial_returns_loop (variables : list Entity) (n k : nat) processed
    (p p' : lbProcedure S) out :
  foldM (λ processed j,
           v ← index variables j;
           partial_return_ptr ← lb_add_local (e_type v) None true false;
           mret (processed ++ [addr partial_return_ptr]))
        processed (seqZ (Z.of_nat k) (Z.of_nat n)) p = Some (out, p') →
  ∃ ptrs, out = processed ++ ptrs
    ∧ length ptrs = n
    ∧ same_tables p p'
    ∧ Forall2 (λ v ptr, ∃ b b', new_local (e_type v) true false b = Some (ptr, b'))
              (take n (drop k variables)) ptrs.
Proof.
  revert k processed p. induction n as [|n IH]; intros k processed p.
  - cbn. intros [= <- <-]. exists []. rewrite app_nil_r.
    split; [done|]. split; [done|]. split; [apply same_tables_refl|constructor].
  - rewrite seqZ_cons by lia. rewrite foldM_cons, bind_run.
    destruct (index variables _ p) as [[v p0]|] eqn:Ev; [|done].
    apply index_inv in Ev as (_ & Hv & ->). rewrite Nat2Z.id in Hv.
    rewrite bind_run.
    destruct (lb_add_local _ _ _ _ p) as [[a p1]|] eqn:Ea; [|done].
    apply lb_add_local_no_entity in Ea as (b & Hnew & ->).
    unfold mret at 1, M_ret at 1.
    replace (Z.succ (Z.of_nat k)) with (Z.of_nat (Datatypes.S k)) by lia.
    replace (Z.pred (Z.of_nat (Datatypes.S n))) with (Z.of_nat n) by lia.
    intros Hrest. apply IH in Hrest as (ptrs & -> & Hlen & Hsame & Hall).
    exists (addr a :: ptrs). rewrite <- app_assoc.
    split; [done|]. split; [cbn; lia|].
    split; [eauto using same_tables_trans, same_tables_set_builder|].
    rewrite (drop_S _ _ _ Hv). cbn [take]. constructor; [eauto|done].
Qed.

Lemma add_partial_returns_inv (variables : list Entity) processed
    (p p' : lbProcedure S) out :
  add_partial_returns variables processed p = Some (out, p') →
  ∃ ptrs, out = processed ++ ptrs
    ∧ length ptrs = (length variables - 1)%nat
    ∧ same_tables p p'
    ∧ Forall2 (λ v ptr, ∃ b b', new_local (e_type v) true false b = Some (ptr, b'))
              (take (length variables - 1) variables) ptrs.
Proof.
  unfold add_partial_returns.
  replace (Z.of_nat (length variables) - 1) with
    (if decide (length variables = 0)%nat then -1
     else Z.of_nat (length variables - 1)) by (case_decide; lia).
  case_decide as Hlen.
  - cbn. intros [= <- <-]. exists []. rewrite app_nil_r, Hlen.
    split; [done|]. split; [done|]. split; [apply same_tables_refl|constructor].
  - intros Hrun. by apply (add_partial_returns_loop _ _ 0%nat) in Hrun.
Qed.

(** The loads of the tuple-fix: reading the processed arguments from
    [offset] on reads the hidden pointers, in their order. *)
Lemma tuple_fix_loads_loop (pre ptrs : list lbValue) offset (n k : nat) acc
    (p p' : lbProcedure S) out :
  offset = Z.of_nat (length pre) →
  foldM (λ tuple_fix_values j,
           ret_arg_ptr ← index (pre ++ ptrs) (offset + j);
           ret_arg ← ext (lb_emit_load ret_arg_ptr);
           mret (tuple_fix_values ++ [ret_arg]))
        acc (seqZ (Z.of_nat k) (Z.of_nat n)) p = Some (out, p') →
  ∃ loads, out = acc ++ loads
    ∧ same_tables p p'
    ∧ Forall2 (λ ptr v, ∃ b b', lb_emit_load ptr b = Some (v, b'))
              (take n (drop k ptrs)) loads.
Proof.
  intros ->. revert k acc p. induction n as [|n IH]; intros k acc p.
  - cbn. intros [= <- <-]. exists []. rewrite app_nil_r.
    split; [done|]. split; [apply same_tables_refl|constructor].
  - rewrite seqZ_cons by lia. rewrite foldM_cons, bind_run.
    rewrite index_app_r by lia.
    destruct (index ptrs _ p) as [[ptr p0]|] eqn:Ev; [|done].
    apply index_inv in Ev as (_ & Hptr & ->). rewrite Nat2Z.id in Hptr.
    rewrite bind_run, ext_run.
    destruct (lb_emit_load ptr (builder p)) as [[v b]|] eqn:Eload; [|done].
    unfold mret at 1, M_ret at 1.
    replace (Z.succ (Z.of_nat k)) with (Z.of_nat (Datatypes.S k)) by lia.
    replace (Z.pred (Z.of_nat (Datatypes.S n))) with (Z.of_nat n) by lia.
    intros Hrest. apply IH in Hrest as (loads & -> & Hsame & Hall).
    exists (v :: loads). rewrite <- app_assoc.
    split; [done|].
    split; [eauto using same_tables_trans, same_tables_set_builder|].
    rewrite (drop_S _ _ _ Hptr). cbn [take]. constructor; [eauto|done].
Qed.

Lemma same_tables_tuple_fix_map (p p' : lbProcedure S) :
  same_tables p p' → tuple_fix_map p' = tuple_fix_map p.
Proof. by intros ->. Qed.

(** The tuple-fix on processed arguments that end in the hidden pointers. *)
Lemma tuple_fix_inv ft ignored (pre ptrs : list lbValue) original_rt direct
    (p p' : lbProcedure S) result :
  original_arg_count ft - ignored = Z.of_nat (length pre) →
  length ptrs = (length (tuple_variables original_rt) - 1)%nat →
  tuple_fix ft true ignored (pre ++ ptrs) original_rt direct p = Some (result, p') →
  ∃ result_ptr loads b b',
    Forall2 (λ ptr v, ∃ b b', lb_emit_load ptr b = Some (v, b')) ptrs loads
    ∧ lb_emit_load result_ptr b = Some (result, b')
    ∧ (∃ b0 b1, new_local original_rt false false b0 = Some (result_ptr, b1))
    ∧ tuple_fix_map p'
      = <[value result := {| tf_values := loads ++ [direct] |}]>
          (<[value result_ptr := {| tf_values := loads ++ [direct] |}]>
             (tuple_fix_map p)).
Proof.
  intros Hoff Hlen. unfold tuple_fix.
  rewrite assert_bind. cbv iota.
  rewrite assert_bind. case_match; [|done].
  rewrite bind_run.
  destruct (lb_add_local_generated _ _ p) as [[rp p1]|] eqn:E1; [|done].
  apply lb_add_local_no_entity in E1 as (b1 & Hnew & ->).
  rewrite bind_run.
  set (n := length (tuple_variables original_rt)) in *.
  replace (Z.of_nat n - 1) with
    (if decide (n = 0)%nat then -1 else Z.of_nat (n - 1)) by (case_decide; lia).
  case_decide as Hn.
  { unfold mret at 1, M_ret at 1. cbn. done. }
  destruct (foldM _ _ _ _) as [[vals p2]|] eqn:E2; [|done].
  apply (tuple_fix_loads_loop pre ptrs _ (n - 1) 0%nat) in E2
    as (loads & -> & Hsame2 & Hall); [|done].
  rewrite drop_0, take_ge in Hall by lia.
  rewrite assert_bind. case_match; [|done].
  rewrite bind_run, ext_run.
  destruct (lb_emit_load (addr rp) (builder p2)) as [[res b3]|] eqn:E3; [|done].
  rewrite !modify_bind. intros [= <- <-].
  exists (addr rp), loads, (builder p2), b3.
  split; [done|]. split; [done|]. split; [eauto|].
  cbn. apply same_tables_tuple_fix_map in Hsame2. rewrite Hsame2.
  by destruct p.
Qed.

Lemma lb_value_to_array_same_tables v (p p' : lbProcedure S) out :
  lb_value_to_array v p = Some (out, p') → same_tables p p'.
Proof.
  unfold lb_value_to_array. repeat case_match.
  - intros [= <- <-]. apply same_tables_refl.
  - apply ext_same_tables.
  - intros [= <- <-]. apply same_tables_refl.
Qed.

Lemma by_ptr_loop_same_tables (l : list lbValue) acc (p p' : lbProcedure S) out :
  foldM (λ done_ arg,
           arg_ptr ← lb_address_from_load_or_generate_local arg;
           mret (done_ ++ [arg_ptr])) acc l p = Some (out, p') →
  same_tables p p'.
Proof.
  revert acc p. induction l as [|x l IH]; intros acc p.
  - intros [= <- <-]. apply same_tables_refl.
  - rewrite foldM_cons, bind_run.
    destruct (lb_address_from_load_or_generate_local x p) as [[ptr p1]|] eqn:E; [|done].
    apply lb_address_from_load_or_generate_local_same_tables in E.
    unfold mret at 1, M_ret at 1. intros Hrest. apply IH in Hrest.
    eauto using same_tables_trans.
Qed.

Lemma deferred_arguments_same_tables kind args result (p p' : lbProcedure S) out :
  deferred_arguments kind args result p = Some (out, p') → same_tables p p'.
Proof.
  unfold deferred_arguments. rewrite bind_run.
  destruct kind; cbn -[lb_value_to_array foldM];
    try (intros [= <- <-]; apply same_tables_refl);
    try (intros Hl; by apply by_ptr_loop_same_tables in Hl).
  - destruct (lb_value_to_array result p) as [[o p1]|] eqn:E; [|done].
    apply lb_value_to_array_same_tables in E. by intros [= <- <-].
  - rewrite bind_run.
    destruct (lb_value_to_array result p) as [[o p1]|] eqn:E; [|done].
    apply lb_value_to_array_same_tables in E. by intros [= <- <-].
  - destruct (lb_value_to_array result p) as [[o p1]|] eqn:E; [|done].
    apply lb_value_to_array_same_tables in E.
    intros Hl. apply by_ptr_loop_same_tables in Hl. eauto using same_tables_trans.
  - rewrite bind_run.
    destruct (lb_value_to_array result p) as [[o p1]|] eqn:E; [|done].
    apply lb_value_to_array_same_tables in E.
    unfold mret at 1, M_ret at 1.
    intros Hl. apply by_ptr_loop_same_tables in Hl. eauto using same_tables_trans.
Qed.

(** Attaching the deferred companion touches the LLVM side and the stack
    of deferred calls, nothing else. *)
Lemma attach_deferred_inv value_ args result (p p' : lbProcedure S) :
  attach_deferred value_ args result p = Some (tt, p') →
  ∃ pm, same_tables p pm
    ∧ (p' = pm ∨ ∃ d, p' = set_defer_stmts (defer_stmts pm ++ [d]) pm).
Proof.
  unfold attach_deferred. rewrite ask_bind, bind_run.
  assert (Hp : ∀ v, (if LLVMIsAConstantExpr (builder p) (value value_)
                     then ask (λ s, LLVMGetOperand s (value value_) 0)
                     else mret (value value_)) p = Some (v, p) ∨ True) by auto.
  destruct (LLVMIsAConstantExpr _ _).
  all: unfold ask at 1 || unfold mret at 1, M_ret at 1; rewrite get_bind;
    (destruct (procedure_values p !! _) as [e|];
     [|intros [= <-]; eauto using same_tables_refl]);
    (destruct (entity_has_deferred_procedure e);
     [|intros [= <-]; eauto using same_tables_refl]);
    rewrite bind_run; (destruct (ext _ p) as [[d p1]|] eqn:E1; [|done]);
    apply ext_same_tables in E1; rewrite bind_run;
    (destruct (deferred_arguments _ _ _ p1) as [[ra p2]|] eqn:E2; [|done]);
    apply deferred_arguments_same_tables in E2;
    rewrite get_bind; unfold lb_add_defer_proc, modify; intros [= <-];
    exists p2; split; eauto using same_tables_trans.
Qed.

End facts.
End CallFacts.


(** ** Call emitter: deferred companions *)

Module DeferredFacts.
Import Core Proc Call ProcFacts CallFacts.

Section facts.
Context {S : Type} `{Backend S}.

(** What [lb_address_from_load_or_generate_local] has done to turn the
    value [arg] into the pointer [ptr], from the state [q] to [q']: for a
    load, nothing, and the pointer is the address loaded from; otherwise a
    new local was allocated and the value stored to it. *)
Definition address_of (arg ptr : lbValue) (q q' : lbProcedure S) : Prop :=
  if LLVMIsALoadInst (builder q) (value arg) then
    ptr = {| value := LLVMGetOperand (builder q) (value arg) 0;
             type := alloc_type_pointer (type arg) |}
    ∧ q' = q
  else
    ∃ b b', new_local (type arg) false false (builder q) = Some (ptr, b)
            ∧ lb_addr_store (lb_addr ptr) arg b = Some (tt, b')
            ∧ q' = set_builder b' q.

Lemma lb_address_from_load_or_generate_local_inv arg ptr (q q' : lbProcedure S) :
  lb_address_from_load_or_generate_local arg q = Some (ptr, q') →
  address_of arg ptr q q'.
Proof.
  unfold lb_address_from_load_or_generate_local, address_of. rewrite ask_bind.
  destruct (LLVMIsALoadInst _ _).
  - rewrite ask_bind. by intros [= <- <-].
  - rewrite bind_run.
    destruct (lb_add_local_generated _ _ q) as [[res q1]|] eqn:E1; [|done].
    apply lb_add_local_no_entity in E1 as (b & Hnew & ->).
    rewrite bind_run, ext_run. cbn [builder set_builder].
    destruct (lb_addr_store res arg b) as [[[] b']|] eqn:E2; [|done].
    intros [= <- <-]. exists b, b'. destruct res as [a]. cbn in *.
    split; [done|]. split; [done|]. by destruct q.
Qed.

(** The by-pointer loop: the pointers are those of the values, one by one
    and in their order. *)
Inductive addresses_of : list lbValue → list lbValue →
                         lbProcedure S → lbProcedure S → Prop :=
| addresses_nil q : addresses_of [] [] q q
| addresses_cons arg ptr args ptrs q q1 q' :
    address_of arg ptr q q1 →
    addresses_of args ptrs q1 q' →
    addresses_of (arg :: args) (ptr :: ptrs) q q'.

Lemma by_ptr_loop_inv (l : list lbValue) acc (p p' : lbProcedure S) out :
  foldM (λ done_ arg,
           arg_ptr ← lb_address_from_load_or_generate_local arg;
           mret (done_ ++ [arg_ptr])) acc l p = Some (out, p') →
  ∃ ptrs, out = acc ++ ptrs ∧ addresses_of l ptrs p p'.
Proof.
  revert acc p. induction l as [|x l IH]; intros acc p.
  - intros [= <- <-]. exists []. rewrite app_nil_r. split; [done|constructor].
  - rewrite foldM_cons, bind_run.
    destruct (lb_address_from_load_or_generate_local x p) as [[ptr p1]|] eqn:E; [|done].
    apply lb_address_from_load_or_generate_local_inv in E.
    unfold mret at 1, M_ret at 1. intros Hrest.
    apply IH in Hrest as (ptrs & -> & Hall).
    exists (ptr :: ptrs). rewrite <- app_assoc. split; [done|].
    econstructor; eauto.
Qed.

Lemma addresses_of_length args ptrs (q q' : lbProcedure S) :
  addresses_of args ptrs q q' → length ptrs = length args.
Proof. induction 1; cbn; congruence. Qed.

End facts.
End DeferredFacts.

(** C4, as amended.  For a call to a procedure with an "in-by-pointer"
    deferred companion, the Deferred Call Entry is registered at the current
    scope depth with one pointer per argument value of the call, in order:
    the address the value was loaded from when the value is a load
    instruction (nothing is emitted, so a write through it reaches the
    storage the caller's argument was read from), and otherwise the
    address of a new local that the value is stored to. *)
Theorem deferred_in_by_ptr_registers_addresses
    {S : Type} `{Proc.Backend S}
    (value_ : Core.lbValue) (args : list Core.lbValue) (result : Core.lbValue)
    (e : Core.Entity) (p p' : Proc.lbProcedure S) :
  let the_proc_value :=
    if Proc.LLVMIsAConstantExpr (Proc.builder p) (Core.value value_)
    then Proc.LLVMGetOperand (Proc.builder p) (Core.value value_) 0
    else Core.value value_ in
  Proc.procedure_values p !! the_proc_value = Some e →
  Proc.entity_has_deferred_procedure e = true →
  Core.e_deferred_kind e = Core.DeferredProcedure_in_by_ptr →
  Call.attach_deferred value_ args result p = Some (tt, p') →
  ∃ deferred b ptrs q',
    Proc.lb_find_procedure_value_from_entity (Core.e_deferred_entity e) (Proc.builder p)
    = Some (deferred, b)
    ∧ DeferredFacts.addresses_of args ptrs (Proc.set_builder b p) q'
    ∧ length ptrs = length args
    ∧ Proc.defer_stmts p'
      = Proc.defer_stmts p
        ++ [{| Proc.defer_scope_index := Proc.scope_index p;
               Proc.defer_proc := deferred;
               Proc.defer_args := ptrs |}]
    ∧ Proc.builder p' = Proc.builder q'.
Proof.
  intros the_proc_value Hfound Hhas Hkind.
  unfold Call.attach_deferred. rewrite ProcFacts.ask_bind, ProcFacts.bind_run.
  assert (Hp : (if Proc.LLVMIsAConstantExpr (Proc.builder p) (Core.value value_)
                then Proc.ask (λ s, Proc.LLVMGetOperand s (Core.value value_) 0)
                else mret (Core.value value_)) p = Some (the_proc_value, p)).
  { unfold the_proc_value. by destruct (Proc.LLVMIsAConstantExpr _ _). }
  rewrite Hp, ProcFacts.get_bind, Hfound, Hhas, ProcFacts.bind_run.
  destruct (Proc.ext _ p) as [[deferred p1]|] eqn:E1; [|done].
  pose proof E1 as Efind. rewrite ProcFacts.ext_run in Efind.
  destruct (Proc.lb_find_procedure_value_from_entity _ _) as [[d b]|] eqn:Eb; [|done].
  injection Efind as -> <-. clear E1.
  assert (E1 : ProcFacts.same_tables p (Proc.set_builder b p)) by by destruct p.
  rewrite ProcFacts.bind_run.
  destruct (Call.deferred_arguments _ _ _ _) as [[ptrs p2]|] eqn:E2; [|done].
  pose proof (CallFacts.deferred_arguments_same_tables _ _ _ _ _ _ E2) as Hsame2.
  rewrite Hkind in E2. unfold Call.deferred_arguments in E2.
  rewrite ProcFacts.ret_bind in E2.
  apply DeferredFacts.by_ptr_loop_inv in E2 as (ptrs' & -> & Hall).
  rewrite ProcFacts.get_bind. unfold Proc.lb_add_defer_proc, Core.modify.
  intros [= <-].
  exists deferred, b, ptrs', p2.
  split; [done|]. split; [done|].
  split; [by eapply DeferredFacts.addresses_of_length|].
  split; [|done].
  assert (Hs : ProcFacts.same_tables p p2) by eauto using ProcFacts.same_tables_trans.
  rewrite Hs. by destruct p.
Qed.

(** ** Call expressions: the variadic parameter when nothing is supplied *)

Module CallExprFacts.
Import Core Proc Call CallExpr ProcFacts CallFacts.

Section facts.
Context {S : Type} `{Backend S}.

Lemma array_set_inv (args : list lbValue) i v (p p' : lbProcedure S) out :
  array_set args i v p = Some (out, p') →
  p' = p ∧ out = <[Z.to_nat i := v]> args ∧ 0 ≤ i ∧ (Z.to_nat i < length args)%nat.
Proof.
  unfold array_set. rewrite bind_run.
  destruct (index args i p) as [[x p0]|] eqn:E; [|done].
  apply index_inv in E as (Hi & Hx & ->). intros [= <- <-].
  split; [done|]. split; [done|]. split; [done|]. by eapply lookup_lt_Some.
Qed.

(** [array_resize] to a length beyond the array pads it with zeroed
    values. *)
Lemma array_resize_length n (a : list lbValue) :
  0 ≤ n → length (array_resize n a) = Z.to_nat n.
Proof.
  intros Hn. unfold array_resize.
  rewrite length_app, length_take, length_replicate. lia.
Qed.

Lemma array_resize_padding n (a : list lbValue) (i : nat) :
  (length a ≤ i)%nat → (i < Z.to_nat n)%nat →
  array_resize n a !! i = Some lbValue_zero.
Proof.
  intros Hlo Hhi. unfold array_resize.
  rewrite take_ge by lia.
  rewrite lookup_app_r by lia. apply lookup_replicate_2. lia.
Qed.

(** The slot of the variadic parameter: its length and content are kept by
    an assignment to any other index. *)
Definition slot_holds (n vi : nat) (v : lbValue) (args : list lbValue) : Prop :=
  length args = n ∧ args !! vi = Some v.

Lemma slot_holds_insert n vi v (args : list lbValue) j w :
  j ≠ vi → slot_holds n vi v args → slot_holds n vi v (<[j := w]> args).
Proof.
  intros Hne [Hlen Hv]. split; [by rewrite length_insert|].
  by rewrite list_lookup_insert_ne.
Qed.

(** A named argument that does not name the variadic parameter leaves its
    slot alone (the procedure does not take C varargs). *)
Lemma named_argument_slot pt fv n vi v (args : list lbValue)
    (p p' : lbProcedure S) out :
  c_vararg pt = false →
  lookup_procedure_parameter pt (fv_field fv) ≠ Z.of_nat vi →
  slot_holds n vi v args →
  named_argument pt args fv p = Some (out, p') →
  slot_holds n vi v out.
Proof.
  intros Hcv Hne Hslot. unfold named_argument. rewrite Hcv.
  rewrite assert_bind. case_match; [|done].
  rewrite bind_run.
  destruct (index (params pt) _ p) as [[e p0]|] eqn:Ee; [|done].
  apply index_inv in Ee as (Hidx & _ & ->).
  cbn [andb].
  assert (Hne' : Z.to_nat (lookup_procedure_parameter pt (fv_field fv)) ≠ vi) by lia.
  case_match.
  - intros Hset. apply array_set_inv in Hset as (_ & -> & _).
    by apply slot_holds_insert.
  - rewrite bind_run.
    destruct (lb_build_expr _ p) as [[x p1]|]; [|done].
    rewrite assert_bind. case_match; [|done].
    intros Hset. apply array_set_inv in Hset as (_ & -> & _).
    by apply slot_holds_insert.
Qed.

Lemma named_arguments_slot pt (named : list FieldValue) n vi v (args : list lbValue)
    (p p' : lbProcedure S) out :
  c_vararg pt = false →
  Forall (λ fv, lookup_procedure_parameter pt (fv_field fv) ≠ Z.of_nat vi) named →
  slot_holds n vi v args →
  foldM (named_argument pt) args named p = Some (out, p') →
  slot_holds n vi v out.
Proof.
  intros Hcv Hall. revert args p.
  induction Hall as [|fv named Hfv _ IH]; intros args p Hslot.
  - by intros [= <- <-].
  - rewrite foldM_cons.
    destruct (named_argument pt args fv p) as [[args1 p1]|] eqn:E; [|done].
    eapply named_argument_slot in E; [|done..]. by apply IH.
Qed.




End facts.
End CallExprFacts.


(** ** SIMD builtins: lanes moved and compared *)

Module LanesFacts.
Import Lanes.

Lemma mapM_fmap_l {A B C} (g : A → B) (f : B → option C) (l : list A) :
  mapM f (g <$> l) = mapM (f ∘ g) l.
Proof. induction l as [|x l IH]; [done|]. cbn. by rewrite IH. Qed.

(** A constant vector of integers. *)
Lemma eval_const_ints env w (f : Z → Z) (l : list Z) :
  eval env (ConstVector ((λ i, ConstInt w (f i)) <$> l))
  = Some (IR.Vec ((λ i, IR.Int w (IR.wrap w (f i))) <$> l)).
Proof.
  cbn [eval]. rewrite mapM_fmap_l.
  rewrite (IRFacts.mapM_ext_in _ (λ i, Some (IR.Int w (IR.wrap w (f i))))) by done.
  by rewrite IRFacts.mapM_total.
Qed.

(** The lane of [xs] that a mask entry names. *)
Definition lane (xs : list IR.scalar) (i : Z) : IR.scalar :=
  default IR.Poison (xs !! Z.to_nat i).

Lemma shuffle_self (xs : list IR.scalar) w (idxs : list Z) :
  Forall (λ i, 0 ≤ i < Z.of_nat (length xs)) idxs →
  shuffle_vector (IR.Vec xs) (IR.Vec xs) (IR.Vec (IR.Int w <$> idxs))
  = Some (IR.Vec (lane xs <$> idxs)).
Proof.
  intros Hin. unfold shuffle_vector. rewrite decide_True by done.
  rewrite mapM_fmap_l.
  rewrite (IRFacts.mapM_ext_in _ (λ i, Some (lane xs i))).
  - by rewrite IRFacts.mapM_total.
  - intros i Hi. rewrite Forall_forall in Hin. specialize (Hin i Hi). cbn.
    unfold lane. rewrite lookup_app_l by lia.
    destruct (lookup_lt_is_Some_2 xs (Z.to_nat i)) as [x Hx]; [lia|].
    by rewrite Hx.
Qed.

(** A shuffle of one vector with itself by a constant mask. *)
Lemma eval_shuffle_self env (a : ir) (xs : list IR.scalar) w (f : Z → Z) (l : list Z) :
  eval env a = Some (IR.Vec xs) →
  Forall (λ i, 0 ≤ f i < Z.of_nat (length xs) ∧ f i < 2 ^ w) l →
  eval env (ShuffleVector a a (ConstVector ((λ i, ConstInt w (f i)) <$> l)))
  = Some (IR.Vec ((λ i, lane xs (f i)) <$> l)).
Proof.
  intros Ha Hin.
  change (eval env (ShuffleVector a a (ConstVector ((λ i, ConstInt w (f i)) <$> l))))
    with (x ← eval env a; y ← eval env a;
          m ← eval env (ConstVector ((λ i, ConstInt w (f i)) <$> l));
          shuffle_vector x y m).
  rewrite Ha, eval_const_ints. cbn [mbind option_bind].
  rewrite (list_fmap_compose (λ i, IR.wrap w (f i)) (IR.Int w)).
  rewrite shuffle_self.
  - f_equal. f_equal. rewrite <- list_fmap_compose. apply list_fmap_ext.
    intros k i Hi. cbn. rewrite Forall_forall in Hin.
    destruct (Hin i) as [? ?]; [by eapply list_elem_of_lookup_2|].
    unfold IR.wrap. by rewrite Z.mod_small by lia.
  - rewrite Forall_fmap. eapply Forall_impl; [exact Hin|].
    intros i [? ?]. cbn. unfold IR.wrap. rewrite Z.mod_small by lia. done.
Qed.


Lemma lane_lookup (xs : list IR.scalar) (i : nat) x :
  xs !! i = Some x → lane xs (Z.of_nat i) = x.
Proof. intros Hx. unfold lane. by rewrite Nat2Z.id, Hx. Qed.

(** The lanes of [xs] at the places [f 0], [f 1], ..., as a list. *)
Lemma lanes_eq (xs ys : list IR.scalar) (f : Z → Z) :
  length ys = length xs →
  (∀ i : nat, (i < length xs)%nat →
     0 ≤ f (Z.of_nat i) ∧ ys !! i = xs !! Z.to_nat (f (Z.of_nat i))) →
  (λ i, lane xs (f i)) <$> seqZ 0 (Z.of_nat (length xs)) = ys.
Proof.
  intros Hlen Hf. apply list_eq. intros i.
  rewrite list_lookup_fmap.
  destruct (decide (i < length xs)%nat) as [Hi|Hi].
  - rewrite lookup_seqZ_lt by lia. cbn. rewrite Z.add_0_l.
    destruct (Hf i Hi) as [_ ->]. unfold lane.
    destruct (lookup_lt_is_Some_2 ys i) as [y Hy]; [lia|].
    destruct (Hf i Hi) as [_ Hyi]. rewrite Hy in Hyi. by rewrite <- Hyi.
  - rewrite lookup_seqZ_ge by lia. cbn. symmetry. apply lookup_ge_None. lia.
Qed.


Lemma rotate_index (k i left : Z) :
  0 ≤ k ≤ 31 → 0 ≤ i < 2 ^ k → - 2 ^ k < left < 2 ^ k →
  Z.land ((i + left) mod 2 ^ 64) ((2 ^ k - 1) mod 2 ^ 64) = (i + left) mod 2 ^ k.
Proof.
  intros Hk Hi Hleft.
  assert (0 < 2 ^ k) by lia.
  assert (2 ^ k ≤ 2 ^ 31) by (apply Z.pow_le_mono_r; lia).
  rewrite (Z.mod_small (2 ^ k - 1)) by lia.
  replace (2 ^ k - 1) with (Z.ones k) by (rewrite Z.ones_equiv; lia).
  rewrite Z.land_ones by lia.
  apply Z.mod_mod_divide.
  exists (2 ^ (64 - k)). rewrite <- Z.pow_add_r by lia. f_equal. lia.
Qed.

Section rotate.
Context (is_power_of_two : Z → bool) (big_int_rem_i64 : Z → Z → Z).
Context (k : Z) (Hk : 0 ≤ k ≤ 31).
Context (Hpow : is_power_of_two (2 ^ k) = true).
Context (Hrem : ∀ a, - 2 ^ k < big_int_rem_i64 a (2 ^ k) < 2 ^ k
                     ∧ big_int_rem_i64 a (2 ^ k) mod 2 ^ k = a mod 2 ^ k).

(** The lanes of [xs], each taken [d] places further on, around the end. *)
Definition rotated (xs : list IR.scalar) (d : Z) : list IR.scalar :=
  (λ i, lane xs ((i + d) mod 2 ^ k)) <$> seqZ 0 (2 ^ k).

Lemma eval_rotate builtin_id offset (xs : list IR.scalar) :
  Z.of_nat (length xs) = 2 ^ k →
  simd_lanes_rotate is_power_of_two big_int_rem_i64 builtin_id (2 ^ k) offset
    ≫= eval [IR.Vec xs]
  = Some (IR.Vec (rotated xs
            (if bool_decide (builtin_id = BuiltinProc_simd_lanes_rotate_right)
             then - offset else offset))).
Proof.
  intros Hlen. unfold simd_lanes_rotate. rewrite Hpow. cbn [negb mbind option_bind].
  set (bi := if bool_decide _ then _ else _).
  destruct (Hrem bi) as [Hrange Hmod].
  assert (0 < 2 ^ k) by lia.
  assert (2 ^ k ≤ 2 ^ 31) by (apply Z.pow_le_mono_r; lia).
  rewrite (eval_shuffle_self _ _ xs); [|done|].
  - f_equal. f_equal. unfold rotated. apply list_fmap_ext. intros j i Hi.
    apply list_elem_of_lookup_2, elem_of_seqZ in Hi.
    rewrite rotate_index by lia. f_equal.
    rewrite Z.add_mod, Hmod, <- Z.add_mod by lia. done.
  - apply Forall_forall. intros i Hi. apply elem_of_seqZ in Hi.
    rewrite rotate_index by lia.
    pose proof (Z.mod_pos_bound (i + big_int_rem_i64 bi (2 ^ k)) (2 ^ k)). lia.
Qed.

Lemma rotated_length xs d : Z.of_nat (length (rotated xs d)) = 2 ^ k.
Proof. unfold rotated. rewrite length_fmap, length_seqZ. lia. Qed.

Lemma lane_rotated (xs : list IR.scalar) d j :
  0 ≤ j < 2 ^ k → lane (rotated xs d) j = lane xs ((j + d) mod 2 ^ k).
Proof.
  intros Hj. unfold lane at 1, rotated. rewrite list_lookup_fmap.
  rewrite lookup_seqZ_lt by lia. cbn. do 2 f_equal. lia.
Qed.

Lemma rotated_back (xs : list IR.scalar) d :
  Z.of_nat (length xs) = 2 ^ k → rotated (rotated xs d) (- d) = xs.
Proof.
  intros Hlen. assert (0 < 2 ^ k) by lia.
  apply list_eq. intros i. unfold rotated at 1. rewrite list_lookup_fmap.
  destruct (decide (i < length xs)%nat) as [Hi|Hi].
  - rewrite lookup_seqZ_lt by lia. cbn. rewrite Z.add_0_l.
    pose proof (Z.mod_pos_bound (Z.of_nat i + - d) (2 ^ k)).
    rewrite lane_rotated by lia.
    rewrite Z.add_mod_idemp_l by lia.
    replace (Z.of_nat i + - d + d) with (Z.of_nat i) by lia.
    rewrite Z.mod_small by lia.
    destruct (lookup_lt_is_Some_2 xs i) as [x Hx]; [lia|].
    rewrite Hx. f_equal. by apply lane_lookup.
  - rewrite lookup_seqZ_ge by lia. cbn. symmetry. apply lookup_ge_None. lia.
Qed.

End rotate.

Lemma lanewise2_ints_opt (f : Z → Z → Z → option IR.scalar) (g : Z → Z → Z)
    w w' (xs ys : list Z) :
  length xs = length ys →
  (∀ x y, f w x y = Some (IR.Int w' (g x y))) →
  IR.lanewise2 (lift2 f) (IR.ints w xs) (IR.ints w ys)
  = Some (IR.ints w' (zip_with g xs ys)).
Proof.
  intros Hlen Hf. unfold IR.lanewise2, IR.ints.
  rewrite !length_fmap. rewrite decide_True by done.
  rewrite (IRFacts.mapM_ext_in _ (λ p, Some (match p.1, p.2 with
                                     | IR.Int _ x, IR.Int _ y => IR.Int w' (g x y)
                                     | _, _ => IR.Poison end))).
  - rewrite IRFacts.mapM_total. cbn. f_equal. f_equal.
    revert ys Hlen. induction xs as [|x xs IH]; intros [|y ys] Hlen; cbn in *; try done.
    f_equal. apply IH. lia.
  - intros [a b] Hin. apply elem_of_zip_l in Hin as Ha.
    apply elem_of_zip_r in Hin as Hb. cbn in *.
    apply list_elem_of_fmap in Ha as [x [-> _]].
    apply list_elem_of_fmap in Hb as [y [-> _]].
    cbn. rewrite decide_True by done. apply Hf.
Qed.

Lemma lift1_ints (f : Z → Z → option IR.scalar) (g : Z → Z) w w' (xs : list Z) :
  (∀ x, f w x = Some (IR.Int w' (g x))) →
  lift1 f (IR.ints w xs) = Some (IR.ints w' (g <$> xs)).
Proof.
  intros Hf. unfold lift1, IR.ints. rewrite mapM_fmap_l.
  rewrite (IRFacts.mapM_ext_in _ (λ x, Some (IR.Int w' (g x)))) by (intros; apply Hf).
  rewrite IRFacts.mapM_total. cbn. by rewrite <- list_fmap_compose.
Qed.

(** The choice of [select] in each lane: [x] where the condition is not
    zero, [y] where it is. *)
Definition choose (cs xs ys : list Z) : list Z :=
  zip_with (λ c p, if c =? 0 then p.2 else p.1) cs (zip xs ys).

Lemma select_ints wc w (cs xs ys : list Z) :
  length cs = length xs → length xs = length ys →
  IR.select_value (IR.ints wc cs) (IR.ints w xs) (IR.ints w ys)
  = Some (IR.ints w (choose cs xs ys)).
Proof.
  intros Hc Hx. unfold IR.select_value, IR.ints.
  rewrite !length_fmap. rewrite decide_True by done. f_equal. f_equal.
  unfold choose. revert xs ys Hc Hx.
  induction cs as [|c cs IH]; intros [|x xs] [|y ys] Hc Hx; cbn in *; try done.
  f_equal; [by destruct c|]. apply IH; lia.
Qed.

Lemma choose_length cs xs ys :
  length cs = length xs → length xs = length ys → length (choose cs xs ys) = length xs.
Proof.
  intros. unfold choose. rewrite length_zip_with, length_zip. lia.
Qed.

Lemma choose_lookup cs xs ys i c x y :
  cs !! i = Some c → xs !! i = Some x → ys !! i = Some y →
  choose cs xs ys !! i = Some (if c =? 0 then y else x).
Proof.
  intros Hc Hx Hy. unfold choose. rewrite lookup_zip_with, Hc. cbn.
  rewrite lookup_zip_with, Hx. cbn. by rewrite Hy.
Qed.

(** Evaluation rules over integer vectors. *)
Lemma eval_icmp env pred (a b : ir) w (xs ys : list Z) :
  eval env a = Some (IR.ints w xs) → eval env b = Some (IR.ints w ys) →
  length xs = length ys →
  eval env (ICmp pred a b)
  = Some (IR.ints 1 (zip_with (λ x y, if icmp_holds pred w x y then 1 else 0) xs ys)).
Proof.
  intros Ha Hb Hlen. cbn [eval]. rewrite Ha, Hb. cbn [mbind option_bind].
  by apply lanewise2_ints_opt.
Qed.

Lemma eval_select env (c a b : ir) wc w (cs xs ys : list Z) :
  eval env c = Some (IR.ints wc cs) → eval env a = Some (IR.ints w xs) →
  eval env b = Some (IR.ints w ys) →
  length cs = length xs → length xs = length ys →
  eval env (Select c a b) = Some (IR.ints w (choose cs xs ys)).
Proof.
  intros Hc Ha Hb ? ?. cbn [eval]. rewrite Hc, Ha, Hb. cbn [mbind option_bind].
  by apply select_ints.
Qed.

Lemma eval_neg env (a : ir) w (xs : list Z) :
  eval env a = Some (IR.ints w xs) →
  eval env (Neg a) = Some (IR.ints w ((λ x, IR.wrap w (- x)) <$> xs)).
Proof.
  intros Ha. cbn [eval]. rewrite Ha. cbn [mbind option_bind]. by apply lift1_ints.
Qed.

Lemma eval_sext env (a : ir) w w' (xs : list Z) :
  w ≤ w' →
  eval env a = Some (IR.ints w xs) →
  eval env (SExtOrBitCast a w')
  = Some (IR.ints w' ((λ x, if w =? w' then x else IR.wrap w' (IR.signed w x)) <$> xs)).
Proof.
  intros Hw Ha. cbn [eval]. rewrite Ha. cbn [mbind option_bind].
  apply lift1_ints. intros x. unfold sext_or_bitcast.
  destruct (Z.eqb_spec w w') as [->|Hne]; [done|].
  by rewrite (proj2 (Z.ltb_lt w w')) by lia.
Qed.


(** How a lane is read: as a two's complement number when the element type
    is signed, as an unsigned number otherwise. *)
Definition reading (is_signed : bool) (w a : Z) : Z :=
  if is_signed then IR.signed w a else a.

Lemma zip_with_lookup_Some {A B C} (f : A → B → C) (l : list A) (k : list B) i x y :
  l !! i = Some x → k !! i = Some y → zip_with f l k !! i = Some (f x y).
Proof. intros Hx Hy. rewrite lookup_zip_with, Hx. cbn. by rewrite Hy. Qed.

Lemma arg0 (a : IR.value) l : eval (a :: l) (Arg 0) = Some a.
Proof. done. Qed.
Lemma arg1 (a b : IR.value) l : eval (a :: b :: l) (Arg 1) = Some b.
Proof. done. Qed.
Lemma arg2 (a b c : IR.value) l : eval (a :: b :: c :: l) (Arg 2) = Some c.
Proof. done. Qed.


Lemma wrap_neg w x : 0 < x < 2 ^ w → IR.wrap w (- x) = 2 ^ w - x.
Proof.
  intros Hx. unfold IR.wrap. symmetry.
  apply (Z.mod_unique _ _ (-1)); lia.
Qed.

Lemma pow2_double w : 1 ≤ w → 2 ^ w = 2 * 2 ^ (w - 1).
Proof. intros. rewrite <- Z.pow_succ_r by lia. f_equal. lia. Qed.

Lemma signed_inj w x y :
  0 ≤ x < 2 ^ w → 0 ≤ y < 2 ^ w → IR.signed w x = IR.signed w y → x = y.
Proof.
  unfold IR.signed. intros Hx Hy.
  destruct (Z.ltb_spec x (2 ^ (w - 1))), (Z.ltb_spec y (2 ^ (w - 1))); lia.
Qed.

Lemma abs_signed_lane w x :
  1 ≤ w → 0 ≤ x < 2 ^ w →
  (if icmp_holds LLVMIntSGT w x (IR.wrap w (- x)) then 1 else 0) = 0
  ∧ IR.wrap w (- x) = IR.wrap w (Z.abs (IR.signed w x))
  ∨ (if icmp_holds LLVMIntSGT w x (IR.wrap w (- x)) then 1 else 0) = 1
    ∧ x = IR.wrap w (Z.abs (IR.signed w x)).
Proof.
  intros Hw Hx. pose proof (pow2_double w Hw) as Hd.
  assert (0 < 2 ^ (w - 1)) by (apply Z.pow_pos_nonneg; lia).
  destruct (decide (x = 0)) as [->|Hnz].
  { left. cbn. unfold IR.signed, IR.wrap. cbn.
    rewrite Z.mod_0_l by lia.
    rewrite (proj2 (Z.ltb_lt 0 (2 ^ (w - 1)))) by lia.
    rewrite Z.ltb_irrefl. cbn. by rewrite Z.mod_0_l by lia. }
  rewrite wrap_neg by lia. cbn [icmp_holds]. unfold IR.signed.
  destruct (Z.ltb_spec x (2 ^ (w - 1))), (Z.ltb_spec (2 ^ w - x) (2 ^ (w - 1)));
    match goal with
    | |- context [?a <? ?b] => destruct (Z.ltb_spec a b)
    end; try lia.
  - right. split; [done|]. rewrite Z.abs_eq by lia. by rewrite IRFacts.wrap_small by lia.
  - left. split; [done|]. rewrite Z.abs_neq by lia.
    rewrite IRFacts.wrap_small by lia. lia.
  - left. split; [done|]. rewrite Z.abs_neq by lia.
    rewrite IRFacts.wrap_small by lia. lia.
Qed.


End LanesFacts.

(** X1.  For a vector of at most 2^32 lanes, the shuffle [simd_lanes_reverse]
    lowers to gives the lanes in the opposite order, and applied to its own
    result it gives the vector back. *)
Theorem lanes_reverse_reverses (xs : list IR.scalar) :
  Z.of_nat (length xs) ≤ 2 ^ 32 →
  let lowered := Lanes.simd_lanes_reverse (Z.of_nat (length xs)) in
  Lanes.eval [IR.Vec xs] lowered = Some (IR.Vec (reverse xs))
  ∧ Lanes.eval [IR.Vec (reverse xs)] lowered = Some (IR.Vec xs).
Proof.
  intros Hlen lowered.
  assert (Hrev : ∀ ys : list IR.scalar, length ys = length xs →
            Lanes.eval [IR.Vec ys] lowered = Some (IR.Vec (reverse ys))).
  { intros ys Hys. unfold lowered, Lanes.simd_lanes_reverse. cbv zeta.
    rewrite (LanesFacts.eval_shuffle_self _ _ ys) by
      (first [ reflexivity
             | apply Forall_forall; intros i Hi; apply elem_of_seqZ in Hi; lia ]).
    f_equal. f_equal. rewrite <- Hys.
    apply LanesFacts.lanes_eq; [by rewrite length_reverse|].
    intros i Hi. split; [lia|].
    rewrite reverse_lookup by done. f_equal. lia. }
  split; [by apply Hrev|].
  rewrite Hrev by by rewrite length_reverse. by rewrite reverse_involutive.
Qed.

(** X2.  For a vector of [2^k] lanes ([k <= 31]) and any offset, positive or
    negative, lane [i] of [simd_lanes_rotate_left] is lane [(i + offset) mod
    count] of the operand, lane [i] of [simd_lanes_rotate_right] is lane
    [(i - offset) mod count], and rotating right by the same offset undoes a
    rotation to the left.  [big_int_rem] is a remainder of the offset by the
    count, of either sign, and [is_power_of_two] accepts the count. *)
Theorem lanes_rotate_left_and_right
    (is_power_of_two : Z → bool) (big_int_rem_i64 : Z → Z → Z)
    (k offset : Z) (xs : list IR.scalar) :
  0 ≤ k ≤ 31 →
  Z.of_nat (length xs) = 2 ^ k →
  is_power_of_two (2 ^ k) = true →
  (∀ a, - 2 ^ k < big_int_rem_i64 a (2 ^ k) < 2 ^ k
        ∧ big_int_rem_i64 a (2 ^ k) mod 2 ^ k = a mod 2 ^ k) →
  let count := 2 ^ k in
  let rotate builtin_id :=
    Lanes.simd_lanes_rotate is_power_of_two big_int_rem_i64 builtin_id count offset in
  let moved d := (λ i, LanesFacts.lane xs ((i + d) mod count)) <$> seqZ 0 count in
  rotate Lanes.BuiltinProc_simd_lanes_rotate_left ≫= Lanes.eval [IR.Vec xs]
  = Some (IR.Vec (moved offset))
  ∧ rotate Lanes.BuiltinProc_simd_lanes_rotate_right ≫= Lanes.eval [IR.Vec xs]
    = Some (IR.Vec (moved (- offset)))
  ∧ rotate Lanes.BuiltinProc_simd_lanes_rotate_right ≫= Lanes.eval [IR.Vec (moved offset)]
    = Some (IR.Vec xs).
Proof.
  intros Hk Hlen Hpow Hrem count rotate moved.
  pose proof (LanesFacts.eval_rotate is_power_of_two big_int_rem_i64 k Hk Hpow Hrem)
    as Hrot.
  split; [|split].
  - apply (Hrot Lanes.BuiltinProc_simd_lanes_rotate_left offset xs Hlen).
  - apply (Hrot Lanes.BuiltinProc_simd_lanes_rotate_right offset xs Hlen).
  - unfold rotate, count.
    rewrite (Hrot Lanes.BuiltinProc_simd_lanes_rotate_right offset (moved offset))
      by exact (LanesFacts.rotated_length k Hk xs offset).
    cbn [bool_decide decide_rel]. rewrite bool_decide_eq_true_2 by done.
    f_equal. f_equal. exact (LanesFacts.rotated_back k Hk xs offset Hlen).
Qed.

(** X3.  On integer vectors of the same lane count, [simd_min] and
    [simd_max] give in every lane one of the two operand lanes: the lesser
    and the greater of the two, read as signed or as unsigned integers by
    the element type. *)
Theorem simd_min_max_by_element_order (is_signed : bool) (w : Z) (xs ys : list Z) :
  length ys = length xs →
  let rd := LanesFacts.reading is_signed w in
  ∃ mins maxs,
    Lanes.simd_min_max Lanes.BuiltinProc_simd_min false is_signed
      ≫= Lanes.eval [IR.ints w xs; IR.ints w ys] = Some (IR.ints w mins)
    ∧ Lanes.simd_min_max Lanes.BuiltinProc_simd_max false is_signed
      ≫= Lanes.eval [IR.ints w xs; IR.ints w ys] = Some (IR.ints w maxs)
    ∧ length mins = length xs ∧ length maxs = length xs
    ∧ ∀ i x y, xs !! i = Some x → ys !! i = Some y →
        ∃ lo hi, mins !! i = Some lo ∧ maxs !! i = Some hi
                 ∧ rd lo = Z.min (rd x) (rd y) ∧ rd hi = Z.max (rd x) (rd y)
                 ∧ (lo = x ∨ lo = y) ∧ (hi = x ∨ hi = y).
Proof.
  intros Hlen rd.
  set (lt_ := if is_signed then Lanes.LLVMIntSLT else Lanes.LLVMIntULT).
  set (gt_ := if is_signed then Lanes.LLVMIntSGT else Lanes.LLVMIntUGT).
  set (cmp pred := zip_with (λ x y, if Lanes.icmp_holds pred w x y then 1 else 0) xs ys).
  exists (LanesFacts.choose (cmp lt_) xs ys), (LanesFacts.choose (cmp gt_) xs ys).
  assert (Hc : ∀ pred, length (cmp pred) = length xs).
  { intros pred. unfold cmp. rewrite length_zip_with. lia. }
  split; [|split; [|split; [|split]]].
  - cbn [Lanes.simd_min_max mbind option_bind]. fold lt_.
    eapply LanesFacts.eval_select;
      [by apply LanesFacts.eval_icmp| done | done | apply Hc | done].
  - cbn [Lanes.simd_min_max mbind option_bind]. fold gt_.
    eapply LanesFacts.eval_select;
      [by apply LanesFacts.eval_icmp| done | done | apply Hc | done].
  - apply LanesFacts.choose_length; [apply Hc|done].
  - apply LanesFacts.choose_length; [apply Hc|done].
  - intros i x y Hx Hy. eexists _, _.
    split; [|split].
    + eapply LanesFacts.choose_lookup; [|done|done].
      unfold cmp. by eapply LanesFacts.zip_with_lookup_Some.
    + eapply LanesFacts.choose_lookup; [|done|done].
      unfold cmp. by eapply LanesFacts.zip_with_lookup_Some.
    + unfold rd, LanesFacts.reading, lt_, gt_.
      destruct is_signed; cbn [Lanes.icmp_holds];
        repeat match goal with
               | |- context [?a <? ?b] => destruct (Z.ltb_spec a b)
               end; cbn; lia.
Qed.

(** X4.  On a vector of signed integers of [w >= 1] bits, every lane of
    [simd_abs] is the absolute value of the operand's lane, wrapped to [w]
    bits: the least value of the type is its own absolute value. *)
Theorem simd_abs_of_signed_lanes (w : Z) (xs : list Z) :
  1 ≤ w →
  Forall (λ x, 0 ≤ x < 2 ^ w) xs →
  Lanes.eval [IR.ints w xs] (Lanes.simd_abs false true)
  = Some (IR.ints w ((λ x, IR.wrap w (Z.abs (IR.signed w x))) <$> xs)).
Proof.
  intros Hw Hin. unfold Lanes.simd_abs. cbv zeta.
  erewrite LanesFacts.eval_select;
    [ | eapply LanesFacts.eval_icmp;
        [ apply LanesFacts.arg0
        | apply LanesFacts.eval_neg, LanesFacts.arg0
        | by rewrite length_fmap ]
      | apply LanesFacts.arg0
      | apply LanesFacts.eval_neg, LanesFacts.arg0
      | by rewrite length_zip_with, length_fmap; lia
      | by rewrite length_fmap ].
  f_equal. f_equal. unfold LanesFacts.choose.
  induction Hin as [|x xs Hx Hxs IH]; [done|].
  cbn [fmap list_fmap zip_with zip]. f_equal; [|exact IH].
  cbn [fst snd].
  destruct (LanesFacts.abs_signed_lane w x Hw Hx) as [[-> ->]|[-> Hx']]; cbn; done.
Qed.

(** X5.  On integer vectors of the same lane count, every lane of
    [simd_clamp(x, lo, hi)] is [min(hi, max(lo, x))] in the order of the
    element type; it is one of the three operand lanes, and lies between the
    bounds when the lower bound is not above the upper one. *)
Theorem simd_clamp_within_bounds (is_signed : bool) (w : Z) (xs los his : list Z) :
  length los = length xs → length his = length xs →
  let rd := LanesFacts.reading is_signed w in
  ∃ rs,
    Lanes.eval [IR.ints w xs; IR.ints w los; IR.ints w his] (Lanes.simd_clamp false is_signed)
    = Some (IR.ints w rs)
    ∧ length rs = length xs
    ∧ ∀ i x lo hi, xs !! i = Some x → los !! i = Some lo → his !! i = Some hi →
        ∃ r, rs !! i = Some r
             ∧ rd r = Z.min (rd hi) (Z.max (rd lo) (rd x))
             ∧ (r = x ∨ r = lo ∨ r = hi)
             ∧ (rd lo ≤ rd hi → rd lo ≤ rd r ≤ rd hi).
Proof.
  intros Hlo Hhi rd.
  set (lt_ := if is_signed then Lanes.LLVMIntSLT else Lanes.LLVMIntULT).
  set (gt_ := if is_signed then Lanes.LLVMIntSGT else Lanes.LLVMIntUGT).
  set (below := zip_with (λ x y, if Lanes.icmp_holds lt_ w x y then 1 else 0) xs los).
  set (v1 := LanesFacts.choose below los xs).
  set (above := zip_with (λ x y, if Lanes.icmp_holds gt_ w x y then 1 else 0) v1 his).
  assert (Hbelow : length below = length xs).
  { unfold below. rewrite length_zip_with. lia. }
  assert (Hv1 : length v1 = length xs).
  { unfold v1. rewrite LanesFacts.choose_length; lia. }
  assert (Habove : length above = length xs).
  { unfold above. rewrite length_zip_with. lia. }
  assert (Hfirst : ∀ env, env = [IR.ints w xs; IR.ints w los; IR.ints w his] →
            Lanes.eval env
              (Lanes.Select (Lanes.ICmp lt_ (Lanes.Arg 0) (Lanes.Arg 1))
                            (Lanes.Arg 1) (Lanes.Arg 0))
            = Some (IR.ints w v1)).
  { intros env ->. eapply LanesFacts.eval_select;
      [by apply LanesFacts.eval_icmp|done|done|lia|lia]. }
  exists (LanesFacts.choose above his v1).
  split; [|split].
  - assert (Hshape : Lanes.simd_clamp false is_signed
              = let v := Lanes.Select (Lanes.ICmp lt_ (Lanes.Arg 0) (Lanes.Arg 1))
                                      (Lanes.Arg 1) (Lanes.Arg 0) in
                Lanes.Select (Lanes.ICmp gt_ v (Lanes.Arg 2)) (Lanes.Arg 2) v).
    { unfold Lanes.simd_clamp, lt_, gt_. by destruct is_signed. }
    rewrite Hshape. cbv zeta.
    eapply LanesFacts.eval_select;
      [ eapply LanesFacts.eval_icmp; [by apply Hfirst|done|lia]
      | done | by apply Hfirst | lia | lia ].
  - rewrite LanesFacts.choose_length; lia.
  - intros i x lo hi Hx Hl Hh.
    assert (Hb : below !! i
                 = Some (if Lanes.icmp_holds lt_ w x lo then 1 else 0)).
    { exact (LanesFacts.zip_with_lookup_Some
               (λ x y, if Lanes.icmp_holds lt_ w x y then 1 else 0) xs los i x lo Hx Hl). }
    pose proof (LanesFacts.choose_lookup below los xs i _ lo x Hb Hl Hx) as Hv.
    fold v1 in Hv.
    assert (Ha : above !! i
                 = Some (if Lanes.icmp_holds gt_ w
                              (if (if Lanes.icmp_holds lt_ w x lo then 1 else 0) =? 0
                               then x else lo) hi then 1 else 0)).
    { exact (LanesFacts.zip_with_lookup_Some
               (λ x y, if Lanes.icmp_holds gt_ w x y then 1 else 0) v1 his i _ hi Hv Hh). }
    pose proof (LanesFacts.choose_lookup above his v1 i _ hi _ Ha Hh Hv) as Hr.
    eexists. split; [exact Hr|]. clear Hb Hv Ha Hr.
    unfold rd, LanesFacts.reading, lt_, gt_.
    destruct is_signed; cbn [Lanes.icmp_holds].
    + destruct (Z.ltb_spec (IR.signed w x) (IR.signed w lo)); cbn;
        match goal with
        | |- context [?a <? ?b] => destruct (Z.ltb_spec a b); cbn
        end; lia.
    + destruct (Z.ltb_spec x lo); cbn;
        match goal with
        | |- context [?a <? ?b] => destruct (Z.ltb_spec a b); cbn
        end; lia.
Qed.

(** X6.  Each of the six lane comparisons [simd_lanes_eq], [ne], [lt],
    [le], [gt] and [ge] of two integer vectors gives, in every lane, the
    result element with all its [w'] bits set when the comparison holds for
    the two lanes (read as signed or unsigned by the element type) and zero
    when it does not. *)
Theorem simd_lanes_compare_gives_masks (is_signed : bool) (w w' : Z) (xs ys : list Z) :
  1 ≤ w' →
  length ys = length xs →
  Forall (λ x, 0 ≤ x < 2 ^ w) xs → Forall (λ y, 0 ≤ y < 2 ^ w) ys →
  let rd := LanesFacts.reading is_signed w in
  let mask (holds : Z → Z → bool) :=
    zip_with (λ x y, if holds (rd x) (rd y) then 2 ^ w' - 1 else 0) xs ys in
  Forall (λ c : Lanes.SimdProcId * (Z → Z → bool),
            Lanes.simd_lanes_compare c.1 false is_signed w'
              ≫= Lanes.eval [IR.ints w xs; IR.ints w ys]
            = Some (IR.ints w' (mask c.2)))
    [(Lanes.BuiltinProc_simd_lanes_eq, Z.eqb);
     (Lanes.BuiltinProc_simd_lanes_ne, λ a b, negb (a =? b));
     (Lanes.BuiltinProc_simd_lanes_lt, Z.ltb);
     (Lanes.BuiltinProc_simd_lanes_le, Z.leb);
     (Lanes.BuiltinProc_simd_lanes_gt, Z.gtb);
     (Lanes.BuiltinProc_simd_lanes_ge, Z.geb)].
Proof.
  intros Hw' Hlen Hxs Hys rd mask.
  assert (Hsext : ∀ pred (holds : Z → Z → bool),
            (∀ x y, 0 ≤ x < 2 ^ w → 0 ≤ y < 2 ^ w →
                    Lanes.icmp_holds pred w x y = holds (rd x) (rd y)) →
            Lanes.eval [IR.ints w xs; IR.ints w ys]
              (Lanes.SExtOrBitCast (Lanes.ICmp pred (Lanes.Arg 0) (Lanes.Arg 1)) w')
            = Some (IR.ints w' (mask holds))).
  { intros pred holds Hholds.
    erewrite LanesFacts.eval_sext; [|exact Hw'|by apply LanesFacts.eval_icmp].
    f_equal. f_equal. unfold mask. clear mask.
    revert ys Hlen Hys. induction Hxs as [|x xs Hx Hxs IH]; intros [|y ys] Hlen Hys;
      try done.
    apply Forall_cons in Hys as [Hy Hys]. cbn [zip_with fmap list_fmap].
    f_equal; [|apply IH; [by injection Hlen|done]].
    rewrite (Hholds x y Hx Hy).
    destruct (holds (rd x) (rd y)).
    - destruct (Z.eqb_spec 1 w') as [<-|Hne]; [done|].
      change (IR.signed 1 1) with (-1).
      unfold IR.wrap. symmetry. apply (Z.mod_unique _ _ (-1)); [|lia].
      assert (2 ^ 1 ≤ 2 ^ w') by (apply Z.pow_le_mono_r; lia). lia.
    - destruct (Z.eqb_spec 1 w') as [<-|Hne]; [done|].
      change (IR.signed 1 0) with 0. unfold IR.wrap. apply Z.mod_0_l.
      assert (0 < 2 ^ w') by (apply Z.pow_pos_nonneg; lia). lia. }
  assert (Hinj := LanesFacts.signed_inj w).
  repeat constructor; cbn [fst snd Lanes.simd_lanes_compare mbind option_bind];
    destruct is_signed; apply Hsext; intros x y Hx Hy;
    unfold rd, LanesFacts.reading; cbn [Lanes.icmp_holds];
    repeat match goal with
           | |- context [?a <? ?b] => destruct (Z.ltb_spec a b)
           | |- context [?a <=? ?b] => destruct (Z.leb_spec a b)
           | |- context [?a =? ?b] => destruct (Z.eqb_spec a b)
           | |- context [?a >? ?b] => rewrite (Z.gtb_ltb a b)
           | |- context [?a >=? ?b] => rewrite (Z.geb_leb a b)
           end; cbn; try done; try lia;
    try (exfalso; eauto using eq_sym; congruence).
Qed.

(** ** SIMD builtins: the halving reductions *)

Module ReduceFacts.
Import Lanes LanesFacts.

Lemma take_seqZ m n h : 0 ≤ h ≤ n → take (Z.to_nat h) (seqZ m n) = seqZ m h.
Proof.
  intros Hh. replace n with (h + (n - h)) by lia.
  rewrite seqZ_app by lia. rewrite take_app_length'; [done|].
  rewrite length_seqZ. done.
Qed.

Lemma drop_seqZ m n h : 0 ≤ h ≤ n → drop (Z.to_nat h) (seqZ m n) = seqZ (m + h) (n - h).
Proof.
  intros Hh. replace n with (h + (n - h)) at 1 by lia.
  rewrite seqZ_app by lia. rewrite drop_app_length'; [done|].
  rewrite length_seqZ. done.
Qed.

(** The lanes of [ys] at the places [f i]. *)
Definition pick (ys : list Z) (f : Z → Z) (l : list Z) : list Z :=
  (λ i, default 0 (ys !! Z.to_nat (f i))) <$> l.

Lemma eval_shuffle_ints env (a : ir) w (ys : list Z) wb (f : Z → Z) (l : list Z) :
  eval env a = Some (IR.ints w ys) →
  Forall (λ i, 0 ≤ f i < Z.of_nat (length ys) ∧ f i < 2 ^ wb) l →
  eval env (ShuffleVector a a (ConstVector ((λ i, ConstInt wb (f i)) <$> l)))
  = Some (IR.ints w (pick ys f l)).
Proof.
  intros Ha Hin.
  rewrite (eval_shuffle_self env a (IR.Int w <$> ys)); [|exact Ha|].
  - f_equal. unfold IR.ints, pick. f_equal. rewrite <- list_fmap_compose.
    apply list_fmap_ext. intros j i Hi. cbn.
    rewrite Forall_forall in Hin.
    destruct (Hin i) as [[? ?] _]; [by eapply list_elem_of_lookup_2|].
    unfold lane. rewrite list_lookup_fmap.
    destruct (lookup_lt_is_Some_2 ys (Z.to_nat (f i))) as [y Hy]; [lia|].
    by rewrite Hy.
  - rewrite length_fmap. exact Hin.
Qed.

Lemma eval_binop env op (o : Z → Z → Z) (a b : ir) w (xs ys : list Z) :
  (∀ x y, binop_scalar op w x y = Some (IR.Int w (IR.wrap w (o x y)))) →
  eval env a = Some (IR.ints w xs) → eval env b = Some (IR.ints w ys) →
  length xs = length ys →
  eval env (BinOp op a b)
  = Some (IR.ints w (zip_with (λ x y, IR.wrap w (o x y)) xs ys)).
Proof.
  intros Hop Ha Hb Hlen. cbn [eval]. rewrite Ha, Hb. cbn [mbind option_bind].
  by apply lanewise2_ints_opt.
Qed.

Lemma pick_take (ys : list Z) h :
  0 ≤ h ≤ Z.of_nat (length ys) → pick ys (λ i, i) (seqZ 0 h) = take (Z.to_nat h) ys.
Proof.
  intros Hh. apply list_eq. intros i. unfold pick. rewrite list_lookup_fmap.
  destruct (decide (Z.of_nat i < h)) as [Hi|Hi].
  - rewrite lookup_seqZ_lt by lia. cbn. rewrite lookup_take_lt by lia.
    rewrite Z.add_0_l, Nat2Z.id.
    destruct (lookup_lt_is_Some_2 ys i) as [y Hy]; [lia|]. by rewrite Hy.
  - rewrite lookup_seqZ_ge by lia. cbn. symmetry. apply lookup_ge_None.
    rewrite length_take. lia.
Qed.

Lemma pick_drop (ys : list Z) h :
  0 ≤ h → Z.of_nat (length ys) = 2 * h →
  pick ys (λ i, i) (seqZ h h) = drop (Z.to_nat h) ys.
Proof.
  intros Hh Hlen. apply list_eq. intros i. unfold pick. rewrite list_lookup_fmap.
  rewrite lookup_drop.
  destruct (decide (Z.of_nat i < h)) as [Hi|Hi].
  - rewrite lookup_seqZ_lt by lia. cbn.
    replace (Z.to_nat (h + Z.of_nat i)) with (Z.to_nat h + i)%nat by lia.
    destruct (lookup_lt_is_Some_2 ys (Z.to_nat h + i)) as [y Hy]; [lia|]. by rewrite Hy.
  - rewrite lookup_seqZ_ge by lia. cbn. symmetry. apply lookup_ge_None. lia.
Qed.

Section fold.
Context (w : Z) (o : Z → Z → Z) (e : Z).
Context (o_comm : ∀ a b, o a b = o b a).
Context (o_assoc : ∀ a b c, o a (o b c) = o (o a b) c).
Context (o_unit : ∀ a, o a e = a).
Context (o_wrap : ∀ a b, IR.wrap w (o (IR.wrap w a) b) = IR.wrap w (o a b)).

(** All the lanes combined, in the element type. *)
Definition combined (ys : list Z) : Z := IR.wrap w (foldr o e ys).

Lemma o_wrap_r a b : IR.wrap w (o a (IR.wrap w b)) = IR.wrap w (o a b).
Proof. by rewrite (o_comm a), o_wrap, (o_comm b). Qed.

Lemma foldr_o_app l1 l2 : foldr o e (l1 ++ l2) = o (foldr o e l1) (foldr o e l2).
Proof.
  induction l1 as [|x l1 IH]; cbn.
  - by rewrite o_comm, o_unit.
  - by rewrite IH, o_assoc.
Qed.

Lemma combined_zip (ls rs : list Z) :
  length ls = length rs →
  combined (zip_with (λ x y, IR.wrap w (o x y)) ls rs)
  = IR.wrap w (o (foldr o e ls) (foldr o e rs)).
Proof.
  unfold combined. revert rs. induction ls as [|x ls IH]; intros [|y rs] Hlen;
    cbn in *; try done.
  { by rewrite o_unit. }
  rewrite o_wrap, <- o_wrap_r, IH by lia. rewrite o_wrap_r.
  f_equal. rewrite <- !o_assoc. f_equal.
  rewrite !o_assoc. f_equal. apply o_comm.
Qed.

(** The two halves of a vector, combined lane by lane. *)
Lemma combined_bisect (ys : list Z) h :
  0 ≤ h → Z.of_nat (length ys) = 2 * h →
  combined (zip_with (λ x y, IR.wrap w (o x y))
              (pick ys (λ i, i) (seqZ 0 h)) (pick ys (λ i, i) (seqZ h h)))
  = combined ys.
Proof.
  intros Hh Hlen. rewrite pick_take, pick_drop by lia.
  rewrite combined_zip by (rewrite length_take, length_drop; lia).
  unfold combined. by rewrite <- foldr_o_app, take_drop.
Qed.

Lemma pick_even_odd (a b : Z) (ys : list Z) (h : nat) :
  pick (a :: b :: ys) (λ i, 2 * i) (seqZ 0 (Z.of_nat (Datatypes.S h)))
  = a :: pick ys (λ i, 2 * i) (seqZ 0 (Z.of_nat h))
  ∧ pick (a :: b :: ys) (λ i, 2 * i + 1) (seqZ 0 (Z.of_nat (Datatypes.S h)))
    = b :: pick ys (λ i, 2 * i + 1) (seqZ 0 (Z.of_nat h)).
Proof.
  rewrite (seqZ_cons 0) by lia.
  replace (Z.pred (Z.of_nat (Datatypes.S h))) with (Z.of_nat h) by lia.
  change (Z.succ 0) with (1 + 0). rewrite <- fmap_add_seqZ.
  unfold pick. cbn [fmap list_fmap]. rewrite <- !list_fmap_compose.
  split; (f_equal; apply list_fmap_ext; intros j i Hi;
          apply list_elem_of_lookup_2, elem_of_seqZ in Hi; cbn).
  - replace (Z.to_nat (2 * (1 + i))) with (Datatypes.S (Datatypes.S (Z.to_nat (2 * i))))
      by lia. done.
  - replace (Z.to_nat (2 * (1 + i) + 1))
      with (Datatypes.S (Datatypes.S (Z.to_nat (2 * i + 1)))) by lia. done.
Qed.

(** The even lanes and the odd lanes of a vector, combined lane by lane. *)
Lemma foldr_pairs (h : nat) (ys : list Z) :
  length ys = (2 * h)%nat →
  o (foldr o e (pick ys (λ i, 2 * i) (seqZ 0 (Z.of_nat h))))
    (foldr o e (pick ys (λ i, 2 * i + 1) (seqZ 0 (Z.of_nat h))))
  = foldr o e ys.
Proof.
  revert ys. induction h as [|h IH]; intros ys Hlen.
  - destruct ys; [|done]. cbn. apply o_unit.
  - destruct ys as [|a [|b ys]]; try (cbn in Hlen; lia).
    destruct (pick_even_odd a b ys h) as [-> ->]. cbn [foldr].
    rewrite <- (IH ys) by (cbn in Hlen; lia).
    rewrite <- !o_assoc. f_equal. rewrite !o_assoc. f_equal. apply o_comm.
Qed.

Lemma combined_pairs (ys : list Z) h :
  0 ≤ h → Z.of_nat (length ys) = 2 * h →
  combined (zip_with (λ x y, IR.wrap w (o x y))
              (pick ys (λ i, 2 * i) (seqZ 0 h)) (pick ys (λ i, 2 * i + 1) (seqZ 0 h)))
  = combined ys.
Proof.
  intros Hh Hlen.
  rewrite combined_zip by (unfold pick; rewrite !length_fmap; done).
  unfold combined. f_equal. replace h with (Z.of_nat (Z.to_nat h)) by lia.
  apply foldr_pairs. lia.
Qed.


Context (Hw : 0 ≤ w).
Context (env : list IR.value) (op_code : LLVMOpcode) (wb n : Z).
Context (indices : list ir) (right_at : Z → Z) (fl fr : Z → Z → Z).
Context (Hop : ∀ x y, binop_scalar op_code w x y = Some (IR.Int w (IR.wrap w (o x y)))).
Context (Hleft : ∀ h, 0 ≤ h → 2 * h ≤ n →
           take (Z.to_nat h) indices = (λ i, ConstInt wb (fl h i)) <$> seqZ 0 h).
Context (Hright : ∀ h, 0 ≤ h → 2 * h ≤ n →
           take (Z.to_nat h) (drop (Z.to_nat (right_at h)) indices)
           = (λ i, ConstInt wb (fr h i)) <$> seqZ 0 h).
Context (Hrange : ∀ h i, 0 ≤ i < h → 2 * h ≤ n →
           0 ≤ fl h i < 2 * h ∧ 0 ≤ fr h i < 2 * h ∧ 2 * h ≤ 2 ^ wb).
Context (Hcomb : ∀ h ys, 0 ≤ h → Z.of_nat (length ys) = 2 * h →
           combined (zip_with (λ x y, IR.wrap w (o x y))
                       (pick ys (fl h) (seqZ 0 h)) (pick ys (fr h) (seqZ 0 h)))
           = combined ys).

Lemma reduce_loop_combines (j fuel : nat) (r : ir) (ys : list Z) :
  (j ≤ fuel)%nat →
  Z.of_nat (length ys) = 2 ^ Z.of_nat j → 2 ^ Z.of_nat j ≤ n →
  Forall (λ y, 0 ≤ y < 2 ^ w) ys →
  eval env r = Some (IR.ints w ys) →
  eval env (reduce_loop fuel op_code indices right_at (2 ^ Z.of_nat j) r)
  = Some (IR.ints w [combined ys]).
Proof.
  revert fuel r ys. induction j as [|j IH]; intros fuel r ys Hfuel Hlen Hn Hin Hr.
  - change (2 ^ Z.of_nat 0) with 1 in *.
    assert (Hloop : reduce_loop fuel op_code indices right_at 1 r = r)
      by by destruct fuel.
    rewrite Hloop, Hr. destruct ys as [|y [|? ?]]; try (cbn in Hlen; lia).
    apply Forall_cons in Hin as [Hy _].
    unfold combined. cbn. by rewrite o_unit, IRFacts.wrap_small.
  - destruct fuel as [|fuel]; [lia|].
    assert (Hpow : 2 ^ Z.of_nat (Datatypes.S j) = 2 * 2 ^ Z.of_nat j).
    { rewrite Nat2Z.inj_succ, Z.pow_succ_r by lia. done. }
    assert (0 < 2 ^ Z.of_nat j) by (apply Z.pow_pos_nonneg; lia).
    cbn [reduce_loop].
    rewrite (proj2 (Z.ltb_lt 1 (2 ^ Z.of_nat (Datatypes.S j)))) by lia.
    assert (Hq : 2 ^ Z.of_nat (Datatypes.S j) ÷ 2 = 2 ^ Z.of_nat j).
    { rewrite Hpow, Z.mul_comm. apply Z.quot_mul. lia. }
    rewrite Hq. set (h := 2 ^ Z.of_nat j) in *.
    rewrite Hleft, Hright by lia.
    set (ls := pick ys (fl h) (seqZ 0 h)).
    set (rs := pick ys (fr h) (seqZ 0 h)).
    assert (Hls : eval env (ShuffleVector r r
                     (ConstVector ((λ i, ConstInt wb (fl h i)) <$> seqZ 0 h)))
                  = Some (IR.ints w ls)).
    { apply eval_shuffle_ints; [done|]. apply Forall_seqZ. intros i Hi.
      destruct (Hrange h i) as (? & ? & ?); lia. }
    assert (Hrs : eval env (ShuffleVector r r
                     (ConstVector ((λ i, ConstInt wb (fr h i)) <$> seqZ 0 h)))
                  = Some (IR.ints w rs)).
    { apply eval_shuffle_ints; [done|]. apply Forall_seqZ. intros i Hi.
      destruct (Hrange h i) as (? & ? & ?); lia. }
    assert (Hll : length ls = Z.to_nat h)
      by by (unfold ls, pick; rewrite length_fmap, length_seqZ).
    assert (Hlr : length rs = Z.to_nat h)
      by by (unfold rs, pick; rewrite length_fmap, length_seqZ).
    rewrite (IH fuel _ (zip_with (λ x y, IR.wrap w (o x y)) ls rs)).
    + do 3 f_equal. apply Hcomb; lia.
    + lia.
    + rewrite length_zip_with. lia.
    + lia.
    + apply Forall_forall. intros z Hz.
      apply elem_of_lookup_zip_with in Hz as (i & x & y & -> & _ & _).
      apply Z.mod_pos_bound. apply Z.pow_pos_nonneg; lia.
    + apply (eval_binop env op_code o); [done|done|done|lia].
Qed.

End fold.

Lemma extract_first env (r : ir) w wb z :
  0 ≤ wb →
  eval env r = Some (IR.ints w [z]) →
  eval env (ExtractElement r (ConstInt wb 0)) = Some (IR.Sc (IR.Int w z)).
Proof.
  intros Hwb Hr. cbn [eval]. rewrite Hr. cbn [mbind option_bind].
  unfold IR.wrap. rewrite Z.mod_0_l; [done|].
  pose proof (Z.pow_pos_nonneg 2 wb). lia.
Qed.

Section reduce.
Context (w wb k : Z) (xs : list Z).
Context (Hw : 0 ≤ w) (Hk : 0 ≤ k) (Hwb : k ≤ wb).
Context (Hlen : Z.of_nat (length xs) = 2 ^ k).
Context (Hin : Forall (λ x, 0 ≤ x < 2 ^ w) xs).
Context (o : Z → Z → Z) (e : Z) (op_code : LLVMOpcode).
Context (o_comm : ∀ a b, o a b = o b a).
Context (o_assoc : ∀ a b c, o a (o b c) = o (o a b) c).
Context (o_unit : ∀ a, o a e = a).
Context (o_wrap : ∀ a b, IR.wrap w (o (IR.wrap w a) b) = IR.wrap w (o a b)).
Context (Hop : ∀ x y, binop_scalar op_code w x y = Some (IR.Int w (IR.wrap w (o x y)))).

Lemma pow_bounds : 0 < 2 ^ k ∧ 2 ^ k ≤ 2 ^ wb ∧ k < 2 ^ k.
Proof.
  split; [apply Z.pow_pos_nonneg; lia|]. split; [apply Z.pow_le_mono_r; lia|].
  apply Z.pow_gt_lin_r; lia.
Qed.

Lemma bisect_loop :
  eval [IR.ints w xs]
    (reduce_loop (Z.to_nat (2 ^ k)) op_code ((λ i, ConstInt wb i) <$> seqZ 0 (2 ^ k))
                 (λ num_remaining, num_remaining) (2 ^ k) (Arg 0))
  = Some (IR.ints w [combined w o e xs]).
Proof.
  destruct pow_bounds as (Hpos & Hle & Hlin).
  replace (2 ^ k) with (2 ^ Z.of_nat (Z.to_nat k)) at 3 by (f_equal; lia).
  apply (reduce_loop_combines w o e o_unit Hw
           [IR.ints w xs] op_code wb (2 ^ k) _ _ (λ _ i, i) (λ h i, h + i)).
  - exact Hop.
  - intros h Hh Hn. rewrite <- fmap_take, take_seqZ by lia. done.
  - intros h Hh Hn. rewrite <- fmap_drop, <- fmap_take.
    rewrite drop_seqZ, take_seqZ by lia.
    replace (0 + h) with (h + 0) by lia. rewrite <- fmap_add_seqZ.
    by rewrite <- list_fmap_compose.
  - intros h i Hi Hn. lia.
  - intros h ys Hh Hys.
    rewrite <- (combined_bisect w o e o_comm o_assoc o_unit o_wrap ys h Hh Hys).
    do 2 f_equal. unfold pick.
    replace (seqZ h h) with (seqZ (h + 0) h) by (f_equal; lia).
    rewrite <- fmap_add_seqZ. by rewrite <- list_fmap_compose.
  - lia.
  - rewrite Z2Nat.id by lia. done.
  - rewrite Z2Nat.id by lia. lia.
  - exact Hin.
  - done.
Qed.

Lemma pairs_loop :
  1 ≤ k →
  let half := 2 ^ k ÷ 2 in
  eval [IR.ints w xs]
    (reduce_loop (Z.to_nat (2 ^ k)) op_code
       (((λ i, ConstInt wb (2 * i)) <$> seqZ 0 half)
        ++ ((λ i, ConstInt wb (2 * i + 1)) <$> seqZ 0 half))
       (λ _, half) (2 ^ k) (Arg 0))
  = Some (IR.ints w [combined w o e xs]).
Proof.
  intros Hk1 half.
  destruct pow_bounds as (Hpos & Hle & Hlin).
  assert (Hhalf : 2 ^ k = 2 * half).
  { unfold half. replace k with (Z.succ (k - 1)) at 1 2 by lia.
    rewrite Z.pow_succ_r by lia. rewrite (Z.mul_comm 2), Z.quot_mul by lia. lia. }
  replace (2 ^ k) with (2 ^ Z.of_nat (Z.to_nat k)) at 2 by (f_equal; lia).
  apply (reduce_loop_combines w o e o_unit Hw
           [IR.ints w xs] op_code wb (2 ^ k) _ _ (λ _ i, 2 * i) (λ _ i, 2 * i + 1)).
  - exact Hop.
  - intros h Hh Hn. rewrite take_app_le by (rewrite length_fmap, length_seqZ; lia).
    rewrite <- fmap_take, take_seqZ by lia. done.
  - intros h Hh Hn.
    rewrite drop_app_length' by (rewrite length_fmap, length_seqZ; lia).
    rewrite <- fmap_take, take_seqZ by lia. done.
  - intros h i Hi Hn. lia.
  - intros h ys Hh Hys.
    apply (combined_pairs w o e o_comm o_assoc o_unit o_wrap ys h Hh Hys).
  - lia.
  - rewrite Z2Nat.id by lia. done.
  - rewrite Z2Nat.id by lia. lia.
  - exact Hin.
  - done.
Qed.

End reduce.

Lemma add_wrap w a b : 0 ≤ w → IR.wrap w (IR.wrap w a + b) = IR.wrap w (a + b).
Proof.
  intros. unfold IR.wrap. apply Z.add_mod_idemp_l.
  pose proof (Z.pow_pos_nonneg 2 w). lia.
Qed.

Lemma mul_wrap w a b : 0 ≤ w → IR.wrap w (IR.wrap w a * b) = IR.wrap w (a * b).
Proof.
  intros. unfold IR.wrap. apply Z.mul_mod_idemp_l.
  pose proof (Z.pow_pos_nonneg 2 w). lia.
Qed.

End ReduceFacts.

(** X7.  For a vector of [2^k] integer lanes, the halving loop of
    [simd_reduce_add_bisect] gives the sum of all the lanes and that of
    [simd_reduce_mul_bisect] their product, wrapped to the element width.
    The lane indices are constants of [wb] bits, [k <= wb]. *)
Theorem simd_reduce_bisect_combines_all_lanes (w wb k : Z) (xs : list Z) :
  0 ≤ w → 0 ≤ k ≤ wb →
  Z.of_nat (length xs) = 2 ^ k →
  Forall (λ x, 0 ≤ x < 2 ^ w) xs →
  Lanes.simd_reduce_bisect Lanes.BuiltinProc_simd_reduce_add_bisect false wb (2 ^ k)
    ≫= Lanes.eval [IR.ints w xs]
  = Some (IR.Sc (IR.Int w (IR.wrap w (foldr Z.add 0 xs))))
  ∧ Lanes.simd_reduce_bisect Lanes.BuiltinProc_simd_reduce_mul_bisect false wb (2 ^ k)
      ≫= Lanes.eval [IR.ints w xs]
    = Some (IR.Sc (IR.Int w (IR.wrap w (foldr Z.mul 1 xs)))).
Proof.
  intros Hw [Hk Hwb] Hlen Hin.
  assert (Hpos : 0 < 2 ^ k) by (apply Z.pow_pos_nonneg; lia).
  assert (Hi0 : ((λ i, Lanes.ConstInt wb i) <$> seqZ 0 (2 ^ k)) !! 0%nat
                = Some (Lanes.ConstInt wb 0)).
  { rewrite list_lookup_fmap, lookup_seqZ_lt by lia. done. }
  split; unfold Lanes.simd_reduce_bisect; cbn [mbind option_bind];
    rewrite Hi0; cbn [mbind option_bind]; (apply ReduceFacts.extract_first; [lia|]).
  - apply (ReduceFacts.bisect_loop w wb k xs Hw Hk Hwb Hlen Hin Z.add 0);
      [lia|lia|lia|intros; by apply ReduceFacts.add_wrap|done].
  - apply (ReduceFacts.bisect_loop w wb k xs Hw Hk Hwb Hlen Hin Z.mul 1);
      [lia|lia|lia|intros; by apply ReduceFacts.mul_wrap|done].
Qed.

(** X8.  For a vector of [2^k] integer lanes with [k >= 1], the loop of
    [simd_reduce_add_pairs] gives the sum of all the lanes and that of
    [simd_reduce_mul_pairs] their product, wrapped to the element width.
    With a single lane the index the final extraction reads was never
    written. *)
Theorem simd_reduce_pairs_combines_all_lanes (w wb k : Z) (xs : list Z) :
  0 ≤ w → 1 ≤ k ≤ wb →
  Z.of_nat (length xs) = 2 ^ k →
  Forall (λ x, 0 ≤ x < 2 ^ w) xs →
  Lanes.simd_reduce_pairs Lanes.BuiltinProc_simd_reduce_add_pairs false wb (2 ^ k)
    ≫= Lanes.eval [IR.ints w xs]
  = Some (IR.Sc (IR.Int w (IR.wrap w (foldr Z.add 0 xs))))
  ∧ Lanes.simd_reduce_pairs Lanes.BuiltinProc_simd_reduce_mul_pairs false wb (2 ^ k)
      ≫= Lanes.eval [IR.ints w xs]
    = Some (IR.Sc (IR.Int w (IR.wrap w (foldr Z.mul 1 xs))))
  ∧ Lanes.simd_reduce_pairs Lanes.BuiltinProc_simd_reduce_add_pairs false wb 1 = None.
Proof.
  intros Hw [Hk Hwb] Hlen Hin.
  assert (Hk0 : 0 ≤ k) by lia.
  assert (Hhalf : 0 < 2 ^ k ÷ 2).
  { replace k with (Z.succ (k - 1)) by lia.
    rewrite Z.pow_succ_r by lia. rewrite (Z.mul_comm 2), Z.quot_mul by lia.
    apply Z.pow_pos_nonneg; lia. }
  assert (Hi0 : (((λ i, Lanes.ConstInt wb (2 * i)) <$> seqZ 0 (2 ^ k ÷ 2))
                 ++ ((λ i, Lanes.ConstInt wb (2 * i + 1)) <$> seqZ 0 (2 ^ k ÷ 2)))
                !! 0%nat
                = Some (Lanes.ConstInt wb 0)).
  { rewrite lookup_app_l by (rewrite length_fmap, length_seqZ; lia).
    rewrite list_lookup_fmap, lookup_seqZ_lt by lia. done. }
  split; [|split]; [| |done];
    unfold Lanes.simd_reduce_pairs; cbn [mbind option_bind];
    cbv zeta; rewrite Hi0; cbn [mbind option_bind]; (apply ReduceFacts.extract_first; [lia|]).
  - apply (ReduceFacts.pairs_loop w wb k xs Hw Hk0 Hwb Hlen Hin Z.add 0);
      [lia|lia|lia|intros; by apply ReduceFacts.add_wrap|done|lia].
  - apply (ReduceFacts.pairs_loop w wb k xs Hw Hk0 Hwb Hlen Hin Z.mul 1);
      [lia|lia|lia|intros; by apply ReduceFacts.mul_wrap|done|lia].
Qed.

(** ** The end of a procedure body *)

Module EndBodyFacts.
Import Core EndBody.

Section facts.
Context (lb_is_instr_terminating : option instr → bool).

(** A block as the loop leaves it. *)
Definition terminated (block : list instr) : list instr :=
  if bool_decide (last block = None) || negb (lb_is_instr_terminating (last block))
  then block ++ [Unreachable] else block.

Definition with_blocks (bs : list (list instr)) (pos : nat) (p : lbProcedure)
  : lbProcedure :=
  mk_lbProcedure bs pos (decl_block p) (entry_block p) (curr_block p)
                 (result_count p) (state_flags p).

Lemma index_nat_run {St A} (l : list A) (i : nat) (x : A) (s : St) :
  l !! i = Some x → index l (Z.of_nat i) s = Some (x, s).
Proof.
  intros Hx. unfold index. rewrite (proj2 (Z.leb_le 0 (Z.of_nat i))) by lia.
  by rewrite Nat2Z.id, Hx.
Qed.

Lemma bind_step {St A B} (m : M St A) (f : A → M St B) (s : St) :
  (m ≫= f) s = match m s with Some (x, s') => f x s' | None => None end.
Proof. reflexivity. Qed.

(** One turn of the loop, at a block of the function. *)
Definition turn (block : nat) : M lbProcedure unit :=
  instr ← LLVMGetLastInstruction block;
  if bool_decide (instr = None) || negb (lb_is_instr_terminating instr) then
    LLVMPositionBuilderAtEnd block;;
    build Unreachable
  else mret tt.

Lemma last_instruction_run (k : nat) (p : lbProcedure) (b : list instr) :
  blocks p !! k = Some b → LLVMGetLastInstruction k p = Some (last b, p).
Proof.
  intros Hb. unfold LLVMGetLastInstruction. rewrite bind_step.
  change (get p) with (Some (p, p)). cbv beta iota.
  by rewrite bind_step, (index_nat_run _ _ _ _ Hb).
Qed.

Lemma build_run (i : instr) (p : lbProcedure) (b : list instr) :
  blocks p !! position p = Some b →
  build i p = Some (tt, set_blocks (<[position p := b ++ [i]]> (blocks p)) p).
Proof.
  intros Hb. unfold build. rewrite bind_step.
  change (get p) with (Some (p, p)). cbv beta iota.
  by rewrite bind_step, (index_nat_run _ _ _ _ Hb).
Qed.

Lemma turn_run (k : nat) (p : lbProcedure) (b : list instr) :
  blocks p !! k = Some b →
  ∃ pos, turn k p = Some (tt, with_blocks (<[k := terminated b]> (blocks p)) pos p).
Proof.
  intros Hb. unfold turn. rewrite bind_step, (last_instruction_run k p b Hb).
  unfold terminated.
  destruct (bool_decide (last b = None) || negb (lb_is_instr_terminating (last b))).
  - exists k. rewrite bind_step. unfold LLVMPositionBuilderAtEnd at 1, modify at 1.
    cbv beta iota. rewrite build_run with (b := b) by done. done.
  - exists (position p). rewrite list_insert_id by done. by destruct p.
Qed.

Lemma terminate_loop (n k : nat) (p : lbProcedure) :
  (k + n)%nat = length (blocks p) →
  ∃ pos,
    forM_ (seq k n) turn p
    = Some (tt, with_blocks (take k (blocks p) ++ (terminated <$> drop k (blocks p)))
                            pos p).
Proof.
  revert k p. induction n as [|n IH]; intros k p Hlen.
  - exists (position p). cbn. rewrite drop_ge by lia. cbn.
    rewrite app_nil_r, take_ge by lia. by destruct p.
  - destruct (lookup_lt_is_Some_2 (blocks p) k) as [b Hb]; [lia|].
    unfold forM_ in *. cbn [seq foldM]. rewrite bind_step.
    destruct (turn_run k p b Hb) as [pos ->].
    destruct (IH (Datatypes.S k) (with_blocks (<[k:=terminated b]> (blocks p)) pos p))
      as [pos' ->].
    { cbn. rewrite length_insert. lia. }
    exists pos'. unfold with_blocks.
    cbn [blocks decl_block entry_block curr_block result_count state_flags].
    assert (Heq : take (Datatypes.S k) (<[k:=terminated b]> (blocks p))
                  ++ (terminated <$> drop (Datatypes.S k) (<[k:=terminated b]> (blocks p)))
                  = take k (blocks p) ++ (terminated <$> drop k (blocks p))).
    { rewrite (take_S_r _ _ (terminated b)) by (by rewrite list_lookup_insert_eq by lia).
      rewrite take_insert_ge by lia. rewrite <- app_assoc. f_equal.
      rewrite drop_insert_lt by lia.
      rewrite (drop_S _ _ _ Hb). done. }
    by rewrite Heq.
Qed.

Lemma terminate_blocks_run (p : lbProcedure) :
  ∃ pos, terminate_blocks lb_is_instr_terminating p
         = Some (tt, with_blocks (terminated <$> blocks p) pos p).
Proof.
  unfold terminate_blocks. rewrite bind_step. unfold get. cbv beta iota.
  destruct (terminate_loop (length (blocks p)) 0 p) as [pos Hrun]; [done|].
  exists pos. exact Hrun.
Qed.

Lemma terminated_is_terminated (b : list instr) :
  lb_is_instr_terminating (Some Unreachable) = true →
  last (terminated b) ≠ None ∧ lb_is_instr_terminating (last (terminated b)) = true.
Proof.
  intros HU. unfold terminated.
  destruct (bool_decide (last b = None)) eqn:Hnone; cbn.
  - rewrite last_snoc. done.
  - destruct (lb_is_instr_terminating (last b)) eqn:Hterm; cbn.
    + apply bool_decide_eq_false in Hnone. done.
    + rewrite last_snoc. done.
Qed.

Lemma index_nat_inv {St A} (l : list A) (i : nat) (x : A) (s s' : St) :
  index l (Z.of_nat i) s = Some (x, s') → l !! i = Some x ∧ s' = s.
Proof.
  unfold index. rewrite (proj2 (Z.leb_le 0 (Z.of_nat i))) by lia.
  rewrite Nat2Z.id. destruct (l !! i); [|done]. by intros [= <- <-].
Qed.

Lemma build_inv (i : instr) (p p' : lbProcedure) :
  build i p = Some (tt, p') →
  ∃ b, blocks p !! position p = Some b
       ∧ p' = set_blocks (<[position p := b ++ [i]]> (blocks p)) p.
Proof.
  unfold build. rewrite bind_step.
  change (get p) with (Some (p, p)). cbv beta iota.
  rewrite bind_step.
  destruct (index (blocks p) (Z.of_nat (position p)) p) as [[b s]|] eqn:E; [|done].
  apply index_nat_inv in E as [Hb ->]. intros [= <-]. by exists b.
Qed.

Lemma last_instruction_inv (k : nat) (p p' : lbProcedure) (i : option instr) :
  LLVMGetLastInstruction k p = Some (i, p') →
  ∃ b, blocks p !! k = Some b ∧ i = last b ∧ p' = p.
Proof.
  unfold LLVMGetLastInstruction. rewrite bind_step.
  change (get p) with (Some (p, p)). cbv beta iota.
  rewrite bind_step.
  destruct (index (blocks p) (Z.of_nat k) p) as [[b s]|] eqn:E; [|done].
  apply index_nat_inv in E as [Hb ->]. intros [= <- <-]. by exists b.
Qed.

(** The procedure once its declaration block branches to the entry block
    and the builder is back at the end of the current block. *)
Definition branched (decl : list instr) (curr : nat) (p : lbProcedure) : lbProcedure :=
  with_blocks
    (<[decl_block p := decl ++ [Br (entry_block p)]]> (blocks p)) curr p.

End facts.
End EndBodyFacts.

(** X9.  When [lb_end_procedure_body] returns, every basic block of the
    function ends in a terminating instruction, the procedure has no current
    block, and its state flags are cleared.  The blocks are those of the
    procedure it was given, changed in this way only: the declaration block
    has got a branch to the entry block; where the procedure has no result
    and its current block did not end in a terminating instruction, the
    deferred statements were emitted and a [ret void] built after them; and
    last, each block that was empty or did not end in a terminating
    instruction has had an [unreachable] appended, every other block being
    left as it was.  [lb_is_instr_terminating] is taken to accept
    [unreachable]. *)
Theorem end_body_leaves_every_block_terminated
    (lb_is_instr_terminating : option EndBody.instr → bool)
    (lb_emit_defer_stmts : Core.M EndBody.lbProcedure unit)
    (p p' : EndBody.lbProcedure) :
  lb_is_instr_terminating (Some EndBody.Unreachable) = true →
  EndBody.lb_end_procedure_body lb_is_instr_terminating lb_emit_defer_stmts p
  = Some (tt, p') →
  Forall (λ block, last block ≠ None ∧ lb_is_instr_terminating (last block) = true)
         (EndBody.blocks p')
  ∧ EndBody.curr_block p' = None
  ∧ EndBody.state_flags p' = 0
  ∧ ∃ decl curr q,
      EndBody.blocks p !! EndBody.decl_block p = Some decl
      ∧ EndBody.curr_block p = Some curr
      ∧ (if EndBody.result_count p =? 0 then
           ∃ last_block,
             EndBody.blocks (EndBodyFacts.branched decl curr p) !! curr = Some last_block
             ∧ if lb_is_instr_terminating (last last_block)
               then q = EndBodyFacts.branched decl curr p
               else ∃ q0 block,
                   lb_emit_defer_stmts (EndBodyFacts.branched decl curr p) = Some (tt, q0)
                   ∧ EndBody.blocks q0 !! EndBody.position q0 = Some block
                   ∧ q = EndBody.set_blocks
                           (<[EndBody.position q0 := block ++ [EndBody.RetVoid]]>
                              (EndBody.blocks q0)) q0
         else q = EndBodyFacts.branched decl curr p)
      ∧ EndBody.blocks p'
        = EndBodyFacts.terminated lb_is_instr_terminating <$> EndBody.blocks q.
Proof.
  intros HU Hrun. unfold EndBody.lb_end_procedure_body in Hrun.
  rewrite EndBodyFacts.bind_step in Hrun.
  change (Core.get p) with (Some (p, p)) in Hrun. cbv beta iota in Hrun.
  rewrite EndBodyFacts.bind_step in Hrun.
  unfold EndBody.LLVMPositionBuilderAtEnd at 1, Core.modify at 1 in Hrun.
  cbv beta iota in Hrun.
  rewrite EndBodyFacts.bind_step in Hrun.
  match type of Hrun with
  | context [EndBody.build ?i ?s] =>
      destruct (EndBody.build i s) as [[[] p0]|] eqn:Hbr; [|discriminate Hrun]
  end.
  apply EndBodyFacts.build_inv in Hbr as (decl & Hdecl & ->).
  cbn [EndBody.blocks EndBody.position] in Hdecl.
  rewrite EndBodyFacts.bind_step in Hrun.
  destruct (EndBody.curr_block p) as [curr|] eqn:Hcurr; [|discriminate Hrun].
  unfold mret at 1, Core.M_ret at 1 in Hrun. cbv beta iota in Hrun.
  rewrite EndBodyFacts.bind_step in Hrun.
  unfold EndBody.LLVMPositionBuilderAtEnd at 1, Core.modify at 1 in Hrun.
  cbv beta iota in Hrun.
  rewrite EndBodyFacts.bind_step in Hrun.
  match type of Hrun with
  | context [(if _ then _ else _) ?s] =>
      replace s with (EndBodyFacts.branched decl curr p) in Hrun
        by (unfold EndBodyFacts.branched, EndBodyFacts.with_blocks; cbn;
            by rewrite ?Hcurr)
  end.
  match type of Hrun with
  | context [match ?m with Some _ => _ | None => _ end] =>
      destruct m as [[[] q]|] eqn:Hret; [|discriminate Hrun]
  end.
  rewrite EndBodyFacts.bind_step in Hrun.
  destruct (EndBodyFacts.terminate_blocks_run lb_is_instr_terminating q) as [pos Hloop].
  rewrite Hloop in Hrun. injection Hrun as <-. cbn.
  split.
  { apply Forall_fmap, Forall_forall. intros b _.
    by apply EndBodyFacts.terminated_is_terminated. }
  do 2 (split; [done|]).
  exists decl, curr, q. do 2 (split; [done|]). split; [|done].
  destruct (EndBody.result_count p =? 0); [|by injection Hret as <-].
  rewrite EndBodyFacts.bind_step in Hret.
  match type of Hret with
  | context [match ?m with Some _ => _ | None => _ end] =>
      destruct m as [[i q1]|] eqn:Hlast; [|discriminate Hret]
  end.
  apply EndBodyFacts.last_instruction_inv in Hlast as (b & Hb & -> & ->).
  exists b. split; [done|].
  destruct (lb_is_instr_terminating (last b)); cbn [negb] in Hret.
  { by injection Hret as <-. }
  rewrite EndBodyFacts.bind_step in Hret.
  destruct (lb_emit_defer_stmts _) as [[[] q0]|] eqn:Hdefer; [|discriminate Hret].
  apply EndBodyFacts.build_inv in Hret as (block & Hblock & ->).
  by exists q0, block.
Qed.
(** ** Procedure creation: registration and the dummy procedure *)

Module CreateMoreFacts.
Import Core Create CreateDummy.

Section facts.
Context {L : Type} `{Collaborators L}.
Context (set_calling_convention : lbProcedure → M L unit).
Context (add_parameter_attributes : lbProcedure → M L unit).

(** What a creation of a dummy procedure that returns has done. *)
Lemma create_dummy_inv (link_name : string) (type : Type_) (m m' : lbModule L) p :
  lb_create_dummy_procedure set_calling_convention add_parameter_attributes
    link_name type m = Some (p, m') →
  members m !! link_name = None
  ∧ p = {| p_module := m_id m; p_entity := nullptr; p_name := link_name;
           p_type := type; p_body := nullptr; p_is_foreign := false;
           p_value := p_value p |}
  ∧ m_id m' = m_id m
  ∧ members m' = <[link_name := {| value := p_value p; type := type |}]> (members m)
  ∧ procedures m' = <[link_name := p]> (procedures m)
  ∧ values m' = values m
  ∧ added_functions m' = link_name :: added_functions m.
Proof.
  unfold lb_create_dummy_procedure. CreateFacts.run.
  destruct (members m !! link_name) eqn:Hmem; [done|].
  unfold add_function, on_llvm, lb_add_member, lb_add_procedure_value.
  CreateFacts.run.
  destruct (LLVMAddFunction link_name _ (m_llvm m)) as [[v l]|]; [|done]. cbn.
  destruct (set_calling_convention _ l) as [[[] l1]|]; [|done]. cbn.
  destruct (add_parameter_attributes _ l1) as [[[] l2]|]; [|done]. cbn.
  intros [= <- <-]. cbn. done.
Qed.

End facts.
End CreateMoreFacts.

(** X10.  [lb_create_procedure] returns only for an entity that is a
    procedure.  It returns no descriptor exactly for an unspecialized
    polymorphic procedure, and then leaves the module as it was.  When it
    returns a descriptor, the procedure is foreign or has a checked body, the
    descriptor is the one the module's procedure table holds under the link
    name, and the value the entity is bound to is the module's member under
    that link name. *)
Theorem create_procedure_result_is_registered {L : Type} `{Create.Collaborators L}
    (entity : Core.Entity) (ignore_body : bool) (m m' : Create.lbModule L)
    (r : option Create.lbProcedure) :
  Create.lb_create_procedure entity ignore_body m = Some (r, m') →
  let name := Create.link_name_of (Create.m_id m) entity ignore_body in
  Core.e_kind entity = Core.Entity_Procedure
  ∧ (r = None ↔ Create.skip_unspecialized entity = true)
  ∧ (r = None → m' = m)
  ∧ ∀ p, r = Some p →
      (Core.e_is_foreign entity = true ∨ Core.e_flag_ProcBodyChecked entity = true)
      ∧ Create.procedures m' !! name = Some p
      ∧ ∃ v, Create.members m' !! name = Some v
             ∧ Create.values m' !! Core.e_id entity = Some v.
Proof.
  intros Hrun name. unfold Create.lb_create_procedure in Hrun. CreateFacts.run.
  destruct (bool_decide (Core.e_kind entity = Core.Entity_Procedure)) eqn:Hkind; [|done].
  apply bool_decide_eq_true in Hkind. cbv beta iota in Hrun.
  split; [done|].
  destruct (Create.skip_unspecialized entity) eqn:Hskip.
  { injection Hrun as <- <-. done. }
  destruct (Core.e_is_foreign entity) eqn:Hforeign;
    destruct (Core.e_flag_ProcBodyChecked entity) eqn:Hchecked; cbn in Hrun; try done.
  all: fold name in Hrun.
  all: destruct (Create.members m !! name) as [found|] eqn:Hfound.
  all: unfold Create.lb_add_entity, Create.must_get_procedure, Create.add_function,
         Create.on_llvm, Create.lb_add_member, Create.lb_add_procedure_value in Hrun;
       CreateFacts.run; cbn in Hrun.
  all: try (destruct (Create.procedures m !! name) as [q|] eqn:Hq; [|done];
            injection Hrun as <- <-; cbn;
            split; [done|]; split; [done|]; intros p [= <-];
            split; [eauto|]; split; [done|];
            exists found; split; [done|apply lookup_insert_eq]).
  all: destruct (bool_decide (is_Some (Create.type_proc (Create.base_type (Core.e_type entity)))));
         [|done]; cbn in Hrun.
  all: destruct (Create.LLVMAddFunction name _ (Create.m_llvm m)) as [[v l]|]; [|done];
       cbn in Hrun.
  all: destruct (Create.attach_attributes entity ignore_body _ l) as [[[] l']|]; [|done];
       cbn in Hrun; injection Hrun as <- <-.
  all: split; [done|]; split; [done|]; intros p [= <-].
  all: split; [eauto|].
  all: destruct ignore_body; cbn; rewrite !lookup_insert_eq; eauto.
Qed.

(** X11.  [lb_create_dummy_procedure] refuses a link name the module's
    member table already holds.  When it returns, the name was free, the
    descriptor has no entity and no body, it is registered as member and as
    procedure under the link name, one native callable was added, a second
    dummy of the same name is refused, and [lb_create_procedure] for an
    entity of that link name returns this descriptor without adding a
    callable. *)
Theorem create_dummy_procedure_reserves_link_name {L : Type} `{Create.Collaborators L}
    (set_calling_convention add_parameter_attributes :
       Create.lbProcedure → Core.M L unit)
    (link_name : string) (type : Core.Type_) (m : Create.lbModule L) :
  let create_dummy :=
    CreateDummy.lb_create_dummy_procedure set_calling_convention
      add_parameter_attributes in
  (is_Some (Create.members m !! link_name) → create_dummy link_name type m = None)
  ∧ ∀ p m', create_dummy link_name type m = Some (p, m') →
      Create.members m !! link_name = None
      ∧ Create.p_name p = link_name ∧ Create.p_type p = type
      ∧ Create.p_body p = Core.nullptr ∧ Create.p_entity p = Core.nullptr
      ∧ Create.members m' !! link_name
        = Some {| Core.value := Create.p_value p; Core.type := type |}
      ∧ Create.procedures m' !! link_name = Some p
      ∧ Create.added_functions m' = link_name :: Create.added_functions m
      ∧ (∀ type', create_dummy link_name type' m' = None)
      ∧ ∀ entity ignore_body,
          Core.e_kind entity = Core.Entity_Procedure →
          Create.skip_unspecialized entity = false →
          (Core.e_is_foreign entity = true ∨ Core.e_flag_ProcBodyChecked entity = true) →
          Create.link_name_of (Create.m_id m') entity ignore_body = link_name →
          ∃ m'', Create.lb_create_procedure entity ignore_body m' = Some (Some p, m'')
                 ∧ Create.added_functions m'' = Create.added_functions m'.
Proof.
  intros create_dummy.
  assert (Htaken : ∀ ty (m0 : Create.lbModule L),
            is_Some (Create.members m0 !! link_name) →
            create_dummy link_name ty m0 = None).
  { intros ty m0 [found Hfound]. unfold create_dummy, CreateDummy.lb_create_dummy_procedure.
    CreateFacts.run. by rewrite Hfound. }
  split; [apply Htaken|].
  intros p m' Hrun.
  apply CreateMoreFacts.create_dummy_inv in Hrun
    as (Hfree & Hp & Hid & Hmem & Hprocs & Hvalues & Hadded).
  assert (Hmem' : Create.members m' !! link_name
                  = Some {| Core.value := Create.p_value p; Core.type := type |}).
  { rewrite Hmem. apply lookup_insert_eq. }
  assert (Hprocs' : Create.procedures m' !! link_name = Some p).
  { rewrite Hprocs. apply lookup_insert_eq. }
  split; [done|]. rewrite Hp at 1 2 3 4. cbn.
  repeat (split; [done|]).
  split; [intros type'; apply Htaken; by rewrite Hmem'|].
  intros entity ignore_body Hkind Hskip Hguard Hname.
  assert (Hg : negb (Core.e_is_foreign entity) && negb (Core.e_flag_ProcBodyChecked entity)
               = false).
  { destruct Hguard as [-> | ->]; cbn; [done|by rewrite andb_false_r]. }
  rewrite <- Hname in Hmem', Hprocs'.
  pose proof (CreateFacts.create_hit entity ignore_body m' _ Hkind Hskip Hg Hmem') as Hhit.
  rewrite Hprocs' in Hhit.
  eexists. split; [apply Hhit|done].
Qed.

(** X12.  When the link name is free and [lb_create_procedure] returns a
    descriptor, the descriptor carries the module, the entity, the link name,
    the entity's type, the body of the procedure literal (none with
    [ignore_body]) and the callable that the one call of [LLVMAddFunction]
    under the link name gave; the member table, the procedure table and the
    entity's value are set to it, and the entries of every other link name
    are as before. *)
Theorem create_procedure_registers_new_descriptor {L : Type} `{Create.Collaborators L}
    (entity : Core.Entity) (ignore_body : bool) (m m' : Create.lbModule L)
    (p : Create.lbProcedure) :
  let name := Create.link_name_of (Create.m_id m) entity ignore_body in
  Create.members m !! name = None →
  Create.lb_create_procedure entity ignore_body m = Some (Some p, m') →
  p = {| Create.p_module := Create.m_id m;
         Create.p_entity := Core.e_id entity;
         Create.p_name := name;
         Create.p_type := Core.e_type entity;
         Create.p_body := if ignore_body then Core.nullptr
                          else Create.proc_lit_body entity;
         Create.p_is_foreign := Core.e_is_foreign entity;
         Create.p_value := Create.p_value p |}
  ∧ (∃ l, Create.LLVMAddFunction name (Create.lb_get_procedure_raw_type (Core.e_type entity))
            (Create.m_llvm m) = Some (Create.p_value p, l))
  ∧ Create.added_functions m' = name :: Create.added_functions m
  ∧ Create.members m' !! name
    = Some {| Core.value := Create.p_value p; Core.type := Core.e_type entity |}
  ∧ Create.procedures m' !! name = Some p
  ∧ Create.values m' !! Core.e_id entity
    = Some {| Core.value := Create.p_value p; Core.type := Core.e_type entity |}
  ∧ ∀ other, other ≠ name →
      Create.members m' !! other = Create.members m !! other
      ∧ Create.procedures m' !! other = Create.procedures m !! other.
Proof.
  intros name Hfree Hrun. unfold Create.lb_create_procedure in Hrun. CreateFacts.run.
  destruct (bool_decide (Core.e_kind entity = Core.Entity_Procedure)); [|done].
  cbv beta iota in Hrun.
  destruct (Create.skip_unspecialized entity); [done|].
  destruct (negb (Core.e_is_foreign entity) && negb (Core.e_flag_ProcBodyChecked entity));
    [done|].
  cbv beta iota in Hrun. fold name in Hrun. rewrite Hfree in Hrun.
  destruct (bool_decide (is_Some (Create.type_proc (Create.base_type (Core.e_type entity)))));
    [|done].
  unfold Create.add_function, Create.on_llvm, Create.lb_add_entity, Create.lb_add_member,
    Create.lb_add_procedure_value in Hrun. CreateFacts.run.
  destruct (Create.LLVMAddFunction name _ (Create.m_llvm m)) as [[v l]|] eqn:Hadd; [|done].
  cbn in Hrun.
  destruct (Create.attach_attributes entity ignore_body _ l) as [[[] l']|]; [|done].
  cbn in Hrun. injection Hrun as <- <-. cbn.
  split; [by destruct ignore_body|].
  split; [destruct ignore_body; eauto|].
  split; [by destruct ignore_body|].
  split; [destruct ignore_body; cbn; apply lookup_insert_eq|].
  split; [destruct ignore_body; cbn; apply lookup_insert_eq|].
  split; [destruct ignore_body; cbn; apply lookup_insert_eq|].
  intros other Hother. destruct ignore_body; cbn; by rewrite !lookup_insert_ne.
Qed.
(** ** Body entry: the parameter loop *)

Module BodyMoreFacts.
Import Core Proc Body ProcFacts BodyFacts.

Section facts.
Context {S : Type} `{Backend S}.

Lemma unnamed_token (s : string) :
  s = "" ∨ s = "_" →
  negb (String.length s =? 0)%nat && negb (is_blank_ident s) = false.
Proof. by intros [-> | ->]. Qed.

(** The loop over the parameters, from the classification [param_index]
    on. *)
Definition parameters_from (ft : lbFunctionType) (param_offset param_index : Z)
    (variables : list Entity) : M (lbProcedure S) Z :=
  foldM (λ param_index e,
           if negb (bool_decide (e_kind e = Entity_Variable)) then mret param_index
           else
             bind_parameter ft (is_calling_convention_odin (ft_calling_convention ft))
               param_offset param_index e;;
             mret (param_index + 1))
        param_index variables.

Lemma parameters_from_filter ft param_offset param_index variables p :
  parameters_from ft param_offset param_index variables p
  = parameters_from ft param_offset param_index
      (filter (λ e, e_kind e = Entity_Variable) variables) p.
Proof.
  unfold parameters_from. revert param_index p.
  induction variables as [|e vs IH]; intros param_index p; [done|].
  rewrite filter_cons. destruct (decide (e_kind e = Entity_Variable)) as [Hv|Hv].
  - rewrite !foldM_cons. rewrite bool_decide_true by done. cbn [negb].
    match goal with
    | |- match ?m with _ => _ end = _ => destruct m as [[i p1]|]; [|done]
    end. apply IH.
  - rewrite foldM_cons. rewrite bool_decide_false by done. cbn [negb].
    unfold mret at 1, M_ret at 1. apply IH.
Qed.

End facts.
End BodyMoreFacts.

(** X13.  The parameter loop of [lb_begin_procedure_body] passes over every
    entity that is not a variable without using up an index of the function
    type's classification: binding a parameter list is binding its
    variables. *)
Theorem bind_parameters_passes_over_non_variables
    {S : Type} `{Proc.Backend S}
    (ft : Core.lbFunctionType) (param_offset : Z) (variables : list Core.Entity)
    (p : Proc.lbProcedure S) :
  Body.bind_parameters ft param_offset variables p
  = Body.bind_parameters ft param_offset
      (filter (λ e, Core.e_kind e = Core.Entity_Variable) variables) p.
Proof.
  unfold Body.bind_parameters.
  rewrite !ProcFacts.get_bind, !ProcFacts.modify_bind, !ProcFacts.bind_run.
  pose proof (BodyMoreFacts.parameters_from_filter ft param_offset 0 variables
                (Proc.set_raw_input_parameters (Proc.LLVMGetParams (Proc.p_value p)) p))
    as Hloop.
  unfold BodyMoreFacts.parameters_from in Hloop. by rewrite Hloop.
Qed.

(** X14.  A parameter whose name is empty or the blank identifier, and
    whose classification is [Direct] or [Indirect], is bound to nothing and
    the procedure is left as it was.  A parameter classified [Ignore] is
    bound, whatever its name, to a fresh local of its type that is not
    zero-initialized. *)
Theorem unnamed_parameter_binds_nothing_unless_ignored
    {S : Type} `{Proc.Backend S}
    (ft : Core.lbFunctionType) (is_odin_cc : bool) (param_offset param_index : Z)
    (e : Core.Entity) (arg_type : Core.lbArgType) (p : Proc.lbProcedure S) :
  0 ≤ param_index →
  Core.ft_args ft !! Z.to_nat param_index = Some arg_type →
  let run := Body.bind_parameter ft is_odin_cc param_offset param_index e p in
  (Core.arg_kind arg_type ≠ Core.lbArg_Ignore →
   Core.e_token e = "" ∨ Core.e_token e = "_" →
   run = Some (tt, p))
  ∧ (Core.arg_kind arg_type = Core.lbArg_Ignore →
     ∀ p', run = Some (tt, p') →
       ∃ dummy b,
         Proc.new_local (Core.e_type e) false false (Proc.builder p) = Some (dummy, b)
         ∧ p' = Proc.set_values (<[Core.e_id e := dummy]> (Proc.values p))
                  (Proc.set_builder b p)).
Proof.
  intros Hidx Harg run. unfold run, Body.bind_parameter.
  rewrite ProcFacts.bind_run, (BodyFacts.index_run _ _ arg_type) by done.
  rewrite ProcFacts.get_bind.
  split.
  - intros Hkind Hname.
    destruct (Core.arg_kind arg_type); [| |done];
      by rewrite BodyMoreFacts.unnamed_token by done.
  - intros Hkind p'. rewrite Hkind, ProcFacts.bind_run.
    destruct (Proc.lb_add_local_generated _ _ p) as [[dummy p1]|] eqn:E1; [|done].
    apply BodyFacts.lb_add_local_generated_inv in E1 as (b & Hnew & ->).
    unfold Proc.lb_add_entity, Core.modify. intros [= <-].
    exists (Core.addr dummy), b. split; [done|]. by destruct p.
Qed.
(** ** Calls: arity, native argument order, deferred companions *)

Module CallMoreFacts.
Import Core Proc Call ProcFacts.

Section facts.
Context {S : Type} `{Backend S}.

(** The loop of [lb_emit_call_internal] over the processed arguments. *)
Lemma native_arguments_loop (processed : list lbValue) (init : list LLVMValueRef)
    (p p' : lbProcedure S) out :
  foldM (λ args arg,
           v ← (if is_type_proc (type arg)
                then ext (LLVMBuildPointerCast (value arg) (lb_type (type arg)))
                else mret (value arg));
           mret (args ++ [v]))
        init processed p = Some (out, p') →
  ∃ natives, out = init ++ natives
    ∧ length natives = length processed
    ∧ same_tables p p'
    ∧ ∀ i a, processed !! i = Some a → is_type_proc (type a) = false →
        natives !! i = Some (value a).
Proof.
  revert init p. induction processed as [|a processed IH]; intros init p.
  - intros [= <- <-]. exists []. rewrite app_nil_r.
    split; [done|]. split; [done|]. split; [apply same_tables_refl|]. done.
  - rewrite foldM_cons, bind_run.
    destruct (is_type_proc (type a)) eqn:Hproc.
    + destruct (ext _ p) as [[v p1]|] eqn:E1; [|done].
      apply ext_same_tables in E1. unfold mret at 1, M_ret at 1.
      intros Hrest. apply IH in Hrest as (natives & -> & Hlen & Hsame & Hnat).
      exists (v :: natives). rewrite <- app_assoc.
      split; [done|]. split; [cbn; lia|].
      split; [eauto using same_tables_trans|].
      intros [|i] a' Ha' Hnp; cbn in *; [congruence|eauto].
    + unfold mret at 1 2, M_ret at 1 2.
      intros Hrest. apply IH in Hrest as (natives & -> & Hlen & Hsame & Hnat).
      exists (value a :: natives). rewrite <- app_assoc.
      split; [done|]. split; [cbn; lia|]. split; [done|].
      intros [|i] a' Ha' Hnp; cbn in *; [congruence|eauto].
Qed.


End facts.
End CallMoreFacts.

(** X17.  The native call [lb_emit_call_internal] builds has its arguments in
    this order: the return pointer when there is one, then one native
    argument for each processed argument in order (the argument's own value
    unless it is of procedure type), then the context pointer, cast to
    [rawptr], when there is one.  The result is typed with the ABI return
    type. *)
Theorem emit_call_internal_orders_native_arguments
    {S : Type} `{Proc.Backend S}
    (value_ return_ptr : Core.lbValue) (processed : list Core.lbValue)
    (abi_rt : Core.Type_) (context_ptr : Core.lbAddr) (inlining : Core.ProcInlining)
    (p p' : Proc.lbProcedure S) (result : Core.lbValue) :
  Call.lb_emit_call_internal value_ return_ptr processed abi_rt context_ptr inlining p
  = Some (result, p') →
  ∃ natives context fnp fn checked b1 b2 b3,
    length natives = length processed
    ∧ (∀ i a, processed !! i = Some a → Proc.is_type_proc (Core.type a) = false →
         natives !! i = Some (Core.value a))
    ∧ (if (Core.value (Core.addr context_ptr) =? Core.nullptr)%N then context = []
       else ∃ cp b b',
              Proc.LLVMBuildPointerCast (Core.value (Core.addr context_ptr))
                (Proc.lb_type Proc.t_rawptr) b = Some (cp, b')
              ∧ context = [cp])
    ∧ Proc.lb_check_call_arguments value_
        ((if (Core.value return_ptr =? Core.nullptr)%N then []
          else [Core.value return_ptr]) ++ natives ++ context) b1
      = Some ((fnp, fn, checked), b2)
    ∧ Proc.LLVMBuildCall2 fnp fn checked b2 = Some (Core.value result, b3)
    ∧ Core.type result = abi_rt
    ∧ ProcFacts.same_tables p p'.
Proof.
  unfold Call.lb_emit_call_internal. cbv zeta.
  rewrite ProcFacts.bind_run.
  match goal with
  | |- match ?m with _ => _ end = _ → _ => destruct m as [[args1 p1]|] eqn:Eloop; [|done]
  end.
  apply CallMoreFacts.native_arguments_loop in Eloop
    as (natives & -> & Hlen & Hsame1 & Hnat).
  rewrite ProcFacts.bind_run.
  set (ret := if negb (Core.value return_ptr =? Core.nullptr)%N
              then [Core.value return_ptr] else []).
  assert (Hret : ret = if (Core.value return_ptr =? Core.nullptr)%N then []
                       else [Core.value return_ptr]).
  { unfold ret. by destruct (Core.value return_ptr =? Core.nullptr)%N. }
  assert (Hretlen : length ret
                    = if negb (Core.value return_ptr =? Core.nullptr)%N then 1%nat else 0%nat).
  { unfold ret. by destruct (Core.value return_ptr =? Core.nullptr)%N. }
  assert (Htail : ∀ (c : bool) (args : list Core.LLVMValueRef) (q : Proc.lbProcedure S),
            (Core.GB_ASSERT c ≫= λ _ : (),
               Proc.ext (Proc.lb_check_call_arguments value_ args)
               ≫= λ '(fnp, fn, args),
                    Proc.ext (Proc.LLVMBuildCall2 fnp fn args)
                    ≫= λ ret0 : N,
                         Proc.ext
                           (Proc.lb_set_call_attributes ret0 value_
                              (negb (Core.value return_ptr =? Core.nullptr)%N) inlining)
                         ≫= λ _ : (),
                              mret {| Core.value := ret0; Core.type := abi_rt |}) q
            = Some (result, p') →
            ∃ fnp fn checked b2 b3,
              Proc.lb_check_call_arguments value_ args (Proc.builder q)
              = Some ((fnp, fn, checked), b2)
              ∧ Proc.LLVMBuildCall2 fnp fn checked b2 = Some (Core.value result, b3)
              ∧ Core.type result = abi_rt
              ∧ ProcFacts.same_tables q p').
  { intros c args q. rewrite ProcFacts.assert_bind. destruct c; [|done].
    rewrite ProcFacts.bind_run, ProcFacts.ext_run.
    destruct (Proc.lb_check_call_arguments _ _ _) as [[[[fnp fn] checked] b2]|] eqn:Echeck;
      [|done].
    rewrite ProcFacts.bind_run, ProcFacts.ext_run. cbn [Proc.builder Proc.set_builder].
    destruct (Proc.LLVMBuildCall2 _ _ _ _) as [[r b3]|] eqn:Ecall; [|done].
    rewrite ProcFacts.bind_run, ProcFacts.ext_run.
    destruct (Proc.lb_set_call_attributes _ _ _ _ _) as [[[] b4]|]; [|done].
    intros [= <- <-]. exists fnp, fn, checked, b2, b3.
    split; [done|]. split; [done|]. split; [done|]. by destruct q. }
  destruct (Core.value (Core.addr context_ptr) =? Core.nullptr)%N eqn:Hctx; cbn [negb].
  - unfold mret at 1, Core.M_ret at 1. intros Hrun.
    apply Htail in Hrun as (fnp & fn & checked & b2 & b3 & Hcheck & Hcall & Hty & Hsame).
    exists natives, [], fnp, fn, checked, (Proc.builder p1), b2, b3.
    rewrite app_nil_r, <- Hret.
    split; [done|]. split; [done|]. split; [done|]. split; [done|].
    split; [done|]. split; [done|]. eauto using ProcFacts.same_tables_trans.
  - rewrite ProcFacts.bind_run, ProcFacts.ext_run.
    destruct (Proc.LLVMBuildPointerCast _ _ _) as [[cp bc]|] eqn:Ecp; [|done].
    unfold mret at 1, Core.M_ret at 1. intros Hrun.
    apply Htail in Hrun as (fnp & fn & checked & b2 & b3 & Hcheck & Hcall & Hty & Hsame).
    exists natives, [cp], fnp, fn, checked, bc, b2, b3.
    rewrite <- Hret, app_assoc.
    split; [done|]. split; [done|]. split; [eauto|]. split; [done|].
    split; [done|]. split; [done|].
    assert (ProcFacts.same_tables p1 (Proc.set_builder bc p1))
      by apply ProcFacts.same_tables_set_builder.
    eauto using ProcFacts.same_tables_trans.
Qed.

(** X15.  [lb_emit_call] asserts that the callee's base type is a procedure
    type, that a call of a procedure that is not C-variadic has exactly as
    many arguments as the procedure has parameters, and that a call of a
    C-variadic procedure has at least [param_count - 1] arguments. *)
Theorem emit_call_checks_callee_and_argument_count
    {S : Type} `{Proc.Backend S}
    (value_ : Core.lbValue) (args : list Core.lbValue) (inlining : Core.ProcInlining)
    (p : Proc.lbProcedure S) :
  let callee_type := Proc.type_proc (Proc.base_type (Core.type value_)) in
  (callee_type = None → Call.lb_emit_call value_ args inlining p = None)
  ∧ ∀ pt, callee_type = Some pt →
      (Core.c_vararg pt = false → Core.param_count pt ≠ Z.of_nat (length args) →
       Call.lb_emit_call value_ args inlining p = None)
      ∧ (Core.c_vararg pt = true → Z.of_nat (length args) < Core.param_count pt - 1 →
         Call.lb_emit_call value_ args inlining p = None).
Proof.
  intros callee_type. unfold callee_type.
  split.
  - intros Hnone. unfold Call.lb_emit_call. by rewrite Hnone.
  - intros pt Hpt.
    split; intros Hcv Hcount; unfold Call.lb_emit_call; rewrite Hpt, Hcv;
      rewrite ProcFacts.bind_run;
      (match goal with
       | |- match ?m with _ => _ end = _ => destruct m as [[ctx p1]|]; [|done]
       end);
      rewrite ProcFacts.bind_run, ProcFacts.assert_bind.
    + by destruct (Z.eqb_spec (Core.param_count pt) (Z.of_nat (length args))).
    + destruct (Z.leb_spec (Core.param_count pt - 1) (Z.of_nat (length args))); [lia|done].
Qed.

(** X16.  Attaching a deferred companion does nothing when the callee is not
    a known procedure or has no deferred procedure.  Otherwise one entry is
    appended to the deferred statements, for the current scope, with no
    argument in mode [none], the call's arguments in mode [in], the call's
    results split into an array in mode [out], and the arguments followed by
    the results in mode [in_out]. *)
Theorem deferred_by_value_modes_register_values
    {S : Type} `{Proc.Backend S}
    (value_ : Core.lbValue) (args : list Core.lbValue) (result : Core.lbValue)
    (p : Proc.lbProcedure S) :
  let the_proc_value :=
    if Proc.LLVMIsAConstantExpr (Proc.builder p) (Core.value value_)
    then Proc.LLVMGetOperand (Proc.builder p) (Core.value value_) 0
    else Core.value value_ in
  let entry deferred values :=
    {| Proc.defer_scope_index := Proc.scope_index p;
       Proc.defer_proc := deferred;
       Proc.defer_args := values |} in
  (Proc.procedure_values p !! the_proc_value = None →
   Call.attach_deferred value_ args result p = Some (tt, p))
  ∧ ∀ e, Proc.procedure_values p !! the_proc_value = Some e →
      (Proc.entity_has_deferred_procedure e = false →
       Call.attach_deferred value_ args result p = Some (tt, p))
      ∧ ∀ p', Proc.entity_has_deferred_procedure e = true →
          Call.attach_deferred value_ args result p = Some (tt, p') →
          ∃ deferred b,
            Proc.lb_find_procedure_value_from_entity (Core.e_deferred_entity e)
              (Proc.builder p) = Some (deferred, b)
            ∧ (Core.e_deferred_kind e = Core.DeferredProcedure_none →
               p' = Proc.set_defer_stmts (Proc.defer_stmts p ++ [entry deferred []])
                      (Proc.set_builder b p))
            ∧ (Core.e_deferred_kind e = Core.DeferredProcedure_in →
               p' = Proc.set_defer_stmts (Proc.defer_stmts p ++ [entry deferred args])
                      (Proc.set_builder b p))
            ∧ (Core.e_deferred_kind e = Core.DeferredProcedure_out →
               ∃ outs q,
                 Call.lb_value_to_array result (Proc.set_builder b p) = Some (outs, q)
                 ∧ p' = Proc.set_defer_stmts (Proc.defer_stmts p ++ [entry deferred outs]) q)
            ∧ (Core.e_deferred_kind e = Core.DeferredProcedure_in_out →
               ∃ outs q,
                 Call.lb_value_to_array result (Proc.set_builder b p) = Some (outs, q)
                 ∧ p' = Proc.set_defer_stmts
                          (Proc.defer_stmts p ++ [entry deferred (args ++ outs)]) q).
Proof.
  intros the_proc_value entry.
  assert (Hp : ∀ B (k : Core.LLVMValueRef → Core.M (Proc.lbProcedure S) B),
            ((if Proc.LLVMIsAConstantExpr (Proc.builder p) (Core.value value_)
              then Proc.ask (λ s, Proc.LLVMGetOperand s (Core.value value_) 0)
              else mret (Core.value value_)) ≫= k) p = k the_proc_value p).
  { intros B k. unfold the_proc_value. by destruct (Proc.LLVMIsAConstantExpr _ _). }
  assert (Hunfold : Call.attach_deferred value_ args result p
            = match Proc.procedure_values p !! the_proc_value with
              | Some e =>
                  if Proc.entity_has_deferred_procedure e then
                    (deferred ← Proc.ext (Proc.lb_find_procedure_value_from_entity
                                            (Core.e_deferred_entity e));
                     result_as_args ←
                       Call.deferred_arguments (Core.e_deferred_kind e) args result;
                     p ← Core.get;
                     Proc.lb_add_defer_proc (Proc.scope_index p) deferred result_as_args) p
                  else Some (tt, p)
              | None => Some (tt, p)
              end).
  { unfold Call.attach_deferred. rewrite ProcFacts.ask_bind, Hp, ProcFacts.get_bind.
    destruct (Proc.procedure_values p !! the_proc_value) as [e|]; [|done].
    by destruct (Proc.entity_has_deferred_procedure e). }
  rewrite Hunfold. split.
  - by intros ->.
  - intros e ->. split; [by intros ->|]. intros p' -> Hrun.
    rewrite ProcFacts.bind_run, ProcFacts.ext_run in Hrun.
    destruct (Proc.lb_find_procedure_value_from_entity _ _) as [[deferred b]|]; [|done].
    exists deferred, b. split; [done|].
    rewrite ProcFacts.bind_run in Hrun.
    assert (Hscope : ∀ q, ProcFacts.same_tables p q →
              Proc.scope_index q = Proc.scope_index p
              ∧ Proc.defer_stmts q = Proc.defer_stmts p).
    { intros q ->. by destruct p. }
    split; [|split; [|split]]; intros Hkind; rewrite Hkind in Hrun;
      unfold Call.deferred_arguments in Hrun.
    + rewrite ProcFacts.ret_bind in Hrun. unfold mret at 1, Core.M_ret at 1 in Hrun.
      rewrite ProcFacts.get_bind in Hrun.
      unfold Proc.lb_add_defer_proc, Core.modify in Hrun.
      injection Hrun as <-. unfold entry. by destruct p.
    + rewrite ProcFacts.ret_bind in Hrun. unfold mret at 1, Core.M_ret at 1 in Hrun.
      rewrite ProcFacts.get_bind in Hrun.
      unfold Proc.lb_add_defer_proc, Core.modify in Hrun.
      injection Hrun as <-. unfold entry. by destruct p.
    + rewrite ProcFacts.bind_run in Hrun.
      destruct (Call.lb_value_to_array result _) as [[outs q]|] eqn:Eo; [|done].
      pose proof (CallFacts.lb_value_to_array_same_tables _ _ _ _ Eo) as Hsame.
      exists outs, q. split; [done|].
      unfold mret at 1, Core.M_ret at 1 in Hrun. rewrite ProcFacts.get_bind in Hrun.
      unfold Proc.lb_add_defer_proc, Core.modify in Hrun.
      injection Hrun as <-.
      destruct (Hscope q) as [-> ->]; [|done].
      rewrite Hsame. by destruct p.
    + rewrite !ProcFacts.bind_run in Hrun.
      destruct (Call.lb_value_to_array result _) as [[outs q]|] eqn:Eo; [|done].
      pose proof (CallFacts.lb_value_to_array_same_tables _ _ _ _ Eo) as Hsame.
      exists outs, q. split; [done|].
      unfold mret at 1, Core.M_ret at 1 in Hrun.
      unfold mret at 1, Core.M_ret at 1 in Hrun. rewrite ProcFacts.get_bind in Hrun.
      unfold Proc.lb_add_defer_proc, Core.modify in Hrun.
      injection Hrun as <-.
      destruct (Hscope q) as [-> ->]; [|done].
      rewrite Hsame. by destruct p.
Qed.
(** ** Call expressions: one argument per parameter *)

Module CallExprMoreFacts.
Import Core Proc Call CallExpr ProcFacts CallFacts CallExprFacts.

Section facts.
Context {S : Type} `{Backend S}.

(** A turn of the last loop at another index keeps a slot (the procedure
    does not take C varargs). *)
Lemma complete_argument_frame pt expr n s v (args : list lbValue) k e
    (p p' : lbProcedure S) out :
  c_vararg pt = false →
  k ≠ Z.of_nat s →
  slot_holds n s v args →
  complete_argument pt expr args (k, e) p = Some (out, p') →
  slot_holds n s v out.
Proof.
  intros Hcv Hne Hslot. unfold complete_argument. rewrite Hcv. cbn [negb].
  assert (Hset : ∀ w (q q' : lbProcedure S) o,
            array_set args k w q = Some (o, q') → slot_holds n s v o).
  { intros w q q' o Hset. apply array_set_inv in Hset as (_ & -> & ? & _).
    apply slot_holds_insert; [lia|done]. }
  destruct (variadic pt && (k =? variadic_index pt)).
  - rewrite bind_run.
    destruct (index args k p) as [[arg p0]|] eqn:Ea; [|done].
    case_match; [by apply Hset|]. by intros [= <- <-].
  - rewrite bind_run.
    destruct (index args k p) as [[arg p0]|] eqn:Ea; [|done].
    case_match.
    + destruct (e_kind e); try done; try by apply Hset.
      rewrite bind_run. destruct (lb_handle_param_value e expr p0) as [[x p1]|]; [|done].
      by apply Hset.
    + rewrite bind_run. destruct (ext _ p0) as [[x p1]|]; [|done]. by apply Hset.
Qed.

(** What the turn at an empty slot puts there. *)
Definition default_of (expr : N) (e : Entity) (v : lbValue) : Prop :=
  match e_kind e with
  | Entity_TypeName => v = lb_const_nil (e_type e)
  | Entity_Constant => v = lb_const_value e
  | Entity_Variable =>
      ∃ q q' : lbProcedure S, lb_handle_param_value e expr q = Some (v, q')
  | _ => False
  end.

Lemma complete_argument_default pt expr n s (args : list lbValue) e
    (p p' : lbProcedure S) out :
  negb (variadic pt && (Z.of_nat s =? variadic_index pt)) = true →
  slot_holds n s lbValue_zero args →
  complete_argument pt expr args (Z.of_nat s, e) p = Some (out, p') →
  ∃ v, default_of expr e v ∧ slot_holds n s v out.
Proof.
  intros Hnv [Hlen Hslot]. unfold complete_argument.
  apply negb_true_iff in Hnv. rewrite Hnv.
  rewrite bind_run. unfold index at 1.
  destruct (Z.leb_spec 0 (Z.of_nat s)); [|lia].
  rewrite Nat2Z.id, Hslot. unfold mret at 1, M_ret at 1.
  cbn [value type lbValue_zero nullptr N.eqb andb].
  assert (Hset : ∀ w (q q' : lbProcedure S) o,
            array_set args (Z.of_nat s) w q = Some (o, q') → slot_holds n s w o).
  { intros w q q' o Hset. apply array_set_inv in Hset as (_ & -> & _ & Hlt).
    rewrite Nat2Z.id in *. split; [by rewrite length_insert|].
    by apply list_lookup_insert_eq. }
  unfold default_of. destruct (e_kind e); try done.
  - intros Hrun. eexists. split; [|by eapply Hset]. done.
  - rewrite bind_run.
    destruct (lb_handle_param_value e expr p) as [[x p1]|] eqn:Ex; [|done].
    intros Hrun. exists x. split; [eauto|by eapply Hset].
  - intros Hrun. eexists. split; [|by eapply Hset]. done.
Qed.

(** The last loop over the parameters from [k] on, for a slot that was
    left empty. *)
Lemma complete_loop_default pt expr n s e_s (ps : list Entity) (k : nat)
    (args : list lbValue) (p p' : lbProcedure S) out :
  c_vararg pt = false →
  negb (variadic pt && (Z.of_nat s =? variadic_index pt)) = true →
  (∀ j e, ps !! j = Some e → (k + j)%nat = s → e = e_s) →
  (if decide (k ≤ s)%nat then slot_holds n s lbValue_zero args
   else ∃ v, default_of expr e_s v ∧ slot_holds n s v args) →
  foldM (complete_argument pt expr) args
        (zip (seqZ (Z.of_nat k) (Z.of_nat (length ps))) ps) p = Some (out, p') →
  if decide (k + length ps ≤ s)%nat then slot_holds n s lbValue_zero out
  else ∃ v, default_of expr e_s v ∧ slot_holds n s v out.
Proof.
  intros Hcv Hnv. revert k args p.
  induction ps as [|e ps IH]; intros k args p Hps Hslot.
  - cbn. intros [= <- <-]. by rewrite Nat.add_0_r.
  - rewrite seqZ_cons by (cbn [length]; lia). cbn [zip zip_with].
    rewrite foldM_cons.
    destruct (complete_argument pt expr args (Z.of_nat k, e) p) as [[args1 p1]|] eqn:E;
      [|done].
    replace (Z.succ (Z.of_nat k)) with (Z.of_nat (Datatypes.S k)) by lia.
    replace (Z.pred (Z.of_nat (length (e :: ps)))) with (Z.of_nat (length ps))
      by (cbn [length]; lia).
    intros Hrest.
    replace (k + length (e :: ps))%nat with (Datatypes.S k + length ps)%nat
      by (cbn [length]; lia).
    eapply IH; [| |exact Hrest].
    + intros j e' He' Hj. apply (Hps (Datatypes.S j) e'); [done|lia].
    + destruct (decide (k = s)) as [->|Hne].
      * rewrite decide_True in Hslot by lia. rewrite decide_False by lia.
        assert (e = e_s) as -> by (apply (Hps 0%nat); [done|lia]).
        by eapply complete_argument_default.
      * destruct (decide (k ≤ s)%nat).
        -- rewrite decide_True by lia.
           eapply complete_argument_frame; [done| |done|done]. lia.
        -- rewrite decide_False by lia. destruct Hslot as (v & Hv & Hslot).
           exists v. split; [done|].
           eapply complete_argument_frame; [done| |done|done]. lia.
Qed.

End facts.
End CallExprMoreFacts.

(** X18.  For a procedure that is not C-variadic, the argument list
    [lb_build_call_expr_internal] completes has exactly one argument per
    parameter, so the count assertion of [lb_emit_call] holds for it. *)
Theorem call_arguments_one_per_parameter
    {S : Type} `{Proc.Backend S}
    (pt : Core.TypeProc) (ce : CallExpr.CallExpr) (d : option CallExpr.DeclInfo)
    (expr : N) (call_args : list Core.lbValue) (p p' : Proc.lbProcedure S) :
  Core.c_vararg pt = false →
  CallExpr.call_arguments pt ce d expr p = Some (call_args, p') →
  0 ≤ Core.param_count pt
  ∧ Z.of_nat (length call_args) = Core.param_count pt
  ∧ (Core.param_count pt =? Z.of_nat (length call_args)) = true.
Proof.
  intros Hcv Hrun. unfold CallExpr.call_arguments in Hrun.
  rewrite ProcFacts.bind_run in Hrun.
  destruct (CallExpr.positional_arguments _ _ _ _ _ _ p) as [[args0 p0]|]; [|done].
  unfold CallExpr.complete_arguments in Hrun. rewrite Hcv in Hrun. cbn [negb] in Hrun.
  rewrite ProcFacts.bind_run in Hrun.
  destruct (Core.foldM (CallExpr.named_argument pt) _ _ p0) as [[args1 p1]|] eqn:E1;
    [|done].
  rewrite ProcFacts.assert_bind in Hrun.
  destruct (Z.leb_spec (Z.of_nat (length (Core.params pt)) - 0)
              (Z.of_nat (length args1))) as [Hmin|]; [|done].
  rewrite ProcFacts.bind_run in Hrun.
  destruct (Core.foldM (CallExpr.complete_argument pt expr) _ _ p1)
    as [[args2 p2]|] eqn:E2; [|done].
  rewrite ProcFacts.assert_bind in Hrun.
  destruct (Z.leb_spec 0 (Core.param_count pt)) as [Hpc|]; [|done].
  destruct (Z.leb_spec (Core.param_count pt) (Z.of_nat (length args2))) as [Hle|]; [|done].
  cbn [andb] in Hrun. injection Hrun as <- <-.
  rewrite length_take.
  assert (Hlen : Z.of_nat (Z.to_nat (Core.param_count pt) `min` length args2)
                 = Core.param_count pt) by lia.
  split; [done|]. split; [done|]. rewrite Hlen. apply Z.eqb_refl.
Qed.

(** X19.  A parameter that the call gives no argument for, neither by
    position nor by name, and that is not the variadic parameter, gets its
    default: the nil value of its type for a type name, the constant's value
    for a constant, and the value [lb_handle_param_value] computes for a
    variable. *)
Theorem omitted_parameter_gets_its_default
    {S : Type} `{Proc.Backend S}
    (pt : Core.TypeProc) (ce : CallExpr.CallExpr) (d : option CallExpr.DeclInfo)
    (expr : N) (k : nat) (e : Core.Entity) (args0 call_args : list Core.lbValue)
    (p p0 p' : Proc.lbProcedure S) :
  Core.c_vararg pt = false →
  Core.param_count pt = Z.of_nat (length (Core.params pt)) →
  Core.params pt !! k = Some e →
  (Core.variadic pt = true → Core.variadic_index pt ≠ Z.of_nat k) →
  CallExpr.positional_arguments pt ce d 0 (CallExpr.ce_positional ce) [] p
    = Some (args0, p0) →
  (length args0 ≤ k)%nat →
  Forall (λ fv, Proc.lookup_procedure_parameter pt (CallExpr.fv_field fv) ≠ Z.of_nat k)
         (CallExpr.ce_named ce) →
  CallExpr.call_arguments pt ce d expr p = Some (call_args, p') →
  ∃ v, call_args !! k = Some v
       ∧ match Core.e_kind e with
         | Core.Entity_TypeName => v = Proc.lb_const_nil (Core.e_type e)
         | Core.Entity_Constant => v = Proc.lb_const_value e
         | Core.Entity_Variable =>
             ∃ q q' : Proc.lbProcedure S,
               Proc.lb_handle_param_value e expr q = Some (v, q')
         | _ => False
         end.
Proof.
  intros Hcv Hpc He Hnv Hpos Hlen0 Hnamed Hrun.
  assert (Hk : (k < length (Core.params pt))%nat) by by eapply lookup_lt_Some.
  set (n := length (Core.params pt)) in *.
  assert (Hnv' : negb (Core.variadic pt && (Z.of_nat k =? Core.variadic_index pt)) = true).
  { destruct (Core.variadic pt); [|done]. cbn.
    destruct (Z.eqb_spec (Z.of_nat k) (Core.variadic_index pt)) as [Heq|]; [|done].
    by destruct Hnv. }
  unfold CallExpr.call_arguments in Hrun.
  rewrite ProcFacts.bind_run, Hpos in Hrun.
  unfold CallExpr.complete_arguments in Hrun. rewrite Hcv in Hrun. cbn [negb] in Hrun.
  rewrite ProcFacts.bind_run in Hrun.
  destruct (Core.foldM (CallExpr.named_argument pt) _ _ p0) as [[args1 p1]|] eqn:E1;
    [|done].
  eapply (CallExprFacts.named_arguments_slot pt _ n k Core.lbValue_zero) in E1;
    [|done|done|].
  2: { split.
       - rewrite CallExprFacts.array_resize_length by lia. lia.
       - apply CallExprFacts.array_resize_padding; lia. }
  rewrite ProcFacts.assert_bind in Hrun. case_match; [|done].
  rewrite ProcFacts.bind_run in Hrun.
  destruct (Core.foldM (CallExpr.complete_argument pt expr) _ _ p1)
    as [[args2 p2]|] eqn:E2; [|done].
  apply (CallExprMoreFacts.complete_loop_default pt expr n k e (Core.params pt) 0%nat)
    in E2; [|done|done| |].
  2: { intros j e' He' Hj. cbn in Hj. subst j. congruence. }
  2: { by rewrite decide_True by lia. }
  rewrite decide_False in E2 by (cbn; fold n; lia).
  destruct E2 as (v & Hv & Hlen2 & Hslot2).
  rewrite ProcFacts.assert_bind in Hrun. case_match; [|done].
  injection Hrun as <- <-.
  rewrite Hpc. fold n. rewrite Nat2Z.id, take_ge by lia.
  exists v. split; [done|]. exact Hv.
Qed.
(** ** Saturating arithmetic on every input *)

Module SaturatingMoreFacts.
Import IR Builtin.

Lemma signed_wrap w c :
  1 ≤ w → - 2 ^ (w - 1) ≤ c ≤ 2 ^ (w - 1) - 1 →
  0 ≤ wrap w c < 2 ^ w ∧ signed w (wrap w c) = c.
Proof.
  intros Hw Hc. destruct (SaturatingFacts.pow2_split w Hw) as [H2 Hpos].
  unfold signed, wrap.
  destruct (decide (0 ≤ c)) as [Hnn|Hneg].
  - rewrite Z.mod_small by lia. destruct (Z.ltb_spec c (2 ^ (w - 1))); lia.
  - assert (Hm : c mod 2 ^ w = c + 2 ^ w).
    { symmetry. apply (Z.mod_unique_pos _ _ (-1)); lia. }
    rewrite Hm. destruct (Z.ltb_spec (c + 2 ^ w) (2 ^ (w - 1))); lia.
Qed.

Lemma signed_range w x :
  1 ≤ w → 0 ≤ x < 2 ^ w → - 2 ^ (w - 1) ≤ signed w x ≤ 2 ^ (w - 1) - 1.
Proof.
  intros Hw Hx. destruct (SaturatingFacts.pow2_split w Hw) as [H2 Hpos].
  unfold signed. destruct (Z.ltb_spec x (2 ^ (w - 1))); lia.
Qed.

End SaturatingMoreFacts.

(** X20.  For every integer type of [sz >= 1] bytes, unsigned or signed, and
    every two operands, the lowered [saturating_add] and [saturating_sub]
    give the exact sum and difference of the operands, clamped to the range
    of the type. *)
Theorem saturating_is_the_exact_result_clamped
    {T : Type} (ty : T) (is_unsigned : bool) (sz x y : Z) :
  1 ≤ sz →
  let w := sz * 8 in
  0 ≤ x < 2 ^ w → 0 ≤ y < 2 ^ w →
  let rd a := if is_unsigned then a else IR.signed w a in
  let lo := if is_unsigned then 0 else - 2 ^ (w - 1) in
  let hi := if is_unsigned then 2 ^ w - 1 else 2 ^ (w - 1) - 1 in
  ∃ s d,
    SaturatingFacts.run BuiltinProc_saturating_add is_unsigned ty w x y
    = Some (IR.Sc (IR.Int w s))
    ∧ SaturatingFacts.run BuiltinProc_saturating_sub is_unsigned ty w x y
      = Some (IR.Sc (IR.Int w d))
    ∧ 0 ≤ s < 2 ^ w ∧ 0 ≤ d < 2 ^ w
    ∧ rd s = Z.max lo (Z.min hi (rd x + rd y))
    ∧ rd d = Z.max lo (Z.min hi (rd x - rd y)).
Proof.
  intros Hsz w Hx Hy rd lo hi.
  assert (Hw : 1 ≤ w) by (unfold w; lia).
  destruct (SaturatingFacts.pow2_split w Hw) as [H2 Hpos].
  unfold SaturatingFacts.run.
  destruct is_unsigned; cbn -[Z.pow IR.wrap IR.signed IR.intrinsic_scalar Z.max Z.min];
    rewrite !decide_True by done;
    rewrite ?SaturatingFacts.uadd_sat, ?SaturatingFacts.usub_sat,
      ?SaturatingFacts.sadd_sat, ?SaturatingFacts.ssub_sat;
    cbn -[Z.pow IR.wrap IR.signed Z.max Z.min]; unfold IR.clamp.
  - eexists _, _. split; [done|]. split; [done|].
    unfold rd, lo, hi. lia.
  - pose proof (SaturatingMoreFacts.signed_range w x Hw Hx).
    pose proof (SaturatingMoreFacts.signed_range w y Hw Hy).
    eexists _, _. split; [done|]. split; [done|]. unfold rd, lo, hi.
    destruct (SaturatingMoreFacts.signed_wrap w
                (Z.max (- 2 ^ (w - 1)) (Z.min (2 ^ (w - 1) - 1)
                   (IR.signed w x + IR.signed w y))) Hw) as [? ?]; [lia|].
    destruct (SaturatingMoreFacts.signed_wrap w
                (Z.max (- 2 ^ (w - 1)) (Z.min (2 ^ (w - 1) - 1)
                   (IR.signed w x - IR.signed w y))) Hw) as [? ?]; [lia|].
    done.
Qed.
(** ** More lane-wise cases: selection, arithmetic, bit extraction *)

Module LanesMoreFacts.
Import Lanes LanesFacts.

(** [lanewise2] over two integer vectors on whose lanes the operation has
    a value. *)
Lemma lanewise2_ints_on (P : Z → Z → Prop) (f : Z → Z → Z → option IR.scalar)
    (g : Z → Z → Z) w w' (xs ys : list Z) :
  Forall2 P xs ys →
  (∀ x y, P x y → f w x y = Some (IR.Int w' (g x y))) →
  IR.lanewise2 (lift2 f) (IR.ints w xs) (IR.ints w ys)
  = Some (IR.ints w' (zip_with g xs ys)).
Proof.
  intros HP Hf. unfold IR.lanewise2, IR.ints.
  rewrite !length_fmap. rewrite decide_True by (by eapply Forall2_length).
  cut (mapM (λ p : IR.scalar * IR.scalar, lift2 f p.1 p.2)
         (zip (IR.Int w <$> xs) (IR.Int w <$> ys))
       = Some (IR.Int w' <$> zip_with g xs ys)).
  { by intros ->. }
  induction HP as [|x y xs ys Hxy HP IH]; [done|].
  cbn. rewrite decide_True by done. rewrite (Hf _ _ Hxy). cbn.
  rewrite IH. done.
Qed.

Lemma eval_binop_on (P : Z → Z → Prop) env op (a b : ir) (g : Z → Z → Z) w
    (xs ys : list Z) :
  eval env a = Some (IR.ints w xs) → eval env b = Some (IR.ints w ys) →
  Forall2 P xs ys →
  (∀ x y, P x y → binop_scalar op w x y = Some (IR.Int w (g x y))) →
  eval env (BinOp op a b) = Some (IR.ints w (zip_with g xs ys)).
Proof.
  intros Ha Hb HP Hg. cbn [eval]. rewrite Ha, Hb. cbn [mbind option_bind].
  by eapply lanewise2_ints_on.
Qed.

Lemma Forall2_always {A B} (xs : list A) (ys : list B) :
  length ys = length xs → Forall2 (λ _ _, True) xs ys.
Proof. intros Hlen. by apply Forall2_true. Qed.

(** The quotient of two numbers of [w] bits is a number of [w] bits, but
    for the least one divided by -1. *)
Lemma quot_range w a b :
  1 ≤ w →
  - 2 ^ (w - 1) ≤ a ≤ 2 ^ (w - 1) - 1 → b ≠ 0 →
  ¬ (a = - 2 ^ (w - 1) ∧ b = -1) →
  - 2 ^ (w - 1) ≤ Z.quot a b ≤ 2 ^ (w - 1) - 1.
Proof.
  intros Hw Ha Hb Hover.
  pose proof (Z.quot_abs a b Hb) as Habs.
  assert (Hle : Z.abs a ÷ Z.abs b ≤ Z.abs a).
  { apply Z.quot_le_upper_bound; nia. }
  assert (Hpos : 0 ≤ Z.abs a ÷ Z.abs b) by (apply Z.quot_pos; lia).
  pose proof (Z.quot_rem' a b) as Hqr.
  pose proof (Z.rem_bound_abs a b Hb) as Hr.
  pose proof (Z.rem_sign_mul a b Hb) as Hsign.
  assert (HP : 0 < 2 ^ (w - 1)) by (apply Z.pow_pos_nonneg; lia).
  remember (Z.abs a ÷ Z.abs b) as t eqn:Et. clear Et.
  remember (Z.rem a b) as r eqn:Er. clear Er.
  remember (Z.quot a b) as q eqn:Eq. clear Eq.
  remember (2 ^ (w - 1)) as P eqn:EP. clear EP.
  destruct (decide (q = P)) as [Heq|Hne]; [|lia].
  exfalso. assert (Ha' : a = - P) by (clear Hqr Hr Hover Hsign; lia).
  apply Hover. split; [done|]. nia.
Qed.

Lemma rem_range w a b :
  1 ≤ w →
  - 2 ^ (w - 1) ≤ b ≤ 2 ^ (w - 1) - 1 → b ≠ 0 →
  - 2 ^ (w - 1) ≤ Z.rem a b ≤ 2 ^ (w - 1) - 1.
Proof. intros Hw Hb Hb0. pose proof (Z.rem_bound_abs a b Hb0). lia. Qed.

End LanesMoreFacts.

(** X21.  Every lane of [simd_select(cond, x, y)] is the lane of [x] where
    the lane of [cond] is not zero, whatever its other bits, and the lane
    of [y] where it is zero. *)
Theorem simd_select_takes_x_where_cond_is_not_zero (wc w : Z) (cs xs ys : list Z) :
  length cs = length xs → length ys = length xs →
  ∃ rs,
    Lanes.eval [IR.ints wc cs; IR.ints w xs; IR.ints w ys] Lanes.simd_select
    = Some (IR.ints w rs)
    ∧ length rs = length xs
    ∧ ∀ i c x y, cs !! i = Some c → xs !! i = Some x → ys !! i = Some y →
        rs !! i = Some (if c =? 0 then y else x).
Proof.
  intros Hc Hy.
  set (env := [IR.ints wc cs; IR.ints w xs; IR.ints w ys]).
  assert (Hnull : Lanes.eval env (Lanes.ConstNullOf (Lanes.Arg 0))
                  = Some (IR.ints wc ((λ _, 0) <$> cs))).
  { exact (LanesFacts.lift1_ints (λ w _, Some (IR.Int w 0)) (λ _, 0) wc wc cs
             (λ x, eq_refl)). }
  pose proof (LanesFacts.eval_icmp env Lanes.LLVMIntNE (Lanes.Arg 0)
                (Lanes.ConstNullOf (Lanes.Arg 0)) wc cs ((λ _, 0) <$> cs)
                (LanesFacts.arg0 _ _) Hnull) as Hcmp.
  rewrite length_fmap in Hcmp. specialize (Hcmp eq_refl).
  set (ks := zip_with _ cs _) in Hcmp.
  assert (Hks : length ks = length cs).
  { unfold ks. rewrite length_zip_with, length_fmap. lia. }
  exists (LanesFacts.choose ks xs ys).
  split; [|split].
  - unfold Lanes.simd_select.
    apply (LanesFacts.eval_select env _ _ _ 1 w ks xs ys Hcmp
             (LanesFacts.arg1 _ _ _) (LanesFacts.arg2 _ _ _ _)); lia.
  - apply LanesFacts.choose_length; lia.
  - intros i c x y Hci Hxi Hyi.
    assert (Hk : ks !! i = Some (if negb (c =? 0) then 1 else 0)).
    { unfold ks. rewrite lookup_zip_with, Hci. cbn.
      rewrite list_lookup_fmap, Hci. done. }
    rewrite (LanesFacts.choose_lookup ks xs ys i _ x y Hk Hxi Hyi).
    by destruct (c =? 0).
Qed.

(** X22.  On two integer vectors of the same lane count, [simd_add],
    [simd_sub] and [simd_mul] give in every lane the sum, the difference and
    the product of the lanes, wrapped to the element width.  Where no
    divisor lane is zero, and no signed lane divides the least value by -1,
    [simd_div] gives the quotient rounded towards zero and [simd_rem] the
    remainder with the sign of the dividend, of the lanes read as signed or
    as unsigned by the element type.  No opcode is selected for [simd_rem]
    on floats. *)
Theorem simd_arith_wraps_and_divides_towards_zero
    (is_signed : bool) (w : Z) (xs ys : list Z) :
  1 ≤ w →
  length ys = length xs →
  Forall (λ x, 0 ≤ x < 2 ^ w) xs → Forall (λ y, 0 ≤ y < 2 ^ w) ys →
  let rd := LanesFacts.reading is_signed w in
  let run builtin_id :=
    Lanes.simd_arith builtin_id false is_signed
      ≫= Lanes.eval [IR.ints w xs; IR.ints w ys] in
  run Lanes.BuiltinProc_simd_add
  = Some (IR.ints w (zip_with (λ x y, IR.wrap w (x + y)) xs ys))
  ∧ run Lanes.BuiltinProc_simd_sub
    = Some (IR.ints w (zip_with (λ x y, IR.wrap w (x - y)) xs ys))
  ∧ run Lanes.BuiltinProc_simd_mul
    = Some (IR.ints w (zip_with (λ x y, IR.wrap w (x * y)) xs ys))
  ∧ (Forall2 (λ x y, y ≠ 0 ∧ ¬ (is_signed = true ∧ rd x = - 2 ^ (w - 1) ∧ rd y = -1))
       xs ys →
     ∃ qs rs,
       run Lanes.BuiltinProc_simd_div = Some (IR.ints w qs)
       ∧ run Lanes.BuiltinProc_simd_rem = Some (IR.ints w rs)
       ∧ ∀ i x y, xs !! i = Some x → ys !! i = Some y →
           ∃ q r, qs !! i = Some q ∧ rs !! i = Some r
                  ∧ 0 ≤ q < 2 ^ w ∧ 0 ≤ r < 2 ^ w
                  ∧ rd q = Z.quot (rd x) (rd y) ∧ rd r = Z.rem (rd x) (rd y))
  ∧ Lanes.simd_arith Lanes.BuiltinProc_simd_rem true is_signed = None.
Proof.
  intros Hw Hlen Hxs Hys rd run.
  set (env := [IR.ints w xs; IR.ints w ys]).
  pose proof (LanesMoreFacts.Forall2_always xs ys Hlen) as Hany.
  assert (Htotal : ∀ op g,
            (∀ x y, Lanes.binop_scalar op w x y = Some (IR.Int w (g x y))) →
            Lanes.eval env (Lanes.BinOp op (Lanes.Arg 0) (Lanes.Arg 1))
            = Some (IR.ints w (zip_with g xs ys))).
  { intros op g Hg.
    apply (LanesMoreFacts.eval_binop_on (λ _ _, True) env op _ _ g w xs ys
             (LanesFacts.arg0 _ _) (LanesFacts.arg1 _ _ _) Hany). auto. }
  split; [by apply Htotal|]. split; [by apply Htotal|]. split; [by apply Htotal|].
  split; [|done].
  intros Hdiv.
  assert (Hdiv' : Forall2 (λ x y, (0 ≤ x < 2 ^ w ∧ 0 ≤ y < 2 ^ w)
                    ∧ y ≠ 0 ∧ ¬ (is_signed = true ∧ rd x = - 2 ^ (w - 1) ∧ rd y = -1))
                    xs ys).
  { apply Forall2_same_length_lookup. split; [by eapply Forall2_length|].
    intros i x y Hx Hy.
    split; [|exact (Forall2_lookup_lr _ _ _ _ _ _ Hdiv Hx Hy)].
    split; [exact (Forall_lookup_1 _ xs i x Hxs Hx)|exact (Forall_lookup_1 _ ys i y Hys Hy)]. }
  destruct (SaturatingFacts.pow2_split w Hw) as [H2 Hpos].
  destruct is_signed.
  - (* signed *)
    set (q x y := IR.wrap w (Z.quot (IR.signed w x) (IR.signed w y))).
    set (r x y := IR.wrap w (Z.rem (IR.signed w x) (IR.signed w y))).
    assert (Hguard : ∀ x y, (0 ≤ x < 2 ^ w ∧ 0 ≤ y < 2 ^ w)
              ∧ y ≠ 0 ∧ ¬ (true = true ∧ rd x = - 2 ^ (w - 1) ∧ rd y = -1) →
              (y =? 0) || ((IR.signed w x =? - 2 ^ (w - 1)) && (IR.signed w y =? -1))
              = false).
    { intros x y (_ & Hy0 & Hover). unfold rd, LanesFacts.reading in Hover.
      destruct (Z.eqb_spec y 0); [done|]. cbn.
      destruct (Z.eqb_spec (IR.signed w x) (- 2 ^ (w - 1))); [|done].
      destruct (Z.eqb_spec (IR.signed w y) (-1)); [|done]. cbn. tauto. }
    exists (zip_with q xs ys), (zip_with r xs ys).
    split; [|split].
    + apply (LanesMoreFacts.eval_binop_on _ env Lanes.LLVMSDiv _ _ q w xs ys
               (LanesFacts.arg0 _ _) (LanesFacts.arg1 _ _ _) Hdiv').
      intros x y Hxy. cbn. by rewrite (Hguard x y Hxy).
    + apply (LanesMoreFacts.eval_binop_on _ env Lanes.LLVMSRem _ _ r w xs ys
               (LanesFacts.arg0 _ _) (LanesFacts.arg1 _ _ _) Hdiv').
      intros x y Hxy. cbn. by rewrite (Hguard x y Hxy).
    + intros i x y Hx Hy.
      pose proof (Forall2_lookup_lr _ _ _ _ _ _ Hdiv' Hx Hy)
        as ((Hxr & Hyr) & Hy0 & Hover).
      exists (q x y), (r x y).
      split; [by apply LanesFacts.zip_with_lookup_Some|].
      split; [by apply LanesFacts.zip_with_lookup_Some|].
      unfold rd, LanesFacts.reading in *.
      pose proof (SaturatingMoreFacts.signed_range w x Hw Hxr) as Hsx.
      pose proof (SaturatingMoreFacts.signed_range w y Hw Hyr) as Hsy.
      assert (Hsy0 : IR.signed w y ≠ 0).
      { unfold IR.signed. destruct (y <? 2 ^ (w - 1)); lia. }
      destruct (SaturatingMoreFacts.signed_wrap w
                  (Z.quot (IR.signed w x) (IR.signed w y)) Hw) as [Hq1 Hq2].
      { apply LanesMoreFacts.quot_range; [done|done|done|tauto]. }
      destruct (SaturatingMoreFacts.signed_wrap w
                  (Z.rem (IR.signed w x) (IR.signed w y)) Hw) as [Hr1 Hr2].
      { by apply LanesMoreFacts.rem_range. }
      unfold q, r. done.
  - (* unsigned *)
    exists (zip_with Z.div xs ys), (zip_with Z.modulo xs ys).
    split; [|split].
    + apply (LanesMoreFacts.eval_binop_on _ env Lanes.LLVMUDiv _ _ Z.div w xs ys
               (LanesFacts.arg0 _ _) (LanesFacts.arg1 _ _ _) Hdiv').
      intros x y (_ & Hy0 & _). cbn. by destruct (Z.eqb_spec y 0).
    + apply (LanesMoreFacts.eval_binop_on _ env Lanes.LLVMURem _ _ Z.modulo w xs ys
               (LanesFacts.arg0 _ _) (LanesFacts.arg1 _ _ _) Hdiv').
      intros x y (_ & Hy0 & _). cbn. by destruct (Z.eqb_spec y 0).
    + intros i x y Hx Hy.
      pose proof (Forall2_lookup_lr _ _ _ _ _ _ Hdiv' Hx Hy)
        as ((Hxr & Hyr) & Hy0 & _).
      exists (x / y), (x mod y).
      split; [by apply LanesFacts.zip_with_lookup_Some|].
      split; [by apply LanesFacts.zip_with_lookup_Some|].
      unfold rd, LanesFacts.reading.
      rewrite Z.quot_div_nonneg, Z.rem_mod_nonneg by lia.
      pose proof (Z.mod_pos_bound x y). 
      assert (0 ≤ x / y ≤ x).
      { split; [apply Z.div_pos; lia|]. apply Z.div_le_upper_bound; nia. }
      repeat split; lia.
Qed.

Module BitsFacts.
Import Lanes LanesFacts.

Lemma eval_splat_lanes env count w v :
  eval env (llvm_splat_int count w v)
  = Some (IR.ints w (replicate (Z.to_nat count) (IR.wrap w v))).
Proof.
  unfold llvm_splat_int, IR.ints. cbn [eval].
  rewrite (IRFacts.mapM_ext_in _ (λ _, Some (IR.Int w (IR.wrap w v)))).
  - rewrite IRFacts.mapM_total. cbn. f_equal. f_equal.
    induction (Z.to_nat count) as [|n IH]; [done|]. cbn. by rewrite IH.
  - intros e He. apply elem_of_replicate in He as [-> _]. done.
Qed.

(** The sign of a lane, in all its bits. *)
Definition sign_fill (w x : Z) : Z := if x <? 2 ^ (w - 1) then 0 else 2 ^ w - 1.

Lemma ashr_sign w x :
  1 ≤ w → 0 ≤ x < 2 ^ w →
  IR.binop_scalar IR.LLVMAShr w x (w - 1) = IR.Int w (sign_fill w x).
Proof.
  intros Hw Hx. destruct (SaturatingFacts.pow2_split w Hw) as [H2 Hpos].
  cbn. rewrite (proj2 (Z.ltb_lt (w - 1) w)) by lia. f_equal.
  unfold sign_fill, IR.signed, IR.wrap. rewrite Z.shiftr_div_pow2 by lia.
  destruct (Z.ltb_spec x (2 ^ (w - 1))).
  - rewrite Z.div_small by lia. done.
  - replace ((x - 2 ^ w) / 2 ^ (w - 1)) with (-1).
    + symmetry. apply (Z.mod_unique_pos _ _ (-1)); lia.
    + apply (Z.div_unique_pos _ _ _ (x - 2 ^ (w - 1))); lia.
Qed.

Lemma zip_with_replicate_r {A B C} (f : A → B → C) (xs : list A) (y : B) :
  zip_with f xs (replicate (length xs) y) = (λ x, f x y) <$> xs.
Proof. induction xs as [|x xs IH]; [done|]. cbn. by rewrite IH. Qed.

Lemma eval_ashr_sign env (a : ir) w (xs : list Z) :
  1 ≤ w → Forall (λ x, 0 ≤ x < 2 ^ w) xs →
  eval env a = Some (IR.ints w xs) →
  eval env (AShr a (llvm_splat_int (Z.of_nat (length xs)) w (w - 1)))
  = Some (IR.ints w (sign_fill w <$> xs)).
Proof.
  intros Hw Hxs Ha. cbn [eval]. rewrite Ha, eval_splat_lanes. cbn [mbind option_bind].
  rewrite Nat2Z.id.
  pose proof (Z.pow_gt_lin_r 2 w ltac:(lia) ltac:(lia)) as Hlt.
  rewrite (IRFacts.wrap_small w (w - 1)) by lia.
  rewrite IRFacts.lanewise2_ints by (by rewrite length_replicate).
  rewrite zip_with_replicate_r. unfold IR.ints. f_equal. f_equal.
  rewrite <- list_fmap_compose. apply Forall_fmap_ext_1.
  eapply Forall_impl; [exact Hxs|]. intros x Hx. cbn -[IR.binop_scalar].
  by apply ashr_sign.
Qed.

Lemma eval_trunc env (a : ir) w (xs : list Z) :
  1 < w →
  eval env a = Some (IR.ints w xs) →
  eval env (Trunc a 1) = Some (IR.ints 1 ((λ x, x mod 2) <$> xs)).
Proof.
  intros Hw Ha. cbn [eval]. rewrite Ha. cbn [mbind option_bind].
  apply lift1_ints. intros x. unfold trunc.
  by rewrite (proj2 (Z.ltb_lt 1 w)) by lia.
Qed.

Lemma lane_values_ints w (xs : list Z) : lane_values w (IR.Int w <$> xs) = Some xs.
Proof.
  induction xs as [|x xs IH]; [done|]. cbn. rewrite decide_True by done.
  by rewrite IH.
Qed.

Lemma eval_bitcast env (a : ir) w (xs : list Z) :
  xs ≠ [] →
  eval env a = Some (IR.ints w xs) →
  eval env (BitCastToInt a (w * Z.of_nat (length xs)))
  = Some (IR.Sc (IR.Int (w * Z.of_nat (length xs)) (little_endian_to_Z w xs))).
Proof.
  intros Hxs Ha. cbn [eval]. rewrite Ha. cbn [mbind option_bind].
  destruct xs as [|x xs]; [done|]. unfold bitcast_to_int, IR.ints.
  cbn [fmap list_fmap]. change (IR.Int w x :: (IR.Int w <$> xs)) with (IR.Int w <$> x :: xs).
  rewrite length_fmap, decide_True by done. by rewrite lane_values_ints.
Qed.

Lemma eval_zext env (a : ir) w w' x :
  w ≤ w' →
  eval env a = Some (IR.Sc (IR.Int w x)) →
  eval env (ZExtOrBitCast a w') = Some (IR.Sc (IR.Int w' x)).
Proof.
  intros Hw Ha. cbn [eval]. rewrite Ha. cbn. unfold zext_or_bitcast.
  destruct (Z.eqb_spec w w') as [->|Hne]; [done|].
  by rewrite (proj2 (Z.ltb_lt w w')) by lia.
Qed.

Lemma bits_are_bits (xs : list Z) : Forall (λ b, 0 ≤ b < 2 ^ 1) ((λ x, x mod 2) <$> xs).
Proof.
  apply Forall_fmap, Forall_forall. intros x _. cbn.
  pose proof (Z.mod_pos_bound x 2). lia.
Qed.

Lemma testbit_mod_2 x : Z.testbit (x mod 2) 0 = Z.testbit x 0.
Proof. rewrite !Z.bit0_odd, Zmod_odd. by destruct (Z.odd x). Qed.

Lemma testbit_sign w x :
  1 ≤ w → 0 ≤ x < 2 ^ w → Z.testbit (sign_fill w x) 0 = Z.testbit x (w - 1).
Proof.
  intros Hw Hx. destruct (SaturatingFacts.pow2_split w Hw) as [H2 Hpos].
  rewrite (Z.testbit_eqb x (w - 1)) by lia. unfold sign_fill.
  destruct (Z.ltb_spec x (2 ^ (w - 1))).
  - rewrite Z.div_small by lia. done.
  - replace (x / 2 ^ (w - 1)) with 1
      by (apply (Z.div_unique_pos _ _ _ (x - 2 ^ (w - 1))); lia).
    rewrite Z.bit0_odd. replace (2 ^ w - 1) with (2 * (2 ^ (w - 1) - 1) + 1) by lia.
    by rewrite Z.odd_odd.
Qed.

End BitsFacts.

(** X23.  For a vector of [n >= 1] integer lanes of [w >= 2] bits and a
    result type of at least [n] bits, [simd_extract_lsbs] gives the integer
    whose bit [i] is the lowest bit of lane [i], and [simd_extract_msbs] the
    integer whose bit [i] is the highest bit of lane [i]; no bit from [n] on
    is set.  Lane 0 is bit 0: the layout of a little-endian target. *)
Theorem simd_extract_bits_packs_one_bit_per_lane (w rb : Z) (xs : list Z) :
  2 ≤ w → xs ≠ [] → Z.of_nat (length xs) ≤ rb →
  Forall (λ x, 0 ≤ x < 2 ^ w) xs →
  let n := Z.of_nat (length xs) in
  ∃ lsbs msbs,
    Lanes.eval [IR.ints w xs]
      (Lanes.simd_extract_bits Lanes.BuiltinProc_simd_extract_lsbs w n rb)
    = Some (IR.Sc (IR.Int rb lsbs))
    ∧ Lanes.eval [IR.ints w xs]
        (Lanes.simd_extract_bits Lanes.BuiltinProc_simd_extract_msbs w n rb)
      = Some (IR.Sc (IR.Int rb msbs))
    ∧ 0 ≤ lsbs < 2 ^ n ∧ 0 ≤ msbs < 2 ^ n
    ∧ ∀ i x, xs !! i = Some x →
        Z.testbit lsbs (Z.of_nat i) = Z.testbit x 0
        ∧ Z.testbit msbs (Z.of_nat i) = Z.testbit x (w - 1).
Proof.
  intros Hw Hne Hrb Hxs n.
  set (env := [IR.ints w xs]).
  set (lows := (λ x, x mod 2) <$> xs).
  set (highs := (λ x, x mod 2) <$> (BitsFacts.sign_fill w <$> xs)).
  assert (Hlows : length lows = length xs) by (unfold lows; by rewrite length_fmap).
  assert (Hhighs : length highs = length xs)
    by (unfold highs; by rewrite !length_fmap).
  exists (little_endian_to_Z 1 lows), (little_endian_to_Z 1 highs).
  split; [|split].
  - unfold Lanes.simd_extract_bits. rewrite bool_decide_false by done.
    apply (BitsFacts.eval_zext env _ n rb); [done|].
    pose proof (BitsFacts.eval_bitcast env (Lanes.Trunc (Lanes.Arg 0) 1) 1 lows) as Hcast.
    rewrite Hlows, Z.mul_1_l in Hcast. apply Hcast.
    + unfold lows. by destruct xs.
    + apply (BitsFacts.eval_trunc env _ w xs); [lia|done].
  - unfold Lanes.simd_extract_bits. rewrite bool_decide_true by done.
    apply (BitsFacts.eval_zext env _ n rb); [done|].
    pose proof (BitsFacts.eval_bitcast env
                  (Lanes.Trunc (Lanes.AShr (Lanes.Arg 0)
                     (Lanes.llvm_splat_int n w (w - 1))) 1) 1 highs) as Hcast.
    rewrite Hhighs, Z.mul_1_l in Hcast. apply Hcast.
    + unfold highs. by destruct xs.
    + apply (BitsFacts.eval_trunc env _ w); [lia|].
      apply BitsFacts.eval_ashr_sign; [lia|done|done].
  - pose proof (little_endian_to_Z_bound 1 lows ltac:(lia) (BitsFacts.bits_are_bits _))
      as Hb1.
    pose proof (little_endian_to_Z_bound 1 highs ltac:(lia) (BitsFacts.bits_are_bits _))
      as Hb2.
    rewrite Hlows, Z.mul_1_r in Hb1. rewrite Hhighs, Z.mul_1_r in Hb2.
    split; [exact Hb1|]. split; [exact Hb2|].
    intros i x Hx. split.
    + rewrite (little_endian_to_Z_spec 1 lows (Z.of_nat i) (x mod 2));
        [|lia|lia|apply BitsFacts.bits_are_bits|].
      * rewrite Z.mod_1_r. apply BitsFacts.testbit_mod_2.
      * rewrite Z.div_1_r, Nat2Z.id. unfold lows. by rewrite list_lookup_fmap, Hx.
    + rewrite (little_endian_to_Z_spec 1 highs (Z.of_nat i)
                 (BitsFacts.sign_fill w x mod 2));
        [|lia|lia|apply BitsFacts.bits_are_bits|].
      * rewrite Z.mod_1_r, BitsFacts.testbit_mod_2.
        apply BitsFacts.testbit_sign; [lia|].
        exact (Forall_lookup_1 _ xs i x Hxs Hx).
      * rewrite Z.div_1_r, Nat2Z.id. unfold highs.
        by rewrite !list_lookup_fmap, Hx.
Qed.
(** ** What a call and the entry of a body leave untouched *)

Module CallFrameFacts.
Import Core Proc Call ProcFacts CallFacts.

Section facts.
Context {S : Type} `{Backend S}.

Lemma fold_same_tables {A B} (f : A → B → M (lbProcedure S) A) (l : list B) :
  (∀ a x p a' p', f a x p = Some (a', p') → same_tables p p') →
  ∀ a p a' p', foldM f a l p = Some (a', p') → same_tables p p'.
Proof.
  intros Hf. induction l as [|x l IH]; intros a p a' p'.
  - intros [= <- <-]. apply same_tables_refl.
  - rewrite foldM_cons.
    destruct (f a x p) as [[a1 p1]|] eqn:E; [|done].
    apply Hf in E. intros Hrest. apply IH in Hrest.
    eauto using same_tables_trans.
Qed.

Lemma lb_emit_call_internal_same_tables value_ return_ptr processed abi_rt
    context_ptr inlining (p p' : lbProcedure S) result :
  lb_emit_call_internal value_ return_ptr processed abi_rt context_ptr inlining p
  = Some (result, p') →
  same_tables p p'.
Proof.
  unfold lb_emit_call_internal. cbv zeta. rewrite bind_run.
  match goal with
  | |- match ?m with _ => _ end = _ → _ => destruct m as [[args1 p1]|] eqn:Eloop; [|done]
  end.
  apply fold_same_tables in Eloop.
  2: { intros a x q a' q'. rewrite bind_run. destruct (is_type_proc (type x)).
       - destruct (ext _ q) as [[v q1]|] eqn:E; [|done].
         apply ext_same_tables in E. by intros [= <- <-].
       - intros [= <- <-]. apply same_tables_refl. }
  rewrite bind_run.
  match goal with
  | |- match ?m with _ => _ end = _ → _ => destruct m as [[args2 p2]|] eqn:Ectx; [|done]
  end.
  assert (Hsame2 : same_tables p1 p2).
  { destruct (negb _).
    - rewrite bind_run in Ectx. destruct (ext _ p1) as [[v q1]|] eqn:E; [|done].
      apply ext_same_tables in E. by injection Ectx as <- <-.
    - injection Ectx as <- <-. apply same_tables_refl. }
  rewrite assert_bind.
  match goal with |- (if ?c then _ else None) = _ → _ => destruct c; [|done] end.
  rewrite bind_run. destruct (ext _ p2) as [[[[fnp fn] checked] p3]|] eqn:E3; [|done].
  apply ext_same_tables in E3.
  rewrite bind_run. destruct (ext _ p3) as [[r p4]|] eqn:E4; [|done].
  apply ext_same_tables in E4.
  rewrite bind_run. destruct (ext _ p4) as [[[] p5]|] eqn:E5; [|done].
  apply ext_same_tables in E5.
  intros [= <- <-]. eauto using same_tables_trans.
Qed.

Lemma issue_call_same_tables ft value_ processed rt context_ptr inlining
    (p p' : lbProcedure S) result :
  issue_call ft value_ processed rt context_ptr inlining p = Some (result, p') →
  same_tables p p'.
Proof.
  unfold issue_call. cbv zeta. destruct (bool_decide _).
  - rewrite bind_run.
    destruct (lb_add_local_generated rt true p) as [[rp p1]|] eqn:E1; [|done].
    apply lb_add_local_generated_same_tables in E1.
    rewrite bind_run.
    destruct (lb_emit_call_internal _ _ _ _ _ _ p1) as [[r p2]|] eqn:E2; [|done].
    apply lb_emit_call_internal_same_tables in E2.
    intros E3. apply ext_same_tables in E3. eauto using same_tables_trans.
  - destruct (negb (rt =? nullptr)%N).
    + rewrite bind_run.
      destruct (lb_emit_call_internal _ _ _ _ _ _ p) as [[r p1]|] eqn:E1; [|done].
      apply lb_emit_call_internal_same_tables in E1.
      rewrite bind_run.
      match goal with
      | |- match ?m with _ => _ end = _ → _ => destruct m as [[v p2]|] eqn:E2; [|done]
      end.
      assert (Hsame2 : same_tables p1 p2).
      { destruct (negb _).
        - by apply ext_same_tables in E2.
        - injection E2 as <- <-. apply same_tables_refl. }
      rewrite bind_run. destruct (ext _ p2) as [[v' p3]|] eqn:E3; [|done].
      apply ext_same_tables in E3. rewrite ask_bind.
      destruct (negb (is_type_tuple rt)).
      * intros E4. apply ext_same_tables in E4. eauto using same_tables_trans.
      * intros [= <- <-]. eauto using same_tables_trans.
    + rewrite bind_run.
      destruct (lb_emit_call_internal _ _ _ _ _ _ p) as [[r p1]|] eqn:E1; [|done].
      apply lb_emit_call_internal_same_tables in E1. by intros [= <- <-].
Qed.

(** The tuple-fix adds two entries of one value list to the tuple-fix map
    and touches the LLVM side; nothing else. *)
Lemma tuple_fix_frame ft split ignored processed original_rt direct
    (p p' : lbProcedure S) result :
  tuple_fix ft split ignored processed original_rt direct p = Some (result, p') →
  ∃ pm k1 k2 tf,
    same_tables p pm
    ∧ p' = set_tuple_fix_map (<[k2 := tf]> (<[k1 := tf]> (tuple_fix_map pm))) pm.
Proof.
  unfold tuple_fix. rewrite assert_bind. destruct split; [|done].
  rewrite assert_bind. destruct (is_type_tuple original_rt); [|done].
  rewrite bind_run.
  destruct (lb_add_local_generated _ _ p) as [[rp p1]|] eqn:E1; [|done].
  apply lb_add_local_generated_same_tables in E1.
  cbv zeta. rewrite bind_run.
  destruct (foldM _ _ _ p1) as [[vals p2]|] eqn:E2; [|done].
  apply fold_same_tables in E2.
  2: { intros a x q a' q'. rewrite bind_run.
       destruct (index processed _ q) as [[ptr q0]|] eqn:Ei; [|done].
       apply index_inv in Ei as (_ & _ & ->).
       rewrite bind_run. destruct (ext _ q) as [[v q1]|] eqn:E; [|done].
       apply ext_same_tables in E. by intros [= <- <-]. }
  rewrite assert_bind.
  match goal with |- (if ?c then _ else None) = _ → _ => destruct c; [|done] end.
  rewrite bind_run. destruct (ext _ p2) as [[res p3]|] eqn:E3; [|done].
  apply ext_same_tables in E3.
  rewrite !modify_bind. intros [= <- <-].
  exists p3, (value (addr rp)), (value res), {| tf_values := vals ++ [direct] |}.
  split; [eauto using same_tables_trans|]. by destruct p3.
Qed.

End facts.
End CallFrameFacts.

(** X24.  A call that [lb_emit_call] emits leaves the bindings of the
    procedure under construction as they were: the values of the entities,
    the direct parameters, the return pointer, the slices kept for variadic
    calls and the known procedure values.  The deferred statements
    registered before the call stay, in their order, followed by at most one
    new entry; the tuple-fix map is unchanged or has got two entries of one
    value list; and when the callee diverges, the last thing built is an
    [unreachable]. *)
Theorem emit_call_keeps_bindings_and_earlier_defers
    {S : Type} `{Proc.Backend S}
    (value_ : Core.lbValue) (args : list Core.lbValue) (inlining : Core.ProcInlining)
    (p p' : Proc.lbProcedure S) (result : Core.lbValue) :
  Call.lb_emit_call value_ args inlining p = Some (result, p') →
  Proc.values p' = Proc.values p
  ∧ Proc.direct_parameters p' = Proc.direct_parameters p
  ∧ Proc.return_ptr p' = Proc.return_ptr p
  ∧ Proc.variadic_reuses p' = Proc.variadic_reuses p
  ∧ Proc.procedure_values p' = Proc.procedure_values p
  ∧ (∃ ds, Proc.defer_stmts p' = Proc.defer_stmts p ++ ds ∧ (length ds ≤ 1)%nat)
  ∧ (Proc.tuple_fix_map p' = Proc.tuple_fix_map p
     ∨ ∃ k1 k2 tf,
         Proc.tuple_fix_map p' = <[k2 := tf]> (<[k1 := tf]> (Proc.tuple_fix_map p)))
  ∧ ∀ pt, Proc.type_proc (Proc.base_type (Core.type value_)) = Some pt →
      Core.diverging pt = true →
      ∃ b, Proc.LLVMBuildUnreachable b = Some (tt, Proc.builder p').
Proof.
  intros Hrun. unfold Call.lb_emit_call in Hrun.
  destruct (Proc.type_proc (Proc.base_type (Core.type value_))) as [pt|] eqn:Hpt; [|done].
  rewrite ProcFacts.bind_run in Hrun.
  match type of Hrun with
  | context [match ?m p with _ => _ end] => destruct (m p) as [[ctx pa]|] eqn:Ectx
  end; [|done].
  assert (Ha : ProcFacts.same_tables p pa).
  { revert Ectx. destruct (bool_decide _).
    - apply ProcFacts.ext_same_tables.
    - intros [= <- <-]. apply ProcFacts.same_tables_refl. }
  rewrite ProcFacts.bind_run in Hrun.
  match type of Hrun with
  | context [match ?m pa with _ => _ end] => destruct (m pa) as [[pc pa']|] eqn:Epc
  end; [|done].
  assert (pa' = pa) as ->.
  { destruct (Core.c_vararg pt); rewrite ProcFacts.assert_bind in Epc;
      match type of Epc with (if ?c then _ else None) = _ => destruct c; [|done] end;
      by injection Epc as <- <-. }
  rewrite ProcFacts.bind_run in Hrun.
  destruct (Proc.ext _ pa) as [[ft pb]|] eqn:Hb; [|done].
  apply ProcFacts.ext_same_tables in Hb.
  rewrite ProcFacts.bind_run in Hrun.
  destruct (Core.foldM _ _ _ pb) as [[st pc']|] eqn:Hc; [|done].
  apply CallFrameFacts.fold_same_tables in Hc.
  2: { intros a x q a' q' Harg. by apply CallFacts.marshal_arg_inv in Harg as [? _]. }
  rewrite ProcFacts.bind_run in Hrun.
  match type of Hrun with
  | context [match ?m pc' with Some _ => _ | None => _ end] =>
      destruct (m pc') as [[[processed rt] pd]|] eqn:Esplit
  end; [|done].
  assert (Hd : ProcFacts.same_tables pc' pd).
  { revert Esplit. destruct (negb (Core.multiple_return_original_type ft =? _)%N).
    - rewrite ProcFacts.assert_bind.
      match goal with |- (if ?c then _ else None) = _ → _ => destruct c; [|done] end.
      rewrite ProcFacts.bind_run.
      destruct (Call.add_partial_returns _ _ pc') as [[pr q1]|] eqn:E1; [|done].
      apply CallFacts.add_partial_returns_inv in E1 as (_ & _ & _ & Hs & _).
      rewrite ProcFacts.bind_run.
      destruct (Core.index _ _ q1) as [[last_ q2]|] eqn:E2; [|done].
      apply CallFacts.index_inv in E2 as (_ & _ & ->).
      by intros [= <- <- <-].
    - intros [= <- <- <-]. apply ProcFacts.same_tables_refl. }
  rewrite ProcFacts.bind_run in Hrun.
  destruct (Call.issue_call _ _ _ _ _ _ pd) as [[direct pe]|] eqn:He; [|done].
  apply CallFrameFacts.issue_call_same_tables in He.
  rewrite ProcFacts.bind_run in Hrun.
  match type of Hrun with
  | context [match ?m pe with Some _ => _ | None => _ end] =>
      destruct (m pe) as [[res pf]|] eqn:Efix
  end; [|done].
  assert (Hf : ∃ pm, ProcFacts.same_tables pe pm
                ∧ (pf = pm ∨ ∃ k1 k2 tf,
                     pf = Proc.set_tuple_fix_map
                            (<[k2 := tf]> (<[k1 := tf]> (Proc.tuple_fix_map pm))) pm)).
  { revert Efix. destruct (negb (_ =? rt)%N).
    - intros Efix.
      apply CallFrameFacts.tuple_fix_frame in Efix as (pm & k1 & k2 & tf & Hs & ->).
      eauto 10.
    - intros [= <- <-]. eauto using ProcFacts.same_tables_refl. }
  destruct Hf as (pm & Hf & Hpf).
  rewrite ProcFacts.bind_run in Hrun.
  destruct (Call.attach_deferred _ _ _ pf) as [[[] pg]|] eqn:Hg; [|done].
  apply CallFacts.attach_deferred_inv in Hg as (pn & Hg & Hpn).
  rewrite ProcFacts.bind_run in Hrun.
  match type of Hrun with
  | context [match ?m pg with Some _ => _ | None => _ end] =>
      destruct (m pg) as [[[] pz]|] eqn:Eend
  end; [|done].
  injection Hrun as <- <-.
  assert (Hz : ProcFacts.same_tables pg pz
               ∧ (Core.diverging pt = true →
                  ∃ b, Proc.LLVMBuildUnreachable b = Some (tt, Proc.builder pz))).
  { revert Eend. destruct (Core.diverging pt).
    - intros Eend. split; [by apply ProcFacts.ext_same_tables in Eend|]. intros _.
      rewrite ProcFacts.ext_run in Eend.
      destruct (Proc.LLVMBuildUnreachable _) as [[[] b]|] eqn:Eu; [|done].
      injection Eend as <-. eauto.
    - intros [= <-]. split; [apply ProcFacts.same_tables_refl|done]. }
  destruct Hz as [Hz Hdiv].
  assert (Hpre : ProcFacts.same_tables p pm)
    by eauto 10 using ProcFacts.same_tables_trans.
  assert (Hshape : ∃ tfm ds,
            (tfm = Proc.tuple_fix_map p
             ∨ ∃ k1 k2 tf, tfm = <[k2 := tf]> (<[k1 := tf]> (Proc.tuple_fix_map p)))
            ∧ (length ds ≤ 1)%nat
            ∧ pz = Proc.set_builder (Proc.builder pz)
                     (Proc.set_defer_stmts (Proc.defer_stmts p ++ ds)
                        (Proc.set_tuple_fix_map tfm p))).
  { unfold ProcFacts.same_tables in Hpre, Hg, Hz.
    rewrite Hz. rewrite Hpre in Hpf.
    destruct Hpf as [-> | (k1 & k2 & tf & ->)];
      rewrite Hg in Hpn; destruct Hpn as [-> | (d & ->)]; destruct p; cbn.
    - exists tuple_fix_map, []. rewrite app_nil_r. split; [by left|]. split; [cbn; lia|done].
    - exists tuple_fix_map, [d]. split; [by left|]. split; [cbn; lia|done].
    - eexists _, []. rewrite app_nil_r. split; [right; eauto|]. split; [cbn; lia|done].
    - eexists _, [d]. split; [right; eauto|]. split; [cbn; lia|done]. }
  destruct Hshape as (tfm & ds & Htfm & Hds & ->). destruct p; cbn in *.
  split; [done|]. split; [done|]. split; [done|]. split; [done|]. split; [done|].
  split; [eauto|]. split; [done|].
  intros pt' [= <-]. exact Hdiv.
Qed.

Module MarshalFacts.
Import Core Proc Call ProcFacts CallFacts.

Section facts.
Context {S : Type} `{Backend S}.

(** One turn of the marshalling loop uses up one classification for a
    parameter that is a variable, none for another. *)
Lemma marshal_arg_index pt ft is_odin_cc args st i (p p' : lbProcedure S) st' :
  marshal_arg pt ft is_odin_cc args st i p = Some (st', p') →
  ∃ e, params pt !! Z.to_nat i = Some e
    ∧ param_index st'
      = param_index st + (if bool_decide (e_kind e = Entity_Variable) then 1 else 0)
    ∧ ignored_args st ≤ ignored_args st'.
Proof.
  unfold marshal_arg. rewrite bind_run.
  destruct (index (params pt) i p) as [[e p0]|] eqn:Ee; [|done].
  apply index_inv in Ee as (_ & He & ->).
  intros Hrun. exists e. split; [done|].
  destruct (bool_decide (e_kind e = Entity_Variable)); cbn [negb] in Hrun.
  2: { injection Hrun as <- <-. lia. }
  rewrite assert_bind in Hrun. destruct (e_flag_Param e); [|done].
  rewrite bind_run in Hrun.
  destruct (index (ft_args ft) (param_index st) p) as [[arg p0]|] eqn:Ea; [|done].
  apply index_inv in Ea as (_ & _ & ->).
  destruct (bool_decide (arg_kind arg = lbArg_Ignore)).
  { injection Hrun as <- <-. cbn. lia. }
  rewrite bind_run in Hrun.
  destruct (index args i p) as [[a p0]|] eqn:Ei; [|done].
  apply index_inv in Ei as (_ & _ & ->).
  rewrite bind_run in Hrun. destruct (ext _ p) as [[x p1]|] eqn:Ex; [|done].
  rewrite bind_run in Hrun.
  match type of Hrun with
  | context [match ?m p1 with Some _ => _ | None => _ end] =>
      destruct (m p1) as [[processed p2]|]; [|done]
  end.
  injection Hrun as <- <-. cbn. lia.
Qed.

Lemma marshal_loop_index pt ft is_odin_cc args (pre ps : list Entity) st
    (p p' : lbProcedure S) st' :
  params pt = pre ++ ps →
  foldM (marshal_arg pt ft is_odin_cc args) st
        (seqZ (Z.of_nat (length pre)) (Z.of_nat (length ps))) p = Some (st', p') →
  param_index st' = param_index st + variable_params ps
  ∧ ignored_args st ≤ ignored_args st'.
Proof.
  revert pre st p. induction ps as [|e ps IH]; intros pre st p Hps.
  - cbn. intros [= <- <-]. lia.
  - rewrite seqZ_cons by (cbn [length]; lia). rewrite foldM_cons.
    destruct (marshal_arg _ _ _ _ st _ p) as [[st1 p1]|] eqn:E1; [|done].
    apply marshal_arg_index in E1 as (e' & He' & Hidx1 & Hign1).
    rewrite Nat2Z.id, Hps, lookup_app_r, Nat.sub_diag in He' by lia.
    injection He' as <-.
    replace (Z.succ (Z.of_nat (length pre))) with (Z.of_nat (length (pre ++ [e])))
      by (rewrite length_app; cbn; lia).
    replace (Z.pred (Z.of_nat (length (e :: ps)))) with (Z.of_nat (length ps))
      by (cbn [length]; lia).
    intros Hrest. apply IH in Hrest as [Hidx2 Hign2].
    2: { by rewrite <- app_assoc. }
    cbn [variable_params]. lia.
Qed.

End facts.
End MarshalFacts.

(** X25.  The marshalling loop of [lb_emit_call], run over all the
    parameters of the callee, uses up exactly one classification of the
    function type for every parameter that is a variable and none for a
    type name or a constant; every variable parameter gives exactly one
    processed argument unless it is classified [Ignore], in which case it
    is counted in [ignored_args].  The loop touches nothing but the LLVM
    side. *)
Theorem marshalling_gives_one_argument_per_classified_parameter
    {S : Type} `{Proc.Backend S}
    (pt : Core.TypeProc) (ft : Core.lbFunctionType) (is_odin_cc : bool)
    (args : list Core.lbValue) (st' : Call.marshal_state)
    (p p' : Proc.lbProcedure S) :
  Core.foldM (Call.marshal_arg pt ft is_odin_cc args)
    {| Call.param_index := 0; Call.ignored_args := 0; Call.processed_args := [] |}
    (seqZ 0 (Z.of_nat (length (Core.params pt)))) p = Some (st', p') →
  let variables := Call.variable_params (Core.params pt) in
  Call.param_index st' = variables
  ∧ Z.of_nat (length (Call.processed_args st')) + Call.ignored_args st' = variables
  ∧ 0 ≤ Call.ignored_args st' ≤ variables
  ∧ ProcFacts.same_tables p p'.
Proof.
  intros Hrun variables.
  pose proof (CallFacts.marshal_loop_inv pt ft is_odin_cc args [] (Core.params pt)
                _ p p' st' eq_refl Hrun) as [Hsame Hlen].
  pose proof (MarshalFacts.marshal_loop_index pt ft is_odin_cc args [] (Core.params pt)
                _ p p' st' eq_refl Hrun) as [Hidx Hign].
  cbn in Hlen, Hidx, Hign. fold variables in Hlen, Hidx.
  split; [lia|]. split; [lia|]. split; [lia|done].
Qed.

Module EntryFacts.
Import Core Proc Body ProcFacts BodyFacts.

Section facts.
Context {S : Type} `{Backend S}.

(** Two states that differ in what the body entry sets up: the LLVM side,
    the values of the entities, the direct parameters, the raw input
    parameters and the return pointer. *)
Definition entry_frame (p p' : lbProcedure S) : Prop :=
  p' = set_return_ptr (return_ptr p')
         (set_raw_input_parameters (raw_input_parameters p')
            (set_direct_parameters (direct_parameters p')
               (set_values (values p') (set_builder (builder p') p)))).

Lemma entry_frame_refl p : entry_frame p p.
Proof. by destruct p. Qed.

Lemma entry_frame_trans p1 p2 p3 :
  entry_frame p1 p2 → entry_frame p2 p3 → entry_frame p1 p3.
Proof. unfold entry_frame. intros -> ->. by destruct p1. Qed.

Lemma same_tables_entry_frame p p' : same_tables p p' → entry_frame p p'.
Proof. unfold same_tables, entry_frame. intros ->. by destruct p. Qed.

(** The frame keeps the return pointer when the step does. *)
Definition keeps_return_ptr (p p' : lbProcedure S) : Prop :=
  entry_frame p p' ∧ return_ptr p' = return_ptr p.

Lemma keeps_refl p : keeps_return_ptr p p.
Proof. split; [apply entry_frame_refl|done]. Qed.

Lemma keeps_trans p1 p2 p3 :
  keeps_return_ptr p1 p2 → keeps_return_ptr p2 p3 → keeps_return_ptr p1 p3.
Proof.
  intros [H1 E1] [H2 E2]. split; [by eapply entry_frame_trans|congruence].
Qed.

Lemma same_tables_keeps p p' : same_tables p p' → keeps_return_ptr p p'.
Proof.
  intros Hs. split; [by apply same_tables_entry_frame|]. rewrite Hs. by destruct p.
Qed.

Lemma lb_add_entity_keeps e v (p p' : lbProcedure S) :
  lb_add_entity e v p = Some (tt, p') → keeps_return_ptr p p'.
Proof. intros [= <-]. split; by destruct p. Qed.

Lemma fold_keeps {A B} (f : A → B → M (lbProcedure S) A) (l : list B) :
  (∀ a x p a' p', x ∈ l → f a x p = Some (a', p') → keeps_return_ptr p p') →
  ∀ a p a' p', foldM f a l p = Some (a', p') → keeps_return_ptr p p'.
Proof.
  induction l as [|x l IH]; intros Hf a p a' p'.
  - intros [= <- <-]. apply keeps_refl.
  - rewrite foldM_cons.
    destruct (f a x p) as [[a1 p1]|] eqn:E; [|done].
    apply Hf in E; [|by left]. intros Hrest. apply IH in Hrest.
    + eauto using keeps_trans.
    + intros ? ? ? ? ? Hin. apply Hf. by right.
Qed.

Lemma bind_parameter_keeps ft is_odin_cc param_offset param_index e
    (p p' : lbProcedure S) :
  bind_parameter ft is_odin_cc param_offset param_index e p = Some (tt, p') →
  keeps_return_ptr p p'.
Proof.
  unfold bind_parameter. rewrite bind_run.
  destruct (index (ft_args ft) param_index p) as [[arg p0]|] eqn:Ea; [|done].
  apply CallFacts.index_inv in Ea as (_ & _ & ->). rewrite get_bind.
  destruct (arg_kind arg).
  - destruct (negb _ && negb _).
    2: { intros [= <-]. apply keeps_refl. }
    cbv zeta. rewrite bind_run.
    destruct (ext _ p) as [[v p1]|] eqn:E1; [|done].
    apply ext_same_tables, same_tables_keeps in E1.
    rewrite modify_bind, bind_run.
    match goal with
    | |- match lb_address_from_load_or_generate_local ?x ?q with _ => _ end = _ → _ =>
        destruct (lb_address_from_load_or_generate_local x q) as [[ptr p2]|] eqn:E2;
        [|done];
        assert (Hq : keeps_return_ptr p1 q) by (split; by destruct p1)
    end.
    apply lb_address_from_load_or_generate_local_same_tables, same_tables_keeps in E2.
    rewrite ask_bind, assert_bind.
    match goal with |- (if ?c then _ else None) = _ → _ => destruct c; [|done] end.
    rewrite bind_run.
    destruct (lb_add_entity e ptr p2) as [[[] p3]|] eqn:E3; [|done].
    apply lb_add_entity_keeps in E3.
    intros E4. apply ext_same_tables, same_tables_keeps in E4.
    eauto 10 using keeps_trans.
  - destruct (negb _ && negb _).
    2: { intros [= <-]. apply keeps_refl. }
    cbv zeta. rewrite bind_run.
    match goal with
    | |- match ?m p with _ => _ end = _ → _ => destruct (m p) as [[ptr p1]|] eqn:E1; [|done]
    end.
    assert (H1 : keeps_return_ptr p p1).
    { revert E1. match goal with |- (if ?c then _ else _) p = _ → _ => destruct c end.
      - rewrite bind_run.
        destruct (lb_add_local_generated _ _ p) as [[np q1]|] eqn:F1; [|done].
        apply lb_add_local_generated_same_tables in F1.
        rewrite bind_run.
        destruct (lb_mem_copy_non_overlapping _ _ _ _ q1) as [[[] q2]|] eqn:F2; [|done].
        apply lb_mem_copy_non_overlapping_same_tables in F2.
        intros [= <- <-]. apply same_tables_keeps. eauto using same_tables_trans.
      - intros [= <- <-]. apply keeps_refl. }
    rewrite bind_run.
    destruct (lb_add_entity e ptr p1) as [[[] p2]|] eqn:E2; [|done].
    apply lb_add_entity_keeps in E2.
    intros E3. apply ext_same_tables, same_tables_keeps in E3.
    eauto using keeps_trans.
  - rewrite bind_run.
    destruct (lb_add_local_generated _ _ p) as [[d p1]|] eqn:E1; [|done].
    apply lb_add_local_generated_same_tables, same_tables_keeps in E1.
    intros E2. apply lb_add_entity_keeps in E2. eauto using keeps_trans.
Qed.

Lemma bind_parameters_keeps ft param_offset variables (p p' : lbProcedure S) :
  bind_parameters ft param_offset variables p = Some (tt, p') →
  keeps_return_ptr p p'.
Proof.
  unfold bind_parameters. rewrite get_bind, modify_bind, bind_run.
  match goal with
  | |- match foldM ?f ?a ?l ?q with _ => _ end = _ → _ =>
      destruct (foldM f a l q) as [[n p1]|] eqn:E; [|done];
      assert (Hq : keeps_return_ptr p q) by (split; by destruct p)
  end.
  apply fold_keeps in E.
  - intros [= <-]. eauto using keeps_trans.
  - intros a x q a' q' _. destruct (negb _).
    + intros [= <- <-]. apply keeps_refl.
    + rewrite bind_run.
      destruct (bind_parameter _ _ _ _ _ q) as [[[] q1]|] eqn:E1; [|done].
      apply bind_parameter_keeps in E1. by intros [= <- <-].
Qed.

Lemma bind_named_result_keeps ft param_offset results i e (p p' : lbProcedure S) :
  e_param_value e = ParameterValue_Invalid →
  bind_named_result ft param_offset results i e p = Some (tt, p') →
  keeps_return_ptr p p'.
Proof.
  intros Hdefault.
  destruct (decide (e_token e = "")) as [Hname|Hname].
  { unfold bind_named_result. rewrite assert_bind.
    match goal with |- (if ?c then _ else None) = _ → _ => destruct c; [|done] end.
    rewrite bool_decide_true by done. intros [= <-]. apply keeps_refl. }
  rewrite NamedResultFacts.bind_named_result_fallback by done.
  rewrite assert_bind.
  match goal with |- (if ?c then _ else None) = _ → _ => destruct c; [|done] end.
  rewrite assert_bind.
  match goal with |- (if ?c then _ else None) = _ → _ => destruct c; [|done] end.
  rewrite bind_run.
  match goal with
  | |- match ?m p with _ => _ end = _ → _ => destruct (m p) as [[[] p1]|] eqn:E1; [|done]
  end.
  assert (H1 : keeps_return_ptr p p1).
  { revert E1. destruct (NamedResultFacts.defer_never_used p).
    - rewrite bind_run.
      destruct (return_storage_ptr _ _ _ _ _ p) as [[ptr q]|] eqn:F; [|done].
      apply NamedResultFacts.return_storage_ptr_null in F as [_ F].
      intros [= <-]. by apply same_tables_keeps.
    - intros [= <-]. apply keeps_refl. }
  rewrite bind_run.
  destruct (lb_add_local _ _ _ _ p1) as [[res p2]|] eqn:E2; [|done].
  assert (H2 : keeps_return_ptr p1 p2).
  { unfold lb_add_local in E2. rewrite bind_run, ext_run in E2.
    destruct (new_local _ _ _ _) as [[local b']|]; [|done].
    unfold lb_add_entity in E2. rewrite modify_bind in E2.
    injection E2 as <- <-. split; by destruct p1. }
  unfold store_result_default. rewrite Hdefault.
  rewrite bool_decide_true by done. intros [= <-]. eauto using keeps_trans.
Qed.

Lemma bind_named_results_keeps ft param_offset results (p p' : lbProcedure S) :
  Forall (λ e, e_param_value e = ParameterValue_Invalid) results →
  bind_named_results ft param_offset results p = Some (tt, p') →
  keeps_return_ptr p p'.
Proof.
  intros Hdefault. unfold bind_named_results. rewrite bind_run.
  destruct (foldM _ _ _ p) as [[n p1]|] eqn:E; [|done].
  apply fold_keeps in E.
  - by intros [= <-].
  - intros a x q a' q' Hin. rewrite bind_run.
    destruct (bind_named_result _ _ _ _ _ q) as [[[] q1]|] eqn:E1; [|done].
    apply bind_named_result_keeps in E1.
    + by intros [= <- <-].
    + by eapply (proj1 (Forall_forall _ _) Hdefault).
Qed.

End facts.
End EntryFacts.
Module EntryMoreFacts.
Import Core Proc Body ProcFacts BodyFacts EntryFacts.

Section facts.
Context {S : Type} `{Backend S}.

(** The block for a return that is passed by pointer. *)
Lemma bind_return_ptr_inv ft (p p' : lbProcedure S) off :
  bind_return_ptr ft p = Some (off, p') →
  let rt := reduce_tuple_to_single_type (results_type (p_proc p)) in
  off = 1
  ∧ entry_frame p p'
  ∧ ∃ t, return_ptr p'
         = lb_addr {| value := LLVMGetParam (p_value p) 0;
                      type := alloc_type_pointer t |}
      ∧ if (multiple_return_original_type ft =? nullptr)%N then t = rt
        else ∃ e, last (tuple_variables rt) = Some e ∧ t = e_type e.
Proof.
  unfold bind_return_ptr. rewrite get_bind. cbv zeta. rewrite bind_run.
  match goal with
  | |- match ?m p with _ => _ end = _ → _ => destruct (m p) as [[name p0]|] eqn:E0; [|done]
  end.
  assert (p0 = p) as ->.
  { revert E0. destruct (_ && _).
    - rewrite bind_run.
      destruct (index _ _ p) as [[e q]|] eqn:Ei; [|done].
      apply CallFacts.index_inv in Ei as (_ & _ & ->). by intros [= <- <-].
    - by intros [= <- <-]. }
  clear E0. rewrite bind_run.
  match goal with
  | |- match ?m p with _ => _ end = _ → _ => destruct (m p) as [[t p0]|] eqn:E1; [|done]
  end.
  assert (Ht : p0 = p
               ∧ if (multiple_return_original_type ft =? nullptr)%N
                 then t = reduce_tuple_to_single_type (results_type (p_proc p))
                 else ∃ e, last (tuple_variables
                                   (reduce_tuple_to_single_type (results_type (p_proc p))))
                           = Some e ∧ t = e_type e).
  { revert E1. destruct (multiple_return_original_type ft =? nullptr)%N; cbn [negb].
    - by intros [= <- <-].
    - rewrite assert_bind.
      match goal with |- (if ?c then _ else None) = _ → _ => destruct c; [|done] end.
      cbv zeta. rewrite bind_run.
      destruct (index _ _ p) as [[e q]|] eqn:Ei; [|done].
      apply CallFacts.index_inv in Ei as (Hpos & He & ->). intros [= <- <-].
      split; [done|]. exists e. split; [|done].
      rewrite last_lookup. rewrite <- He. f_equal. lia. }
  destruct Ht as [-> Ht]. clear E1.
  rewrite bind_run. destruct (ext _ p) as [[e p1]|] eqn:E2; [|done].
  rewrite ext_run in E2. destruct (alloc_entity_param _ _ _) as [[e' b1]|]; [|done].
  injection E2 as -> <-.
  rewrite bind_run, ext_run. cbn [builder set_builder p_value].
  destruct (LLVMSetValueName2 _ _ _) as [[[] b2]|]; [|done].
  rewrite modify_bind. unfold lb_add_entity. rewrite modify_bind.
  intros [= <- <-]. split; [done|]. split; [by destruct p|].
  exists t. split; [by destruct p|done].
Qed.

End facts.
End EntryMoreFacts.

(** X26.  The entry of a body whose named results have no default values
    registers no deferred statement and no tuple-fix, and leaves the known
    procedure values and the slices kept for variadic calls as they were.
    When the classified return is not [Indirect] the return pointer is left
    as it was.  When it is [Indirect] the return pointer is native
    parameter 0, typed as a pointer to the result type, or to the type of
    the last member of the result tuple when the return is split. *)
Theorem begin_body_takes_return_ptr_from_parameter_0
    {S : Type} `{Proc.Backend S} (p p' : Proc.lbProcedure S) :
  Forall (λ e, Core.e_param_value e = Core.ParameterValue_Invalid)
         (Core.results (Proc.p_proc p)) →
  Body.lb_begin_procedure_body p = Some (tt, p') →
  let ft := Proc.abi_function_type p in
  let rt := Proc.reduce_tuple_to_single_type (Core.results_type (Proc.p_proc p)) in
  Proc.defer_stmts p' = Proc.defer_stmts p
  ∧ Proc.tuple_fix_map p' = Proc.tuple_fix_map p
  ∧ Proc.procedure_values p' = Proc.procedure_values p
  ∧ Proc.variadic_reuses p' = Proc.variadic_reuses p
  ∧ (Core.arg_kind (Core.ft_ret ft) ≠ Core.lbArg_Indirect →
     Proc.return_ptr p' = Proc.return_ptr p)
  ∧ (Core.arg_kind (Core.ft_ret ft) = Core.lbArg_Indirect →
     ∃ t, Proc.return_ptr p'
          = Core.lb_addr {| Core.value := Proc.LLVMGetParam (Proc.p_value p) 0;
                            Core.type := Proc.alloc_type_pointer t |}
       ∧ if (Core.multiple_return_original_type ft =? Core.nullptr)%N then t = rt
         else ∃ e, last (Proc.tuple_variables rt) = Some e ∧ t = Core.e_type e).
Proof.
  intros Hdefault Hrun ft rt. unfold Body.lb_begin_procedure_body in Hrun.
  rewrite ProcFacts.bind_run in Hrun.
  destruct (Proc.ext Proc.lb_enter_body p) as [[[] pe]|] eqn:E0; [|done].
  apply ProcFacts.ext_same_tables in E0.
  rewrite ProcFacts.modify_bind in Hrun.
  set (p0 := Proc.set_direct_parameters ∅ pe) in Hrun.
  assert (F0 : EntryFacts.entry_frame pe p0).
  { unfold p0, EntryFacts.entry_frame. by destruct pe. }
  rewrite ProcFacts.get_bind in Hrun. cbv zeta in Hrun.
  assert (Hp0 : Proc.abi_function_type p0 = ft ∧ Proc.p_proc p0 = Proc.p_proc p
                ∧ Proc.p_value p0 = Proc.p_value p
                ∧ Proc.return_ptr p0 = Proc.return_ptr p).
  { unfold p0. rewrite E0. by destruct p. }
  destruct Hp0 as (Hft & Hproc & Hvalue & Hret0).
  rewrite Hft, Hproc in Hrun.
  rewrite ProcFacts.bind_run in Hrun.
  match type of Hrun with
  | context [match ?m p0 with Some _ => _ | None => _ end] =>
      destruct (m p0) as [[off p1]|] eqn:E1
  end; [|done].
  rewrite ProcFacts.bind_run in Hrun.
  destruct (Body.bind_parameters _ _ _ p1) as [[[] p2]|] eqn:E2; [|done].
  apply EntryFacts.bind_parameters_keeps in E2 as [F2 R2].
  rewrite ProcFacts.bind_run in Hrun.
  match type of Hrun with
  | context [match ?m p2 with Some _ => _ | None => _ end] =>
      destruct (m p2) as [[[] p3]|] eqn:E3
  end; [|done].
  assert (H3 : EntryFacts.keeps_return_ptr p2 p3).
  { revert E3. destruct (Core.has_named_results _).
    - rewrite ProcFacts.assert_bind.
      match goal with |- (if ?c then _ else None) = _ → _ => destruct c; [|done] end.
      by apply EntryFacts.bind_named_results_keeps.
    - intros [= <-]. apply EntryFacts.keeps_refl. }
  destruct H3 as [F3 R3].
  apply ProcFacts.ext_same_tables in Hrun.
  assert (H1 : EntryFacts.entry_frame p0 p1
               ∧ (Core.arg_kind (Core.ft_ret ft) ≠ Core.lbArg_Indirect →
                  Proc.return_ptr p1 = Proc.return_ptr p0)
               ∧ (Core.arg_kind (Core.ft_ret ft) = Core.lbArg_Indirect →
                  ∃ t, Proc.return_ptr p1
                       = Core.lb_addr {| Core.value := Proc.LLVMGetParam (Proc.p_value p) 0;
                                         Core.type := Proc.alloc_type_pointer t |}
                    ∧ if (Core.multiple_return_original_type ft =? Core.nullptr)%N
                      then t = rt
                      else ∃ e, last (Proc.tuple_variables rt) = Some e
                                ∧ t = Core.e_type e)).
  { revert E1. destruct (bool_decide _) eqn:Hind.
    - apply bool_decide_eq_true in Hind. intros E1.
      apply EntryMoreFacts.bind_return_ptr_inv in E1 as (_ & F1 & t & Hrp & Ht).
      rewrite Hproc, Hvalue in *. split; [done|]. split; [done|]. eauto.
    - apply bool_decide_eq_false in Hind. intros [= <- <-].
      split; [apply EntryFacts.entry_frame_refl|]. split; [done|]. done. }
  destruct H1 as (F1 & Hkeep & Hset).
  assert (Hall : EntryFacts.entry_frame p p').
  { apply EntryFacts.same_tables_entry_frame in E0, Hrun.
    eauto 10 using EntryFacts.entry_frame_trans. }
  assert (Hret : Proc.return_ptr p' = Proc.return_ptr p1).
  { rewrite Hrun. cbn. destruct p3. cbn in *. congruence. }
  unfold EntryFacts.entry_frame in Hall.
  split; [rewrite Hall; by destruct p|]. split; [rewrite Hall; by destruct p|].
  split; [rewrite Hall; by destruct p|]. split; [rewrite Hall; by destruct p|].
  rewrite Hret. split.
  - intros Hk. rewrite (Hkeep Hk). done.
  - exact Hset.
Qed.

(** ** Body entry: the sequencer, state by state *)

Module EntryChainFacts.
Import Core Proc Body Call ProcFacts BodyFacts BodyMoreFacts NamedResultFacts.

Section facts.
Context {S : Type} `{Backend S}.

(** The steps of [lb_begin_procedure_body], one after the other. *)
Lemma lb_begin_procedure_body_inv (p p' : lbProcedure S) :
  lb_begin_procedure_body p = Some (tt, p') →
  let ft := abi_function_type p in
  ∃ b0 param_offset p1 p2 p3,
    lb_enter_body (builder p) = Some (tt, b0)
    ∧ (if bool_decide (arg_kind (ft_ret ft) = lbArg_Indirect)
       then bind_return_ptr ft else mret 0)
        (set_direct_parameters ∅ (set_builder b0 p)) = Some (param_offset, p1)
    ∧ bind_parameters ft param_offset (params (p_proc p)) p1 = Some (tt, p2)
    ∧ (if has_named_results (p_proc p) then
         GB_ASSERT (0 <? result_count (p_proc p));;
         bind_named_results ft param_offset (results (p_proc p))
       else mret tt) p2 = Some (tt, p3)
    ∧ ext lb_leave_body_entry p3 = Some (tt, p').
Proof.
  intros Hrun ft. unfold lb_begin_procedure_body in Hrun.
  rewrite bind_run, ext_run in Hrun.
  destruct (lb_enter_body (builder p)) as [[[] b0]|] eqn:E0; [|done].
  rewrite modify_bind, get_bind in Hrun. cbv zeta in Hrun.
  change (abi_function_type (set_direct_parameters ∅ (set_builder b0 p))) with ft in Hrun.
  change (p_proc (set_direct_parameters ∅ (set_builder b0 p))) with (p_proc p) in Hrun.
  rewrite bind_run in Hrun.
  match type of Hrun with
  | context [match ?m ?q with Some _ => _ | None => _ end] =>
      destruct (m q) as [[off p1]|] eqn:E1; [|done]
  end.
  rewrite bind_run in Hrun.
  destruct (bind_parameters _ _ _ p1) as [[[] p2]|] eqn:E2; [|done].
  rewrite bind_run in Hrun.
  match type of Hrun with
  | context [match ?m ?q with Some _ => _ | None => _ end] =>
      destruct (m q) as [[[] p3]|] eqn:E3; [|done]
  end.
  exists b0, off, p1, p2, p3. by destruct p' as [].
Qed.

(** [bind_parameters] is the loop from the first classification on, after
    the raw parameters are recorded. *)
Lemma bind_parameters_run ft param_offset variables (p q : lbProcedure S) :
  bind_parameters ft param_offset variables p = Some (tt, q)
  ↔ ∃ n, parameters_from ft param_offset 0 variables
           (set_raw_input_parameters (LLVMGetParams (p_value p)) p) = Some (n, q).
Proof.
  unfold bind_parameters, parameters_from.
  rewrite get_bind, modify_bind, bind_run.
  match goal with
  | |- match ?m with _ => _ end = _ ↔ _ => destruct m as [[n q1]|]
  end.
  - split; [intros [= <-]; eauto|]. by intros [n' [= _ <-]].
  - split; [done|]. by intros [n' [=]].
Qed.

(** The loop uses up one classification per variable. *)
Lemma parameters_from_index ft param_offset k variables (p q : lbProcedure S) n :
  parameters_from ft param_offset k variables p = Some (n, q) →
  n = k + variable_params variables.
Proof.
  unfold parameters_from. revert k p.
  induction variables as [|e vs IH]; intros k p.
  - intros [= <- <-]. cbn. lia.
  - rewrite foldM_cons. cbn [variable_params].
    destruct (bool_decide (e_kind e = Entity_Variable)); cbn [negb].
    + rewrite bind_run.
      destruct (bind_parameter _ _ _ _ _ p) as [[[] p1]|]; [|done].
      unfold mret at 1, M_ret at 1. intros Hrest. apply IH in Hrest. lia.
    + unfold mret at 1, M_ret at 1. intros Hrest. apply IH in Hrest. lia.
Qed.

(** The loop over the parameters, cut at the turn of the variable [e]. *)
Lemma bind_parameters_at ft param_offset variables (j : nat) e (p1 p2 : lbProcedure S) :
  variables !! j = Some e →
  e_kind e = Entity_Variable →
  bind_parameters ft param_offset variables p1 = Some (tt, p2) →
  let param_index := variable_params (take j variables) in
  ∃ q q' n,
    bind_parameters ft param_offset (take j variables) p1 = Some (tt, q)
    ∧ bind_parameter ft (is_calling_convention_odin (ft_calling_convention ft))
        param_offset param_index e q = Some (tt, q')
    ∧ bind_parameters ft param_offset (take (Datatypes.S j) variables) p1 = Some (tt, q')
    ∧ parameters_from ft param_offset (param_index + 1)
        (drop (Datatypes.S j) variables) q' = Some (n, p2).
Proof.
  intros He Hvar Hrun param_index.
  apply bind_parameters_run in Hrun as [n Hrun].
  rewrite <- (take_drop_middle _ _ _ He) in Hrun.
  unfold parameters_from in Hrun. rewrite foldM_app in Hrun.
  match type of Hrun with
  | match ?m with _ => _ end = _ => destruct m as [[k q]|] eqn:Epre; [|done]
  end.
  pose proof (parameters_from_index _ _ _ _ _ _ _ Epre) as Hk.
  rewrite Z.add_0_l in Hk. fold param_index in Hk. subst k.
  rewrite foldM_cons in Hrun.
  rewrite bool_decide_true in Hrun by done. cbn [negb] in Hrun.
  rewrite bind_run in Hrun.
  destruct (bind_parameter _ _ _ _ _ q) as [[[] q']|] eqn:Eturn; [|done].
  unfold mret at 1, M_ret at 1 in Hrun.
  exists q, q', n. split.
  { apply bind_parameters_run. eauto. }
  split; [done|]. split; [|done].
  apply bind_parameters_run. exists (param_index + 1).
  rewrite (take_S_r _ _ _ He). unfold parameters_from.
  rewrite foldM_app, Epre. rewrite foldM_cons, bool_decide_true by done. cbn [negb].
  rewrite bind_run, Eturn. done.
Qed.

(** What a turn of the parameter loop does to the values of the entities:
    nothing, or one binding of its parameter. *)
Lemma bind_parameter_values ft is_odin_cc param_offset param_index e
    (p p' : lbProcedure S) :
  bind_parameter ft is_odin_cc param_offset param_index e p = Some (tt, p') →
  values p' = values p ∨ ∃ v, values p' = <[e_id e := v]> (values p).
Proof.
  unfold bind_parameter. rewrite bind_run.
  destruct (index (ft_args ft) param_index p) as [[arg p0]|] eqn:Ea; [|done].
  apply CallFacts.index_inv in Ea as (_ & _ & ->). rewrite get_bind.
  destruct (arg_kind arg).
  - destruct (negb _ && negb _).
    2: { intros [= <-]. by left. }
    cbv zeta. rewrite bind_run.
    destruct (ext _ p) as [[v p1]|] eqn:E1; [|done].
    apply ext_same_tables, same_tables_values in E1.
    rewrite modify_bind, bind_run.
    match goal with
    | |- match lb_address_from_load_or_generate_local ?x ?q with _ => _ end = _ → _ =>
        destruct (lb_address_from_load_or_generate_local x q) as [[ptr p2]|] eqn:E2;
        [|done];
        assert (Hq : values q = values p1) by (by destruct p1)
    end.
    apply lb_address_from_load_or_generate_local_same_tables, same_tables_values in E2.
    rewrite ask_bind, assert_bind.
    match goal with |- (if ?c then _ else None) = _ → _ => destruct c; [|done] end.
    intros Hrun. apply bound_to_values in Hrun. right. exists ptr.
    rewrite Hrun. congruence.
  - destruct (negb _ && negb _).
    2: { intros [= <-]. by left. }
    cbv zeta. rewrite bind_run.
    match goal with
    | |- match ?m p with _ => _ end = _ → _ => destruct (m p) as [[ptr p1]|] eqn:E1; [|done]
    end.
    assert (H1 : values p1 = values p).
    { revert E1. match goal with |- (if ?c then _ else _) p = _ → _ => destruct c end.
      - rewrite bind_run.
        destruct (lb_add_local_generated _ _ p) as [[np q1]|] eqn:F1; [|done].
        apply lb_add_local_generated_same_tables, same_tables_values in F1.
        rewrite bind_run.
        destruct (lb_mem_copy_non_overlapping _ _ _ _ q1) as [[[] q2]|] eqn:F2; [|done].
        apply lb_mem_copy_non_overlapping_same_tables, same_tables_values in F2.
        intros [= <- <-]. congruence.
      - by intros [= <- <-]. }
    intros Hrun. apply bound_to_values in Hrun. right. exists ptr.
    rewrite Hrun. congruence.
  - rewrite bind_run.
    destruct (lb_add_local_generated _ _ p) as [[d p1]|] eqn:E1; [|done].
    apply lb_add_local_generated_same_tables, same_tables_values in E1.
    unfold lb_add_entity, modify. intros [= <-]. right. exists (addr d).
    cbn. by rewrite E1.
Qed.

(** The rest of the parameter loop keeps the binding of an entity none of
    the remaining parameters shares its identity with. *)
Lemma parameters_from_keeps ft param_offset k variables (p q : lbProcedure S) n id :
  Forall (λ e, e_id e ≠ id) variables →
  parameters_from ft param_offset k variables p = Some (n, q) →
  values q !! id = values p !! id.
Proof.
  unfold parameters_from. intros Hall. revert k p.
  induction Hall as [|e vs Hne _ IH]; intros k p.
  - by intros [= <- <-].
  - rewrite foldM_cons. destruct (negb _).
    + unfold mret at 1, M_ret at 1. apply IH.
    + rewrite bind_run.
      destruct (bind_parameter _ _ _ _ _ p) as [[[] p1]|] eqn:E; [|done].
      unfold mret at 1, M_ret at 1. intros Hrest. apply IH in Hrest.
      rewrite Hrest.
      apply bind_parameter_values in E as [-> | [v ->]]; [done|].
      by rewrite lookup_insert_ne.
Qed.

(** What [lb_mem_copy_non_overlapping dst src len], not volatile, emits
    from the LLVM side [b] to [b']: the two pointers are brought to
    [rawptr] and the length to [int], and the [llvm.memcpy] intrinsic (its
    inline form for a small constant length) is called on destination,
    source, length and the volatile flag 0. *)
Definition copied (dst src len : lbValue) (b b' : S) : Prop :=
  ∃ d b1 s b2 l b3 ip b4 r,
    lb_emit_conv dst t_rawptr b = Some (d, b1)
    ∧ lb_emit_conv src t_rawptr b1 = Some (s, b2)
    ∧ lb_emit_conv len t_int b2 = Some (l, b3)
    ∧ let name := if LLVMIsConstant b3 (value l)
                     && (LLVMConstIntGetSExtValue b3 (value l) <=? 4 * int_size)
                  then "llvm.memcpy.inline" else "llvm.memcpy" in
      let id := LLVMLookupIntrinsicID name in
      let types := [lb_type t_rawptr; lb_type t_rawptr; lb_type t_int] in
      LLVMGetIntrinsicDeclaration id types b3 = Some (ip, b4)
      ∧ LLVMBuildCall2 (LLVMIntrinsicGetType id types) ip
          [value d; value s; value l; LLVMConstInt LLVMInt1TypeInContext 0 false] b4
        = Some (r, b').

Lemma lb_mem_copy_non_overlapping_inv dst src len (p p' : lbProcedure S) :
  lb_mem_copy_non_overlapping dst src len false p = Some (tt, p') →
  ∃ b', copied dst src len (builder p) b' ∧ p' = set_builder b' p.
Proof.
  unfold lb_mem_copy_non_overlapping. intros Hrun.
  rewrite bind_run, ext_run in Hrun.
  destruct (lb_emit_conv dst _ _) as [[d b1]|] eqn:E1; [|done].
  rewrite bind_run, ext_run in Hrun. cbn [builder set_builder] in Hrun.
  destruct (lb_emit_conv src _ _) as [[s b2]|] eqn:E2; [|done].
  rewrite bind_run, ext_run in Hrun. cbn [builder set_builder] in Hrun.
  destruct (lb_emit_conv len _ _) as [[l b3]|] eqn:E3; [|done].
  rewrite !ask_bind in Hrun. cbn [builder set_builder] in Hrun.
  rewrite bind_run in Hrun. unfold lb_call_intrinsic in Hrun.
  rewrite assert_bind in Hrun.
  match type of Hrun with
  | context [if negb ?c then _ else None] => destruct (negb c); [|done]
  end.
  rewrite bind_run, ext_run in Hrun. cbn [builder set_builder] in Hrun.
  destruct (LLVMGetIntrinsicDeclaration _ _ _) as [[ip b4]|] eqn:E4; [|done].
  rewrite ext_run in Hrun. cbn [builder set_builder] in Hrun.
  destruct (LLVMBuildCall2 _ _ _ _) as [[r b5]|] eqn:E5; [|done].
  injection Hrun as <-. exists b5. split; [|by destruct p].
  exists d, b1, s, b2, l, b3, ip, b4, r. cbv zeta. done.
Qed.

(** A named parameter classified [Indirect] whose pointee is copied. *)
Lemma bind_parameter_copies ft param_offset param_index e arg_type
    (p p' : lbProcedure S) :
  0 ≤ param_index →
  ft_args ft !! Z.to_nat param_index = Some arg_type →
  arg_kind arg_type = lbArg_Indirect →
  e_token e ≠ "" → e_token e ≠ "_" →
  let sz := type_size_of (e_type e) in
  let incoming := {| value := LLVMGetParam (p_value p) (param_offset + param_index);
                     type := alloc_type_pointer (e_type e) |} in
  sz ≤ 16 ∨ internal_by_value = true →
  bind_parameter ft true param_offset param_index e p = Some (tt, p') →
  ∃ new_ptr b1 b2 b3,
    new_local (e_type e) false false (builder p) = Some (new_ptr, b1)
    ∧ copied new_ptr incoming (lb_const_int t_uint sz) b1 b2
    ∧ lb_add_debug_param_variable (value new_ptr) e (param_index + 1) b2 = Some (tt, b3)
    ∧ p' = set_values (<[e_id e := new_ptr]> (values p)) (set_builder b3 p).
Proof.
  intros Hidx Harg Hkind Hne Hnb sz incoming Hcopy Hrun.
  rewrite (bind_parameter_indirect ft true param_offset param_index e arg_type p)
    in Hrun by done.
  cbv zeta in Hrun. fold sz incoming in Hrun. cbn [andb] in Hrun.
  assert (Hc : internal_by_value || (sz <=? 16) = true).
  { destruct Hcopy as [Hsz | ->]; [|done].
    apply orb_true_iff. right. by apply Z.leb_le. }
  rewrite Hc in Hrun. rewrite bind_run in Hrun.
  destruct (lb_add_local_generated _ _ _) as [[new_ptr p1]|] eqn:E1; [|done].
  apply lb_add_local_generated_inv in E1 as (b1 & Hnew & ->).
  rewrite bind_run in Hrun.
  destruct (lb_mem_copy_non_overlapping _ _ _ _ _) as [[[] p2]|] eqn:E2; [|done].
  apply lb_mem_copy_non_overlapping_inv in E2 as (b2 & Hcopied & ->).
  cbn [builder set_builder] in Hcopied.
  unfold bound_to, lb_add_entity in Hrun. rewrite modify_bind, ext_run in Hrun.
  cbn [builder set_builder set_values] in Hrun.
  destruct (lb_add_debug_param_variable _ _ _ _) as [[[] b3]|] eqn:E3; [|done].
  injection Hrun as <-.
  exists (addr new_ptr), b1, b2, b3. repeat (split; [done|]). by destruct p.
Qed.

(** A named parameter classified [Indirect] whose pointee is not copied. *)
Lemma bind_parameter_keeps_pointer ft is_odin_cc param_offset param_index e arg_type
    (p p' : lbProcedure S) :
  0 ≤ param_index →
  ft_args ft !! Z.to_nat param_index = Some arg_type →
  arg_kind arg_type = lbArg_Indirect →
  e_token e ≠ "" → e_token e ≠ "_" →
  let sz := type_size_of (e_type e) in
  let incoming := {| value := LLVMGetParam (p_value p) (param_offset + param_index);
                     type := alloc_type_pointer (e_type e) |} in
  is_odin_cc = false ∨ (16 < sz ∧ internal_by_value = false) →
  bind_parameter ft is_odin_cc param_offset param_index e p = Some (tt, p') →
  ∃ b1,
    lb_add_debug_param_variable (value incoming) e (param_index + 1) (builder p)
    = Some (tt, b1)
    ∧ p' = set_values (<[e_id e := incoming]> (values p)) (set_builder b1 p).
Proof.
  intros Hidx Harg Hkind Hne Hnb sz incoming Hkeep Hrun.
  rewrite (bind_parameter_indirect ft is_odin_cc param_offset param_index e arg_type p)
    in Hrun by done.
  cbv zeta in Hrun. fold sz incoming in Hrun.
  assert (Hc : is_odin_cc && (internal_by_value || (sz <=? 16)) = false).
  { destruct Hkeep as [-> | [Hsz ->]]; [done|].
    cbn. apply andb_false_iff. right. apply Z.leb_gt. lia. }
  rewrite Hc in Hrun.
  unfold bound_to, lb_add_entity in Hrun. rewrite modify_bind, ext_run in Hrun.
  cbn [builder set_builder set_values] in Hrun.
  destruct (lb_add_debug_param_variable _ _ _ _) as [[[] b1]|] eqn:E3; [|done].
  injection Hrun as <-. exists b1. split; [done|]. by destruct p.
Qed.

(** The loop over the named results, cut at the turn of the result [e]. *)
Lemma bind_named_results_at ft param_offset results (i : nat) e (p2 p3 : lbProcedure S) :
  results !! i = Some e →
  bind_named_results ft param_offset results p2 = Some (tt, p3) →
  let turn := λ i e, bind_named_result ft param_offset results i e;; mret (i + 1) in
  ∃ q q' n,
    foldM turn 0 (take i results) p2 = Some (Z.of_nat i, q)
    ∧ bind_named_result ft param_offset results (Z.of_nat i) e q = Some (tt, q')
    ∧ foldM turn (Z.of_nat i + 1) (drop (Datatypes.S i) results) q' = Some (n, p3).
Proof.
  intros He Hrun turn. unfold bind_named_results in Hrun. fold turn in Hrun.
  rewrite bind_run in Hrun.
  destruct (foldM turn 0 results p2) as [[n q3]|] eqn:E; [|done].
  injection Hrun as <-.
  assert (Hidx : ∀ l k p q m, foldM turn k l p = Some (m, q) → m = k + Z.of_nat (length l)).
  { induction l as [|x l IH]; intros k p q m.
    - intros [= <- <-]. cbn. lia.
    - rewrite foldM_cons. unfold turn at 1. rewrite bind_run.
      destruct (bind_named_result _ _ _ _ _ p) as [[[] p1]|]; [|done].
      unfold mret at 1, M_ret at 1. intros Hrest. apply IH in Hrest.
      cbn [length]. lia. }
  rewrite <- (take_drop_middle _ _ _ He) in E.
  rewrite foldM_app in E.
  destruct (foldM turn 0 (take i results) p2) as [[k q]|] eqn:Epre; [|done].
  pose proof (Hidx _ _ _ _ _ Epre) as Hk.
  rewrite length_take_le in Hk by (apply lookup_lt_Some in He; lia).
  rewrite Z.add_0_l in Hk. subst k.
  rewrite foldM_cons in E. unfold turn at 1 in E. rewrite bind_run in E.
  destruct (bind_named_result _ _ _ _ _ q) as [[[] q']|] eqn:Eturn; [|done].
  unfold mret at 1, M_ret at 1 in E.
  by exists q, q', n.
Qed.

(** The turn of a named result: the shortcut is tried where the procedure
    never uses [defer] and binds nothing, a new zero-initialised local is
    allocated and bound to the result, and the default value of the result
    is stored to it. *)
Lemma bind_named_result_inv ft param_offset results i e (q q' : lbProcedure S) :
  e_token e ≠ "" →
  bind_named_result ft param_offset results i e q = Some (tt, q') →
  ∃ q1 local b,
    (if defer_never_used q
     then return_storage_ptr ft param_offset results i e;; mret tt
     else mret tt) q = Some (tt, q1)
    ∧ same_tables q q1
    ∧ new_local (e_type e) true false (builder q1) = Some (local, b)
    ∧ store_result_default e (lb_addr local)
        (set_values (<[e_id e := local]> (values q1)) (set_builder b q1))
      = Some (tt, q').
Proof.
  intros Hne Hrun.
  rewrite bind_named_result_fallback in Hrun by done.
  rewrite assert_bind in Hrun.
  match type of Hrun with (if ?c then _ else None) = _ => destruct c; [|done] end.
  rewrite assert_bind in Hrun.
  match type of Hrun with (if ?c then _ else None) = _ => destruct c; [|done] end.
  rewrite bind_run in Hrun.
  match type of Hrun with
  | match ?m q with _ => _ end = _ => destruct (m q) as [[[] q1]|] eqn:E1; [|done]
  end.
  assert (Hsame : same_tables q q1).
  { revert E1. destruct (defer_never_used q).
    - rewrite bind_run.
      destruct (return_storage_ptr _ _ _ _ _ q) as [[ptr q0]|] eqn:F; [|done].
      apply return_storage_ptr_null in F as [_ F]. by intros [= <-].
    - intros [= <-]. apply same_tables_refl. }
  rewrite bind_run in Hrun.
  destruct (lb_add_local _ _ _ _ q1) as [[res q2]|] eqn:E2; [|done].
  unfold lb_add_local in E2. rewrite bind_run, ext_run in E2.
  destruct (new_local _ _ _ _) as [[local b]|] eqn:Hnew; [|done].
  unfold lb_add_entity in E2. rewrite modify_bind in E2.
  injection E2 as <- <-.
  exists q1, local, b. split; [done|]. split; [done|]. split; [done|].
  rewrite <- Hrun. by destruct q1.
Qed.

(** The store of a default value keeps the values of the entities, when
    the evaluation of the default value does. *)
Lemma store_result_default_values e res (q q' : lbProcedure S) :
  (∀ p v p', lb_handle_param_value e nullptr p = Some (v, p') → values p' = values p) →
  store_result_default e res q = Some (tt, q') →
  values q' = values q.
Proof.
  intros Hpv. unfold store_result_default. destruct (negb _).
  - rewrite assert_bind.
    match goal with |- (if ?c then _ else None) = _ → _ => destruct c; [|done] end.
    rewrite assert_bind.
    match goal with |- (if ?c then _ else None) = _ → _ => destruct c; [|done] end.
    rewrite bind_run.
    destruct (lb_handle_param_value e nullptr q) as [[c q1]|] eqn:E; [|done].
    apply Hpv in E. intros Hstore.
    apply ext_same_tables, same_tables_values in Hstore. congruence.
  - by intros [= <-].
Qed.

(** The rest of the loop over the named results keeps the binding of an
    entity none of the remaining results shares its identity with. *)
Lemma named_results_keep ft param_offset results (l : list Entity) k
    (p q : lbProcedure S) n id :
  Forall (λ r, e_id r ≠ id
               ∧ ∀ p v p', lb_handle_param_value r nullptr p = Some (v, p') →
                           values p' = values p) l →
  foldM (λ i e, bind_named_result ft param_offset results i e;; mret (i + 1)) k l p
  = Some (n, q) →
  values q !! id = values p !! id.
Proof.
  intros Hall. revert k p.
  induction Hall as [|r l [Hne Hpv] _ IH]; intros k p.
  - by intros [= <- <-].
  - rewrite foldM_cons, bind_run.
    destruct (bind_named_result _ _ _ _ _ p) as [[[] p1]|] eqn:E; [|done].
    unfold mret at 1, M_ret at 1. intros Hrest. apply IH in Hrest.
    rewrite Hrest. clear Hrest.
    destruct (decide (e_token r = "")) as [Hname|Hname].
    + unfold bind_named_result in E. rewrite assert_bind in E.
      match type of E with (if ?c then _ else None) = _ => destruct c; [|done] end.
      rewrite bool_decide_true in E by done. by injection E as <-.
    + apply bind_named_result_inv in E as (q1 & local & b & _ & Hs & _ & Hstore);
        [|done].
      apply store_result_default_values in Hstore; [|done].
      rewrite Hstore. cbn. rewrite lookup_insert_ne by done.
      by rewrite (same_tables_values _ _ Hs).
Qed.

Lemma variable_params_nonneg (l : list Entity) : 0 ≤ variable_params l.
Proof. induction l as [|e l IH]; cbn; [done|]. case_bool_decide; lia. Qed.

(** After the parameters, the entry keeps the binding of an entity none of
    the named results shares its identity with. *)
Lemma after_parameters_keeps ft param_offset (proc : TypeProc) (p2 p3 p' : lbProcedure S) id :
  (has_named_results proc = true →
   ∀ r, r ∈ results proc →
     e_id r ≠ id
     ∧ ∀ p v p', lb_handle_param_value r nullptr p = Some (v, p') →
                 values p' = values p) →
  (if has_named_results proc then
     GB_ASSERT (0 <? result_count proc);;
     bind_named_results ft param_offset (results proc)
   else mret tt) p2 = Some (tt, p3) →
  ext lb_leave_body_entry p3 = Some (tt, p') →
  values p' !! id = values p2 !! id.
Proof.
  intros Hres Hresults Hleave.
  apply ext_same_tables, same_tables_values in Hleave. rewrite Hleave.
  destruct (has_named_results proc); [|by injection Hresults as <-].
  rewrite assert_bind in Hresults.
  match type of Hresults with (if ?c then _ else None) = _ => destruct c; [|done] end.
  unfold bind_named_results in Hresults. rewrite bind_run in Hresults.
  destruct (foldM _ _ _ p2) as [[n q]|] eqn:E; [|done].
  injection Hresults as <-.
  apply named_results_keep with (id := id) in E; [done|].
  apply Forall_forall. intros r Hr. by apply Hres.
Qed.

End facts.
End EntryChainFacts.

(** C10.  The entry of the body of a procedure with named results,
    followed state by state from the procedure [p] it is given to the turn
    of a named result [e] (a result whose name is not empty) in the loop
    over the results, and on to the end.  At that turn the pointer that the
    return pointer shortcut tests before it binds is null whatever the
    shortcut has computed, so the shortcut, where the procedure never uses
    [defer], changes no binding; a new zero-initialised local is then
    allocated on the LLVM side the shortcut left, the result is bound to
    it, and the default value of the result, if it has one, is stored to
    it.  The local is no parameter of any function; in particular it is not
    the return pointer, which is native parameter 0 when the return is
    classified [Indirect].  When no other result shares the entity's
    identity and evaluating a default value binds no entity, the local is
    what the body finds under the result when the entry returns. *)
Theorem named_result_bound_to_zeroed_local
    {S : Type} `{Proc.Backend S} `{!Proc.BackendLaws S}
    (p p' : Proc.lbProcedure S) (i : nat) (e : Core.Entity) :
  let ft := Proc.abi_function_type p in
  let results := Core.results (Proc.p_proc p) in
  Core.has_named_results (Proc.p_proc p) = true →
  results !! i = Some e →
  Core.e_token e ≠ "" →
  Body.lb_begin_procedure_body p = Some (tt, p') →
  ∃ b0 param_offset p1 p2 q q1 local b q' n p3,
    let turn := λ i e, Body.bind_named_result ft param_offset results i e;;
                       mret (i + 1) in
    Proc.lb_enter_body (Proc.builder p) = Some (tt, b0)
    ∧ (if bool_decide (Core.arg_kind (Core.ft_ret ft) = Core.lbArg_Indirect)
       then Body.bind_return_ptr ft else mret 0)
        (Proc.set_direct_parameters ∅ (Proc.set_builder b0 p))
      = Some (param_offset, p1)
    ∧ Body.bind_parameters ft param_offset (Core.params (Proc.p_proc p)) p1
      = Some (tt, p2)
    ∧ Core.foldM turn 0 (take i results) p2 = Some (Z.of_nat i, q)
    ∧ (∀ ptr q0,
         Body.return_storage_ptr ft param_offset results (Z.of_nat i) e q = Some (ptr, q0) →
         Core.value ptr = Core.nullptr ∧ Proc.values q0 = Proc.values q)
    ∧ (if NamedResultFacts.defer_never_used q
       then Body.return_storage_ptr ft param_offset results (Z.of_nat i) e;; mret tt
       else mret tt) q = Some (tt, q1)
    ∧ Proc.values q1 = Proc.values q
    ∧ Proc.new_local (Core.e_type e) true false (Proc.builder q1) = Some (local, b)
    ∧ (∀ fn k, Core.value local ≠ Proc.LLVMGetParam fn k)
    ∧ (Core.arg_kind (Core.ft_ret ft) = Core.lbArg_Indirect →
       Core.value (Core.addr (Proc.return_ptr p1)) = Proc.LLVMGetParam (Proc.p_value p) 0
       ∧ Core.value local ≠ Core.value (Core.addr (Proc.return_ptr p1)))
    ∧ Body.store_result_default e (Core.lb_addr local)
        (Proc.set_values (<[Core.e_id e := local]> (Proc.values q1))
           (Proc.set_builder b q1)) = Some (tt, q')
    ∧ Core.foldM turn (Z.of_nat i + 1) (drop (Datatypes.S i) results) q' = Some (n, p3)
    ∧ Proc.ext Proc.lb_leave_body_entry p3 = Some (tt, p')
    ∧ ((∀ i' r, i' ≠ i → results !! i' = Some r → Core.e_id r ≠ Core.e_id e) →
       (∀ r q v q', r ∈ results →
          Proc.lb_handle_param_value r Core.nullptr q = Some (v, q') →
          Proc.values q' = Proc.values q) →
       Proc.values p' !! Core.e_id e = Some local).
Proof.
  intros ft results Hnamed He Hne Hrun.
  apply EntryChainFacts.lb_begin_procedure_body_inv in Hrun.
  cbv zeta in Hrun. fold ft in Hrun. fold results in Hrun.
  destruct Hrun as (b0 & off & p1 & p2 & p3 & Henter & Hret & Hparams & Hresults & Hleave).
  rewrite Hnamed in Hresults. rewrite ProcFacts.assert_bind in Hresults.
  match type of Hresults with (if ?c then _ else None) = _ => destruct c; [|done] end.
  apply (EntryChainFacts.bind_named_results_at _ _ _ i e) in Hresults; [|done].
  cbv zeta in Hresults.
  destruct Hresults as (q & q' & n & Hpre & Hturn & Hpost).
  pose proof Hturn as Hinv.
  apply EntryChainFacts.bind_named_result_inv in Hinv
    as (q1 & local & b & Hprobe & Hsame & Hnew & Hstore); [|done].
  exists b0, off, p1, p2, q, q1, local, b, q', n, p3. cbv zeta.
  do 4 (split; [done|]).
  split.
  { intros ptr q0 Hptr.
    apply NamedResultFacts.return_storage_ptr_null in Hptr as [-> Hs].
    split; [done|]. by apply ProcFacts.same_tables_values. }
  split; [done|].
  split; [by apply ProcFacts.same_tables_values|].
  split; [done|].
  split; [intros fn k; by eapply Proc.new_local_not_param|].
  split.
  { intros Hind. rewrite bool_decide_true in Hret by done.
    apply EntryMoreFacts.bind_return_ptr_inv in Hret as (_ & _ & t & -> & _).
    cbn. split; [done|]. by eapply Proc.new_local_not_param. }
  do 3 (split; [done|]).
  intros Hids Hpv.
  apply ProcFacts.ext_same_tables, ProcFacts.same_tables_values in Hleave.
  rewrite Hleave.
  apply EntryChainFacts.named_results_keep with (id := Core.e_id e) in Hpost.
  2: { apply Forall_forall. intros r Hr.
       apply list_elem_of_lookup in Hr as [k Hk].
       rewrite lookup_drop in Hk.
       split.
       - eapply (Hids (Datatypes.S i + k)%nat); [lia|done].
       - intros x v x'. apply Hpv. by eapply list_elem_of_lookup_2. }
  rewrite Hpost.
  apply EntryChainFacts.store_result_default_values in Hstore.
  2: { intros x v x'. apply Hpv. by eapply list_elem_of_lookup_2. }
  rewrite Hstore. cbn. by rewrite lookup_insert_eq.
Qed.

(** C5, as amended.  The entry of the body of a procedure whose classified
    signature has an Odin calling convention, followed state by state from
    the procedure [p] it is given to the turn of a parameter [e] that is a
    variable with a name (neither empty nor the blank identifier) and is
    classified [Indirect]; the classification is the one at the number of
    variables before the parameter.  When the size of the parameter's type
    is at most 16 bytes, or the build's by-value override is set: a new
    local of the type is allocated on the LLVM side the earlier parameters
    left, [llvm.memcpy] is called with the new local as destination, the
    incoming native parameter as source and the size as length, and the
    parameter is bound to the new local, which is not the incoming pointer
    and no parameter of any function.  When the size is above 16 bytes and
    the override is not set nothing is emitted but the debug record, and
    the parameter is bound to the incoming pointer itself.  In both cases,
    when no later parameter and no named result shares the entity's
    identity and evaluating a result's default value binds no entity, that
    binding is what the body finds under the parameter when the entry
    returns.  In the first case every access through the parameter's name
    goes to the new local, a stack slot of the callee, and the incoming
    pointer is only read, as the source of the copy: a write through the
    parameter in the body does not reach the caller's storage. *)
Theorem indirect_parameter_callee_copy
    {S : Type} `{Proc.Backend S} `{!Proc.BackendLaws S}
    (p p' : Proc.lbProcedure S) (j : nat) (e : Core.Entity) (arg_type : Core.lbArgType) :
  let ft := Proc.abi_function_type p in
  let variables := Core.params (Proc.p_proc p) in
  let param_index := Call.variable_params (take j variables) in
  let sz := Proc.type_size_of (Core.e_type e) in
  Proc.is_calling_convention_odin (Core.ft_calling_convention ft) = true →
  variables !! j = Some e →
  Core.e_kind e = Core.Entity_Variable →
  Core.e_token e ≠ "" → Core.e_token e ≠ "_" →
  Core.ft_args ft !! Z.to_nat param_index = Some arg_type →
  Core.arg_kind arg_type = Core.lbArg_Indirect →
  Body.lb_begin_procedure_body p = Some (tt, p') →
  ∃ b0 param_offset p1 q q',
    let incoming :=
      {| Core.value := Proc.LLVMGetParam (Proc.p_value p) (param_offset + param_index);
         Core.type := Proc.alloc_type_pointer (Core.e_type e) |} in
    let seen_by_the_body (ptr : Core.lbValue) :=
      (∀ j' e', (j < j')%nat → variables !! j' = Some e' → Core.e_id e' ≠ Core.e_id e) →
      (Core.has_named_results (Proc.p_proc p) = true →
       ∀ r, r ∈ Core.results (Proc.p_proc p) →
         Core.e_id r ≠ Core.e_id e
         ∧ ∀ x v x', Proc.lb_handle_param_value r Core.nullptr x = Some (v, x') →
                     Proc.values x' = Proc.values x) →
      Proc.values p' !! Core.e_id e = Some ptr in
    Proc.lb_enter_body (Proc.builder p) = Some (tt, b0)
    ∧ (if bool_decide (Core.arg_kind (Core.ft_ret ft) = Core.lbArg_Indirect)
       then Body.bind_return_ptr ft else mret 0)
        (Proc.set_direct_parameters ∅ (Proc.set_builder b0 p))
      = Some (param_offset, p1)
    ∧ Body.bind_parameters ft param_offset (take j variables) p1 = Some (tt, q)
    ∧ Body.bind_parameters ft param_offset (take (Datatypes.S j) variables) p1
      = Some (tt, q')
    ∧ (sz ≤ 16 ∨ Proc.internal_by_value = true →
       ∃ new_ptr b1 b2 b3,
         Proc.new_local (Core.e_type e) false false (Proc.builder q) = Some (new_ptr, b1)
         ∧ EntryChainFacts.copied new_ptr incoming (Proc.lb_const_int Proc.t_uint sz) b1 b2
         ∧ Proc.lb_add_debug_param_variable (Core.value new_ptr) e (param_index + 1) b2
           = Some (tt, b3)
         ∧ q' = Proc.set_values (<[Core.e_id e := new_ptr]> (Proc.values q))
                  (Proc.set_builder b3 q)
         ∧ Core.value new_ptr ≠ Core.value incoming
         ∧ (∀ fn k, Core.value new_ptr ≠ Proc.LLVMGetParam fn k)
         ∧ seen_by_the_body new_ptr)
    ∧ (16 < sz → Proc.internal_by_value = false →
       ∃ b1,
         Proc.lb_add_debug_param_variable (Core.value incoming) e (param_index + 1)
           (Proc.builder q) = Some (tt, b1)
         ∧ q' = Proc.set_values (<[Core.e_id e := incoming]> (Proc.values q))
                  (Proc.set_builder b1 q)
         ∧ seen_by_the_body incoming).
Proof.
  intros ft variables param_index sz Hcc He Hvar Hne Hnb Harg Hkind Hrun.
  apply EntryChainFacts.lb_begin_procedure_body_inv in Hrun.
  cbv zeta in Hrun. fold ft variables in Hrun.
  destruct Hrun as (b0 & off & p1 & p2 & p3 & Henter & Hret & Hparams & Hresults & Hleave).
  apply (EntryChainFacts.bind_parameters_at _ _ _ j e) in Hparams; [|done..].
  cbv zeta in Hparams. fold param_index in Hparams. rewrite Hcc in Hparams.
  destruct Hparams as (q & q' & n & Hpre & Hturn & Hupto & Hpost).
  pose proof (EntryChainFacts.variable_params_nonneg (take j variables)) as Hidx.
  fold param_index in Hidx.
  assert (Hvalue : Proc.p_value q = Proc.p_value p).
  { apply EntryFacts.bind_parameters_keeps in Hpre as [Hq _].
    assert (Hp1 : Proc.p_value p1 = Proc.p_value p).
    { revert Hret. destruct (bool_decide _).
      - intros Hret.
        apply EntryMoreFacts.bind_return_ptr_inv in Hret as (_ & Hf & _).
        rewrite Hf. by destruct p.
      - by intros [= _ <-]. }
    rewrite Hq. by destruct p1. }
  assert (Hseen : ∀ ptr b,
    q' = Proc.set_values (<[Core.e_id e := ptr]> (Proc.values q)) (Proc.set_builder b q) →
    (∀ j' e', (j < j')%nat → variables !! j' = Some e' → Core.e_id e' ≠ Core.e_id e) →
    (Core.has_named_results (Proc.p_proc p) = true →
     ∀ r, r ∈ Core.results (Proc.p_proc p) →
       Core.e_id r ≠ Core.e_id e
       ∧ ∀ x v x', Proc.lb_handle_param_value r Core.nullptr x = Some (v, x') →
                   Proc.values x' = Proc.values x) →
    Proc.values p' !! Core.e_id e = Some ptr).
  { intros ptr b Hq' Hids Hres.
    rewrite (EntryChainFacts.after_parameters_keeps _ _ _ _ _ _ _ Hres Hresults Hleave).
    apply EntryChainFacts.parameters_from_keeps with (id := Core.e_id e) in Hpost.
    2: { apply Forall_forall. intros r Hr.
         apply list_elem_of_lookup in Hr as [k Hk]. rewrite lookup_drop in Hk.
         eapply (Hids (Datatypes.S j + k)%nat); [lia|done]. }
    rewrite Hpost, Hq'. cbn. by rewrite lookup_insert_eq. }
  exists b0, off, p1, q, q'. cbv zeta.
  do 4 (split; [done|]).
  split.
  - intros Hcopy.
    apply (EntryChainFacts.bind_parameter_copies ft off param_index e arg_type) in Hturn;
      [|done..].
    cbv zeta in Hturn. rewrite Hvalue in Hturn. fold sz in Hturn.
    destruct Hturn as (new_ptr & b1 & b2 & b3 & Hnew & Hcopied & Hdebug & Hq').
    exists new_ptr, b1, b2, b3.
    do 4 (split; [done|]).
    split; [by eapply Proc.new_local_not_param|].
    split; [intros fn k; by eapply Proc.new_local_not_param|].
    by apply (Hseen new_ptr b3).
  - intros Hsz Hov.
    apply (EntryChainFacts.bind_parameter_keeps_pointer ft true off param_index e arg_type)
      in Hturn; [|done..|by right].
    cbv zeta in Hturn. rewrite Hvalue in Hturn.
    destruct Hturn as (b1 & Hdebug & Hq').
    exists b1. do 2 (split; [done|]). by apply (Hseen _ b1).
Qed.

(** ** Call emitter: the steps of one call, state by state *)

Module CallChainFacts.
Import Core Proc Call ProcFacts CallFacts.

Section facts.
Context {S : Type} `{Backend S}.












End facts.
End CallChainFacts.


(** ** Call expressions: from the expression to the native call *)

Module CallExprChainFacts.
Import Core Proc Call CallExpr ProcFacts CallFacts.

Section facts.
Context {S : Type} `{Backend S}.






End facts.
End CallExprChainFacts.


(** ** Runs on the symbolic LLVM side *)

Module SymFacts.
Import Core Proc Sym.

(** A local of the symbolic side has an odd handle, a parameter an even
    one. *)
Global Instance sym_laws : BackendLaws state.
Proof.
  split. intros ty z f s v s' fn i [= <- _]. cbn. unfold handle. lia.
Qed.

End SymFacts.

(** Creating [h] a second time, in the module its first creation leaves,
    returns the same descriptor and adds no native callable. *)
Lemma create_procedure_idempotent_per_link_name_witness :
  ∃ m'',
    Create.lb_create_procedure Sym.entity_h false Sym.create_h.2
    = Some (Sym.create_h.1, m'')
    ∧ Create.added_functions m'' = ["h"].
Proof.
  destruct (create_procedure_idempotent_per_link_name
              Sym.entity_h false Sym.empty_module Sym.create_h.2 Sym.create_h.1)
    as (_ & (m'' & Hagain & Hadded & _) & _).
  - vm_compute. reflexivity.
  - exists m''. split; [exact Hagain|]. rewrite Hadded. reflexivity.
Defined.

(** The entry of [proc(x: int)] with the 8-byte [x] classified Indirect:
    what the body finds under [x] is a new local, not the incoming
    parameter. *)
Lemma indirect_parameter_callee_copy_witness :
  ∃ new_ptr,
    Proc.values Runs.entered_copy !! Core.e_id Sym.param_x = Some new_ptr
    ∧ Core.value new_ptr ≠ Proc.LLVMGetParam (Proc.p_value Runs.p_copy) 0.
Proof.
  destruct (indirect_parameter_callee_copy
              Runs.p_copy Runs.entered_copy 0 Sym.param_x (Sym.indirect 1))
    as (b0 & off & p1 & q & q' & Hall).
  - reflexivity.
  - reflexivity.
  - reflexivity.
  - discriminate.
  - discriminate.
  - reflexivity.
  - reflexivity.
  - vm_compute. reflexivity.
  - cbv zeta in Hall. destruct Hall as (_ & Hret & _ & _ & Hsmall & _).
    vm_compute in Hret. injection Hret as <- <-.
    destruct Hsmall as (new_ptr & b1 & b2 & b3 & _ & _ & _ & _ & Hne & _ & Hseen).
    + left. vm_compute. discriminate.
    + exists new_ptr. split; [|exact Hne].
      apply Hseen.
      * intros j' e' Hj Hlk. destruct j' as [|j']; [lia|]. discriminate Hlk.
      * intros Hres. discriminate Hres.
Defined.

(** C5 fails for a parameter without a name.  The procedure
    [proc(_: int)] has an Odin calling convention and its one parameter, a
    variable of 8 bytes, is classified Indirect; the entry of its body
    allocates nothing, copies nothing and binds nothing. *)
Lemma blank_indirect_parameter_is_not_copied :
  let p := Runs.p_blank in
  let ft := Proc.abi_function_type p in
  Proc.is_calling_convention_odin (Core.ft_calling_convention ft) = true
  ∧ Core.params (Proc.p_proc p) = [Runs.param_blank]
  ∧ Core.e_kind Runs.param_blank = Core.Entity_Variable
  ∧ Core.arg_kind <$> Core.ft_args ft !! 0%nat = Some Core.lbArg_Indirect
  ∧ Proc.type_size_of (Core.e_type Runs.param_blank) ≤ 16
  ∧ Body.lb_begin_procedure_body p = Some (tt, Runs.entered_blank)
  ∧ Proc.builder Runs.entered_blank = Proc.builder p
  ∧ Proc.values Runs.entered_blank = Proc.values p.
Proof.
  cbv zeta. do 4 (split; [reflexivity|]).
  split; [vm_compute; discriminate|].
  split; [vm_compute; reflexivity|].
  split; reflexivity.
Qed.

(** The entry of [proc(x: int) -> (a, b: int)], whose result is returned
    through a pointer and which never uses [defer]: what the body finds
    under [a] is a new local that is no parameter. *)
Lemma named_result_bound_to_zeroed_local_witness :
  ∃ local,
    Proc.values Runs.entered !! Core.e_id Sym.result_a = Some local
    ∧ ∀ fn k, Core.value local ≠ Proc.LLVMGetParam fn k.
Proof.
  destruct (named_result_bound_to_zeroed_local
              Runs.p_entry Runs.entered 0 Sym.result_a)
    as (b0 & off & p1 & p2 & q & q1 & local & b & q' & n & p3 & Hall).
  - reflexivity.
  - reflexivity.
  - discriminate.
  - vm_compute. reflexivity.
  - cbv zeta in Hall.
    destruct Hall as (_ & _ & _ & _ & _ & _ & _ & _ & Hfresh & _ & _ & _ & _ & Hfinal).
    exists local. split; [|exact Hfresh].
    apply Hfinal.
    + intros i' r Hi Hr. destruct i' as [|[|i']]; [lia| |discriminate Hr].
      injection Hr as <-. discriminate.
    + intros r x v x' _ [= _ <-]. reflexivity.
Defined.


(** The call [f(x)] with [x] loaded from the local 1: the Deferred Call
    Entry holds the address 1 and nothing is emitted for it. *)
Lemma deferred_in_by_ptr_registers_addresses_witness :
  ∃ deferred,
    Proc.defer_stmts Sym.attach_to_loaded
    = [{| Proc.defer_scope_index := 0;
          Proc.defer_proc := deferred;
          Proc.defer_args := [{| Core.value := 1; Core.type := 101 |}] |}]
    ∧ Proc.builder Sym.attach_to_loaded = Proc.builder Sym.p0.
Proof.
  destruct (deferred_in_by_ptr_registers_addresses
              Sym.callee_deferred [Sym.loaded_x] Core.lbValue_zero
              Sym.callee_f Sym.p0 Sym.attach_to_loaded)
    as (deferred & b & ptrs & q' & Hfind & Haddr & _ & Hstmts & Hbuilder).
  - reflexivity.
  - reflexivity.
  - reflexivity.
  - vm_compute. reflexivity.
  - injection Hfind as <- <-.
    inversion Haddr as [|arg ptr args' ptrs' q q1 q2 Hfirst Hrest]; subst.
    inversion Hrest; subst.
    destruct Hfirst as [-> ->].
    exists {| Core.value := 10602; Core.type := 12 |}.
    split; [exact Hstmts | exact Hbuilder].
Defined.


(** C4 fails as stated.  In the call [f(7)] of a procedure [f] with an
    in-by-pointer deferred companion the argument value is a constant, not
    a load: the pointer registered for the Deferred Call Entry is a local
    that did not exist before the call and that the call's lowering
    allocates and stores the argument to, a new copy. *)
Lemma deferred_in_by_ptr_copies_value_that_is_not_a_load :
  ∃ result p' slot,
    Call.lb_emit_call Sym.callee_deferred [Sym.constant_7] Core.ProcInlining_none Sym.p0
    = Some (result, p')
    ∧ Proc.LLVMIsALoadInst (Proc.builder Sym.p0) (Core.value Sym.constant_7) = false
    ∧ Proc.defer_args <$> last (Proc.defer_stmts p') = Some [slot]
    ∧ Sym.instr_at (Proc.builder Sym.p0) (Core.value slot) = None
    ∧ Sym.instr_at (Proc.builder p') (Core.value slot) = Some (Sym.Alloca 1 false)
    ∧ Sym.Store (Core.value slot) (Core.value Sym.constant_7) ∈ Proc.builder p'.
Proof.
  eexists _, _, _. split; [vm_compute; reflexivity|].
  split; [reflexivity|]. split; [reflexivity|].
  split; [reflexivity|]. split; [reflexivity|].
  apply list_elem_of_lookup. exists 5%nat. reflexivity.
Qed.

(** ** The theorems on concrete inputs *)

Module ExampleFacts.

(** The truncating remainder is a remainder of either sign. *)
Lemma rem_is_remainder (c a : Z) :
  0 < c → - c < Z.rem a c < c ∧ Z.rem a c mod c = a mod c.
Proof.
  intros Hc. split.
  - destruct (Z.le_gt_cases 0 a) as [Ha|Ha].
    + pose proof (Z.rem_bound_pos a c Ha Hc). lia.
    + pose proof (Z.rem_bound_pos_neg a c Hc). lia.
  - rewrite (Z.quot_rem' a c) at 2.
    rewrite Z.add_comm, Z.mul_comm, Z.mod_add by lia. done.
Qed.

End ExampleFacts.

(** Three lanes reversed, and reversed again. *)
Lemma lanes_reverse_reverses_witness :
  Lanes.eval [IR.Vec [IR.Int 8 1; IR.Int 8 2; IR.Int 8 3]] (Lanes.simd_lanes_reverse 3)
  = Some (IR.Vec [IR.Int 8 3; IR.Int 8 2; IR.Int 8 1])
  ∧ Lanes.eval [IR.Vec [IR.Int 8 3; IR.Int 8 2; IR.Int 8 1]] (Lanes.simd_lanes_reverse 3)
    = Some (IR.Vec [IR.Int 8 1; IR.Int 8 2; IR.Int 8 3]).
Proof.
  apply (lanes_reverse_reverses [IR.Int 8 1; IR.Int 8 2; IR.Int 8 3]). cbn. lia.
Defined.

(** Four lanes rotated by one place to the left, by one place to the
    right, and back. *)
Lemma lanes_rotate_left_and_right_witness :
  let rotate builtin_id :=
    Lanes.simd_lanes_rotate Runs.is_power_of_two_by_bits Z.rem builtin_id 4 1 in
  let xs := [IR.Int 8 10; IR.Int 8 11; IR.Int 8 12; IR.Int 8 13] in
  rotate Lanes.BuiltinProc_simd_lanes_rotate_left ≫= Lanes.eval [IR.Vec xs]
  = Some (IR.Vec [IR.Int 8 11; IR.Int 8 12; IR.Int 8 13; IR.Int 8 10])
  ∧ rotate Lanes.BuiltinProc_simd_lanes_rotate_right ≫= Lanes.eval [IR.Vec xs]
    = Some (IR.Vec [IR.Int 8 13; IR.Int 8 10; IR.Int 8 11; IR.Int 8 12])
  ∧ rotate Lanes.BuiltinProc_simd_lanes_rotate_right
      ≫= Lanes.eval [IR.Vec [IR.Int 8 11; IR.Int 8 12; IR.Int 8 13; IR.Int 8 10]]
    = Some (IR.Vec xs).
Proof.
  apply (lanes_rotate_left_and_right Runs.is_power_of_two_by_bits Z.rem 2 1
           [IR.Int 8 10; IR.Int 8 11; IR.Int 8 12; IR.Int 8 13]).
  - lia.
  - reflexivity.
  - reflexivity.
  - intros a. apply ExampleFacts.rem_is_remainder. lia.
Defined.

(** Two lanes of [i8]: 200 is -56 as a signed lane, below 100. *)
Lemma simd_min_max_by_element_order_witness :
  let xs := [1; 200] in
  let ys := [2; 100] in
  let rd := LanesFacts.reading true 8 in
  ∃ mins maxs,
    Lanes.simd_min_max Lanes.BuiltinProc_simd_min false true
      ≫= Lanes.eval [IR.ints 8 xs; IR.ints 8 ys] = Some (IR.ints 8 mins)
    ∧ Lanes.simd_min_max Lanes.BuiltinProc_simd_max false true
      ≫= Lanes.eval [IR.ints 8 xs; IR.ints 8 ys] = Some (IR.ints 8 maxs)
    ∧ length mins = 2%nat ∧ length maxs = 2%nat
    ∧ ∀ i x y, xs !! i = Some x → ys !! i = Some y →
        ∃ lo hi, mins !! i = Some lo ∧ maxs !! i = Some hi
                 ∧ rd lo = Z.min (rd x) (rd y) ∧ rd hi = Z.max (rd x) (rd y)
                 ∧ (lo = x ∨ lo = y) ∧ (hi = x ∨ hi = y).
Proof.
  apply (simd_min_max_by_element_order true 8 [1; 200] [2; 100]). reflexivity.
Defined.

(** Three lanes of [i8]: 3, -3 and -128. *)
Lemma simd_abs_of_signed_lanes_witness :
  Lanes.eval [IR.ints 8 [3; 253; 128]] (Lanes.simd_abs false true)
  = Some (IR.ints 8 [3; 3; 128]).
Proof.
  apply (simd_abs_of_signed_lanes 8 [3; 253; 128]).
  - lia.
  - repeat constructor; lia.
Defined.

(** Two lanes of [u8] clamped to between 10 and 20. *)
Lemma simd_clamp_within_bounds_witness :
  let xs := [5; 50] in
  let los := [10; 10] in
  let his := [20; 20] in
  let rd := LanesFacts.reading false 8 in
  ∃ rs,
    Lanes.eval [IR.ints 8 xs; IR.ints 8 los; IR.ints 8 his] (Lanes.simd_clamp false false)
    = Some (IR.ints 8 rs)
    ∧ length rs = 2%nat
    ∧ ∀ i x lo hi, xs !! i = Some x → los !! i = Some lo → his !! i = Some hi →
        ∃ r, rs !! i = Some r
             ∧ rd r = Z.min (rd hi) (Z.max (rd lo) (rd x))
             ∧ (r = x ∨ r = lo ∨ r = hi)
             ∧ (rd lo ≤ rd hi → rd lo ≤ rd r ≤ rd hi).
Proof.
  apply (simd_clamp_within_bounds false 8 [5; 50] [10; 10] [20; 20]); reflexivity.
Defined.

(** Two lanes of [i8] compared: 1 with 2, and -56 with 100. *)
Lemma simd_lanes_compare_gives_masks_witness :
  let xs := [1; 200] in
  let ys := [2; 100] in
  let rd := LanesFacts.reading true 8 in
  let mask (holds : Z → Z → bool) :=
    zip_with (λ x y, if holds (rd x) (rd y) then 2 ^ 8 - 1 else 0) xs ys in
  Forall (λ c : Lanes.SimdProcId * (Z → Z → bool),
            Lanes.simd_lanes_compare c.1 false true 8
              ≫= Lanes.eval [IR.ints 8 xs; IR.ints 8 ys]
            = Some (IR.ints 8 (mask c.2)))
    [(Lanes.BuiltinProc_simd_lanes_eq, Z.eqb);
     (Lanes.BuiltinProc_simd_lanes_ne, λ a b, negb (a =? b));
     (Lanes.BuiltinProc_simd_lanes_lt, Z.ltb);
     (Lanes.BuiltinProc_simd_lanes_le, Z.leb);
     (Lanes.BuiltinProc_simd_lanes_gt, Z.gtb);
     (Lanes.BuiltinProc_simd_lanes_ge, Z.geb)].
Proof.
  apply (simd_lanes_compare_gives_masks true 8 8 [1; 200] [2; 100]).
  - lia.
  - reflexivity.
  - repeat constructor; lia.
  - repeat constructor; lia.
Defined.

(** Four lanes of [u8], with lane indices of 64 bits: 1 + 2 + 3 + 250 is
    256, which wraps to 0, and 1 * 2 * 3 * 250 is 1500, which wraps to
    220. *)
Lemma simd_reduce_bisect_combines_all_lanes_witness :
  Lanes.simd_reduce_bisect Lanes.BuiltinProc_simd_reduce_add_bisect false 64 4
    ≫= Lanes.eval [IR.ints 8 [1; 2; 3; 250]]
  = Some (IR.Sc (IR.Int 8 0))
  ∧ Lanes.simd_reduce_bisect Lanes.BuiltinProc_simd_reduce_mul_bisect false 64 4
      ≫= Lanes.eval [IR.ints 8 [1; 2; 3; 250]]
    = Some (IR.Sc (IR.Int 8 220)).
Proof.
  apply (simd_reduce_bisect_combines_all_lanes 8 64 2 [1; 2; 3; 250]).
  - lia.
  - lia.
  - reflexivity.
  - repeat constructor; lia.
Defined.

(** The same four lanes, reduced by pairs. *)
Lemma simd_reduce_pairs_combines_all_lanes_witness :
  Lanes.simd_reduce_pairs Lanes.BuiltinProc_simd_reduce_add_pairs false 64 4
    ≫= Lanes.eval [IR.ints 8 [1; 2; 3; 250]]
  = Some (IR.Sc (IR.Int 8 0))
  ∧ Lanes.simd_reduce_pairs Lanes.BuiltinProc_simd_reduce_mul_pairs false 64 4
      ≫= Lanes.eval [IR.ints 8 [1; 2; 3; 250]]
    = Some (IR.Sc (IR.Int 8 220))
  ∧ Lanes.simd_reduce_pairs Lanes.BuiltinProc_simd_reduce_add_pairs false 64 1 = None.
Proof.
  apply (simd_reduce_pairs_combines_all_lanes 8 64 2 [1; 2; 3; 250]).
  - lia.
  - lia.
  - reflexivity.
  - repeat constructor; lia.
Defined.

(** On [i8], 100 + 100 saturates to 127 and -100 - 100 (the bit pattern
    156 less 100) to -128 (the bit pattern 128). *)
Lemma saturating_is_the_exact_result_clamped_witness :
  ∃ s d,
    SaturatingFacts.run BuiltinProc_saturating_add false tt 8 100 100
    = Some (IR.Sc (IR.Int 8 s))
    ∧ SaturatingFacts.run BuiltinProc_saturating_sub false tt 8 156 100
      = Some (IR.Sc (IR.Int 8 d))
    ∧ s = 127 ∧ d = 128.
Proof.
  destruct (saturating_is_the_exact_result_clamped tt false 1 100 100)
    as (s & _ & Hs & _ & Hrange & _ & Hsum & _); [lia|lia|lia|].
  destruct (saturating_is_the_exact_result_clamped tt false 1 156 100)
    as (_ & d & _ & Hd & _ & Hrange' & _ & Hdiff); [lia|lia|lia|].
  exists s, d. split; [exact Hs|]. split; [exact Hd|].
  cbv zeta in Hsum, Hdiff.
  change (1 * 8) with 8 in *.
  change (IR.signed 8 100) with 100 in Hsum.
  change (IR.signed 8 156) with (-100) in Hdiff.
  change (IR.signed 8 100) with 100 in Hdiff.
  unfold IR.signed in Hsum, Hdiff.
  split.
  - destruct (s <? 2 ^ (8 - 1)) eqn:E; [apply Z.ltb_lt in E|apply Z.ltb_ge in E]; lia.
  - destruct (d <? 2 ^ (8 - 1)) eqn:E; [apply Z.ltb_lt in E|apply Z.ltb_ge in E]; lia.
Defined.

(** The body of a procedure without results is ended: the declaration
    block branches to the entry, the current block returns, and the empty
    block is made unreachable. *)
Lemma end_body_leaves_every_block_terminated_witness :
  EndBody.blocks Runs.ended_body
  = [[EndBody.Other 1; EndBody.Br 1]; [EndBody.Other 2; EndBody.RetVoid];
     [EndBody.Unreachable]; [EndBody.Other 3; EndBody.Br 1]]
  ∧ Forall (λ block, last block ≠ None ∧ Runs.terminating (last block) = true)
           (EndBody.blocks Runs.ended_body)
  ∧ EndBody.curr_block Runs.ended_body = None
  ∧ EndBody.state_flags Runs.ended_body = 0.
Proof.
  destruct (end_body_leaves_every_block_terminated Runs.terminating (mret tt)
              Runs.open_body Runs.ended_body)
    as (Hall & Hcurr & Hflags & _).
  - reflexivity.
  - vm_compute. reflexivity.
  - split; [reflexivity|]. split; [exact Hall|]. split; [exact Hcurr | exact Hflags].
Defined.

(** The first creation of [h]: its descriptor is in the procedure table
    under [h], and the member [h] is the value of the entity. *)
Lemma create_procedure_result_is_registered_witness :
  Create.procedures Sym.create_h.2 !! "h" = Sym.create_h.1
  ∧ ∃ v, Create.members Sym.create_h.2 !! "h" = Some v
         ∧ Create.values Sym.create_h.2 !! 310%N = Some v.
Proof.
  destruct (create_procedure_result_is_registered
              Sym.entity_h false Sym.empty_module Sym.create_h.2 Sym.create_h.1)
    as (_ & _ & _ & Hsome).
  - vm_compute. reflexivity.
  - destruct (Hsome _ eq_refl) as (_ & Hproc & Hvalue).
    split; [exact Hproc | exact Hvalue].
Defined.

(** After the dummy [d] is created, a second dummy [d] is refused and the
    creation of the procedure of link name [d] returns the dummy. *)
Lemma create_dummy_procedure_reserves_link_name_witness :
  CreateDummy.lb_create_dummy_procedure Runs.no_attributes Runs.no_attributes "d" 12
    Runs.dummy_d.2 = None
  ∧ ∃ m'', Create.lb_create_procedure Runs.entity_d false Runs.dummy_d.2
           = Some (Some Runs.dummy_d.1, m'')
           ∧ Create.added_functions m'' = ["d"].
Proof.
  destruct (create_dummy_procedure_reserves_link_name
              Runs.no_attributes Runs.no_attributes "d" 12 Sym.empty_module)
    as [_ Hcreated].
  destruct (Hcreated Runs.dummy_d.1 Runs.dummy_d.2)
    as (_ & _ & _ & _ & _ & _ & _ & _ & Hagain & Hentity).
  - vm_compute. reflexivity.
  - split; [apply Hagain|].
    apply (Hentity Runs.entity_d false); [reflexivity|reflexivity|right; reflexivity|reflexivity].
Defined.

(** The first creation of [h] in the empty module: the descriptor of the
    entity 310 with the body of its literal, and one native callable. *)
Lemma create_procedure_registers_new_descriptor_witness :
  ∃ p, Sym.create_h.1 = Some p
       ∧ Create.p_entity p = 310%N ∧ Create.p_name p = "h" ∧ Create.p_body p = 311%N
       ∧ Create.added_functions Sym.create_h.2 = ["h"]
       ∧ Create.procedures Sym.create_h.2 !! "h" = Some p.
Proof.
  eexists. split; [reflexivity|].
  destruct (create_procedure_registers_new_descriptor
              Sym.entity_h false Sym.empty_module Sym.create_h.2
              {| Create.p_module := 1; Create.p_entity := 310; Create.p_name := "h";
                 Create.p_type := 12; Create.p_body := 311;
                 Create.p_is_foreign := false; Create.p_value := 2 |})
    as (_ & _ & Hadded & _ & Hproc & _).
  - reflexivity.
  - vm_compute. reflexivity.
  - split; [reflexivity|]. split; [reflexivity|]. split; [reflexivity|].
    split; [exact Hadded | exact Hproc].
Defined.

(** The parameter [_], classified Direct, is bound to nothing. *)
Lemma unnamed_parameter_binds_nothing_unless_ignored_witness :
  Body.bind_parameter (Sym.ft_plain [Sym.direct 1]) true 0 0 Runs.param_blank Sym.p0
  = Some (tt, Sym.p0).
Proof.
  destruct (unnamed_parameter_binds_nothing_unless_ignored
              (Sym.ft_plain [Sym.direct 1]) true 0 0 Runs.param_blank (Sym.direct 1) Sym.p0)
    as [Hskip _].
  - lia.
  - reflexivity.
  - apply Hskip; [discriminate | right; reflexivity].
Defined.

(** The call [f()] of [f :: proc(x: int)] is refused. *)
Lemma emit_call_checks_callee_and_argument_count_witness :
  Call.lb_emit_call Sym.callee_deferred [] Core.ProcInlining_none Sym.p0 = None.
Proof.
  destruct (emit_call_checks_callee_and_argument_count
              Sym.callee_deferred [] Core.ProcInlining_none Sym.p0)
    as [_ Hcount].
  destruct (Hcount Sym.pt_plain eq_refl) as [Hexact _].
  apply Hexact; [reflexivity | discriminate].
Defined.

(** The call [k(x)]: the companion of [k] is registered with the value of
    [x]. *)
Lemma deferred_by_value_modes_register_values_witness :
  Proc.defer_stmts Runs.attach_in
  = [{| Proc.defer_scope_index := 0;
        Proc.defer_proc := {| Core.value := 10642; Core.type := 12 |};
        Proc.defer_args := [Sym.loaded_x] |}].
Proof.
  destruct (deferred_by_value_modes_register_values
              Runs.callee_k_value [Sym.loaded_x] Core.lbValue_zero Runs.p_k)
    as [_ Hknown].
  destruct (Hknown Runs.callee_k eq_refl) as [_ Hdeferred].
  destruct (Hdeferred Runs.attach_in eq_refl)
    as (deferred & b & Hfind & _ & Hin & _).
  - vm_compute. reflexivity.
  - injection Hfind as <- <-. rewrite (Hin eq_refl). reflexivity.
Defined.

(** The native call of [k(7)]: the argument 7, then the context pointer
    cast to [rawptr]. *)
Lemma emit_call_internal_orders_native_arguments_witness :
  ∃ cp b b' b2 b3,
    Proc.LLVMBuildPointerCast 8000%N 2%N b = Some (cp, b')
    ∧ Proc.LLVMBuildCall2 12%N 46%N [Core.value Sym.constant_7; cp] b2
      = Some (Core.value Runs.native_call_k.1, b3).
Proof.
  destruct (emit_call_internal_orders_native_arguments
              Runs.callee_k_value Core.lbValue_zero [Sym.constant_7] 0%N
              Runs.context_8000 Core.ProcInlining_none Runs.p_k
              Runs.native_call_k.2 Runs.native_call_k.1)
    as (natives & context & fnp & fn & checked & b1 & b2 & b3
        & Hlen & Hown & Hcontext & Hcheck & Hcall & _).
  - vm_compute. reflexivity.
  - cbn in Hcontext. destruct Hcontext as (cp & b & b' & Hcast & ->).
    destruct natives as [|n [|]]; try discriminate Hlen.
    pose proof (Hown 0%nat Sym.constant_7 eq_refl eq_refl) as Hn.
    injection Hn as ->. injection Hcheck as <- <- <- <-.
    exists cp, b, b', b1, b3. split; [exact Hcast | exact Hcall].
Defined.

(** The call [k(5)] has one argument for the one parameter of [k]. *)
Lemma call_arguments_one_per_parameter_witness :
  length Runs.arguments_of_call_k_5.1 = 1%nat.
Proof.
  destruct (call_arguments_one_per_parameter
              Sym.pt_plain Runs.call_k_5 None 61 Runs.arguments_of_call_k_5.1
              Runs.p_k Runs.arguments_of_call_k_5.2)
    as (_ & Hlen & _).
  - reflexivity.
  - vm_compute. reflexivity.
  - change (Core.param_count Sym.pt_plain) with 1 in Hlen. lia.
Defined.

(** The call [k()]: the parameter [x] gets the value
    [lb_handle_param_value] computes for it. *)
Lemma omitted_parameter_gets_its_default_witness :
  ∃ v q q',
    Runs.arguments_of_call_k_none.1 !! 0%nat = Some v
    ∧ Proc.lb_handle_param_value Sym.param_x 62 q = Some (v, q').
Proof.
  destruct (omitted_parameter_gets_its_default
              Sym.pt_plain Runs.call_k_none None 62 0 Sym.param_x []
              Runs.arguments_of_call_k_none.1 Runs.p_k Runs.p_k
              Runs.arguments_of_call_k_none.2)
    as (v & Hv & Hdefault).
  - reflexivity.
  - reflexivity.
  - reflexivity.
  - discriminate.
  - reflexivity.
  - cbn. lia.
  - constructor.
  - vm_compute. reflexivity.
  - cbn in Hdefault. destruct Hdefault as (q & q' & Hq).
    exists v, q, q'. split; [exact Hv | exact Hq].
Defined.
(** Two lanes selected by the conditions 0 and 2. *)
Lemma simd_select_takes_x_where_cond_is_not_zero_witness :
  ∃ rs,
    Lanes.eval [IR.ints 8 [0; 2]; IR.ints 8 [10; 11]; IR.ints 8 [20; 21]]
      Lanes.simd_select
    = Some (IR.ints 8 rs)
    ∧ rs !! 0%nat = Some 20 ∧ rs !! 1%nat = Some 11.
Proof.
  destruct (simd_select_takes_x_where_cond_is_not_zero 8 8 [0; 2] [10; 11] [20; 21])
    as (rs & Hrun & _ & Hlanes); [reflexivity|reflexivity|].
  exists rs. split; [exact Hrun|]. split.
  - exact (Hlanes 0%nat 0 10 20 eq_refl eq_refl eq_refl).
  - exact (Hlanes 1%nat 2 11 21 eq_refl eq_refl eq_refl).
Defined.

(** Two lanes of [i8]: 7 and -7 divided by 2 give 3 and -3, with the
    remainders 1 and -1. *)
Lemma simd_arith_wraps_and_divides_towards_zero_witness :
  ∃ qs rs,
    Lanes.simd_arith Lanes.BuiltinProc_simd_div false true
      ≫= Lanes.eval [IR.ints 8 [7; 249]; IR.ints 8 [2; 2]] = Some (IR.ints 8 qs)
    ∧ Lanes.simd_arith Lanes.BuiltinProc_simd_rem false true
        ≫= Lanes.eval [IR.ints 8 [7; 249]; IR.ints 8 [2; 2]] = Some (IR.ints 8 rs)
    ∧ ∃ q r, qs !! 1%nat = Some q ∧ rs !! 1%nat = Some r
             ∧ IR.signed 8 q = -3 ∧ IR.signed 8 r = -1.
Proof.
  destruct (simd_arith_wraps_and_divides_towards_zero true 8 [7; 249] [2; 2])
    as (_ & _ & _ & Hdiv & _).
  - lia.
  - reflexivity.
  - repeat constructor; lia.
  - repeat constructor; lia.
  - destruct Hdiv as (qs & rs & Hq & Hr & Hlanes).
    + repeat constructor; try lia; vm_compute; intros (_ & _ & [=]).
    + exists qs, rs. split; [exact Hq|]. split; [exact Hr|].
      destruct (Hlanes 1%nat 249 2 eq_refl eq_refl) as (q & r & Hqi & Hri & _ & _ & Hqv & Hrv).
      exists q, r. split; [exact Hqi|]. split; [exact Hri|].
      split; [exact Hqv | exact Hrv].
Defined.

(** Three lanes of [u8]: 1, 128 and 255 have the lowest bits 1, 0, 1 and
    the highest bits 0, 1, 1. *)
Lemma simd_extract_bits_packs_one_bit_per_lane_witness :
  ∃ lsbs msbs,
    Lanes.eval [IR.ints 8 [1; 128; 255]]
      (Lanes.simd_extract_bits Lanes.BuiltinProc_simd_extract_lsbs 8 3 8)
    = Some (IR.Sc (IR.Int 8 lsbs))
    ∧ Lanes.eval [IR.ints 8 [1; 128; 255]]
        (Lanes.simd_extract_bits Lanes.BuiltinProc_simd_extract_msbs 8 3 8)
      = Some (IR.Sc (IR.Int 8 msbs))
    ∧ 0 ≤ lsbs < 2 ^ 3 ∧ 0 ≤ msbs < 2 ^ 3
    ∧ ∀ i x, [1; 128; 255] !! i = Some x →
        Z.testbit lsbs (Z.of_nat i) = Z.testbit x 0
        ∧ Z.testbit msbs (Z.of_nat i) = Z.testbit x (8 - 1).
Proof.
  apply (simd_extract_bits_packs_one_bit_per_lane 8 8 [1; 128; 255]).
  - lia.
  - discriminate.
  - cbn. lia.
  - repeat constructor; lia.
Defined.

(** The call [two_results(7)] leaves the values of the entities and the
    deferred statements of the caller as they were. *)
Lemma emit_call_keeps_bindings_and_earlier_defers_witness :
  Proc.values Sym.call_two_results.2 = Proc.values Sym.p0
  ∧ Proc.return_ptr Sym.call_two_results.2 = Proc.return_ptr Sym.p0
  ∧ ∃ ds, Proc.defer_stmts Sym.call_two_results.2 = Proc.defer_stmts Sym.p0 ++ ds
          ∧ (length ds ≤ 1)%nat.
Proof.
  destruct (emit_call_keeps_bindings_and_earlier_defers
              Sym.callee_two_results [Sym.constant_7] Core.ProcInlining_none
              Sym.p0 Sym.call_two_results.2 Sym.call_two_results.1)
    as (Hvalues & _ & Hret & _ & _ & Hdefers & _).
  - vm_compute. reflexivity.
  - split; [exact Hvalues|]. split; [exact Hret | exact Hdefers].
Defined.

(** The marshalling of [k(7)]: one classification used, one processed
    argument, none ignored. *)
Lemma marshalling_gives_one_argument_per_classified_parameter_witness :
  Call.param_index Runs.marshal_k_7.1 = 1
  ∧ Z.of_nat (length (Call.processed_args Runs.marshal_k_7.1))
    + Call.ignored_args Runs.marshal_k_7.1 = 1.
Proof.
  destruct (marshalling_gives_one_argument_per_classified_parameter
              Sym.pt_plain (Sym.ft_plain [Sym.direct 1]) true [Sym.constant_7]
              Runs.marshal_k_7.1 Runs.p_k Runs.marshal_k_7.2)
    as (Hindex & Hcount & _).
  - vm_compute. reflexivity.
  - split; [exact Hindex | exact Hcount].
Defined.

(** The entry of the body of a procedure that returns its result tuple
    through a pointer: the return pointer is native parameter 0, a pointer
    to the tuple. *)
Lemma begin_body_takes_return_ptr_from_parameter_0_witness :
  Proc.return_ptr Runs.entered
  = Core.lb_addr {| Core.value := Proc.LLVMGetParam (Proc.p_value Runs.p_entry) 0;
                    Core.type := Proc.alloc_type_pointer 20%N |}
  ∧ Proc.defer_stmts Runs.entered = [].
Proof.
  destruct (begin_body_takes_return_ptr_from_parameter_0 Runs.p_entry Runs.entered)
    as (Hdefers & _ & _ & _ & _ & Hindirect).
  - repeat constructor.
  - vm_compute. reflexivity.
  - split; [|exact Hdefers].
    destruct (Hindirect eq_refl) as (t & Hptr & Ht). cbn in Ht. rewrite Ht in Hptr.
    exact Hptr.
Defined.
